(** * Dispatch Hub: closest-technician resolution engine

    A shallow embedding of the Canada W2 dispatch page script
    ([normalizePostal], [latLonForPostal], [haversineKm],
    [effectiveDriveFactor], [etaFromKm], [findClosest]) and of the two
    ORS matrix gateways (the Supabase edge route [/canada/ors_matrix] and
    the Netlify function [handler]).

    Conventions of the embedding.
    - JavaScript strings are [string]s of 8-bit characters; [toUpperCase]
      acts on [a]..[z].  An absent field ([null], [undefined]) is the
      empty string: every use site reads the field through [x || ''] or
      [x ? f(x) : ''], which treat the two alike.
    - JavaScript numbers are real numbers ([R]) where the code only ever
      sees finite values, and [num] (a real, an infinity or NaN) where the
      code tests [isFinite].  Coordinates and distances are computed in the
      reals.  Where the code rounds to an integer, prints a number or can
      overflow ([effectiveDriveFactor], [etaFromKm], the rounding of the
      edge route to two and one decimals) every operation is rounded to
      binary64, to nearest with ties to even ([Double.round]).
    - Objects used as dictionaries are [gmap]s keyed by strings.  The keys
      read from the tables of the page are upper-case; [penaltyOf], which
      [effectiveDriveFactor] exposes to any key, also answers the names
      that an object literal inherits from [Object.prototype].
    - What [findClosest] writes to the page is gathered in an [Outcome];
      the network is a function from the request to what [fetch] does. *)

From Stdlib Require Import Reals Lra Lia ZArith Ascii String List DecimalString.
From Stdlib Require Import Sorting.Sorted Permutation Epsilon Classical_Prop.
From stdpp Require Import gmap strings list.

Local Open Scope string_scope.

(** ** Strings *)

Module Str.

Definition code (c : ascii) : nat := nat_of_ascii c.

Definition between (lo hi : nat) (c : ascii) : bool :=
  Nat.leb lo (code c) && Nat.leb (code c) hi.

Definition isUpper : ascii -> bool := between 65 90.
Definition isLower : ascii -> bool := between 97 122.
Definition isDigit : ascii -> bool := between 48 57.

(** [\w] of a regular expression: letters, digits and underscore. *)
Definition isWord (c : ascii) : bool :=
  isUpper c || isLower c || isDigit c || Nat.eqb (code c) 95.

(** White space as [trim] and [\s] see it (tab, LF, VT, FF, CR, space,
    no-break space). *)
Definition isSpace (c : ascii) : bool :=
  between 9 13 c || Nat.eqb (code c) 32 || Nat.eqb (code c) 160.

Definition upperChar (c : ascii) : ascii :=
  if isLower c then ascii_of_nat (code c - 32) else c.

Fixpoint toUpperCase (s : string) : string :=
  match s with
  | EmptyString => EmptyString
  | String c s' => String (upperChar c) (toUpperCase s')
  end.

Fixpoint trimStart (s : string) : string :=
  match s with
  | EmptyString => EmptyString
  | String c s' => if isSpace c then trimStart s' else s
  end.

(** [trimEnd] keeps a character when it is not white space or when
    something survives after it. *)
Fixpoint trimEnd (s : string) : string :=
  match s with
  | EmptyString => EmptyString
  | String c s' =>
      match trimEnd s' with
      | EmptyString => if isSpace c then EmptyString else String c EmptyString
      | t => String c t
      end
  end.

Definition trim (s : string) : string := trimEnd (trimStart s).

(** [s.replace(/[^...]/g, '')]: keep the characters of the class. *)
Fixpoint keep (p : ascii -> bool) (s : string) : string :=
  match s with
  | EmptyString => EmptyString
  | String c s' => if p c then String c (keep p s') else keep p s'
  end.

(** [s.slice(0, n)] and [s.slice(n)]. *)
Fixpoint sliceTo (n : nat) (s : string) : string :=
  match n, s with
  | S n', String c s' => String c (sliceTo n' s')
  | _, _ => EmptyString
  end.

Fixpoint sliceFrom (n : nat) (s : string) : string :=
  match n, s with
  | S n', String _ s' => sliceFrom n' s'
  | _, _ => s
  end.

(** JavaScript truthiness of a string. *)
Definition truthy (s : string) : bool :=
  match s with EmptyString => false | _ => true end.

End Str.

(** ** Postal normalizer *)

Definition isAZ09 (c : ascii) : bool := Str.isUpper c || Str.isDigit c.

(** [/^[A-Z]\d[A-Z]\d[A-Z]\d$/.test(s)] *)
Definition testA1A1A1 (s : string) : bool :=
  match s with
  | String a (String b (String c (String d (String e (String f EmptyString))))) =>
      Str.isUpper a && Str.isDigit b && Str.isUpper c &&
      Str.isDigit d && Str.isUpper e && Str.isDigit f
  | _ => false
  end.

Definition normalizePostal (s : string) : string :=
  let s := Str.trim (Str.toUpperCase s) in
  let s := Str.keep isAZ09 s in
  let s := if Nat.leb 6 (String.length s) then Str.sliceTo 6 s else s in
  if negb (Nat.eqb (String.length s) 6) then ""
  else if negb (testA1A1A1 s) then ""
  else s.

Definition formatPostal (p6 : string) : string :=
  let p := normalizePostal p6 in
  if negb (Str.truthy p) then ""
  else Str.sliceTo 3 p ++ " " ++ Str.sliceFrom 3 p.



(** *** Free-text extraction

    [CA_POSTAL_RE] is
    [/\b([ABCEGHJ-NPRSTVXY]\d[ABCEGHJ-NPRSTVXY])\s*([0-9][ABCEGHJ-NPRSTVXY][0-9])\b/i].
    White space and digits are disjoint, so the greedy [\s*] never has to
    give characters back and a match at a position is unique. *)

Definition isPostalLetter (c : ascii) : bool :=
  let n := Str.code (Str.upperChar c) in
  Str.isUpper (Str.upperChar c) &&
  negb (existsb (Nat.eqb n) (68 :: 70 :: 73 :: 79 :: 81 :: 85 :: 87 :: 90 :: nil)).

(** [\b] after the last digit: end of input or a non-word character. *)
Definition wordEnds (rest : string) : bool :=
  match rest with
  | EmptyString => true
  | String c _ => negb (Str.isWord c)
  end.

Definition matchPostalHere (s : string) : option string :=
  match s with
  | String a (String b (String c rest)) =>
      if isPostalLetter a && Str.isDigit b && isPostalLetter c then
        match Str.trimStart rest with
        | String d (String e (String f rest')) =>
            if Str.isDigit d && isPostalLetter e && Str.isDigit f && wordEnds rest'
            then Some (String a (String b (String c (String d (String e (String f EmptyString))))))
            else None
        | _ => None
        end
      else None
  | _ => None
  end.

(** Leftmost match; [prevWord] tells whether the character before the
    current position is a word character (so that [\b] fails there). *)
Fixpoint matchPostal (prevWord : bool) (s : string) : option string :=
  match s with
  | EmptyString => None
  | String c s' =>
      match (if prevWord then None else matchPostalHere s) with
      | Some m => Some m
      | None => matchPostal (Str.isWord c) s'
      end
  end.

Definition extractPostalFromText (text : string) : string :=
  match matchPostal false text with
  | None => ""
  | Some m => normalizePostal m
  end.

(** ** Data model *)

(** A roster entry of [window.CA_W2_TECHS]. *)
Record Tech := mkTech {
  tech_id : string;
  name : string;
  city : string;
  province : string;
  postal : string
}.

(** An entry of the coordinate tables. *)
Record Coord := mkCoord { lat : R; lon : R }.

(** The [prec] tag of a resolved location: ['postal'] (override table),
    ['city'] (city centroid) or ['prov'] (province centroid). *)
Inductive Prec := PrecPostal | PrecCity | PrecProv.

#[global] Instance Prec_eq_dec : EqDecision Prec.
Proof. solve_decision. Defined.

(** What [latLonForPostal] returns when it resolves. *)
Record LatLon := mkLatLon {
  ll_lat : R;
  ll_lon : R;
  ll_prec : Prec;
  ll_prov : string;
  ll_city : string
}.

(** ** Geolocation resolver *)

Local Open Scope R_scope.

Definition provFromFirstLetter (ch : string) : string :=
  let c := Str.toUpperCase ch in
  if String.eqb c "A" then "NL"
  else if String.eqb c "B" then "NS"
  else if String.eqb c "C" then "PE"
  else if String.eqb c "E" then "NB"
  else if String.eqb c "G" || String.eqb c "H" || String.eqb c "J" then "QC"
  else if String.eqb c "K" || String.eqb c "L" || String.eqb c "M"
          || String.eqb c "N" || String.eqb c "P" then "ON"
  else if String.eqb c "R" then "MB"
  else if String.eqb c "S" then "SK"
  else if String.eqb c "T" then "AB"
  else if String.eqb c "V" then "BC"
  else if String.eqb c "X" then "NT"
  else if String.eqb c "Y" then "YT"
  else "".

Definition PROV_PENALTY : gmap string R :=
  list_to_map
    [ ("QC", 5.40); ("ON", 6.00); ("BC", 8.00); ("AB", 7.00); ("MB", 6.50);
      ("SK", 6.50); ("NB", 5.80); ("NS", 5.80); ("PE", 5.80); ("NL", 6.20);
      ("YT", 8.50); ("NT", 9.00); ("NU", 9.50) ].

(** The names that an object literal such as [PROV_PENALTY] inherits from
    [Object.prototype]; read through [PROV_PENALTY[prov]] they give a
    function or an object, not [undefined]. *)
Definition inheritedNames : list string :=
  [ "constructor"; "hasOwnProperty"; "isPrototypeOf"; "propertyIsEnumerable";
    "toLocaleString"; "toString"; "valueOf"; "__proto__";
    "__defineGetter__"; "__defineSetter__"; "__lookupGetter__";
    "__lookupSetter__" ].

Definition PROV_CENTER : gmap string Coord :=
  list_to_map
    [ ("NL", mkCoord 47.5615 (-52.7126));
      ("NS", mkCoord 44.6488 (-63.5752));
      ("PE", mkCoord 46.2382 (-63.1311));
      ("NB", mkCoord 45.9636 (-66.6431));
      ("QC", mkCoord 45.5017 (-73.5673));
      ("ON", mkCoord 43.6532 (-79.3832));
      ("MB", mkCoord 49.8951 (-97.1384));
      ("SK", mkCoord 50.4452 (-104.6189));
      ("AB", mkCoord 53.5461 (-113.4938));
      ("BC", mkCoord 49.2827 (-123.1207));
      ("NT", mkCoord 62.4540 (-114.3718));
      ("NU", mkCoord 63.7467 (-68.5167));
      ("YT", mkCoord 60.7212 (-135.0568)) ].

Definition CITY_COORD : gmap string Coord :=
  list_to_map
    [ ("FREDERICKTON|NB", mkCoord 45.9636 (-66.6431));
      ("FREDERICTON|NB", mkCoord 45.9636 (-66.6431));
      ("WINNIPEG|MB", mkCoord 49.8951 (-97.1384));
      ("CALGARY|AB", mkCoord 51.0447 (-114.0719));
      ("LAVAL|QC", mkCoord 45.6066 (-73.7124));
      ("THORNHILL|ON", mkCoord 43.8106 (-79.4263));
      ("EDMONTON|AB", mkCoord 53.5461 (-113.4938));
      ("RICHMOND (VANCOUVER)|BC", mkCoord 49.1666 (-123.1336));
      ("RICHMOND|BC", mkCoord 49.1666 (-123.1336));
      ("SCARBOROUGH|ON", mkCoord 43.7764 (-79.2318)) ].

(** The first character of a string, as [p[0]] ([undefined] reads as
    the empty string under [String(ch||'')]). *)
Definition charAt0 (p : string) : string := Str.sliceTo 1 p.

Section Resolver.

(** [window.CA_W2_TECHS] and [window.CA_POSTAL_PROV]; the latter is the
    empty object when the page did not load a mapping. *)
Variable TECHS : list Tech.
Variable POSTAL_PROV : gmap string string.

(** The loop that fills [POSTAL_OVERRIDE]: a later technician with the
    same postal code overwrites an earlier one. *)
Definition overrideStep (m : gmap string Coord) (t : Tech) : gmap string Coord :=
  let p := normalizePostal (postal t) in
  if negb (Str.truthy p) then m
  else
    let key := (Str.trim (Str.toUpperCase (city t)) ++ "|"
                ++ Str.trim (Str.toUpperCase (province t)))%string in
    match CITY_COORD !! key with
    | Some cc => <[p := cc]> m
    | None => m
    end.

Definition POSTAL_OVERRIDE : gmap string Coord := foldl overrideStep ∅ TECHS.

Definition provForPostal (p6 : string) : string :=
  let p := normalizePostal p6 in
  if negb (Str.truthy p) then ""
  else
    match POSTAL_PROV !! p with
    | Some prov =>
        if Str.truthy prov then Str.toUpperCase prov
        else provFromFirstLetter (charAt0 p)
    | None => provFromFirstLetter (charAt0 p)
    end.

(** The locals [prov] and [city] of [latLonForPostal]: a hint, when one is
    given, is used in upper case and trimmed; without a province hint the
    province is derived from the postal code. *)
Definition provOf (p provHint : string) : string :=
  if Str.truthy provHint then Str.trim (Str.toUpperCase provHint) else provForPostal p.

Definition cityOf (cityHint : string) : string :=
  if Str.truthy cityHint then Str.trim (Str.toUpperCase cityHint) else "".

Definition latLonForPostal (p6 cityHint provHint : string) : option LatLon :=
  let p := normalizePostal p6 in
  if negb (Str.truthy p) then None
  else
    let prov := provOf p provHint in
    let city := cityOf cityHint in
    match POSTAL_OVERRIDE !! p with
    | Some c => Some (mkLatLon (lat c) (lon c) PrecPostal prov city)
    | None =>
        match (if Str.truthy city && Str.truthy prov
               then CITY_COORD !! (city ++ "|" ++ prov)%string
               else None) with
        | Some c => Some (mkLatLon (lat c) (lon c) PrecCity prov city)
        | None =>
            match (if Str.truthy prov then PROV_CENTER !! prov else None) with
            | Some c => Some (mkLatLon (lat c) (lon c) PrecProv prov "")
            | None => None
            end
        end
    end.

End Resolver.

(** ** Distance estimator *)

Definition toRad (x : R) : R := x * PI / 180.

Definition haversineKm (a b : LatLon) : R :=
  let R_earth := 6371 in
  let dLat := toRad (ll_lat b - ll_lat a) in
  let dLon := toRad (ll_lon b - ll_lon a) in
  let lat1 := toRad (ll_lat a) in
  let lat2 := toRad (ll_lat b) in
  let s := (sin (dLat / 2)) ^ 2 + cos lat1 * cos lat2 * (sin (dLon / 2)) ^ 2 in
  let c := 2 * asin (Rmin 1 (sqrt s)) in
  R_earth * c.

(** A JavaScript number that may fail the [isFinite] test. *)
Inductive num := Fin (r : R) | PInf | NInf | NaN.

Definition isFinite (x : num) : bool :=
  match x with Fin _ => true | _ => false end.

(** ** Binary64 arithmetic

    A finite double is an integer significand below [2^53] in magnitude,
    scaled by a power of two between [2^-1074] and [2^971].  An operation
    of the code on doubles is the operation on the reals followed by
    [round]: the nearest double, and of two nearest ones the one whose
    significand, in normal form, is even.  Beyond the largest double by half
    a step or more the result is an infinity. *)

Module Double.

Definition representable (d : R) : Prop :=
  exists m e : Z,
    (Z.abs m < 2 ^ 53)%Z /\ (-1074 <= e <= 971)%Z /\ d = IZR m * powerRZ 2 e.

Definition evenEnded (d : R) : Prop :=
  exists m e : Z,
    (Z.abs m < 2 ^ 53)%Z /\ (-1074 <= e <= 971)%Z /\ d = IZR m * powerRZ 2 e /\
    (e = (-1074)%Z \/ (2 ^ 52 <= Z.abs m)%Z) /\ Z.even m = true.

Definition nearest (x d : R) : Prop :=
  representable d /\
  forall d', representable d' -> Rabs (x - d) <= Rabs (x - d').

Definition roundsTo (x d : R) : Prop :=
  nearest x d /\
  (evenEnded d \/ ~ exists d', nearest x d' /\ evenEnded d').

Definition round (x : R) : R := epsilon (inhabits 0) (roundsTo x).

(** [2^1024 - 2^970], half a step above the largest double. *)
Definition overflowAt : R := IZR (2 ^ 54 - 1) * powerRZ 2 970.

(** The double, or infinity, that an operation with exact result [x]
    returns. *)
Definition fl (x : R) : num :=
  if Rle_dec overflowAt x then PInf
  else if Rle_dec x (- overflowAt) then NInf
  else Fin (round x).

(** A decimal literal of the source. *)
Definition lit (x : R) : R := round x.

End Double.

(** The sign of a real, for products with an infinity. *)
Definition sgn (r : R) : comparison :=
  match total_order_T r 0 with
  | inleft (left _) => Lt
  | inleft (right _) => Eq
  | inright _ => Gt
  end.

Definition inf_of (s : comparison) : num :=
  match s with Lt => NInf | Eq => NaN | Gt => PInf end.

Definition flip (s : comparison) : comparison :=
  match s with Lt => Gt | Eq => Eq | Gt => Lt end.

(** [x * y] *)
Definition mul (x y : num) : num :=
  match x, y with
  | NaN, _ | _, NaN => NaN
  | Fin a, Fin b => Double.fl (a * b)
  | Fin a, PInf | PInf, Fin a => inf_of (sgn a)
  | Fin a, NInf | NInf, Fin a => inf_of (flip (sgn a))
  | PInf, PInf | NInf, NInf => PInf
  | PInf, NInf | NInf, PInf => NInf
  end.

(** [clamp(x, lo, hi)]: [lo] for a non-finite [x], otherwise
    [Math.max(lo, Math.min(hi, x))]. *)
Definition clamp (x : num) (lo hi : R) : R :=
  match x with
  | Fin r => Rmax lo (Rmin hi r)
  | _ => lo
  end.

(** [effectiveDriveFactor(base, ticketLL, techLL)]; a missing location
    ([null]) is [None]. *)
(** [PROV_PENALTY[prov] || 6.0] as a factor of a product: the double of
    the table for a region of the table, [NaN] for an inherited name (a
    function or an object under [*=]), and [6.0] for any other key. *)
Definition penaltyOf (prov : string) : num :=
  match PROV_PENALTY !! prov with
  | Some p => Fin (Double.lit p)
  | None => if decide (prov ∈ inheritedNames) then NaN else Fin 6.0
  end.

Definition effectiveDriveFactor (base : num) (ticketLL techLL : option LatLon) : R :=
  let m := base in
  let m :=
    match ticketLL with
    | Some t =>
        if decide (ll_prec t = PrecProv)
        then mul m (penaltyOf (ll_prov t))
        else m
    | None => m
    end in
  let m :=
    match techLL with
    | Some k =>
        if decide (ll_prec k = PrecProv) then mul m (Fin (Double.lit 1.8)) else m
    | None => m
    end in
  clamp m 1 12.

(** [Math.floor] and [Math.round] (ties go up) on a finite number. *)
Definition Math_floor (x : R) : Z := Int_part x.
Definition Math_round (x : R) : Z := Int_part (x + / 2).

(** [Math.min(a, x)] and [Math.max(a, x)] for a finite literal [a]. *)
Definition Math_min (a : R) (x : num) : num :=
  match x with
  | Fin r => Fin (Rmin a r)
  | PInf => Fin a
  | NInf => NInf
  | NaN => NaN
  end.

Definition Math_max (a : R) (x : num) : num :=
  match x with
  | Fin r => Fin (Rmax a r)
  | PInf => PInf
  | NInf => Fin a
  | NaN => NaN
  end.

(** [x || d] on numbers: [NaN] and zero are falsy. *)
Definition orElse (x : num) (d : R) : num :=
  match x with
  | NaN => Fin d
  | Fin r => if Req_dec_T r 0 then Fin d else x
  | _ => x
  end.

(** The decimal digits of an integer. *)
Definition showInt (z : Z) : string := NilZero.string_of_int (Z.to_int z).

(** [Number::toString] on an integer-valued double [x]: with [s] the
    shortest string of [k] digits that, scaled to [n] integer digits,
    reads back as [x] (the closest to [x] if there are several, the even
    one of two), the digits of [s] followed by [n - k] zeros when
    [n <= 21], and the exponent form [d.ddde+(n-1)] beyond.  Below [2^53]
    every integer is a double and these are its decimal digits. *)
Definition digitsOf (x : R) (t : Z * Z * Z) : Prop :=
  let '(s, k, n) := t in
  (1 <= k)%Z /\ (10 ^ (k - 1) <= s < 10 ^ k)%Z /\
  Double.round (IZR s * powerRZ 10 (n - k)) = x.

Definition shortestDigits (x : R) (t : Z * Z * Z) : Prop :=
  digitsOf x t /\
  forall t', digitsOf x t' ->
    let '(s, k, n) := t in
    let '(s', k', n') := t' in
    let off := Rabs (IZR s * powerRZ 10 (n - k) - x) in
    let off' := Rabs (IZR s' * powerRZ 10 (n' - k') - x) in
    (k <= k')%Z /\
    (k' = k -> off < off' \/ (off = off' /\ (s' = s \/ Z.even s = true))).

Definition numberDigits (x : R) : Z * Z * Z :=
  epsilon (inhabits (0, 1, 1)%Z) (shortestDigits x).

Fixpoint zeros (n : nat) : string :=
  match n with
  | O => EmptyString
  | S n' => String "0" (zeros n')
  end.

Definition showLarge (x : Z) : string :=
  let '(s, k, n) := numberDigits (IZR x) in
  if (n <=? 21)%Z then (showInt s ++ zeros (Z.to_nat (n - k)))%string
  else
    (match showInt s with
     | String c rest => String c (if (k =? 1)%Z then EmptyString else "." ++ rest)
     | EmptyString => EmptyString
     end ++ "e+" ++ showInt (n - 1))%string.

(** An integer-valued number in a template literal. *)
Definition showNumber (z : Z) : string :=
  if (Z.abs z <? 2 ^ 53)%Z then showInt z
  else if (z <? 0)%Z then ("-" ++ showLarge (- z))%string
  else showLarge z.

Definition dash : string := "—".

(** [etaFromKm(km, speed)].  The quotient is rounded to a double and may
    overflow; [hours - h] and its product with 60 are rounded again before
    [Math.round] takes the nearest integer.  From an infinite quotient
    [hours - h] is [NaN]. *)
Definition etaFromKm (km speed : num) : string :=
  match km, speed with
  | Fin k, Fin v =>
      if Rle_dec v 0 then dash
      else
        match Double.fl (k / v) with
        | Fin hours =>
            let h := Math_floor hours in
            let m := Math_round (Double.round (Double.round (hours - IZR h) * 60)) in
            if (h <=? 0)%Z then (showNumber m ++ " min")%string
            else (showNumber h ++ "h " ++ showNumber m ++ "m")%string
        | PInf => "Infinityh NaNm"
        | NInf => "NaN min"
        | NaN => "NaNh NaNm"
        end
  | _, _ => dash
  end.

(** [etaFromMinutes(min)] on a [driveMin] field, which holds a finite
    number or [null]; [isFinite(null)] is true and [Number(null)] is 0. *)
Definition etaFromMinutes (min : option R) : string :=
  let total := Z.max 0 (Math_round (default 0 min)) in
  let h := (total / 60)%Z in
  let m := (total mod 60)%Z in
  if (h <=? 0)%Z then (showInt total ++ " min")%string
  else (showInt h ++ "h " ++ showInt m ++ "m")%string.

(** ** Ranking engine *)

(** An element of [scored]. *)
Record Row := mkRow {
  tech : Tech;
  km : R;
  miles : R;
  ll : LatLon;
  driveKm : option R;
  driveMiles : option R;
  driveMin : option R
}.

(** [Array.prototype.sort] with a comparator: the sort is stable, and for a
    comparator that is a total preorder its result is the stable sorted
    permutation, which insertion from the right computes. *)
Fixpoint insertBy {A} (cmp : A -> A -> R) (x : A) (l : list A) : list A :=
  match l with
  | [] => [x]
  | y :: l' => if Rle_dec (cmp x y) 0 then x :: l else y :: insertBy cmp x l'
  end.

Definition sortBy {A} (cmp : A -> A -> R) (l : list A) : list A :=
  foldr (insertBy cmp) [] l.

(** [(a,b) => a.km - b.km] *)
Definition cmpKm (a b : Row) : R := km a - km b.

(** The comparator of the driving re-rank; [1e12] stands in for [null]. *)
Definition orBig (x : option R) : R := default 1e12 x.

Definition cmpDrive (a b : Row) : R :=
  let am := orBig (driveMin a) in
  let bm := orBig (driveMin b) in
  if Req_dec_T am bm then orBig (driveKm a) - orBig (driveKm b) else am - bm.

(** The orders that the two comparators induce: [a] may stand before [b]. *)
Definition kmLe (a b : Row) : Prop := km a <= km b.

Definition driveLe (a b : Row) : Prop :=
  orBig (driveMin a) < orBig (driveMin b) \/
  (orBig (driveMin a) = orBig (driveMin b) /\ orBig (driveKm a) <= orBig (driveKm b)).

(** A value found in the gateway's JSON arrays: a number, or anything else
    ([null], a missing index, a string). *)
Inductive JVal := JNum (x : num) | JOther.

(** [(typeof v === 'number' && isFinite(v)) ? v : null] at index [i]. *)
Definition finiteAt (a : list JVal) (i : nat) : option R :=
  match a !! i with
  | Some (JNum (Fin r)) => Some r
  | _ => None
  end.

(** The parsed body of the gateway's reply. *)
Record OrsJson := mkOrsJson {
  j_ok : bool;
  j_distances_km : list JVal;
  j_durations_min : list JVal
}.

(** What [fetch] does for [postJson]: it rejects, or it resolves to a
    response with its [ok] flag and its body ([None] when the body is empty,
    not JSON, or the JSON [null]). *)
Inductive Fetched := FetchThrows | FetchResponse (r_ok : bool) (j : option OrsJson).

(** [postJson]: [None] is a thrown exception. *)
Definition postJson (f : Fetched) : option (option OrsJson) :=
  match f with
  | FetchThrows => None
  | FetchResponse false _ => None
  | FetchResponse true j => Some j
  end.

(** The right-hand column of a rendered shortlist entry. *)
Inductive Cell :=
| DrivingCell (eta : string) (driveMiles driveKm : option R)
| EstimateCell (miles km : R).

Record Item := mkItem { item_tech : Tech; item_right : Cell }.

Definition hasBoth (x : Row) : bool :=
  bool_decide (driveKm x <> None) && bool_decide (driveMin x <> None).

Definition renderTopList (sorted : list Row) (showDriving : bool) : list Item :=
  let top := take (Nat.min 8 (length sorted)) sorted in
  map (fun row =>
         mkItem (tech row)
           (if showDriving && hasBoth row
            then DrivingCell (etaFromMinutes (driveMin row)) (driveMiles row) (driveKm row)
            else EstimateCell (miles row) (km row)))
      top.

(** What the page shows when [findClosest] returns. *)
Inductive Outcome :=
| NoPostal            (* 'No valid Canadian postal code found.' *)
| TicketUnresolved    (* 'Unable to resolve location for ticket postal code.' *)
| NoTechLocations     (* 'No tech locations available.' *)
| FoundDriving (best : Row) (eta : string) (topList : list Item)
| FoundEstimate (best2 : Row) (effFactor driveKm driveMi : R) (eta : string)
                (topList : list Item).

Inductive Mode := ModeDriving | ModeEstimate.

(** The [Mode:] shown in [resMeta]. *)
Definition mode (o : Outcome) : option Mode :=
  match o with
  | FoundDriving _ _ _ => Some ModeDriving
  | FoundEstimate _ _ _ _ _ _ => Some ModeEstimate
  | _ => None
  end.

(** The gateway failed, as [findClosest] sees it: [postJson] threw (a
    rejected [fetch] or a response that is not [ok]), or the body is [null]
    or has no truthy [ok]. *)
Definition gatewayFailed (f : Fetched) : Prop :=
  match postJson f with
  | Some (Some j) => j_ok j = false
  | _ => True
  end.

(** The technicians that an outcome shows: the best entry and the entries
    of the shortlist. *)
Definition techsOf (o : Outcome) : list Tech :=
  match o with
  | FoundDriving best _ topList => tech best :: map item_tech topList
  | FoundEstimate best2 _ _ _ _ topList => tech best2 :: map item_tech topList
  | _ => []
  end.

(** These are read as wholes when outcomes are compared. *)
Arguments renderTopList : simpl never.
Arguments haversineKm : simpl never.
Arguments effectiveDriveFactor : simpl never.
Arguments etaFromKm : simpl never.
Arguments etaFromMinutes : simpl never.

Section Engine.

Variable TECHS : list Tech.
Variable POSTAL_PROV : gmap string string.
(** [ORS_ENDPOINT] is empty when the page has no [API_BASE]. *)
Variable ORS_ENDPOINT : string.
(** The network behind [postJson(ORS_ENDPOINT, {ticket_postal, tech_postals})]. *)
Variable fetchORS : string -> list string -> Fetched.

Definition scoreTech (ticketLL : LatLon) (t : Tech) : option Row :=
  match latLonForPostal TECHS POSTAL_PROV (postal t) (city t) (province t) with
  | None => None
  | Some l =>
      let k := haversineKm ticketLL l in
      Some (mkRow t k (k * 0.621371) l None None None)
  end.

(** The body of the [for (let i ...)] loop over [candidates]. *)
Definition annotate (j : OrsJson) (i : nat) (row : Row) : Row :=
  let dk := finiteAt (j_distances_km j) i in
  let dm := finiteAt (j_durations_min j) i in
  mkRow (tech row) (km row) (miles row) (ll row)
        dk (fmap (fun d => d * 0.621371) dk) dm.

(** [candidates.find(...) || candidates[0]] *)
Definition pickBest (candidates : list Row) : option Row :=
  match list_find (fun x => hasBoth x = true) candidates with
  | Some (_, x) => Some x
  | None => head candidates
  end.

(** The [tech_postals] field of the request. *)
Definition tech_postals (candidates : list Row) : list string :=
  map (fun x => postal (tech x)) candidates.

(** The [try] block.  [None]: an exception was thrown, which happens
    before any row is written.  Otherwise the rows of [scored] as the loop
    leaves them (the first 25 are shared with [candidates]), the re-ranked
    [candidates] and [best]. *)
Definition tryORS (p : string) (scored : list Row)
  : option (list Row * list Row * option Row) :=
  let candidates := take 25 scored in
  match postJson (fetchORS p (tech_postals candidates)) with
  | None => None
  | Some None => None
  | Some (Some j) =>
      if negb (j_ok j) then None
      else
        let written := imap (annotate j) candidates in
        let ranked := sortBy cmpDrive written in
        Some ((written ++ drop 25 scored)%list, ranked, pickBest ranked)
  end.

(** The two settings, from [parseFloat(field.value || default)]. *)
Definition baseFactorOf (driveFactorParsed : num) : num :=
  Math_max (Double.lit 0.8) (Math_min 5 (orElse driveFactorParsed 1.25)).

Definition speedOf (speedParsed : num) : num :=
  Math_max 20 (Math_min 130 (orElse speedParsed 80)).

(** The ticket's postal code: the postal field, or else the first postal
    code found in the ticket text (which the page then writes back into the
    postal field, formatted). *)
Definition ticketPostal (postalInput ticketText : string) : string :=
  let p := normalizePostal postalInput in
  if negb (Str.truthy p) then extractPostalFromText ticketText else p.

(** The loop that fills [scored], and the sort that follows it. *)
Definition scoreRoster (ticketLL : LatLon) : list Row := omap (scoreTech ticketLL) TECHS.

Definition baseline (ticketLL : LatLon) : list Row := sortBy cmpKm (scoreRoster ticketLL).

(** The fallback that ends [findClosest].  [scored] is never empty there;
    reading [scored[0]] of an empty array would throw. *)
Definition estimate (baseFactor speed : num) (ticketLL : LatLon) (scored : list Row)
  : Outcome :=
  match head scored with
  | None => NoTechLocations
  | Some best2 =>
      let effFactor := effectiveDriveFactor baseFactor (Some ticketLL) (Some (ll best2)) in
      let driveKm := km best2 * effFactor in
      let driveMi := miles best2 * effFactor in
      FoundEstimate best2 effFactor driveKm driveMi
                    (etaFromKm (Fin driveKm) speed)
                    (renderTopList scored false)
  end.

(** From the sorted [scored] to the end of [findClosest]. *)
Definition rank (baseFactor speed : num) (p : string) (ticketLL : LatLon)
           (scored : list Row) : Outcome :=
  match (if Str.truthy ORS_ENDPOINT then tryORS p scored else None) with
  | Some (scored', ranked, Some best) =>
      if bool_decide (driveKm best <> None)
      then FoundDriving best (etaFromMinutes (driveMin best)) (renderTopList ranked true)
      else estimate baseFactor speed ticketLL scored'
  | Some (scored', _, None) => estimate baseFactor speed ticketLL scored'
  | None => estimate baseFactor speed ticketLL scored
  end.

Definition findClosest (driveFactorParsed speedParsed : num)
           (postalInput ticketText : string) : Outcome :=
  let baseFactor := baseFactorOf driveFactorParsed in
  let speed := speedOf speedParsed in
  let p := ticketPostal postalInput ticketText in
  if negb (Str.truthy p) then NoPostal
  else
    match latLonForPostal TECHS POSTAL_PROV p "" "" with
    | None => TicketUnresolved
    | Some ticketLL =>
        match scoreRoster ticketLL with
        | [] => NoTechLocations
        | _ => rank baseFactor speed p ticketLL (baseline ticketLL)
        end
    end.

End Engine.

(** ** Routing gateways *)

(** What both gateways answer: a status code and a JSON body.  The arrays
    hold a number or [null] per destination. *)
Inductive Body :=
| BodyOk                                   (* { ok: true } *)
| BodyError (error : string)               (* { ok: false, error } *)
| BodyMatrix (distances_km durations_min : list (option R)).
                                           (* { ok: true, distances_km, durations_min } *)

Record Response := mkResponse { statusCode : nat; body : Body }.

(** *** The Supabase edge route [POST /canada/ors_matrix] *)

Module EdgeMatrix.

(** An element of [body.tech]; a missing field is [None]. *)
Record TechItem := mkTechItem {
  tech_postal : option string;
  item_postal : option string
}.

(** [(t?.tech_postal ?? t?.postal ?? "").toString()] *)
Definition postalOf (t : TechItem) : string :=
  match tech_postal t with
  | Some s => s
  | None => default "" (item_postal t)
  end.

(** Nominatim's answer to one search: [fetch] rejects, or a response with
    its [ok] flag and [Number(first?.lat)], [Number(first?.lon)] ([NaN]
    when there is no first result or the body is not JSON). *)
Inductive NomFetched := NomThrows | NomResponse (r_ok : bool) (lat lng : num).

(** The matrix service's answer: [fetch] rejects, or a response with its
    [ok] flag, its status and its parsed body, of which the route reads
    [distances[0]] and [durations[0]] ([[]] when the field is no array). *)
Record MatrixJson := mkMatrixJson { distRow : list JVal; durRow : list JVal }.
Inductive OrsFetched :=
| OrsThrows
| OrsResponse (r_ok : bool) (status : nat) (orsJson : option MatrixJson).

Record Geo := mkGeo { g_lat : R; g_lng : R }.

Section Route.

Variable ORS_API_KEY : string.
Variable nominatim : string -> NomFetched.
Variable orsMatrix : R -> R -> list (R * R) -> OrsFetched.

(** [geocodePostal] with the request's [geoCache] threaded through;
    the outer [None] is a rejected promise. *)
Definition geocodePostal (geoCache : gmap string (option Geo)) (postalRaw : string)
  : option (option Geo) * gmap string (option Geo) :=
  let postal := Str.keep (fun c => negb (Str.isSpace c)) (Str.trim postalRaw) in
  if negb (Str.truthy postal) then (Some None, geoCache)
  else
    match geoCache !! postal with
    | Some hit => (Some hit, geoCache)
    | None =>
        match nominatim postal with
        | NomThrows => (None, geoCache)
        | NomResponse false _ _ => (Some None, <[postal := None]> geoCache)
        | NomResponse true (Fin la) (Fin ln) =>
            let out := Some (mkGeo la ln) in
            (Some out, <[postal := out]> geoCache)
        | NomResponse true _ _ => (Some None, <[postal := None]> geoCache)
        end
    end.

(** The state of the loop over [techList]. *)
Record Acc := mkAcc {
  cache : gmap string (option Geo);
  destinations : list (R * R);
  idxMap : list (option nat)
}.

(** One iteration; [.catch(() => null)] turns a rejection into [null]. *)
Definition geocodeStep (a : Acc) (t : TechItem) : Acc :=
  let '(res, cache') := geocodePostal (cache a) (postalOf t) in
  match res with
  | Some (Some geo) =>
      let dests := (destinations a ++ [(g_lng geo, g_lat geo)])%list in
      mkAcc cache' dests (idxMap a ++ [Some (length dests - 1)%nat])%list
  | _ => mkAcc cache' (destinations a) (idxMap a ++ [None])%list
  end.

Definition round2 (dist_m : R) : R :=
  Double.round
    (IZR (Math_round (Double.round (Double.round (dist_m / 1000) * 100))) / 100).
Definition round1 (dur_s : R) : R :=
  Double.round
    (IZR (Math_round (Double.round (Double.round (dur_s / 60) * 10))) / 10).

(** The entry of an output array at a position whose [idxMap] is [di]. *)
Definition cellAt (row : list JVal) (scale : R -> R) (di : option nat) : option R :=
  match di with
  | None => None
  | Some d => fmap scale (finiteAt row (d + 1))
  end.

Definition ors_matrix (job_lat job_lng : num) (techList : list TechItem) : Response :=
  if negb (Str.truthy ORS_API_KEY)
  then mkResponse 500 (BodyError "Missing ORS_API_KEY env var")
  else
    match job_lat, job_lng with
    | Fin la, Fin ln =>
        match techList with
        | [] => mkResponse 200 (BodyMatrix [] [])
        | _ =>
            let a := foldl geocodeStep (mkAcc ∅ [] []) techList in
            match destinations a with
            | [] => mkResponse 200 (BodyMatrix (map (fun _ => None) techList)
                                               (map (fun _ => None) techList))
            | dests =>
                match orsMatrix ln la dests with
                | OrsThrows => mkResponse 500 (BodyError "fetch failed")
                | OrsResponse true _ (Some j) =>
                    mkResponse 200
                      (BodyMatrix (map (cellAt (distRow j) round2) (idxMap a))
                                  (map (cellAt (durRow j) round1) (idxMap a)))
                | OrsResponse _ _ _ =>
                    mkResponse 502 (BodyError "ORS matrix request failed")
                end
            end
        end
    | _, _ => mkResponse 400 (BodyError "Invalid job_lat/job_lng")
    end.

End Route.

(** Whether a destination geocodes, apart from the cache: the first result
    of a successful search with finite coordinates. *)
Definition located (nominatim : string -> NomFetched) (t : TechItem) : option Geo :=
  let postal := Str.keep (fun c => negb (Str.isSpace c)) (Str.trim (postalOf t)) in
  if negb (Str.truthy postal) then None
  else
    match nominatim postal with
    | NomResponse true (Fin la) (Fin ln) => Some (mkGeo la ln)
    | _ => None
    end.

(** The cache only ever holds what a search returned. *)
Definition cache_sound (nominatim : string -> NomFetched)
           (c : gmap string (option Geo)) : Prop :=
  forall k v, c !! k = Some v ->
    v = match nominatim k with
        | NomResponse true (Fin la) (Fin ln) => Some (mkGeo la ln)
        | _ => None
        end.

(** The invariant of the loop over [techList]: every technician has one
    entry of [idxMap], [null] when it does not geocode, and otherwise the
    index of its own coordinates among the destinations. *)
Definition aligned (nominatim : string -> NomFetched)
           (techList : list TechItem) (a : Acc) : Prop :=
  cache_sound nominatim (cache a) /\
  length (idxMap a) = length techList /\
  forall i t, techList !! i = Some t ->
    match located nominatim t with
    | None => idxMap a !! i = Some None
    | Some g => exists d, idxMap a !! i = Some (Some d) /\
                          destinations a !! d = Some (g_lng g, g_lat g)
    end.

End EdgeMatrix.

(** *** The Netlify function [handler] *)

Module Netlify.

Definition normPostal (x : string) : string :=
  Str.sliceTo 6 (Str.keep isAZ09 (Str.toUpperCase x)).

Record LonLat := mkLonLat { g_lon : R; g_lat : R }.

(** The geocoder's answer: [fetch] rejects, or a response with its [ok]
    flag, its status and [features[0].geometry.coordinates] when that is
    an array of two or more entries. *)
Inductive GeoFetched :=
| GeoThrows
| GeoResponse (r_ok : bool) (status : nat) (coords : option LonLat).

(** The matrix service's answer: [fetch] rejects; a response that is not
    [ok], with its status and the text of its body ([""] when the body
    cannot be read); or an [ok] response with [distances[0] || []] and
    [durations[0] || []]. *)
Inductive MatrixFetched :=
| MatrixThrows
| MatrixRefused (status : nat) (text : string)
| MatrixResponse (status : nat) (distances durations : list JVal).

(** [event.body] after [JSON.parse]: a syntax error; the value [null],
    which has no fields to read; or the two fields read from the payload
    ([tech_postals] is [[]] unless it is an array; any other value that is
    not an object has neither field and reads as [Payload "" []]). *)
Inductive Parsed :=
| BadJson
| NullJson
| Payload (ticket_postal : string) (tech_postals : list string).

(** A call that returns or throws. *)
Inductive Try (A : Type) := Thrown (msg : string) | Returned (a : A).
Arguments Thrown {A} msg.
Arguments Returned {A} a.

Section Handler.

Variable ORS_KEY : string.
Variable orsGeocode : string -> GeoFetched.
Variable orsMatrix : LonLat -> list LonLat -> MatrixFetched.

(** [geocodePostalCA] against the warm-invocation cache [GEO_CACHE];
    returns what it adds to the cache. *)
Definition geocodePostalCA (GEO_CACHE : gmap string LonLat) (postal : string)
  : Try (option LonLat) * gmap string LonLat :=
  let key := normPostal postal in
  if negb (Str.truthy key) then (Returned None, ∅)
  else
    match GEO_CACHE !! key with
    | Some hit => (Returned (Some hit), ∅)
    | None =>
        match orsGeocode key with
        | GeoThrows => (Thrown "fetch failed", ∅)
        | GeoResponse false status _ =>
            (Thrown ("ORS geocode failed: " ++ showInt (Z.of_nat status))%string, ∅)
        | GeoResponse true _ None => (Returned None, ∅)
        | GeoResponse true _ (Some ll) => (Returned (Some ll), {[ key := ll ]})
        end
    end.

(** [matrixKmMin] *)
Definition matrixKmMin (sourceLL : LonLat) (destLLs : list LonLat)
  : Try (list JVal * list JVal) :=
  match orsMatrix sourceLL destLLs with
  | MatrixThrows => Thrown "fetch failed"
  | MatrixRefused status text =>
      Thrown ("ORS matrix failed: " ++ showInt (Z.of_nat status) ++ " "
              ++ Str.sliceTo 200 text)%string
  | MatrixResponse _ d t => Returned (d, t)
  end.

(** [Promise.all(tech.map(geocodePostalCA))]: every call reads the
    cache before any of their fetches settles; the first rejection
    rejects the whole. *)
Fixpoint geocodeAll (GEO_CACHE : gmap string LonLat) (tech : list string)
  : Try (list (option LonLat)) :=
  match tech with
  | [] => Returned []
  | t :: rest =>
      match fst (geocodePostalCA GEO_CACHE t) with
      | Thrown e => Thrown e
      | Returned ll =>
          match geocodeAll GEO_CACHE rest with
          | Thrown e => Thrown e
          | Returned lls => Returned (ll :: lls)
          end
      end
  end.

(** What [destsRaw.forEach] pushes, in step, onto [validIdx] and
    [validDests]. *)
Definition collect (destsRaw : list (option LonLat)) : list (nat * LonLat) :=
  omap (fun '(i, ll) => fmap (fun l => (i, l)) (ll : option LonLat))
       (imap (fun i ll => (i, ll)) destsRaw).

Definition validIdx (destsRaw : list (option LonLat)) : list nat :=
  (collect destsRaw).*1.

Definition validDests (destsRaw : list (option LonLat)) : list LonLat :=
  (collect destsRaw).*2.

(** [typeof d === "number" ? f(d) : null], as the JSON body carries it:
    [JSON.stringify] writes a non-finite number as [null]. *)
Definition numberAt (a : list JVal) (j : nat) (f : R -> R) : option R :=
  fmap f (finiteAt a j).

(** [validIdx.forEach((origIdx, j) => ...)] over an array of [null]s. *)
Definition expand (n : nat) (idx : list nat) (a : list JVal) (f : R -> R)
  : list (option R) :=
  foldl (fun out '(j, origIdx) => <[origIdx := numberAt a j f]> out)
        (replicate n None)
        (imap (fun j origIdx => (j, origIdx)) idx).

(** [tech_postals.map(normPostal).filter(Boolean).slice(0, 40)] *)
Definition techOf (tech_postals : list string) : list string :=
  take 40 (filter (fun s => Str.truthy s = true) (map normPostal tech_postals)).

(** [handler(event)].  Reading [payload.ticket_postal] stands outside
    the [try] blocks: from a [null] payload it throws and the handler
    answers nothing ([None]). *)
Definition handler (GEO_CACHE : gmap string LonLat) (httpMethod : string)
           (parsed : Parsed) : option Response :=
  if String.eqb httpMethod "OPTIONS" then Some (mkResponse 200 BodyOk)
  else if negb (String.eqb httpMethod "POST")
  then Some (mkResponse 405 (BodyError "Method not allowed"))
  else if negb (Str.truthy ORS_KEY)
  then Some (mkResponse 500 (BodyError "Missing ORS_API_KEY environment variable"))
  else
    match parsed with
    | BadJson => Some (mkResponse 400 (BodyError "Invalid JSON body"))
    | NullJson => None
    | Payload ticket_postal tech_postals =>
        let ticket := normPostal ticket_postal in
        let tech := techOf tech_postals in
        Some
        (if negb (Str.truthy ticket) || Nat.eqb (length tech) 0
        then mkResponse 400 (BodyError "ticket_postal and tech_postals are required")
        else
          match geocodePostalCA GEO_CACHE ticket with
          | (Thrown e, _) => mkResponse 200 (BodyError e)
          | (Returned None, _) =>
              mkResponse 200 (BodyError "Could not geocode ticket_postal")
          | (Returned (Some src), added) =>
              match geocodeAll (added ∪ GEO_CACHE) tech with
              | Thrown e => mkResponse 200 (BodyError e)
              | Returned destsRaw =>
                  match validDests destsRaw with
                  | [] => mkResponse 200 (BodyError "Could not geocode any tech_postals")
                  | dests =>
                      match matrixKmMin src dests with
                      | Thrown e => mkResponse 200 (BodyError e)
                      | Returned (distances, durations) =>
                          mkResponse 200
                            (BodyMatrix
                               (expand (length tech) (validIdx destsRaw) distances (fun d => d))
                               (expand (length tech) (validIdx destsRaw) durations (fun t => t / 60)))
                      end
                  end
              end
          end)
    end.

End Handler.

End Netlify.

(** A technician of the roster whose location resolves at some tier. *)
Definition isResolved (TECHS : list Tech) (POSTAL_PROV : gmap string string)
           (t : Tech) : Prop :=
  t ∈ TECHS /\
  is_Some (latLonForPostal TECHS POSTAL_PROV (postal t) (city t) (province t)).

(** ** Scenarios

    A small roster around Winnipeg and the answers of a gateway, for the
    worked examples. *)

Module Scenario.

Definition ann : Tech := mkTech "101" "Ann" "Winnipeg" "MB" "R3C 0A1".
Definition bob : Tech := mkTech "102" "Bob" "Winnipeg" "MB" "R3C 0B2".
Definition cat : Tech := mkTech "103" "Cat" "" "" "K1A 0B1".
Definition dan : Tech := mkTech "104" "Dan" "Nowhere" "" "garbage".

Definition winnipeg : LatLon := mkLatLon 49.8951 (-97.1384) PrecPostal "MB" "WINNIPEG".
Definition manitoba : LatLon := mkLatLon 49.8951 (-97.1384) PrecProv "MB" "".
Definition ontario : LatLon := mkLatLon 43.6532 (-79.3832) PrecProv "ON" "".

(** The row that the scoring loop pushes for a technician located at [l],
    seen from a ticket in Manitoba. *)
Definition rowOf (t : Tech) (l : LatLon) : Row :=
  mkRow t (haversineKm manitoba l) (haversineKm manitoba l * 0.621371) l None None None.

(** The same row once the gateway loop has written to it. *)
Definition driven (r : Row) (dk dm : option R) : Row :=
  mkRow (tech r) (km r) (miles r) (ll r) dk (fmap (fun d => d * 0.621371) dk) dm.

Definition annRow : Row := rowOf ann winnipeg.
Definition bobRow : Row := rowOf bob winnipeg.

Definition endpoint : string := "https://hub.example/api/canada/ors_matrix".

(** HTTP 502 from the gateway. *)
Definition reply502 (ticket_postal : string) (tech_postals : list string) : Fetched :=
  FetchResponse false None.

(** HTTP 502 again, with a body that has [ok] and both arrays. *)
Definition reply502Full (ticket_postal : string) (tech_postals : list string) : Fetched :=
  FetchResponse false
    (Some (mkOrsJson true [JNum (Fin 12); JNum (Fin 9)] [JNum (Fin 20); JNum (Fin 15)])).

(** A duration beyond the stand-in value for the first destination, nothing
    for the second. *)
Definition replyLate (ticket_postal : string) (tech_postals : list string) : Fetched :=
  FetchResponse true
    (Some (mkOrsJson true [JNum (Fin 10); JOther] [JNum (Fin 2e12); JOther])).

(** Durations but no distances. *)
Definition replyNoDistance (ticket_postal : string) (tech_postals : list string) : Fetched :=
  FetchResponse true
    (Some (mkOrsJson true [JOther; JOther] [JNum (Fin 5); JNum (Fin 3)])).

(** A distance but no duration. *)
Definition replyNoDuration (ticket_postal : string) (tech_postals : list string) : Fetched :=
  FetchResponse true (Some (mkOrsJson true [JNum (Fin 5)] [JOther])).

(** Both values for both destinations; the second is the quicker drive. *)
Definition replyBoth (ticket_postal : string) (tech_postals : list string) : Fetched :=
  FetchResponse true
    (Some (mkOrsJson true [JNum (Fin 12); JNum (Fin 9)] [JNum (Fin 20); JNum (Fin 15)])).

(** Gateway side.  A geocoder that finds every postal code, one that
    answers HTTP 429 for K2P1L4, one that finds nothing for K2P1L4, and a
    matrix service that answers 4200 m and 600 s for every destination. *)
Definition toronto : Netlify.LonLat := Netlify.mkLonLat (-79.3832) 43.6532.

Definition geocodeOk (key : string) : Netlify.GeoFetched :=
  Netlify.GeoResponse true 200 (Some toronto).

Definition geocodeFlaky (key : string) : Netlify.GeoFetched :=
  if String.eqb key "K2P1L4" then Netlify.GeoResponse false 429 None
  else Netlify.GeoResponse true 200 (Some toronto).

Definition geocodeMiss (key : string) : Netlify.GeoFetched :=
  if String.eqb key "K2P1L4" then Netlify.GeoResponse true 200 None
  else Netlify.GeoResponse true 200 (Some toronto).

Definition matrixOk (src : Netlify.LonLat) (dests : list Netlify.LonLat)
  : Netlify.MatrixFetched :=
  Netlify.MatrixResponse 200
    (map (fun _ => JNum (Fin 4.2)) dests) (map (fun _ => JNum (Fin 600)) dests).

(** The same for the edge route: Nominatim finds M5V2T6 only. *)
Definition nominatimPartial (postal : string) : EdgeMatrix.NomFetched :=
  if String.eqb postal "M5V2T6"
  then EdgeMatrix.NomResponse true (Fin 43.6532) (Fin (-79.3832))
  else EdgeMatrix.NomResponse false NaN NaN.

Definition edgeMatrixOk (lng lat : R) (dests : list (R * R)) : EdgeMatrix.OrsFetched :=
  EdgeMatrix.OrsResponse true 200
    (Some (EdgeMatrix.mkMatrixJson
             (JNum (Fin 0) :: map (fun _ => JNum (Fin 4200)) dests)
             (JNum (Fin 0) :: map (fun _ => JNum (Fin 600)) dests))).

End Scenario.


(** ** The edge function's helpers *)

(** [toLowerCase], on [A]..[Z]. *)
Definition lowerChar (c : ascii) : ascii :=
  if Str.isUpper c then ascii_of_nat (Str.code c + 32) else c.

Fixpoint toLowerCase (s : string) : string :=
  match s with
  | EmptyString => EmptyString
  | String c s' => String (lowerChar c) (toLowerCase s')
  end.

(** The class [[\s_-]]. *)
Definition isKeySep (c : ascii) : bool :=
  Str.isSpace c || Nat.eqb (Str.code c) 95 || Nat.eqb (Str.code c) 45.

(** Every character of a string passes a test. *)
Fixpoint allChars (p : ascii -> bool) (s : string) : bool :=
  match s with
  | EmptyString => true
  | String c s' => p c && allChars p s'
  end.

(** [normKey]: removing every run of separators removes every separator. *)
Definition normKey (k : string) : string :=
  Str.keep (fun c => negb (isKeySep c)) (toLowerCase k).

(** A value of a row object: [null], a string, a number or a boolean. *)
Inductive DbVal := DbNull | DbStr (s : string) | DbNum (x : num) | DbBool (b : bool).

(** [v != null && String(v).trim() !== ""] fails: a number or a boolean
    never prints as white space. *)
Definition blank (v : DbVal) : bool :=
  match v with
  | DbNull => true
  | DbStr s => negb (Str.truthy (Str.trim s))
  | _ => false
  end.

(** A row object, as [Object.entries] lists it. *)
Definition Obj := list (string * DbVal).

(** [buildKeyMap]; [None] is a falsy [obj].  The map has no prototype. *)
Definition buildKeyMap (obj : option Obj) : gmap string DbVal :=
  match obj with
  | None => ∅
  | Some entries => foldl (fun m '(k, v) => <[normKey k := v]> m) ∅ entries
  end.

Fixpoint pick (m : gmap string DbVal) (keys : list string) (fallback : string) : DbVal :=
  match keys with
  | [] => DbStr fallback
  | k :: ks =>
      match m !! normKey k with
      | Some v => if blank v then pick m ks fallback else v
      | None => pick m ks fallback
      end
  end.

(** A key that [pick] passes over: missing from the map, or blank. *)
Definition passed (m : gmap string DbVal) (k : string) : Prop :=
  match m !! normKey k with Some v => blank v = true | None => True end.

(** [[a-z0-9]] *)
Definition isaz09 (c : ascii) : bool := Str.isLower c || Str.isDigit c.

Definition underscore : ascii := "_"%char.

(** [s.replace(/[^a-z0-9]+/g, "_")]: every maximal run of other characters
    becomes one underscore; [inRun] tells that the run has begun. *)
Fixpoint squash (inRun : bool) (s : string) : string :=
  match s with
  | EmptyString => EmptyString
  | String c s' =>
      if isaz09 c then String c (squash false s')
      else if inRun then squash true s'
      else String underscore (squash true s')
  end.

(** [s.replace(/^_+|_+$/g, "")] *)
Fixpoint dropLeading (s : string) : string :=
  match s with
  | EmptyString => EmptyString
  | String c s' => if Ascii.eqb c underscore then dropLeading s' else s
  end.

Fixpoint dropTrailing (s : string) : string :=
  match s with
  | EmptyString => EmptyString
  | String c s' =>
      match dropTrailing s' with
      | EmptyString => if Ascii.eqb c underscore then EmptyString else String c EmptyString
      | t => String c t
      end
  end.

Definition normalizeCol (name : string) : string :=
  dropTrailing (dropLeading (squash false (toLowerCase (Str.trim name)))).

(** A column name as [normalizeCol] makes them: lower-case letters and
    digits in groups that single underscores join; [prev] tells that the
    character before is an underscore (or that the string starts here). *)
Fixpoint safeFrom (prev : bool) (s : string) : bool :=
  match s with
  | EmptyString => negb prev
  | String c s' =>
      if isaz09 c then safeFrom false s'
      else Ascii.eqb c underscore && negb prev && safeFrom true s'
  end.

(** The same without the condition on the end of the string. *)
Fixpoint noRun (prev : bool) (s : string) : bool :=
  match s with
  | EmptyString => true
  | String c s' =>
      if isaz09 c then noRun false s'
      else Ascii.eqb c underscore && negb prev && noRun true s'
  end.

Definition safeCol (s : string) : bool :=
  match s with EmptyString => true | _ => safeFrom true s end.

(** [s.includes(sub)] *)
Fixpoint includes (sub s : string) : bool :=
  String.prefix sub s ||
  match s with
  | EmptyString => false
  | String _ s' => includes sub s'
  end.

Section Tables.

(** The table names of the environment; [USA_W2_TABLE] may be empty. *)
Variables TECH_TABLE FLEX_TABLE CA_W2_TABLE USA_W2_TABLE : string.

Definition sheetToTable (sheetName : string) : option string :=
  let s := toLowerCase (Str.trim sheetName) in
  if includes "ars" s || includes "technician" s || includes "tech db" s
  then Some TECH_TABLE
  else if includes "tier 2" s || includes "tier2" s || includes "flex" s
  then Some FLEX_TABLE
  else if includes "canada" s && includes "w2" s then Some CA_W2_TABLE
  else if Str.truthy USA_W2_TABLE && includes "usa" s && includes "w2" s
  then Some USA_W2_TABLE
  else None.

End Tables.

(** [chunk(arr, size)].  The loop advances by [size], so it only ends for a
    positive [size] (or an empty array); [fuel] bounds its iterations and
    [None] is a loop that has not ended. *)
Fixpoint chunkLoop {T} (fuel i : nat) (arr : list T) (size : nat)
         (out : list (list T)) : option (list (list T)) :=
  if Nat.ltb i (length arr) then
    match fuel with
    | O => None
    | S fuel' =>
        chunkLoop fuel' (i + size) arr size (out ++ [take size (drop i arr)])%list
    end
  else Some out.

Definition chunk {T} (fuel : nat) (arr : list T) (size : nat) : option (list (list T)) :=
  chunkLoop fuel 0 arr size [].

(** *** The sheet loader *)

Definition createTable (table : string) : string :=
  "create table if not exists public." ++ table ++ " (id bigserial primary key);".

Definition addColumn (table c : string) : string :=
  "alter table public." ++ table ++ " add column if not exists " ++ c ++ " text;".

(** [!c || c === "id"] fails. *)
Definition addable (c : string) : bool := Str.truthy c && negb (String.eqb c "id").

(** The statements sent so far, and the exception when one was thrown. *)
Definition Exec : Type := list string * option string.

Section Loader.

(** [supabase.rpc("ufh_exec", { sql })]: the message of the error, if the
    call reports one. *)
Variable rpc : string -> option string.

Definition ufhExec (sql : string) (sent : list string) : Exec :=
  ((sent ++ [sql])%list, (fun msg => "ufh_exec failed: " ++ msg) <$> rpc sql).

Fixpoint addColumns (table : string) (cols : list string) (sent : list string) : Exec :=
  match cols with
  | [] => (sent, None)
  | c :: cs =>
      if negb (addable c) then addColumns table cs sent
      else
        match ufhExec (addColumn table c) sent with
        | (sent', Some e) => (sent', Some e)
        | (sent', None) => addColumns table cs sent'
        end
  end.

Definition ensureTableAndColumns (table : string) (cols : list string) : Exec :=
  match ufhExec (createTable table) [] with
  | (sent, Some e) => (sent, Some e)
  | (sent, None) => addColumns table cols sent
  end.

End Loader.

(** [colsSet] as the rows of a sheet fill it: the normalized keys that are
    not empty, in the order in which they first occur. *)
Definition addCol (cols : list string) (k : string) : list string :=
  let col := normalizeCol k in
  if negb (Str.truthy col) then cols
  else if bool_decide (col ∈ cols) then cols
  else (cols ++ [col])%list.

Definition sheetCols {V} (rawRows : list (list (string * V))) : list string :=
  foldl (fun cols r => foldl (fun cols kv => addCol cols (fst kv)) cols r) [] rawRows.

(** The path that the routes are matched against. *)
Definition stripPrefix (pre s : string) : string :=
  if String.prefix pre s then Str.sliceFrom (String.length pre) s else s.

Definition routePath (pathname : string) : string :=
  let p := stripPrefix "/functions/v1/api" pathname in
  let p := stripPrefix "/api" p in
  if negb (String.prefix "/" p) then "/" ++ p else p.

(** [Math.min(Math.max(Number(param || dflt), 1), cap)]; [param] is [None]
    for a missing or empty query parameter and otherwise what [Number]
    makes of it. *)
Definition queryLimit (param : option num) (dflt cap : R) : num :=
  Math_min cap (Math_max 1 (default (Fin dflt) param)).

(** The AOA export: the columns are the keys of the first row other than
    [_id]; every row gives its value for each column, or [null]. *)
Definition prop (r : Obj) (c : string) : option DbVal :=
  snd <$> List.find (fun kv => String.eqb (fst kv) c) r.

Definition exportColumns (data : list Obj) : list string :=
  let first := default [] (head data) in
  List.filter (fun c => negb (String.eqb c "_id")) (map fst first).

Definition exportRows (data : list Obj) : list (list DbVal) :=
  let columns := exportColumns data in
  map (fun r => map (fun c => default DbNull (prop r c)) columns) data.

(** ** The page's remaining helpers *)

(** [escapeHtml] *)
Definition escapeChar (c : ascii) : string :=
  if Ascii.eqb c "&" then "&amp;"
  else if Ascii.eqb c "<" then "&lt;"
  else if Ascii.eqb c ">" then "&gt;"
  else if Ascii.eqb c (ascii_of_nat 34) then "&quot;"
  else if Ascii.eqb c "'" then "&#39;"
  else String c EmptyString.

Fixpoint escapeHtml (s : string) : string :=
  match s with
  | EmptyString => EmptyString
  | String c s' => escapeChar c ++ escapeHtml s'
  end.

(** The characters that [escapeHtml] rewrites, and those among them that
    markup is made of. *)
Definition special (c : ascii) : bool :=
  Ascii.eqb c "&" || Ascii.eqb c "<" || Ascii.eqb c ">" ||
  Ascii.eqb c (ascii_of_nat 34) || Ascii.eqb c "'".

Definition markup (c : ascii) : bool :=
  Ascii.eqb c "<" || Ascii.eqb c ">" || Ascii.eqb c (ascii_of_nat 34) || Ascii.eqb c "'".

(** Whether the character before a position is a word character, for a
    position that follows [before]; [prev] tells it for the start of
    [before]. *)
Fixpoint endsInWord (prev : bool) (before : string) : bool :=
  match before with
  | EmptyString => prev
  | String c rest => endsInWord (Str.isWord c) rest
  end.

(** A postal code as [CA_POSTAL_RE] accepts it, in either case. *)
Definition isPostalToken (m : string) : bool :=
  match m with
  | String a (String b (String c (String d (String e (String f EmptyString))))) =>
      isPostalLetter a && Str.isDigit b && isPostalLetter c &&
      Str.isDigit d && isPostalLetter e && Str.isDigit f
  | _ => false
  end.

(** The key under which [POSTAL_OVERRIDE] looks a technician's city up. *)
Definition cityKey (t : Tech) : string :=
  Str.trim (Str.toUpperCase (city t)) ++ "|" ++ Str.trim (Str.toUpperCase (province t)).

(** A row as the scoring loop pushes it, before the gateway loop writes
    to it. *)
Definition unscored (r : Row) : Row :=
  mkRow (tech r) (km r) (miles r) (ll r) None None None.

(** [scored] once the gateway loop has written to its first 25 rows. *)
Definition afterGateway (j : OrsJson) (scored : list Row) : list Row :=
  (imap (annotate j) (take 25 scored) ++ drop 25 scored)%list.

(** ** The page against a gateway *)

(** An entry of a gateway's array as the page reads it from the JSON body:
    a number, or [null]. *)
Definition cellOf (v : option R) : JVal :=
  match v with
  | Some r => JNum (Fin r)
  | None => JOther
  end.

(** The parsed body; a body without the arrays reads as empty ones. *)
Definition jsonOf (b : Body) : OrsJson :=
  match b with
  | BodyOk => mkOrsJson true [] []
  | BodyError _ => mkOrsJson false [] []
  | BodyMatrix d t => mkOrsJson true (map cellOf d) (map cellOf t)
  end.

(** What [fetch] resolves to for a gateway's response: [r.ok] is a status
    from 200 to 299. *)
Definition fetchedOf (r : Response) : Fetched :=
  FetchResponse (Nat.leb 200 (statusCode r) && Nat.ltb (statusCode r) 300)
                (Some (jsonOf (body r))).

(** The page's request, [{ ticket_postal, tech_postals }], answered by the
    Netlify function; a call that the handler leaves unanswered reaches the
    page as an error status of the platform. *)
Definition viaNetlify (ORS_KEY : string) (orsGeocode : string -> Netlify.GeoFetched)
           (orsMatrix : Netlify.LonLat -> list Netlify.LonLat -> Netlify.MatrixFetched)
           (GEO_CACHE : gmap string Netlify.LonLat)
           (ticket_postal : string) (tech_postals : list string) : Fetched :=
  match Netlify.handler ORS_KEY orsGeocode orsMatrix GEO_CACHE "POST"
          (Netlify.Payload ticket_postal tech_postals) with
  | Some r => fetchedOf r
  | None => FetchResponse false None
  end.

(** The same request answered by the edge route, which reads [job_lat],
    [job_lng] and [tech] from the body: the page's body has none of them,
    so the coordinates are [Number(undefined)] and the list is empty. *)
Definition viaEdge (ORS_API_KEY : string) (nominatim : string -> EdgeMatrix.NomFetched)
           (orsMatrix : R -> R -> list (R * R) -> EdgeMatrix.OrsFetched)
           (ticket_postal : string) (tech_postals : list string) : Fetched :=
  fetchedOf (EdgeMatrix.ors_matrix ORS_API_KEY nominatim orsMatrix NaN NaN []).

(** ** The Canada routes of the edge function *)

(** [s.replace(/\s+/g, "")] *)
Definition stripSpaces (s : string) : string :=
  Str.keep (fun c => negb (Str.isSpace c)) s.

Section Rows.

(** [String(x)] of a number is the platform's. *)
Variable showNum : num -> string.

(** [String(v)] *)
Definition text (v : DbVal) : string :=
  match v with
  | DbNull => "null"
  | DbStr s => s
  | DbNum x => showNum x
  | DbBool true => "true"
  | DbBool false => "false"
  end.

(** [String(pick(m, keys, ""))] on the key map of a row. *)
Definition column (keys : list string) (x : Obj) : string :=
  text (pick (buildKeyMap (Some x)) keys "").

(** An element of [techs] in [/canada/w2techdb]. *)
Definition w2tech (x : Obj) : Tech :=
  mkTech (column ["tech_id"; "Tech ID"; "tech id"; "id"] x)
         (column ["name"; "Name"; "full_name"; "Full Name"; "tech_name"] x)
         (column ["city"; "City"] x)
         (Str.toUpperCase (column ["province"; "prov"; "state"; "State"] x))
         (Str.toUpperCase (stripSpaces (column ["postal"; "postal_code"; "Zip"; "zip"] x))).

Definition w2techdb (data : list Obj) : list Tech := map w2tech data.

(** The loop that fills [mapping] in [/canada/postalprov]. *)
Definition mappingPostal (x : Obj) : string :=
  Str.toUpperCase (stripSpaces (column ["postal"; "postal_code"; "col_1"] x)).

Definition mappingProv (x : Obj) : string :=
  Str.toUpperCase (column ["province"; "prov"; "state"; "col_2"] x).

Definition postalprovStep (mapping : gmap string string) (x : Obj) : gmap string string :=
  let postal := mappingPostal x in
  let prov := mappingProv x in
  if Str.truthy postal && Str.truthy prov then <[postal := prov]> mapping else mapping.

Definition postalprov (data : list Obj) : gmap string string :=
  foldl postalprovStep ∅ data.

End Rows.

(** ** The export's list of tables *)

(** [Deno.env.get(name) || dflt] *)
Definition envOr (value : option string) (dflt : string) : string :=
  match value with
  | Some s => if Str.truthy s then s else dflt
  | None => dflt
  end.

(** The environment variables that name tables. *)
Record Env := mkEnv {
  env_TECH_TABLE : option string;
  env_ZIP_TABLE : option string;
  env_FLEX_TABLE : option string;
  env_CA_W2_TABLE : option string;
  env_CA_POSTAL_TABLE : option string;
  env_USA_W2_TABLE : option string
}.

Definition tableNames (e : Env) : list string :=
  [ envOr (env_TECH_TABLE e) "ars_technician";
    envOr (env_ZIP_TABLE e) "zipdb_v2";
    envOr (env_FLEX_TABLE e) "usa_tier_2_flex_tech";
    envOr (env_CA_W2_TABLE e) "canada_w2";
    envOr (env_CA_POSTAL_TABLE e) "";
    envOr (env_USA_W2_TABLE e) "" ].

Definition ALLOWED_TABLES (e : Env) : gset string :=
  list_to_set (List.filter Str.truthy (tableNames e)).

(** [p.split("/")[2] || ""] for a path that starts with [/export/]: the
    text after that prefix, up to the next slash. *)
Fixpoint upToSlash (s : string) : string :=
  match s with
  | EmptyString => EmptyString
  | String c s' => if Ascii.eqb c "/" then EmptyString else String c (upToSlash s')
  end.

Definition exportSegment (p : string) : string := upToSlash (Str.sliceFrom 8 p).

(** What the export route does before it reads: it fails (the catch-all
    answers 500), refuses the table with 403, or reads it. *)
Inductive Export := ExportThrows | ExportRefused (table : string) | ExportReads (table : string).

Section ExportRoute.

(** [decodeURIComponent], which throws on a malformed escape. *)
Variable decodeURIComponent : string -> option string.

Definition exportTable (e : Env) (p : string) : Export :=
  match decodeURIComponent (exportSegment p) with
  | None => ExportThrows
  | Some table =>
      if negb (Nat.eqb (size (ALLOWED_TABLES e)) 0) &&
         negb (bool_decide (table ∈ ALLOWED_TABLES e))
      then ExportRefused table
      else ExportReads table
  end.

End ExportRoute.


(** * Properties *)

(** ** Postal normalizer *)

Local Open Scope string_scope.

Example normalizePostal_k1a : normalizePostal " k1a 0b1 " = "K1A0B1".
Proof. reflexivity. Qed.

Example formatPostal_k1a : formatPostal "k1a0b1" = "K1A 0B1".
Proof. reflexivity. Qed.

Example normalizePostal_zip : normalizePostal "90210" = "".
Proof. reflexivity. Qed.

Example extract_ticket :
  extractPostalFromText "...please send to K1A 0B1 asap..." = "K1A0B1".
Proof. reflexivity. Qed.

Example extract_needs_boundary : extractPostalFromText "XK1A 0B1" = "".
Proof. reflexivity. Qed.

Example extract_first_match :
  extractPostalFromText "from m5v2t6 to K1A
0B1" = "M5V2T6".
Proof. reflexivity. Qed.

Example extract_skips_unused_letters : extractPostalFromText "D1A 1A1" = "".
Proof. reflexivity. Qed.

Example normalizePostal_long : normalizePostal "K1A 0B1 and more" = "K1A0B1".
Proof. reflexivity. Qed.

Example trim_inner : Str.trim "  a b  " = "a b".
Proof. reflexivity. Qed.

Module StrFacts.

(** Facts about one character are settled by running through the 256
    characters. *)
Ltac by_cases_on c :=
  destruct c as [[] [] [] [] [] [] [] []]; vm_compute; intuition congruence.

Lemma upper_fixed c :
  Str.isUpper c = true ->
  Str.upperChar c = c /\ Str.isSpace c = false /\ isAZ09 c = true.
Proof. by_cases_on c. Qed.

Lemma digit_fixed c :
  Str.isDigit c = true ->
  Str.upperChar c = c /\ Str.isSpace c = false /\ isAZ09 c = true.
Proof. by_cases_on c. Qed.

Lemma keep_length p s : (String.length (Str.keep p s) <= String.length s)%nat.
Proof. induction s as [|c s IH]; simpl; [lia|]. destruct (p c); simpl; lia. Qed.

Lemma upperChar_idem c : Str.upperChar (Str.upperChar c) = Str.upperChar c.
Proof. by_cases_on c. Qed.

Lemma toUpperCase_idem s : Str.toUpperCase (Str.toUpperCase s) = Str.toUpperCase s.
Proof. induction s as [|c s IH]; simpl; [reflexivity|]. now rewrite upperChar_idem, IH. Qed.

Lemma isSpace_upperChar c : Str.isSpace (Str.upperChar c) = Str.isSpace c.
Proof. by_cases_on c. Qed.

Lemma trimStart_toUpperCase s :
  Str.trimStart (Str.toUpperCase s) = Str.toUpperCase (Str.trimStart s).
Proof.
  induction s as [|c s IH]; [reflexivity|]. cbn [Str.toUpperCase Str.trimStart].
  rewrite isSpace_upperChar. destruct (Str.isSpace c); [exact IH|reflexivity].
Qed.

Lemma trimEnd_toUpperCase s :
  Str.trimEnd (Str.toUpperCase s) = Str.toUpperCase (Str.trimEnd s).
Proof.
  induction s as [|c s IH]; [reflexivity|]. cbn [Str.toUpperCase Str.trimEnd].
  rewrite IH, isSpace_upperChar.
  destruct (Str.trimEnd s); cbn [Str.toUpperCase]; [|reflexivity].
  destruct (Str.isSpace c); reflexivity.
Qed.

Lemma trim_toUpperCase s : Str.trim (Str.toUpperCase s) = Str.toUpperCase (Str.trim s).
Proof. unfold Str.trim. now rewrite trimStart_toUpperCase, trimEnd_toUpperCase. Qed.

End StrFacts.

(** A token that passes the pattern test is six characters, letters and
    digits alternating. *)
Lemma testA1A1A1_inv p :
  testA1A1A1 p = true ->
  exists a b c d e f,
    p = String a (String b (String c (String d (String e (String f EmptyString)))))
    /\ Str.isUpper a = true /\ Str.isDigit b = true /\ Str.isUpper c = true
    /\ Str.isDigit d = true /\ Str.isUpper e = true /\ Str.isDigit f = true.
Proof.
  destruct p as [|a [|b [|c [|d [|e [|f [|g p]]]]]]]; cbn [testA1A1A1]; try discriminate.
  intros H. rewrite !andb_true_iff in H.
  exists a, b, c, d, e, f. intuition.
Qed.

(** What [normalizePostal] returns: the failure value or a valid token. *)
Lemma normalizePostal_result x :
  normalizePostal x = "" \/ testA1A1A1 (normalizePostal x) = true.
Proof.
  unfold normalizePostal.
  destruct (Nat.eqb _ 6); simpl; [|now left].
  match goal with |- context [testA1A1A1 ?s] => destruct (testA1A1A1 s) eqn:E end;
    simpl; [now right | now left].
Qed.

(** A valid token is a fixed point of [normalizePostal]. *)
Lemma normalizePostal_fixed p : testA1A1A1 p = true -> normalizePostal p = p.
Proof.
  intros H. destruct (testA1A1A1_inv p H) as (a & b & c & d & e & f & -> & Ha & Hb & Hc & Hd & He & Hf).
  destruct (StrFacts.upper_fixed _ Ha) as (Ha1 & Ha2 & Ha3).
  destruct (StrFacts.digit_fixed _ Hb) as (Hb1 & Hb2 & Hb3).
  destruct (StrFacts.upper_fixed _ Hc) as (Hc1 & Hc2 & Hc3).
  destruct (StrFacts.digit_fixed _ Hd) as (Hd1 & Hd2 & Hd3).
  destruct (StrFacts.upper_fixed _ He) as (He1 & He2 & He3).
  destruct (StrFacts.digit_fixed _ Hf) as (Hf1 & Hf2 & Hf3).
  unfold normalizePostal, Str.trim. simpl.
  rewrite Ha1, Hb1, Hc1, Hd1, He1, Hf1, Ha2. simpl. rewrite Hf2. simpl.
  rewrite Ha3, Hb3, Hc3, Hd3, He3, Hf3. simpl.
  rewrite Ha, Hb, Hc, Hd, He, Hf. reflexivity.
Qed.


Lemma truthy_nonempty s : s <> "" -> Str.truthy s = true.
Proof. destruct s; [congruence | reflexivity]. Qed.



(** ** Geolocation resolver *)

Lemma nonempty_truthy s : Str.truthy s = true <-> s <> "".
Proof. destruct s; simpl; split; congruence. Qed.

Lemma empty_falsy s : Str.truthy s = false <-> s = "".
Proof. destruct s; simpl; split; congruence. Qed.

Lemma normalizePostal_idem x : normalizePostal (normalizePostal x) = normalizePostal x.
Proof.
  destruct (normalizePostal_result x) as [E|E].
  - rewrite E. reflexivity.
  - apply normalizePostal_fixed, E.
Qed.

Example resolve_region_tier :
  latLonForPostal [] ∅ "k1a 0b1" "" ""
  = Some (mkLatLon 43.6532 (-79.3832) PrecProv "ON" "").
Proof. vm_compute. reflexivity. Qed.

Example resolve_city_tier :
  latLonForPostal [] ∅ "T2P 1J9" "Calgary" "ab"
  = Some (mkLatLon 51.0447 (-114.0719) PrecCity "AB" "CALGARY").
Proof. vm_compute. reflexivity. Qed.

Example resolve_override_tier :
  latLonForPostal [mkTech "7" "Ann" "Laval" "QC" "H7N 0A1"] ∅ "h7n0a1" "" ""
  = Some (mkLatLon 45.6066 (-73.7124) PrecPostal "QC" "").
Proof. vm_compute. reflexivity. Qed.

(** C4 (as amended).  For a postal code that normalizes to [p], the region
    is the trimmed upper-case region hint when a hint is given, otherwise
    the upper-case entry of the postal-to-region map when it has one,
    otherwise the region derived from the first character of [p].  The
    tiers are tried in order and the first hit wins: the override table
    (precision postal), then the city centroid keyed by upper-case city and
    region when both are non-empty (precision city), then the region
    centroid (precision prov), and otherwise nothing.  With no hint, no map
    entry and no override, a first character the derivation does not know
    gives the empty region and no coordinate. *)
Theorem latLonForPostal_tiers (TECHS : list Tech) (POSTAL_PROV : gmap string string)
        (p6 cityHint provHint : string) :
  let p := normalizePostal p6 in
  let prov := provOf POSTAL_PROV p provHint in
  let city := cityOf cityHint in
  let cityHit := if Str.truthy city && Str.truthy prov
                 then CITY_COORD !! (city ++ "|" ++ prov) else None in
  let result := latLonForPostal TECHS POSTAL_PROV p6 cityHint provHint in
  p <> "" ->
  (provHint <> "" -> prov = Str.trim (Str.toUpperCase provHint)) /\
  (provHint = "" -> forall v, POSTAL_PROV !! p = Some v -> v <> "" ->
                    prov = Str.toUpperCase v) /\
  (provHint = "" -> POSTAL_PROV !! p = None \/ POSTAL_PROV !! p = Some "" ->
                    prov = provFromFirstLetter (charAt0 p)) /\
  (forall c, POSTAL_OVERRIDE TECHS !! p = Some c ->
             result = Some (mkLatLon (lat c) (lon c) PrecPostal prov city)) /\
  (POSTAL_OVERRIDE TECHS !! p = None ->
   forall c, cityHit = Some c ->
             result = Some (mkLatLon (lat c) (lon c) PrecCity prov city)) /\
  (POSTAL_OVERRIDE TECHS !! p = None -> cityHit = None ->
   forall c, PROV_CENTER !! prov = Some c ->
             result = Some (mkLatLon (lat c) (lon c) PrecProv prov "")) /\
  (POSTAL_OVERRIDE TECHS !! p = None -> cityHit = None ->
   PROV_CENTER !! prov = None -> result = None) /\
  (provHint = "" -> POSTAL_PROV !! p = None -> POSTAL_OVERRIDE TECHS !! p = None ->
   provFromFirstLetter (charAt0 p) = "" -> prov = "" /\ result = None).
Proof.
  intros p prov city cityHit result Hp.
  assert (Ht : Str.truthy p = true) by (apply nonempty_truthy, Hp).
  assert (Hprov : forall hint, hint = "" ->
            provOf POSTAL_PROV p hint
            = match POSTAL_PROV !! p with
              | Some v => if Str.truthy v then Str.toUpperCase v
                          else provFromFirstLetter (charAt0 p)
              | None => provFromFirstLetter (charAt0 p)
              end).
  { intros hint ->. unfold provOf, provForPostal. simpl.
    subst p. rewrite normalizePostal_idem, Ht. reflexivity. }
  assert (Hres : result
            = match POSTAL_OVERRIDE TECHS !! p with
              | Some c => Some (mkLatLon (lat c) (lon c) PrecPostal prov city)
              | None =>
                  match cityHit with
                  | Some c => Some (mkLatLon (lat c) (lon c) PrecCity prov city)
                  | None =>
                      match PROV_CENTER !! prov with
                      | Some c => Some (mkLatLon (lat c) (lon c) PrecProv prov "")
                      | None => None
                      end
                  end
              end).
  { subst result. unfold latLonForPostal. fold p. rewrite Ht. simpl.
    fold prov city cityHit.
    destruct (POSTAL_OVERRIDE TECHS !! p); [reflexivity|].
    destruct cityHit; [reflexivity|].
    destruct (Str.truthy prov) eqn:Tp; [reflexivity|].
    apply empty_falsy in Tp. rewrite Tp. reflexivity. }
  refine (conj _ (conj _ (conj _ (conj _ (conj _ (conj _ (conj _ _))))))).
  - intros Hh. subst prov. unfold provOf.
    rewrite (proj2 (nonempty_truthy provHint) Hh). reflexivity.
  - intros Hh v Hv Hne. subst prov. rewrite (Hprov _ Hh), Hv.
    rewrite (proj2 (nonempty_truthy v) Hne). reflexivity.
  - intros Hh [Hv|Hv]; subst prov; rewrite (Hprov _ Hh), Hv; reflexivity.
  - intros c Hc. rewrite Hres, Hc. reflexivity.
  - intros Ho c Hc. rewrite Hres, Ho, Hc. reflexivity.
  - intros Ho Hc c Hr. rewrite Hres, Ho, Hc, Hr. reflexivity.
  - intros Ho Hc Hr. rewrite Hres, Ho, Hc, Hr. reflexivity.
  - intros Hh Hv Ho Hf. assert (E : prov = "").
    { subst prov. rewrite (Hprov _ Hh), Hv. exact Hf. }
    split; [exact E|].
    rewrite Hres, Ho. subst cityHit. rewrite E.
    rewrite andb_false_r. reflexivity.
Qed.

Lemma latLonForPostal_tiers_witness :
  normalizePostal "k1a 0b1" <> "" /\
  latLonForPostal [] ∅ "k1a 0b1" "" ""
  = Some (mkLatLon 43.6532 (-79.3832) PrecProv "ON" "").
Proof.
  assert (H : normalizePostal "k1a 0b1" <> "") by (vm_compute; discriminate).
  split; [exact H|].
  destruct (latLonForPostal_tiers [] ∅ "k1a 0b1" "" "" H)
    as (_ & _ & _ & _ & _ & T3 & _).
  rewrite (T3 eq_refl eq_refl (mkCoord 43.6532 (-79.3832))); [|vm_compute; reflexivity].
  vm_compute. reflexivity.
Defined.

(** C4, as stated, fails when a region hint is given: the map and the
    first character of K1A0B1 both lead to Ontario, whose centroid is
    known, yet the hint ZZ makes the postal code unresolved; and D1A1A1,
    whose first character the derivation does not know, resolves to the
    Ontario centroid under the hint ON. *)
Lemma latLonForPostal_hint_counterexample :
  (normalizePostal "K1A0B1" = "K1A0B1" /\
   POSTAL_OVERRIDE [] !! "K1A0B1" = None /\
   provForPostal ∅ "K1A0B1" = "ON" /\
   is_Some (PROV_CENTER !! "ON") /\
   latLonForPostal [] ∅ "K1A0B1" "" "ZZ" = None) /\
  (normalizePostal "D1A1A1" = "D1A1A1" /\
   provFromFirstLetter (charAt0 "D1A1A1") = "" /\
   latLonForPostal [] ∅ "D1A1A1" "" "ON"
   = Some (mkLatLon 43.6532 (-79.3832) PrecProv "ON" "")).
Proof.
  repeat split; try (vm_compute; reflexivity).
  exists (mkCoord 43.6532 (-79.3832)). vm_compute. reflexivity.
Qed.

(** ** Binary64 rounding *)

Module DoubleFacts.

Import Double.

Local Open Scope R_scope.

Lemma argmin_Z (f : Z -> R) (lo n : Z) :
  (0 <= n)%Z ->
  exists k, (lo <= k <= lo + n)%Z /\
            forall k', (lo <= k' <= lo + n)%Z -> f k <= f k'.
Proof.
  intros Hn. pattern n. revert n Hn. apply natlike_ind.
  - exists lo. split; [lia|]. intros k' Hk'.
    assert (k' = lo) as -> by lia. lra.
  - intros n Hn (k & Hk & Hmin).
    destruct (Rle_dec (f k) (f (lo + Z.succ n)%Z)) as [Hle|Hgt].
    + exists k. split; [lia|]. intros k' Hk'.
      destruct (Z.eq_dec k' (lo + Z.succ n)%Z) as [->|Hne]; [exact Hle|].
      apply Hmin. lia.
    + exists (lo + Z.succ n)%Z. split; [lia|]. intros k' Hk'.
      destruct (Z.eq_dec k' (lo + Z.succ n)%Z) as [->|Hne]; [lra|].
      assert (f k <= f k') by (apply Hmin; lia). lra.
Qed.

(** Among the doubles of one exponent one is nearest. *)
Lemma nearest_at (x : R) (e : Z) :
  exists m, (Z.abs m < 2 ^ 53)%Z /\
    forall m', (Z.abs m' < 2 ^ 53)%Z ->
      Rabs (x - IZR m * powerRZ 2 e) <= Rabs (x - IZR m' * powerRZ 2 e).
Proof.
  destruct (argmin_Z (fun m => Rabs (x - IZR m * powerRZ 2 e))
                     (- (2 ^ 53 - 1))%Z (2 ^ 54 - 2)%Z) as (m & Hm & Hmin); [lia|].
  exists m. split; [lia|]. intros m' Hm'. apply Hmin. lia.
Qed.

Lemma nearest_upto (x : R) (n : Z) :
  (0 <= n)%Z ->
  exists m e, (Z.abs m < 2 ^ 53)%Z /\ (-1074 <= e <= -1074 + n)%Z /\
    forall m' e', (Z.abs m' < 2 ^ 53)%Z -> (-1074 <= e' <= -1074 + n)%Z ->
      Rabs (x - IZR m * powerRZ 2 e) <= Rabs (x - IZR m' * powerRZ 2 e').
Proof.
  intros Hn. pattern n. revert n Hn. apply natlike_ind.
  - destruct (nearest_at x (-1074)) as (m & Hm & Hmin).
    exists m, (-1074)%Z. split; [exact Hm|]. split; [lia|].
    intros m' e' Hm' He'. assert (e' = (-1074)%Z) as -> by lia. now apply Hmin.
  - intros n Hn (m & e & Hm & He & Hmin).
    destruct (nearest_at x (-1074 + Z.succ n)%Z) as (m1 & Hm1 & Hmin1).
    destruct (Rle_dec (Rabs (x - IZR m * powerRZ 2 e))
                      (Rabs (x - IZR m1 * powerRZ 2 (-1074 + Z.succ n))))
      as [Hle|Hgt].
    + exists m, e. split; [exact Hm|]. split; [lia|].
      intros m' e' Hm' He'.
      destruct (Z.eq_dec e' (-1074 + Z.succ n)%Z) as [->|Hne].
      * specialize (Hmin1 m' Hm'). lra.
      * apply Hmin; [exact Hm'|lia].
    + exists m1, (-1074 + Z.succ n)%Z. split; [exact Hm1|]. split; [lia|].
      intros m' e' Hm' He'.
      destruct (Z.eq_dec e' (-1074 + Z.succ n)%Z) as [->|Hne].
      * now apply Hmin1.
      * assert (Rabs (x - IZR m * powerRZ 2 e) <= Rabs (x - IZR m' * powerRZ 2 e'))
          by (apply Hmin; [exact Hm'|lia]).
        lra.
Qed.

Lemma nearest_exists (x : R) : exists d, nearest x d.
Proof.
  destruct (nearest_upto x 2045) as (m & e & Hm & He & Hmin); [lia|].
  exists (IZR m * powerRZ 2 e). split.
  - exists m, e. split; [exact Hm|]. split; [lia|reflexivity].
  - intros d' (m' & e' & Hm' & He' & ->). apply Hmin; [exact Hm'|lia].
Qed.

Lemma roundsTo_exists (x : R) : exists d, roundsTo x d.
Proof.
  destruct (classic (exists d', nearest x d' /\ evenEnded d')) as [(d & Hn & He)|Hno].
  - exists d. split; [exact Hn|now left].
  - destruct (nearest_exists x) as (d & Hd). exists d. split; [exact Hd|now right].
Qed.

Lemma round_spec (x : R) : roundsTo x (round x).
Proof. unfold round. apply epsilon_spec. apply roundsTo_exists. Qed.

Lemma round_representable (x : R) : representable (round x).
Proof. exact (proj1 (proj1 (round_spec x))). Qed.

Lemma round_nearest (x d : R) :
  representable d -> Rabs (x - round x) <= Rabs (x - d).
Proof. exact (proj2 (proj1 (round_spec x)) d). Qed.

(** A double is its own rounding: the operation was exact. *)
Lemma round_exact (d : R) : representable d -> round d = d.
Proof.
  intros Hd. pose proof (round_nearest d d Hd) as H.
  replace (d - d) with 0 in H by lra. rewrite Rabs_R0 in H.
  pose proof (Rabs_pos (d - round d)) as Hpos.
  assert (Rabs (d - round d) = 0) as Hz by lra.
  destruct (Req_dec (d - round d) 0) as [E|E]; [lra|].
  apply Rabs_no_R0 in E. contradiction.
Qed.

Lemma round_mono (x y : R) : x <= y -> round x <= round y.
Proof.
  intros Hxy. destruct (Req_dec x y) as [->|Hne]; [lra|].
  pose proof (round_nearest x (round y) (round_representable y)) as H1.
  pose proof (round_nearest y (round x) (round_representable x)) as H2.
  revert H1 H2. unfold Rabs.
  repeat destruct Rcase_abs; lra.
Qed.

Lemma round_bounds (lo hi x : R) :
  representable lo -> representable hi -> lo <= x <= hi ->
  lo <= round x <= hi.
Proof.
  intros Hlo Hhi [H1 H2]. split.
  - rewrite <- (round_exact lo Hlo). now apply round_mono.
  - rewrite <- (round_exact hi Hhi). now apply round_mono.
Qed.

Lemma representable_scaled (m e : Z) :
  (Z.abs m < 2 ^ 53)%Z -> (-1074 <= e <= 971)%Z ->
  representable (IZR m * powerRZ 2 e).
Proof. intros Hm He. exists m, e. auto. Qed.

(** Every integer up to [2^53] in magnitude is a double. *)
Lemma representable_IZR (z : Z) : (Z.abs z <= 2 ^ 53)%Z -> representable (IZR z).
Proof.
  intros Hz. destruct (Z.eq_dec (Z.abs z) (2 ^ 53)%Z) as [E|E].
  - assert (z = 9007199254740992 \/ z = - 9007199254740992)%Z as [->| ->] by lia.
    + exists 4503599627370496%Z, 1%Z. split; [lia|]. split; [lia|].
      change (powerRZ 2 1) with (2 * 1). lra.
    + exists (- 4503599627370496)%Z, 1%Z. split; [lia|]. split; [lia|].
      change (powerRZ 2 1) with (2 * 1). lra.
  - exists z, 0%Z. split; [lia|]. split; [lia|]. simpl. ring.
Qed.

Lemma round_IZR (z : Z) : (Z.abs z <= 2 ^ 53)%Z -> round (IZR z) = IZR z.
Proof. intros Hz. apply round_exact, representable_IZR, Hz. Qed.

Lemma fl_finite (x : R) :
  - overflowAt < x < overflowAt -> fl x = Fin (round x).
Proof.
  intros [H1 H2]. unfold fl.
  destruct (Rle_dec overflowAt x); [lra|].
  destruct (Rle_dec x (- overflowAt)); [lra|]. reflexivity.
Qed.


Lemma powerRZ_2_pos (e : Z) : 0 < powerRZ 2 e.
Proof. apply powerRZ_lt. lra. Qed.

Lemma powerRZ_2_nonneg (n : Z) : (0 <= n)%Z -> powerRZ 2 n = IZR (2 ^ n).
Proof.
  intros Hn. destruct n as [|p|p]; [reflexivity| |lia].
  simpl powerRZ. rewrite pow_IZR, positive_nat_Z. reflexivity.
Qed.

Lemma powerRZ_2_split (e e' : Z) :
  (e <= e')%Z -> powerRZ 2 e' = IZR (2 ^ (e' - e)) * powerRZ 2 e.
Proof.
  intros H. rewrite <- powerRZ_2_nonneg by lia.
  rewrite <- powerRZ_add by lra. f_equal. lia.
Qed.

(** No other double lies within a step of a double whose significand is
    above [2^52]. *)
Lemma spacing (m e : Z) (r : R) :
  (2 ^ 52 < Z.abs m < 2 ^ 53)%Z -> (-1074 <= e <= 971)%Z ->
  representable r ->
  Rabs (r - IZR m * powerRZ 2 e) < powerRZ 2 e ->
  r = IZR m * powerRZ 2 e.
Proof.
  intros Hm He (m' & e' & Hm' & He' & ->) Hlt.
  pose proof (powerRZ_2_pos e) as Pe. pose proof (powerRZ_2_pos e') as Pe'.
  destruct (Z_le_gt_dec e e') as [Hle|Hgt].
  - rewrite (powerRZ_2_split e e' Hle) in *.
    replace (IZR m' * (IZR (2 ^ (e' - e)) * powerRZ 2 e) - IZR m * powerRZ 2 e)
      with (IZR (m' * 2 ^ (e' - e) - m) * powerRZ 2 e) in Hlt
      by (rewrite minus_IZR, mult_IZR; ring).
    rewrite Rabs_mult, (Rabs_pos_eq (powerRZ 2 e)), <- abs_IZR in Hlt by lra.
    assert (IZR (Z.abs (m' * 2 ^ (e' - e) - m)) < 1) as H1 by nra.
    apply lt_IZR in H1.
    assert (m' * 2 ^ (e' - e) = m)%Z as <- by lia.
    rewrite mult_IZR. ring.
  - exfalso.
    assert (e' <= e)%Z as Hle by lia.
    rewrite (powerRZ_2_split e' e Hle) in Hlt.
    replace (IZR m' * powerRZ 2 e' - IZR m * (IZR (2 ^ (e - e')) * powerRZ 2 e'))
      with (IZR (m' - m * 2 ^ (e - e')) * powerRZ 2 e') in Hlt
      by (rewrite minus_IZR, mult_IZR; ring).
    rewrite Rabs_mult, (Rabs_pos_eq (powerRZ 2 e')), <- abs_IZR in Hlt by lra.
    assert (IZR (Z.abs (m' - m * 2 ^ (e - e'))) < IZR (2 ^ (e - e'))) as H1 by nra.
    apply lt_IZR in H1.
    assert (2 <= 2 ^ (e - e'))%Z as HK.
    { change 2%Z with (2 ^ 1)%Z at 1. apply Z.pow_le_mono_r; lia. }
    set (K := (2 ^ (e - e'))%Z) in *.
    assert (Z.abs (m * K) = Z.abs m * K)%Z as HmK by (rewrite Z.abs_mul; lia).
    nia.
Qed.

(** A real within half a step of such a double rounds to it. *)
Lemma round_near (m e : Z) (x : R) :
  (2 ^ 52 < Z.abs m < 2 ^ 53)%Z -> (-1074 <= e <= 971)%Z ->
  Rabs (x - IZR m * powerRZ 2 e) < powerRZ 2 e / 2 ->
  round x = IZR m * powerRZ 2 e.
Proof.
  intros Hm He Hx. apply spacing; [exact Hm|exact He|apply round_representable|].
  assert (Hd : representable (IZR m * powerRZ 2 e))
    by (apply representable_scaled; lia).
  pose proof (round_nearest x _ Hd) as Hn.
  replace (round x - IZR m * powerRZ 2 e)
    with ((x - IZR m * powerRZ 2 e) - (x - round x)) by ring.
  eapply Rle_lt_trans; [apply Rabs_triang|]. rewrite Rabs_Ropp. lra.
Qed.

Lemma powerRZ_2_neg (n : Z) : (0 <= n)%Z -> powerRZ 2 (- n) = / IZR (2 ^ n).
Proof.
  intros Hn. rewrite <- powerRZ_2_nonneg by exact Hn.
  rewrite powerRZ_neg'. reflexivity.
Qed.

Lemma overflowAt_large : 18014398509481983 <= overflowAt.
Proof.
  unfold overflowAt. rewrite powerRZ_2_nonneg by lia.
  assert (1 <= IZR (2 ^ 970)) by (apply (IZR_le 1); lia).
  change (IZR (2 ^ 54 - 1)) with 18014398509481983. nra.
Qed.

Lemma overflowAt_huge : IZR (2 ^ 1023) < overflowAt.
Proof.
  unfold overflowAt. rewrite powerRZ_2_nonneg by lia. rewrite <- mult_IZR.
  apply IZR_lt. vm_compute. reflexivity.
Qed.

Lemma round_lower (lo x : R) : representable lo -> lo <= x -> lo <= round x.
Proof.
  intros Hlo H. rewrite <- (round_exact lo Hlo). now apply round_mono.
Qed.

Lemma round_upper (hi x : R) : representable hi -> x <= hi -> round x <= hi.
Proof.
  intros Hhi H. rewrite <- (round_exact hi Hhi). now apply round_mono.
Qed.

(** Powers of two with a literal exponent, as numerals. *)
Ltac pow2 :=
  repeat match goal with
  | |- context [powerRZ 2 (Zneg ?p)] =>
      change (powerRZ 2 (Zneg p)) with (powerRZ 2 (- Zpos p));
      rewrite (powerRZ_2_neg (Zpos p)) by lia;
      let v := eval vm_compute in (2 ^ Zpos p)%Z in
      change (IZR (2 ^ Zpos p)) with (IZR v)
  | |- context [powerRZ 2 (Zpos ?p)] =>
      rewrite (powerRZ_2_nonneg (Zpos p)) by lia;
      let v := eval vm_compute in (2 ^ Zpos p)%Z in
      change (IZR (2 ^ Zpos p)) with (IZR v)
  | |- context [powerRZ 2 0] => change (powerRZ 2 0) with 1
  end.

(** A real given as a significand and an exponent is a double. *)
Ltac dyadic m e :=
  match goal with
  | |- representable ?x =>
      replace x with (IZR m * powerRZ 2 e) by (pow2; lra);
      apply representable_scaled; lia
  end.

End DoubleFacts.


(** ** Distance estimator *)

Section Haversine.

Local Open Scope R_scope.

Lemma toRad_opp x : toRad (- x) = - toRad x.
Proof. unfold toRad. lra. Qed.

Lemma sin_half_sqr_opp x : sin (- x / 2) ^ 2 = sin (x / 2) ^ 2.
Proof.
  replace (- x / 2) with (- (x / 2)) by lra.
  rewrite sin_neg. ring.
Qed.

(** [asin] is non-negative on the unit interval. *)
Lemma asin_nonneg x : 0 <= x <= 1 -> 0 <= asin x.
Proof.
  intros Hx.
  destruct (Rle_lt_dec 0 (asin x)) as [H|H]; [exact H|].
  pose proof (asin_bound x) as [Hlo _].
  assert (Hs : sin (asin x) < 0).
  { apply sin_lt_0_var; [|exact H]. pose proof PI_RGT_0. lra. }
  rewrite sin_asin in Hs by lra. lra.
Qed.

Lemma Rmin_1_sqrt_unit s : 0 <= Rmin 1 (sqrt s) <= 1.
Proof.
  split.
  - apply Rmin_glb; [lra | apply sqrt_pos].
  - apply Rmin_l.
Qed.

Lemma haversineKm_sym a b : haversineKm a b = haversineKm b a.
Proof.
  unfold haversineKm. cbv zeta.
  replace (ll_lat a - ll_lat b) with (- (ll_lat b - ll_lat a)) by lra.
  replace (ll_lon a - ll_lon b) with (- (ll_lon b - ll_lon a)) by lra.
  rewrite !toRad_opp, !sin_half_sqr_opp.
  rewrite (Rmult_comm (cos (toRad (ll_lat b)))). reflexivity.
Qed.

(** Two locations with the same coordinates are at distance zero, whatever
    their precision tags. *)
Lemma haversineKm_same a b :
  ll_lat a = ll_lat b -> ll_lon a = ll_lon b -> haversineKm a b = 0.
Proof.
  intros Hlat Hlon. unfold haversineKm. cbv zeta. rewrite Hlat, Hlon.
  replace (ll_lat b - ll_lat b) with 0 by lra.
  replace (ll_lon b - ll_lon b) with 0 by lra.
  replace (toRad 0 / 2) with 0 by (unfold toRad; lra).
  rewrite sin_0.
  replace (0 ^ 2 + cos (toRad (ll_lat b)) * cos (toRad (ll_lat b)) * 0 ^ 2)
    with 0 by ring.
  rewrite sqrt_0, Rmin_right by lra. rewrite asin_0. ring.
Qed.

Lemma haversineKm_range a b : 0 <= haversineKm a b <= 6371 * PI.
Proof.
  unfold haversineKm. cbv zeta.
  match goal with |- context [asin ?x] =>
    pose proof (asin_nonneg x (Rmin_1_sqrt_unit _));
    pose proof (asin_bound x) as [_ Hu]
  end.
  lra.
Qed.

(** Along a meridian the distance is the arc between the two latitudes. *)
Lemma haversineKm_meridian a b :
  ll_lon a = ll_lon b -> 0 <= ll_lat b - ll_lat a <= 180 ->
  haversineKm a b = 6371 * ((ll_lat b - ll_lat a) * PI / 180).
Proof.
  intros Hlon Hlat. unfold haversineKm, toRad. cbv zeta. rewrite Hlon.
  pose proof PI_RGT_0 as Hpi.
  set (y := (ll_lat b - ll_lat a) * PI / 180 / 2).
  assert (Hy : 0 <= y <= PI / 2) by (unfold y; split; nra).
  replace ((ll_lon b - ll_lon b) * PI / 180 / 2) with 0 by lra.
  rewrite sin_0.
  replace (sin y ^ 2 + cos (ll_lat a * PI / 180) * cos (ll_lat b * PI / 180) * 0 ^ 2)
    with (sin y * sin y) by ring.
  assert (Hs : 0 <= sin y) by (apply sin_ge_0; lra).
  rewrite sqrt_square by exact Hs.
  rewrite Rmin_right by (pose proof (SIN_bound y); lra).
  rewrite asin_sin by lra. unfold y. lra.
Qed.

End Haversine.

(** C8. The distance is symmetric, vanishes between a point and itself,
    and is never negative (nor above half of the circumference of a sphere
    of radius 6371 km).  It is the haversine formula of the great circle on
    a sphere of radius 6371: the coordinates are degrees, turned into
    radians by the factor [PI / 180], and along a meridian the result is the
    difference of the latitudes in degrees times the [6371 * PI / 180]
    kilometres of one degree. *)
Theorem haversineKm_metric (a b : LatLon) :
  haversineKm a b = haversineKm b a /\
  haversineKm a a = 0%R /\
  (0 <= haversineKm a b <= 6371 * PI)%R /\
  haversineKm a b
  = (6371 * (2 * asin (Rmin 1 (sqrt
       (sin ((ll_lat b - ll_lat a) * PI / 180 / 2) ^ 2
        + cos (ll_lat a * PI / 180) * cos (ll_lat b * PI / 180)
          * sin ((ll_lon b - ll_lon a) * PI / 180 / 2) ^ 2)))))%R /\
  (ll_lon a = ll_lon b -> (0 <= ll_lat b - ll_lat a <= 180)%R ->
   haversineKm a b = (6371 * ((ll_lat b - ll_lat a) * PI / 180))%R).
Proof.
  split; [apply haversineKm_sym|].
  split; [apply haversineKm_same; reflexivity|].
  split; [apply haversineKm_range|].
  split; [reflexivity|].
  apply haversineKm_meridian.
Qed.

(** A quarter of a meridian, from the equator to the pole. *)
Lemma haversineKm_metric_witness :
  haversineKm (mkLatLon 0 0 PrecProv "" "") (mkLatLon 90 0 PrecProv "" "")
  = (6371 * PI / 2)%R.
Proof.
  destruct (haversineKm_metric (mkLatLon 0 0 PrecProv "" "")
              (mkLatLon 90 0 PrecProv "" "")) as (_ & _ & _ & _ & M).
  rewrite M; cbn [ll_lat ll_lon]; [lra|reflexivity|lra].
Defined.

(** A quarter of a meridian, from the equator to the pole. *)
Example haversineKm_quarter :
  haversineKm (mkLatLon 0 0 PrecProv "" "") (mkLatLon 90 0 PrecProv "" "")
  = (6371 * PI / 2)%R.
Proof.
  unfold haversineKm. cbn [ll_lat ll_lon].
  replace (toRad (90 - 0) / 2)%R with (PI / 4)%R by (unfold toRad; lra).
  replace (toRad (0 - 0) / 2)%R with 0%R by (unfold toRad; lra).
  rewrite sin_0, sin_PI4.
  assert (Hs : (0 < sqrt 2)%R) by (apply sqrt_lt_R0; lra).
  replace ((1 / sqrt 2) ^ 2 + cos (toRad 0) * cos (toRad 90) * 0 ^ 2)%R
    with (/ sqrt 2 * / sqrt 2)%R by (field; lra).
  rewrite sqrt_square by (left; apply Rinv_0_lt_compat, Hs).
  rewrite Rmin_right.
  2:{ assert (H1 : (sqrt 1 <= sqrt 2)%R) by (apply sqrt_le_1; lra).
      rewrite sqrt_1 in H1.
      apply Rle_trans with (/ 1)%R; [apply Rinv_le_contravar; lra | rewrite Rinv_1; lra]. }
  rewrite asin_inv_sqrt2. lra.
Qed.

Section Factor.

Local Open Scope R_scope.

Lemma sgn_pos r : 0 < r -> sgn r = Gt.
Proof.
  intros H. unfold sgn.
  destruct (total_order_T r 0) as [[H'|H']|H']; [lra | lra | reflexivity].
Qed.

Lemma clamp_bounds x lo hi : lo <= hi -> lo <= clamp x lo hi <= hi.
Proof.
  intros H. destruct x; simpl; try lra.
  split; [apply Rmax_l|].
  apply Rmax_lub; [exact H | apply Rmin_l].
Qed.

(** The table, entry by entry. *)
Lemma PROV_PENALTY_table r :
  PROV_PENALTY !! r =
  if String.eqb r "QC" then Some 5.40
  else if String.eqb r "ON" then Some 6.00
  else if String.eqb r "BC" then Some 8.00
  else if String.eqb r "AB" then Some 7.00
  else if String.eqb r "MB" then Some 6.50
  else if String.eqb r "SK" then Some 6.50
  else if String.eqb r "NB" then Some 5.80
  else if String.eqb r "NS" then Some 5.80
  else if String.eqb r "PE" then Some 5.80
  else if String.eqb r "NL" then Some 6.20
  else if String.eqb r "YT" then Some 8.50
  else if String.eqb r "NT" then Some 9.00
  else if String.eqb r "NU" then Some 9.50
  else None.
Proof.
  unfold PROV_PENALTY. cbn [list_to_map foldr fst snd].
  repeat match goal with
  | |- context [String.eqb r ?k] =>
      destruct (String.eqb_spec r k) as [->|?];
      [vm_compute; reflexivity | rewrite lookup_insert_ne by congruence]
  end.
  apply lookup_empty.
Qed.

Lemma PROV_PENALTY_range r p : PROV_PENALTY !! r = Some p -> 5 <= p <= 10.
Proof.
  rewrite PROV_PENALTY_table.
  repeat (destruct (String.eqb r _); [intros [= <-]; lra|]).
  discriminate.
Qed.

Lemma PROV_PENALTY_inherited r : r ∈ inheritedNames -> PROV_PENALTY !! r = None.
Proof.
  unfold inheritedNames. intros H.
  repeat (apply elem_of_cons in H as [->|H]; [vm_compute; reflexivity|]).
  inversion H.
Qed.

Lemma lit_pos x : 1 <= x -> 0 < Double.lit x.
Proof.
  intros H. unfold Double.lit.
  assert (1 <= Double.round x); [|lra].
  apply DoubleFacts.round_lower; [|exact H].
  apply (DoubleFacts.representable_IZR 1). lia.
Qed.

(** What [PROV_PENALTY[prov] || 6.0] multiplies by. *)
Lemma penaltyOf_cases r :
  (exists p, PROV_PENALTY !! r = Some p /\ (r ∉ inheritedNames) /\
             penaltyOf r = Fin (Double.round p) /\ 0 < Double.round p) \/
  (PROV_PENALTY !! r = None /\ (r ∉ inheritedNames) /\ penaltyOf r = Fin 6) \/
  (r ∈ inheritedNames /\ penaltyOf r = NaN).
Proof.
  unfold penaltyOf. destruct (PROV_PENALTY !! r) as [p|] eqn:E.
  - left. exists p. split; [reflexivity|]. split.
    + intros Hin. apply PROV_PENALTY_inherited in Hin. congruence.
    + split; [reflexivity|]. apply lit_pos.
      apply PROV_PENALTY_range in E. lra.
  - destruct (decide (r ∈ inheritedNames)) as [Hin|Hin].
    + right. right. auto.
    + right. left. replace 6.0 with 6 by lra. auto.
Qed.

(** A product of finite numbers is rounded, or overflows. *)
Lemma fl_cases x :
  (- Double.overflowAt < x < Double.overflowAt /\ Double.fl x = Fin (Double.round x)) \/
  (~ (- Double.overflowAt < x < Double.overflowAt) /\
   (Double.fl x = PInf \/ Double.fl x = NInf)).
Proof.
  unfold Double.fl.
  destruct (Rle_dec Double.overflowAt x) as [H1|H1]; [right; split; [lra|auto]|].
  destruct (Rle_dec x (- Double.overflowAt)) as [H2|H2]; [right; split; [lra|auto]|].
  left. split; [lra|reflexivity].
Qed.

(** Multiplying by a positive finite number keeps an infinity and [NaN]. *)
Lemma mul_pos_r x p :
  0 < p -> isFinite x = false -> mul x (Fin p) = x.
Proof.
  intros H Hx. destruct x; try discriminate; simpl; rewrite ?(sgn_pos _ H); reflexivity.
Qed.

Lemma clamp_not_finite x lo hi : isFinite x = false -> clamp x lo hi = lo.
Proof. destruct x; [discriminate|reflexivity..]. Qed.

Lemma mul_NaN_r x : mul x NaN = NaN.
Proof. destruct x; reflexivity. Qed.

Lemma effectiveDriveFactor_range base t k : 1 <= effectiveDriveFactor base t k <= 12.
Proof. unfold effectiveDriveFactor. apply clamp_bounds. lra. Qed.

(** The ticket's step of [effectiveDriveFactor] keeps a number outside the
    finite ones there, and so does the technician's step. *)
Lemma ticket_step base (t : option LatLon) :
  isFinite base = false ->
  isFinite (match t with
            | Some l => if decide (ll_prec l = PrecProv)
                        then mul base (penaltyOf (ll_prov l)) else base
            | None => base
            end) = false.
Proof.
  intros Hb. destruct t as [t|]; [|exact Hb].
  destruct (decide _); [|exact Hb].
  destruct (penaltyOf_cases (ll_prov t)) as [(p & _ & _ & -> & Hp)|[(_ & _ & ->)|(_ & ->)]].
  - rewrite mul_pos_r; auto.
  - rewrite mul_pos_r; auto. lra.
  - rewrite mul_NaN_r. reflexivity.
Qed.

Lemma technician_step m (k : option LatLon) :
  isFinite m = false ->
  clamp (match k with
         | Some l => if decide (ll_prec l = PrecProv)
                     then mul m (Fin (Double.lit 1.8)) else m
         | None => m
         end) 1 12 = 1.
Proof.
  intros Hm. apply clamp_not_finite.
  destruct k as [l|]; [|exact Hm]. destruct (decide _); [|exact Hm].
  rewrite mul_pos_r; [exact Hm| |exact Hm]. apply lit_pos. lra.
Qed.

Lemma effectiveDriveFactor_not_finite base t k :
  isFinite base = false -> effectiveDriveFactor base t k = 1.
Proof.
  intros Hb. unfold effectiveDriveFactor.
  apply technician_step, ticket_step, Hb.
Qed.

Lemma fl_not_finite x :
  ~ (- Double.overflowAt < x < Double.overflowAt) -> isFinite (Double.fl x) = false.
Proof.
  intros H. destruct (fl_cases x) as [[Hw _]|[_ [-> | ->]]]; [contradiction|reflexivity..].
Qed.

(** The region of a location that [latLonForPostal] returns is in upper
    case, so it is no inherited name. *)
Lemma inheritedNames_lower r : r ∈ inheritedNames -> Str.toUpperCase r <> r.
Proof.
  unfold inheritedNames. intros H.
  repeat (apply elem_of_cons in H as [->|H]; [vm_compute; discriminate|]).
  inversion H.
Qed.

Lemma provFromFirstLetter_upper ch :
  Str.toUpperCase (provFromFirstLetter ch) = provFromFirstLetter ch.
Proof.
  unfold provFromFirstLetter. cbv zeta.
  repeat match goal with
  | |- context [if ?b then _ else _] => destruct b; [reflexivity|]
  end.
  reflexivity.
Qed.

Lemma provOf_upper POSTAL_PROV p provHint :
  Str.toUpperCase (provOf POSTAL_PROV p provHint) = provOf POSTAL_PROV p provHint.
Proof.
  unfold provOf. destruct (Str.truthy provHint).
  - rewrite StrFacts.trim_toUpperCase. apply StrFacts.toUpperCase_idem.
  - unfold provForPostal. cbv zeta.
    destruct (negb _); [reflexivity|].
    destruct (POSTAL_PROV !! _) as [prov|]; [|apply provFromFirstLetter_upper].
    destruct (Str.truthy prov);
      [apply StrFacts.toUpperCase_idem | apply provFromFirstLetter_upper].
Qed.

Lemma latLonForPostal_prov TECHS POSTAL_PROV p6 cityHint provHint l :
  latLonForPostal TECHS POSTAL_PROV p6 cityHint provHint = Some l ->
  ll_prov l ∉ inheritedNames.
Proof.
  unfold latLonForPostal. cbv zeta.
  destruct (negb _); [discriminate|].
  assert (U := provOf_upper POSTAL_PROV (normalizePostal p6) provHint).
  intros H Hin. apply inheritedNames_lower in Hin. apply Hin.
  repeat match type of H with
  | match ?x with _ => _ end = Some _ => destruct x
  end; try discriminate; injection H as <-; exact U.
Qed.

End Factor.

(** C6. The factor starts from the base factor.  When the ticket's
    precision is the region it is multiplied by the penalty of the
    region, which is the entry of the table (each entry is pinned), and 6.0
    for a region that is not in the table; when the technician's precision
    is the region it is multiplied by 1.8.  The products are those of the
    code: each is rounded to a double, and one that overflows is infinite.
    The result is clamped to [1, 12]; it is 1 for a base factor that is not
    finite and for a product that overflowed.  A key that is a name
    inherited by the table reads as no number and gives 1; no location
    that [latLonForPostal] returns has such a name as its region. *)
Theorem effectiveDriveFactor_clamped (base : num) (b : R) (ticketLL techLL : option LatLon) :
  let region (x : option LatLon) := exists l, x = Some l /\ ll_prec l = PrecProv in
  let within (x : R) := (- Double.overflowAt < x < Double.overflowAt)%R in
  let clamped (x : R) := Rmax 1 (Rmin 12 x) in
  let penalty (r : string) :=
    match PROV_PENALTY !! r with Some p => Double.round p | None => 6%R end in
  let inherited : list string :=
    [ "constructor"; "hasOwnProperty"; "isPrototypeOf"; "propertyIsEnumerable";
      "toLocaleString"; "toString"; "valueOf"; "__proto__";
      "__defineGetter__"; "__defineSetter__"; "__lookupGetter__";
      "__lookupSetter__" ] in
  (1 <= effectiveDriveFactor base ticketLL techLL <= 12)%R /\
  (isFinite base = false -> effectiveDriveFactor base ticketLL techLL = 1%R) /\
  (forall r,
     PROV_PENALTY !! r =
     if String.eqb r "QC" then Some 5.40%R
     else if String.eqb r "ON" then Some 6.00%R
     else if String.eqb r "BC" then Some 8.00%R
     else if String.eqb r "AB" then Some 7.00%R
     else if String.eqb r "MB" then Some 6.50%R
     else if String.eqb r "SK" then Some 6.50%R
     else if String.eqb r "NB" then Some 5.80%R
     else if String.eqb r "NS" then Some 5.80%R
     else if String.eqb r "PE" then Some 5.80%R
     else if String.eqb r "NL" then Some 6.20%R
     else if String.eqb r "YT" then Some 8.50%R
     else if String.eqb r "NT" then Some 9.00%R
     else if String.eqb r "NU" then Some 9.50%R
     else None) /\
  (~ region ticketLL -> ~ region techLL ->
   effectiveDriveFactor (Fin b) ticketLL techLL = clamped b) /\
  (~ region ticketLL -> region techLL ->
   (within (b * Double.round 1.8) ->
    effectiveDriveFactor (Fin b) ticketLL techLL
    = clamped (Double.round (b * Double.round 1.8))) /\
   (~ within (b * Double.round 1.8) ->
    effectiveDriveFactor (Fin b) ticketLL techLL = 1%R)) /\
  (forall l, ticketLL = Some l -> ll_prec l = PrecProv ->
     ll_prov l ∉ inherited ->
     let p := penalty (ll_prov l) in
     (~ region techLL ->
      (within (b * p) ->
       effectiveDriveFactor (Fin b) ticketLL techLL = clamped (Double.round (b * p))) /\
      (~ within (b * p) ->
       effectiveDriveFactor (Fin b) ticketLL techLL = 1%R)) /\
     (region techLL ->
      (within (b * p) -> within (Double.round (b * p) * Double.round 1.8) ->
       effectiveDriveFactor (Fin b) ticketLL techLL
       = clamped (Double.round (Double.round (b * p) * Double.round 1.8))) /\
      (~ (within (b * p) /\ within (Double.round (b * p) * Double.round 1.8)) ->
       effectiveDriveFactor (Fin b) ticketLL techLL = 1%R))) /\
  (forall l, ticketLL = Some l -> ll_prec l = PrecProv ->
     ll_prov l ∈ inherited ->
     effectiveDriveFactor base ticketLL techLL = 1%R) /\
  (forall TECHS POSTAL_PROV p6 cityHint provHint l,
     latLonForPostal TECHS POSTAL_PROV p6 cityHint provHint = Some l ->
     ll_prov l ∉ inherited).
Proof.
  intros region within clamped penalty inherited.
  change inherited with inheritedNames in *. clear inherited.
  assert (Hfl : forall x, within x -> Double.fl x = Fin (Double.round x)).
  { intros x Hx. apply DoubleFacts.fl_finite. exact Hx. }
  assert (Hover : forall x, ~ within x -> isFinite (Double.fl x) = false).
  { intros x Hx. apply fl_not_finite, Hx. }
  assert (Hno : forall l, ~ region (Some l) -> ll_prec l <> PrecProv).
  { intros l H E. apply H. exists l. auto. }
  assert (Hyes : forall l, region (Some l) -> ll_prec l = PrecProv).
  { intros l (l' & [= <-] & E). exact E. }
  assert (Hnone : ~ region None) by (intros (l & E & _); discriminate).
  split; [apply effectiveDriveFactor_range|].
  split; [apply effectiveDriveFactor_not_finite|].
  split; [apply PROV_PENALTY_table|].
  split.
  { intros Ht Hk. unfold effectiveDriveFactor. cbv zeta.
    destruct ticketLL as [t|], techLL as [k|];
      repeat match goal with
      | |- context [decide (ll_prec ?l = PrecProv)] =>
          let E := fresh "E" in
          destruct (decide (ll_prec l = PrecProv)) as [E|E];
          [exfalso; first [exact (Hno _ Ht E) | exact (Hno _ Hk E)]|]
      end; reflexivity. }
  split.
  { intros Ht Hk. unfold effectiveDriveFactor. cbv zeta.
    destruct techLL as [k|]; [|contradiction].
    destruct (decide (ll_prec k = PrecProv)) as [Ek|Ek];
      [|exfalso; exact (Ek (Hyes _ Hk))].
    assert (Em : match ticketLL with
                 | Some t0 => if decide (ll_prec t0 = PrecProv)
                              then mul (Fin b) (penaltyOf (ll_prov t0)) else Fin b
                 | None => Fin b
                 end = Fin b).
    { destruct ticketLL as [t|]; [|reflexivity].
      destruct (decide _) as [E|E]; [exfalso; exact (Hno _ Ht E)|reflexivity]. }
    rewrite Em. change (mul (Fin b) (Fin (Double.lit 1.8)))
      with (Double.fl (b * Double.round 1.8)). split.
    - intros Hw. rewrite (Hfl _ Hw). reflexivity.
    - intros Hw. apply clamp_not_finite, Hover, Hw. }
  split.
  { intros l -> Hl Hin p.
    assert (Hp : penaltyOf (ll_prov l) = Fin p).
    { subst p penalty. cbv beta.
      destruct (penaltyOf_cases (ll_prov l))
        as [(q & Eq & _ & -> & _)|[(Eq & _ & ->)|(Hin' & _)]];
        [rewrite Eq; reflexivity | rewrite Eq; reflexivity | contradiction]. }
    unfold effectiveDriveFactor. cbv zeta.
    destruct (decide (ll_prec l = PrecProv)); [|contradiction].
    rewrite Hp. change (mul (Fin b) (Fin p)) with (Double.fl (b * p)). split.
    - intros Hk.
      assert (Em : forall m : num,
                 match techLL with
                 | Some k0 => if decide (ll_prec k0 = PrecProv)
                              then mul m (Fin (Double.lit 1.8)) else m
                 | None => m
                 end = m).
      { intros m. destruct techLL as [k|]; [|reflexivity].
        destruct (decide _) as [E|E]; [exfalso; exact (Hno _ Hk E)|reflexivity]. }
      rewrite Em. split.
      + intros Hw. rewrite (Hfl _ Hw). reflexivity.
      + intros Hw. apply clamp_not_finite, Hover, Hw.
    - intros Hk. destruct techLL as [k|]; [|contradiction].
      destruct (decide (ll_prec k = PrecProv)) as [Ek|Ek];
        [|exfalso; exact (Ek (Hyes _ Hk))].
      split.
      + intros Hw1 Hw2. rewrite (Hfl _ Hw1).
        change (mul (Fin (Double.round (b * p))) (Fin (Double.lit 1.8)))
          with (Double.fl (Double.round (b * p) * Double.round 1.8)).
        rewrite (Hfl _ Hw2). reflexivity.
      + intros Hw.
        destruct (fl_cases (b * p)) as [[Hw1 E1]|[Hw1 E1]].
        * rewrite E1.
          change (mul (Fin (Double.round (b * p))) (Fin (Double.lit 1.8)))
            with (Double.fl (Double.round (b * p) * Double.round 1.8)).
          apply clamp_not_finite, Hover. intros Hw2. apply Hw. auto.
        * apply clamp_not_finite. rewrite mul_pos_r; [| apply lit_pos; lra |];
            destruct E1 as [-> | ->]; reflexivity. }
  split.
  { intros l -> Hl Hin. unfold effectiveDriveFactor. cbv zeta.
    destruct (decide (ll_prec l = PrecProv)); [|contradiction].
    destruct (penaltyOf_cases (ll_prov l))
      as [(q & _ & Hq & _)|[(_ & Hq & _)|(_ & ->)]]; [contradiction..|].
    rewrite mul_NaN_r. apply technician_step. reflexivity. }
  intros TECHS POSTAL_PROV p6 cityHint provHint l. apply latLonForPostal_prov.
Qed.

(** British Columbia, whose penalty is 8; Quebec, whose penalty is the
    double next to 5.4; a base factor of 1e308, whose product with 8
    overflows; and a region named like an inherited property. *)
Lemma effectiveDriveFactor_clamped_witness :
  effectiveDriveFactor (Fin 1.25)
    (Some (mkLatLon 49.2827 (-123.1207) PrecProv "BC" ""))
    (Some (mkLatLon 49.8951 (-97.1384) PrecPostal "MB" "WINNIPEG"))
  = 10%R /\
  effectiveDriveFactor (Fin 1)
    (Some (mkLatLon 45.5017 (-73.5673) PrecProv "QC" ""))
    None
  = Double.round 5.40%R /\
  effectiveDriveFactor (Fin 1e308)
    (Some (mkLatLon 49.2827 (-123.1207) PrecProv "BC" ""))
    None
  = 1%R /\
  effectiveDriveFactor (Fin 1.25)
    (Some (mkLatLon 49.2827 (-123.1207) PrecProv "constructor" ""))
    None
  = 1%R.
Proof.
  pose proof DoubleFacts.overflowAt_large as Hbig.
  assert (R8 : Double.round 8 = 8%R) by (apply (DoubleFacts.round_IZR 8); lia).
  assert (R10 : Double.round 10 = 10%R) by (apply (DoubleFacts.round_IZR 10); lia).
  assert (Hq : (5 <= Double.round 5.40 <= 6)%R).
  { apply DoubleFacts.round_bounds; [| |lra].
    - apply (DoubleFacts.representable_IZR 5). lia.
    - apply (DoubleFacts.representable_IZR 6). lia. }
  assert (Hk : ~ (exists l : LatLon,
                   Some (mkLatLon 49.8951 (-97.1384) PrecPostal "MB" "WINNIPEG") = Some l
                   /\ ll_prec l = PrecProv))
    by (intros (l & [= <-] & Hl); discriminate).
  assert (Hn : ~ (exists l : LatLon, None = Some l /\ ll_prec l = PrecProv))
    by (intros (l & Hl & _); discriminate).
  split; [|split; [|split]].
  - destruct (effectiveDriveFactor_clamped NaN 1.25
                (Some (mkLatLon 49.2827 (-123.1207) PrecProv "BC" ""))
                (Some (mkLatLon 49.8951 (-97.1384) PrecPostal "MB" "WINNIPEG")))
      as (_ & _ & T & _ & _ & P & _).
    destruct (P _ eq_refl eq_refl) as [Q _].
    { vm_compute. intros H. repeat (apply elem_of_cons in H as [H|H]; [discriminate|]).
      inversion H. }
    destruct (Q Hk) as [E _]. revert E.
    cbn [ll_prov]. rewrite (T "BC"). cbn [String.eqb Ascii.eqb Bool.eqb].
    replace 8.00%R with 8%R by lra. rewrite R8.
    replace (1.25 * 8)%R with 10%R by lra. rewrite R10.
    intros E. rewrite E by lra.
    rewrite Rmin_right by lra. rewrite Rmax_right by lra. reflexivity.
  - destruct (effectiveDriveFactor_clamped NaN 1
                (Some (mkLatLon 45.5017 (-73.5673) PrecProv "QC" "")) None)
      as (_ & _ & T & _ & _ & P & _).
    destruct (P _ eq_refl eq_refl) as [Q _].
    { vm_compute. intros H. repeat (apply elem_of_cons in H as [H|H]; [discriminate|]).
      inversion H. }
    destruct (Q Hn) as [E _]. revert E.
    cbn [ll_prov]. rewrite (T "QC"). cbn [String.eqb Ascii.eqb Bool.eqb].
    rewrite Rmult_1_l.
    rewrite (DoubleFacts.round_exact (Double.round 5.40))
      by apply DoubleFacts.round_representable.
    intros E. rewrite E by lra.
    rewrite Rmin_right by lra. rewrite Rmax_right by lra. reflexivity.
  - destruct (effectiveDriveFactor_clamped NaN 1e308
                (Some (mkLatLon 49.2827 (-123.1207) PrecProv "BC" "")) None)
      as (_ & _ & T & _ & _ & P & _).
    destruct (P _ eq_refl eq_refl) as [Q _].
    { vm_compute. intros H. repeat (apply elem_of_cons in H as [H|H]; [discriminate|]).
      inversion H. }
    destruct (Q Hn) as [_ E]. apply E.
    cbn [ll_prov]. rewrite (T "BC"). cbn [String.eqb Ascii.eqb Bool.eqb].
    replace 8.00%R with 8%R by lra. rewrite R8.
    assert (Hov : (Double.overflowAt <= IZR (10 ^ 308) * 8)%R).
    { unfold Double.overflowAt. rewrite DoubleFacts.powerRZ_2_nonneg by lia.
      rewrite <- !mult_IZR. apply IZR_le, Z.leb_le. vm_compute. reflexivity. }
    assert (H10 : (1e308 = IZR (10 ^ 308))%R).
    { change (1e308)%R with (1 * IZR (Z.pow_pos 10 308))%R.
      change (Z.pow_pos 10 308) with (10 ^ 308)%Z. lra. }
    rewrite H10. lra.
  - destruct (effectiveDriveFactor_clamped (Fin 1.25) 1.25
                (Some (mkLatLon 49.2827 (-123.1207) PrecProv "constructor" "")) None)
      as (_ & _ & _ & _ & _ & _ & P & _).
    apply (P _ eq_refl eq_refl). cbn [ll_prov]. left.
Defined.

Section Eta.

Local Open Scope R_scope.

Lemma Math_floor_spec x : IZR (Math_floor x) <= x < IZR (Math_floor x) + 1.
Proof. unfold Math_floor. pose proof (base_Int_part x). lra. Qed.

Lemma Math_floor_unique x z : IZR z <= x < IZR z + 1 -> Math_floor x = z.
Proof. intros H. symmetry. apply Int_part_spec. lra. Qed.

(** [Math.round] returns the nearest integer, the upper one on a tie. *)
Lemma Math_round_spec x : x - / 2 < IZR (Math_round x) <= x + / 2.
Proof. unfold Math_round. pose proof (base_Int_part (x + / 2)). lra. Qed.

Lemma Math_round_unique x z : x - / 2 < IZR z <= x + / 2 -> Math_round x = z.
Proof. intros H. symmetry. apply Int_part_spec. lra. Qed.

Lemma Math_floor_pos_iff x : (0 < Math_floor x)%Z <-> 1 <= x.
Proof.
  pose proof (Math_floor_spec x) as [Hl Hu]. split; intros H.
  - assert (1 <= IZR (Math_floor x)) by (apply (IZR_le 1); lia). lra.
  - apply lt_IZR. lra.
Qed.

(** The settings are finite and inside their bounds whatever was typed. *)
Lemma clamped_setting lo hi d x :
  lo <= hi -> exists v, Math_max lo (Math_min hi (orElse x d)) = Fin v /\ lo <= v <= hi.
Proof.
  intros H.
  assert (B : forall r, lo <= Rmax lo (Rmin hi r) <= hi).
  { intros r. split; [apply Rmax_l | apply Rmax_lub; [exact H | apply Rmin_l]]. }
  destruct x as [r| | |]; simpl.
  - destruct (Req_dec_T r 0); simpl; eexists; split; try reflexivity; apply B.
  - exists hi. split; [|lra]. f_equal. apply Rmax_right, H.
  - exists lo. split; [reflexivity|lra].
  - eexists; split; [reflexivity | apply B].
Qed.

(** Below [2^53] a number prints as its decimal digits. *)
Lemma showNumber_small z : (Z.abs z < 2 ^ 53)%Z -> showNumber z = showInt z.
Proof.
  intros H. unfold showNumber.
  destruct (Z.ltb_spec (Z.abs z) (2 ^ 53)); [reflexivity|lia].
Qed.

(** From [2^53] on a number prints by the digits of [Number::toString],
    when these are determined. *)
Lemma showNumber_large z s k n :
  (2 ^ 53 <= z)%Z ->
  shortestDigits (IZR z) (s, k, n) ->
  (forall t, shortestDigits (IZR z) t -> t = (s, k, n)) ->
  showNumber z
  = if (n <=? 21)%Z then (showInt s ++ zeros (Z.to_nat (n - k)))%string
    else (match showInt s with
          | String c rest => String c (if (k =? 1)%Z then EmptyString else "." ++ rest)
          | EmptyString => EmptyString
          end ++ "e+" ++ showInt (n - 1))%string.
Proof.
  intros Hz Hs Huniq. unfold showNumber.
  destruct (Z.ltb_spec (Z.abs z) (2 ^ 53)); [lia|].
  destruct (Z.ltb_spec z 0); [lia|].
  unfold showLarge, numberDigits.
  rewrite (Huniq _ (epsilon_spec (inhabits (0, 1, 1)%Z) (shortestDigits (IZR z))
                      (ex_intro _ (s, k, n) Hs))).
  reflexivity.
Qed.

(** The minutes of [etaFromKm]: the part of the hour is a double in
    [0, 1], its product with 60 a double in [0, 60]. *)
Lemma minutes_range hours :
  let h := Math_floor hours in
  let part := Double.round (hours - IZR h) in
  let q := Double.round (part * 60) in
  0 <= part <= 1 /\ 0 <= q <= 60 /\ (0 <= Math_round q <= 60)%Z.
Proof.
  intros h part q.
  pose proof (Math_floor_spec hours) as Hh. fold h in Hh.
  assert (R0 : Double.representable 0) by (apply (DoubleFacts.representable_IZR 0); lia).
  assert (R1 : Double.representable 1) by (apply (DoubleFacts.representable_IZR 1); lia).
  assert (R60 : Double.representable 60) by (apply (DoubleFacts.representable_IZR 60); lia).
  assert (Hp : 0 <= part <= 1) by (apply DoubleFacts.round_bounds; [exact R0|exact R1|lra]).
  assert (Hq : 0 <= q <= 60) by (apply DoubleFacts.round_bounds; [exact R0|exact R60|lra]).
  split; [exact Hp|]. split; [exact Hq|].
  pose proof (Math_round_spec q) as Hm. split.
  - assert (L : IZR (-1) < IZR (Math_round q)) by lra. apply lt_IZR in L. lia.
  - assert (L : IZR (Math_round q) < IZR 61) by lra. apply lt_IZR in L. lia.
Qed.

(** [etaFromKm] on a quotient that does not overflow. *)
Lemma etaFromKm_finite km speed :
  0 < speed ->
  - Double.overflowAt < km / speed < Double.overflowAt ->
  etaFromKm (Fin km) (Fin speed)
  = let hours := Double.round (km / speed) in
    let h := Math_floor hours in
    let m := Math_round (Double.round (Double.round (hours - IZR h) * 60)) in
    if (h <=? 0)%Z then (showInt m ++ " min")%string
    else (showNumber h ++ "h " ++ showInt m ++ "m")%string.
Proof.
  intros Hs Hw. unfold etaFromKm.
  destruct (Rle_dec speed 0) as [H0|H0]; [lra|].
  rewrite (DoubleFacts.fl_finite _ Hw). cbv zeta.
  destruct (minutes_range (Double.round (km / speed))) as (_ & _ & Hm).
  rewrite (showNumber_small (Math_round _)) by lia. reflexivity.
Qed.

End Eta.

(** A real that is written as a double rounds to itself. *)
Ltac exact_round x m e :=
  rewrite (DoubleFacts.round_exact x) by (DoubleFacts.dyadic m e).

Lemma within_small x : (Rabs x <= 1000000)%R ->
  (- Double.overflowAt < x < Double.overflowAt)%R.
Proof.
  intros H. pose proof DoubleFacts.overflowAt_large as Hbig.
  revert H. unfold Rabs. destruct Rcase_abs; lra.
Qed.

Example etaFromKm_minutes : etaFromKm (Fin 30) (Fin 80) = "23 min"%string.
Proof.
  rewrite etaFromKm_finite;
    [|lra|apply within_small; unfold Rabs; destruct Rcase_abs; lra].
  cbv zeta. replace (30 / 80)%R with 0.375%R by lra.
  exact_round 0.375%R 3%Z (-3)%Z.
  assert (F : Math_floor 0.375 = 0%Z) by (apply Math_floor_unique; simpl; lra).
  rewrite F. replace (0.375 - 0)%R with 0.375%R by lra.
  exact_round 0.375%R 3%Z (-3)%Z.
  replace (0.375 * 60)%R with 22.5%R by lra.
  exact_round 22.5%R 45%Z (-1)%Z.
  assert (M : Math_round 22.5 = 23%Z) by (apply Math_round_unique; simpl; lra).
  rewrite M. reflexivity.
Qed.

(** A tie of the reals that the doubles break: 20.5 / 20 is not a double,
    the quotient is rounded down and the minutes are 1, not 2. *)
Example etaFromKm_tie : etaFromKm (Fin 20.5) (Fin 20) = "1h 1m"%string.
Proof.
  rewrite etaFromKm_finite;
    [|lra|apply within_small; unfold Rabs; destruct Rcase_abs; lra].
  cbv zeta.
  rewrite (DoubleFacts.round_near 4616189618054758 (-52) (20.5 / 20));
    [|lia|lia|DoubleFacts.pow2; unfold Rabs; destruct Rcase_abs; lra].
  assert (F : Math_floor (4616189618054758 * powerRZ 2 (-52)) = 1%Z)
    by (apply Math_floor_unique; DoubleFacts.pow2; simpl; lra).
  rewrite F.
  replace (4616189618054758 * powerRZ 2 (-52) - 1)%R
    with (112589990684262 * powerRZ 2 (-52))%R by (DoubleFacts.pow2; lra).
  rewrite (DoubleFacts.round_exact (112589990684262 * powerRZ 2 (-52)))
    by (apply DoubleFacts.representable_scaled; lia).
  replace (112589990684262 * powerRZ 2 (-52) * 60)%R
    with (6755399441055720 * powerRZ 2 (-52))%R by (DoubleFacts.pow2; lra).
  rewrite (DoubleFacts.round_exact (6755399441055720 * powerRZ 2 (-52)))
    by (apply DoubleFacts.representable_scaled; lia).
  assert (M : Math_round (6755399441055720 * powerRZ 2 (-52)) = 1%Z)
    by (apply Math_round_unique; DoubleFacts.pow2; simpl; lra).
  rewrite M. reflexivity.
Qed.

Example etaFromKm_no_speed : etaFromKm (Fin 30) NaN = dash.
Proof. reflexivity. Qed.

(** ** Sorting *)

Section SortFacts.

Context {A : Type} (cmp : A -> A -> R).

Lemma insertBy_Permutation x l : Permutation (insertBy cmp x l) (x :: l).
Proof.
  induction l as [|y l IH]; simpl; [reflexivity|].
  destruct (Rle_dec (cmp x y) 0); [reflexivity|].
  rewrite IH. apply perm_swap.
Qed.

Lemma sortBy_Permutation l : Permutation (sortBy cmp l) l.
Proof.
  induction l as [|x l IH]; simpl; [reflexivity|].
  rewrite insertBy_Permutation. apply perm_skip, IH.
Qed.

Lemma sortBy_elem_of x l : x ∈ sortBy cmp l <-> x ∈ l.
Proof. rewrite (sortBy_Permutation l). reflexivity. Qed.

Lemma sortBy_length l : length (sortBy cmp l) = length l.
Proof. apply Permutation_length, sortBy_Permutation. Qed.

(** The comparator is read through the order [le]: it is total and
    transitive, which is what makes the result of [sort] determined. *)
Variable le : A -> A -> Prop.
Hypothesis cmp_le : forall a b, (cmp a b <= 0)%R <-> le a b.
Hypothesis le_total : forall a b, le a b \/ le b a.
Hypothesis le_trans : forall a b c, le a b -> le b c -> le a c.

Lemma insertBy_sorted x l :
  StronglySorted le l -> StronglySorted le (insertBy cmp x l).
Proof.
  induction 1 as [|y l Hl IH Hy]; simpl.
  - repeat constructor.
  - destruct (Rle_dec (cmp x y) 0) as [Hxy|Hxy].
    + apply cmp_le in Hxy. constructor; [constructor; assumption|].
      constructor; [exact Hxy|].
      eapply Forall_impl; [exact Hy|]. intros z Hz. eauto.
    + constructor; [exact IH|].
      rewrite (insertBy_Permutation x l). constructor; [|exact Hy].
      destruct (le_total x y) as [H|H]; [|exact H].
      apply cmp_le in H. contradiction.
Qed.

Lemma sortBy_sorted l : StronglySorted le (sortBy cmp l).
Proof.
  induction l as [|x l IH]; simpl; [constructor|].
  apply insertBy_sorted, IH.
Qed.

End SortFacts.

Section Comparators.

Local Open Scope R_scope.

Lemma cmpKm_le a b : cmpKm a b <= 0 <-> kmLe a b.
Proof. unfold cmpKm, kmLe. lra. Qed.

Lemma kmLe_total a b : kmLe a b \/ kmLe b a.
Proof. unfold kmLe. lra. Qed.

Lemma kmLe_trans a b c : kmLe a b -> kmLe b c -> kmLe a c.
Proof. unfold kmLe. lra. Qed.

Lemma cmpDrive_le a b : cmpDrive a b <= 0 <-> driveLe a b.
Proof.
  unfold cmpDrive, driveLe.
  destruct (Req_dec_T (orBig (driveMin a)) (orBig (driveMin b))); lra.
Qed.

Lemma driveLe_total a b : driveLe a b \/ driveLe b a.
Proof. unfold driveLe. lra. Qed.

Lemma driveLe_trans a b c : driveLe a b -> driveLe b c -> driveLe a c.
Proof. unfold driveLe. lra. Qed.

Lemma sortBy_cmpKm_sorted l : StronglySorted kmLe (sortBy cmpKm l).
Proof. apply sortBy_sorted; [apply cmpKm_le | apply kmLe_total | apply kmLe_trans]. Qed.

Lemma sortBy_cmpDrive_sorted l : StronglySorted driveLe (sortBy cmpDrive l).
Proof.
  apply sortBy_sorted; [apply cmpDrive_le | apply driveLe_total | apply driveLe_trans].
Qed.

(** A row without a duration may stand before a row with one only when
    that duration reaches the stand-in value. *)
Lemma driveLe_null_last a b d :
  driveLe a b -> driveMin a = None -> driveMin b = Some d -> 1e12 <= d.
Proof. unfold driveLe, orBig. intros H Ha Hb. rewrite Ha, Hb in H. simpl in H. lra. Qed.

End Comparators.

(** ** Ranking engine *)

Section EngineFacts.

Variable TECHS : list Tech.
Variable POSTAL_PROV : gmap string string.
Variable ORS_ENDPOINT : string.
Variable fetchORS : string -> list string -> Fetched.

Local Abbreviation run := (findClosest TECHS POSTAL_PROV ORS_ENDPOINT fetchORS).
Local Abbreviation rankWith := (rank ORS_ENDPOINT fetchORS).
Local Abbreviation sorted := (baseline TECHS POSTAL_PROV).
Local Abbreviation roster := (scoreRoster TECHS POSTAL_PROV).
Local Abbreviation resolve := (latLonForPostal TECHS POSTAL_PROV).

(** Past the three early exits, [findClosest] ranks the sorted roster. *)
Lemma findClosest_rank dfp sp postalInput ticketText p ticketLL :
  ticketPostal postalInput ticketText = p -> p <> "" ->
  resolve p "" "" = Some ticketLL ->
  roster ticketLL <> [] ->
  run dfp sp postalInput ticketText
  = rankWith (baseFactorOf dfp) (speedOf sp) p ticketLL (sorted ticketLL).
Proof.
  intros Hp Hne Hll Hs. unfold findClosest.
  rewrite Hp, (proj2 (nonempty_truthy p) Hne). simpl. rewrite Hll.
  destruct (roster ticketLL); [contradiction | reflexivity].
Qed.

Lemma baseline_Permutation ticketLL : Permutation (sorted ticketLL) (roster ticketLL).
Proof. apply sortBy_Permutation. Qed.

Lemma baseline_nonempty ticketLL :
  roster ticketLL <> [] -> exists best2 rest, sorted ticketLL = best2 :: rest.
Proof.
  intros H. pose proof (baseline_Permutation ticketLL) as P.
  destruct (sorted ticketLL) as [|b rest]; [|eauto].
  apply Permutation_nil in P. contradiction.
Qed.

(** A failed gateway call leaves the [try] block before any row is written. *)
Lemma tryORS_failed p scored :
  gatewayFailed (fetchORS p (tech_postals (take 25 scored))) ->
  tryORS fetchORS p scored = None.
Proof.
  unfold gatewayFailed, tryORS.
  destruct (postJson _) as [[j|]|]; try reflexivity.
  intros ->. reflexivity.
Qed.

Lemma rank_failed bf sp p ticketLL scored :
  gatewayFailed (fetchORS p (tech_postals (take 25 scored))) ->
  rankWith bf sp p ticketLL scored = estimate bf sp ticketLL scored.
Proof.
  intros H. unfold rank. rewrite (tryORS_failed _ _ H).
  destruct (Str.truthy ORS_ENDPOINT); reflexivity.
Qed.

Lemma rank_no_endpoint bf sp p ticketLL scored :
  ORS_ENDPOINT = "" -> rankWith bf sp p ticketLL scored = estimate bf sp ticketLL scored.
Proof. intros E. unfold rank. rewrite E. reflexivity. Qed.

(** A successful gateway call: the candidates are written, re-ranked, and
    the best one decides between the two presentations. *)
Lemma rank_succeeded bf sp p ticketLL scored j :
  ORS_ENDPOINT <> "" ->
  fetchORS p (tech_postals (take 25 scored)) = FetchResponse true (Some j) ->
  j_ok j = true ->
  let written := imap (annotate j) (take 25 scored) in
  let ranked := sortBy cmpDrive written in
  rankWith bf sp p ticketLL scored
  = match pickBest ranked with
    | Some best =>
        if bool_decide (driveKm best <> None)
        then FoundDriving best (etaFromMinutes (driveMin best)) (renderTopList ranked true)
        else estimate bf sp ticketLL (written ++ drop 25 scored)
    | None => estimate bf sp ticketLL (written ++ drop 25 scored)
    end.
Proof.
  intros He Hf Hok written ranked. unfold rank, tryORS.
  rewrite (proj2 (nonempty_truthy _) He), Hf. simpl. rewrite Hok. simpl.
  fold written. fold ranked. destruct (pickBest ranked); reflexivity.
Qed.

(** [pickBest] returns the first row with both values when there is one,
    and the first row otherwise. *)
Lemma pickBest_spec l :
  match pickBest l with
  | Some best =>
      best ∈ l /\
      ((hasBoth best = true /\
        exists i, l !! i = Some best /\
                  forall k x, l !! k = Some x -> (k < i)%nat -> hasBoth x = false)
       \/ (head l = Some best /\ forall x, x ∈ l -> hasBoth x = false))
  | None => l = []
  end.
Proof.
  unfold pickBest.
  destruct (list_find _ l) as [[i x]|] eqn:E.
  - apply list_find_Some in E as (Hi & Hx & Hbefore).
    split; [eapply list_elem_of_lookup_2; eauto|].
    left. split; [exact Hx|]. exists i. split; [exact Hi|].
    intros k y Hk Hlt. specialize (Hbefore k y Hk Hlt).
    destruct (hasBoth y); [contradiction | reflexivity].
  - apply list_find_None in E.
    destruct l as [|b l]; simpl; [reflexivity|].
    split; [left|]. right. split; [reflexivity|].
    intros x Hx. rewrite Forall_forall in E. specialize (E x Hx).
    destruct (hasBoth x); [contradiction | reflexivity].
Qed.

(** *** Only resolved technicians are scored *)

Local Abbreviation resolved := (isResolved TECHS POSTAL_PROV).

Lemma scoreTech_Some ticketLL t r :
  scoreTech TECHS POSTAL_PROV ticketLL t = Some r ->
  tech r = t /\ resolve (postal t) (city t) (province t) = Some (ll r) /\
  km r = haversineKm ticketLL (ll r) /\ driveKm r = None /\ driveMin r = None.
Proof.
  unfold scoreTech. destruct (resolve _ _ _) as [l|]; [|discriminate].
  intros [= <-]. simpl. auto.
Qed.

Lemma roster_resolved ticketLL r : r ∈ roster ticketLL -> resolved (tech r).
Proof.
  unfold scoreRoster. rewrite list_elem_of_omap. intros (t & Ht & Hr).
  apply scoreTech_Some in Hr as (-> & Hl & _). split; [exact Ht|]. eauto.
Qed.

Lemma written_resolved j l :
  Forall (fun r => resolved (tech r)) l ->
  Forall (fun r => resolved (tech r)) (imap (annotate j) l).
Proof.
  rewrite !Forall_lookup. intros H i x. rewrite list_lookup_imap.
  destruct (l !! i) as [r|] eqn:E; [|discriminate]. intros [= <-].
  simpl. eapply H, E.
Qed.

(** The shortlist shows the first eight rows of the list it is given, in
    order; without driving figures, each with the technician and the
    straight-line figures of its row. *)
Lemma take_min_length {A} n (l : list A) : take (Nat.min n (length l)) l = take n l.
Proof.
  destruct (Nat.le_ge_cases n (length l)) as [L|L].
  - rewrite Nat.min_l by exact L. reflexivity.
  - rewrite Nat.min_r by exact L. rewrite !take_ge by lia. reflexivity.
Qed.

Lemma renderTopList_rows l b :
  map item_tech (renderTopList l b) = map tech (take 8 l) /\
  renderTopList l false
  = map (fun r => mkItem (tech r) (EstimateCell (miles r) (km r))) (take 8 l).
Proof.
  unfold renderTopList. rewrite !take_min_length, map_map. split; reflexivity.
Qed.

Lemma renderTopList_techs l b t :
  t ∈ map item_tech (renderTopList l b) -> exists r, r ∈ l /\ tech r = t.
Proof.
  assert (E : map item_tech (renderTopList l b)
              = map tech (take (Nat.min 8 (length l)) l)).
  { unfold renderTopList. rewrite map_map. reflexivity. }
  rewrite E, list_elem_of_fmap. intros (r & -> & Hr).
  exists r. split; [|reflexivity]. eapply subseteq_take, Hr.
Qed.

Lemma estimate_resolved bf sp ticketLL scored :
  Forall (fun r => resolved (tech r)) scored ->
  Forall resolved (techsOf (estimate bf sp ticketLL scored)).
Proof.
  intros H. unfold estimate.
  destruct scored as [|best2 rest]; cbn [head techsOf]; [constructor|].
  constructor.
  - apply Forall_inv in H. exact H.
  - rewrite Forall_forall. intros t Ht.
    apply renderTopList_techs in Ht as (r & Hr & <-).
    rewrite Forall_forall in H. apply H, Hr.
Qed.

Lemma rank_resolved bf sp p ticketLL scored :
  Forall (fun r => resolved (tech r)) scored ->
  Forall resolved (techsOf (rankWith bf sp p ticketLL scored)).
Proof.
  intros H. unfold rank, tryORS.
  destruct (Str.truthy ORS_ENDPOINT); [|apply estimate_resolved, H].
  destruct (postJson _) as [[j|]|]; try (apply estimate_resolved, H).
  destruct (j_ok j); simpl; [|apply estimate_resolved, H].
  assert (Hw : Forall (fun r => resolved (tech r)) (imap (annotate j) (take 25 scored))).
  { apply written_resolved, Forall_take, H. }
  assert (Hs : Forall (fun r => resolved (tech r))
                      (imap (annotate j) (take 25 scored) ++ drop 25 scored)).
  { apply Forall_app. split; [exact Hw | apply Forall_drop, H]. }
  assert (Hr : Forall (fun r => resolved (tech r))
                      (sortBy cmpDrive (imap (annotate j) (take 25 scored)))).
  { rewrite (sortBy_Permutation cmpDrive _). exact Hw. }
  pose proof (pickBest_spec (sortBy cmpDrive (imap (annotate j) (take 25 scored)))) as Hb.
  destruct (pickBest _) as [best|]; [|apply estimate_resolved, Hs].
  destruct Hb as [Hin _].
  case_bool_decide; [|apply estimate_resolved, Hs].
  cbn [techsOf]. constructor.
  - rewrite Forall_forall in Hr. apply Hr, Hin.
  - rewrite Forall_forall. intros t Ht.
    apply renderTopList_techs in Ht as (r & Hr' & <-).
    rewrite Forall_forall in Hr. apply Hr, Hr'.
Qed.

Lemma findClosest_resolved dfp sp postalInput ticketText :
  Forall resolved (techsOf (run dfp sp postalInput ticketText)).
Proof.
  unfold findClosest.
  destruct (negb _); [constructor|].
  destruct (resolve _ _ _) as [ticketLL|]; [|constructor].
  destruct (roster ticketLL) as [|r0 l0]; [constructor|].
  apply rank_resolved. rewrite Forall_forall. intros r Hr.
  apply sortBy_elem_of in Hr. apply roster_resolved in Hr. exact Hr.
Qed.

(** *** The estimate's ETA *)

Lemma estimate_eta bf sp ticketLL scored best2 effFactor driveKm driveMi eta topList :
  estimate bf sp ticketLL scored = FoundEstimate best2 effFactor driveKm driveMi eta topList ->
  eta = etaFromKm (Fin driveKm) sp.
Proof.
  unfold estimate. destruct (head scored); [|discriminate].
  intros [= _ _ <- _ <- _]. reflexivity.
Qed.

Lemma rank_estimate_eta bf sp p ticketLL scored best2 effFactor driveKm driveMi eta topList :
  rankWith bf sp p ticketLL scored
  = FoundEstimate best2 effFactor driveKm driveMi eta topList ->
  eta = etaFromKm (Fin driveKm) sp.
Proof.
  unfold rank.
  destruct (if Str.truthy ORS_ENDPOINT then _ else _) as [[[scored' ranked] [best|]]|];
    try apply estimate_eta.
  destruct (bool_decide _); [discriminate | apply estimate_eta].
Qed.

Lemma findClosest_estimate_eta dfp sp postalInput ticketText
      best2 effFactor driveKm driveMi eta topList :
  run dfp sp postalInput ticketText
  = FoundEstimate best2 effFactor driveKm driveMi eta topList ->
  eta = etaFromKm (Fin driveKm) (speedOf sp).
Proof.
  unfold findClosest.
  destruct (negb _); [discriminate|].
  destruct (resolve _ _ _) as [ticketLL|]; [|discriminate].
  destruct (roster ticketLL) as [|r0 l0]; [discriminate|].
  apply rank_estimate_eta.
Qed.

End EngineFacts.

(** *** Worked scenarios *)

Section InsertSteps.

Context {A : Type} (cmp : A -> A -> R).

Lemma insertBy_nil x : insertBy cmp x [] = [x].
Proof. reflexivity. Qed.

Lemma insertBy_before x y l :
  (cmp x y <= 0)%R -> insertBy cmp x (y :: l) = x :: y :: l.
Proof. intros H. simpl. destruct (Rle_dec (cmp x y) 0); [reflexivity|contradiction]. Qed.

Lemma insertBy_after x y l :
  (0 < cmp x y)%R -> insertBy cmp x (y :: l) = y :: insertBy cmp x l.
Proof. intros H. simpl. destruct (Rle_dec (cmp x y) 0); [lra|reflexivity]. Qed.

End InsertSteps.

Module ScenarioFacts.

Import Scenario.

Lemma ticket_postal : ticketPostal "R2C 0A1" "" = "R2C0A1".
Proof. vm_compute. reflexivity. Qed.

Lemma ticket_located TECHS :
  TECHS = [ann; bob] \/ TECHS = [ann] \/ TECHS = [ann; cat; dan] ->
  latLonForPostal TECHS ∅ "R2C0A1" "" "" = Some manitoba.
Proof. intros [->|[->| ->]]; vm_compute; reflexivity. Qed.

Lemma ann_located TECHS :
  TECHS = [ann; bob] \/ TECHS = [ann] \/ TECHS = [ann; cat; dan] ->
  latLonForPostal TECHS ∅ (postal ann) (city ann) (province ann) = Some winnipeg.
Proof. intros [->|[->| ->]]; vm_compute; reflexivity. Qed.

Lemma bob_located :
  latLonForPostal [ann; bob] ∅ (postal bob) (city bob) (province bob) = Some winnipeg.
Proof. vm_compute. reflexivity. Qed.

Lemma cat_located :
  latLonForPostal [ann; cat; dan] ∅ (postal cat) (city cat) (province cat) = Some ontario.
Proof. vm_compute. reflexivity. Qed.

Lemma dan_unresolved :
  latLonForPostal [ann; cat; dan] ∅ (postal dan) (city dan) (province dan) = None.
Proof. vm_compute. reflexivity. Qed.

Lemma roster_two :
  scoreRoster [ann; bob] ∅ manitoba = [rowOf ann winnipeg; rowOf bob winnipeg].
Proof.
  unfold scoreRoster. cbn [omap list_omap]. unfold scoreTech.
  rewrite (ann_located [ann; bob]) by auto. rewrite bob_located. reflexivity.
Qed.

Lemma roster_one : scoreRoster [ann] ∅ manitoba = [rowOf ann winnipeg].
Proof.
  unfold scoreRoster. cbn [omap list_omap]. unfold scoreTech.
  rewrite (ann_located [ann]) by auto. reflexivity.
Qed.

Lemma roster_three :
  scoreRoster [ann; cat; dan] ∅ manitoba = [rowOf ann winnipeg; rowOf cat ontario].
Proof.
  unfold scoreRoster. cbn [omap list_omap]. unfold scoreTech.
  rewrite (ann_located [ann; cat; dan]) by auto.
  rewrite cat_located, dan_unresolved. reflexivity.
Qed.

Lemma km_winnipeg : haversineKm manitoba winnipeg = 0%R.
Proof. apply haversineKm_same; reflexivity. Qed.

Lemma baseline_two :
  baseline [ann; bob] ∅ manitoba = [rowOf ann winnipeg; rowOf bob winnipeg].
Proof.
  unfold baseline. rewrite roster_two. cbn [sortBy foldr]. rewrite insertBy_nil.
  rewrite insertBy_before; [reflexivity|].
  unfold cmpKm, rowOf. cbn [km]. lra.
Qed.

Lemma baseline_one : baseline [ann] ∅ manitoba = [rowOf ann winnipeg].
Proof. unfold baseline. rewrite roster_one. reflexivity. Qed.

Lemma baseline_three :
  baseline [ann; cat; dan] ∅ manitoba = [rowOf ann winnipeg; rowOf cat ontario].
Proof.
  unfold baseline. rewrite roster_three. cbn [sortBy foldr]. rewrite insertBy_nil.
  rewrite insertBy_before; [reflexivity|].
  unfold cmpKm, rowOf. cbn [km]. rewrite km_winnipeg.
  pose proof (haversineKm_range manitoba ontario). lra.
Qed.

(** Past the early exits, on the roster of Ann and Bob. *)
Lemma run_two ep fetch dfp sp :
  findClosest [ann; bob] ∅ ep fetch dfp sp "R2C 0A1" ""
  = rank ep fetch (baseFactorOf dfp) (speedOf sp) "R2C0A1" manitoba
         [rowOf ann winnipeg; rowOf bob winnipeg].
Proof.
  rewrite (findClosest_rank _ _ _ _ _ _ _ _ "R2C0A1" manitoba).
  - rewrite baseline_two. reflexivity.
  - apply ticket_postal.
  - discriminate.
  - apply ticket_located. auto.
  - rewrite roster_two. discriminate.
Qed.

Lemma run_one ep fetch dfp sp :
  findClosest [ann] ∅ ep fetch dfp sp "R2C 0A1" ""
  = rank ep fetch (baseFactorOf dfp) (speedOf sp) "R2C0A1" manitoba [rowOf ann winnipeg].
Proof.
  rewrite (findClosest_rank _ _ _ _ _ _ _ _ "R2C0A1" manitoba).
  - rewrite baseline_one. reflexivity.
  - apply ticket_postal.
  - discriminate.
  - apply ticket_located. auto.
  - rewrite roster_one. discriminate.
Qed.

Lemma endpoint_set : endpoint <> "".
Proof. discriminate. Qed.

Lemma etaFromMinutes_null : etaFromMinutes None = "0 min".
Proof.
  unfold etaFromMinutes. cbn [default].
  assert (M : Math_round 0 = 0%Z) by (apply Math_round_unique; simpl; lra).
  rewrite M. reflexivity.
Qed.

End ScenarioFacts.

(** C5. Only technicians whose location resolves are scored, each with its
    haversine distance, and whatever the inputs and the gateway do, every
    technician in the best entry or in the shortlist is a roster entry
    whose location resolves: a technician that resolves to nothing is never
    shown. *)
Theorem unresolved_never_ranked (TECHS : list Tech) (POSTAL_PROV : gmap string string)
        (ORS_ENDPOINT : string) (fetchORS : string -> list string -> Fetched)
        (driveFactorParsed speedParsed : num) (postalInput ticketText : string) :
  let shown := techsOf (findClosest TECHS POSTAL_PROV ORS_ENDPOINT fetchORS
                          driveFactorParsed speedParsed postalInput ticketText) in
  (forall ticketLL r,
     r ∈ scoreRoster TECHS POSTAL_PROV ticketLL ->
     tech r ∈ TECHS /\
     latLonForPostal TECHS POSTAL_PROV (postal (tech r)) (city (tech r)) (province (tech r))
     = Some (ll r) /\
     km r = haversineKm ticketLL (ll r)) /\
  (forall t, t ∈ shown -> isResolved TECHS POSTAL_PROV t) /\
  (forall t,
     latLonForPostal TECHS POSTAL_PROV (postal t) (city t) (province t) = None ->
     t ∉ shown).
Proof.
  intros shown.
  assert (H : Forall (isResolved TECHS POSTAL_PROV) shown)
    by apply findClosest_resolved.
  rewrite Forall_forall in H.
  split; [|split].
  - intros ticketLL r. unfold scoreRoster. rewrite list_elem_of_omap.
    intros (t & Ht & Hr). apply scoreTech_Some in Hr as (-> & Hl & Hk & _). auto.
  - exact H.
  - intros t Hn Hin. destruct (H t Hin) as [_ [l Hl]]. congruence.
Qed.

Lemma unresolved_never_ranked_witness :
  Scenario.dan ∉
    techsOf (findClosest [Scenario.ann; Scenario.cat; Scenario.dan] ∅
               "" Scenario.reply502 NaN NaN "R2C 0A1" "").
Proof.
  destruct (unresolved_never_ranked [Scenario.ann; Scenario.cat; Scenario.dan] ∅
              "" Scenario.reply502 NaN NaN "R2C 0A1" "") as (_ & _ & H).
  apply H. vm_compute. reflexivity.
Defined.

(** The roster of the scenario: one override, one region centroid, one
    garbage postal code.  The shortlist has two entries, nearest first. *)
Example three_techs_shortlist :
  exists best2 effFactor driveKm driveMi eta right1 right2,
    findClosest [Scenario.ann; Scenario.cat; Scenario.dan] ∅
      "" Scenario.reply502 NaN NaN "R2C 0A1" ""
    = FoundEstimate best2 effFactor driveKm driveMi eta
        [mkItem Scenario.ann right1; mkItem Scenario.cat right2]
    /\ tech best2 = Scenario.ann.
Proof.
  rewrite (findClosest_rank _ _ _ _ _ _ _ _ "R2C0A1" Scenario.manitoba).
  - rewrite ScenarioFacts.baseline_three, rank_no_endpoint by reflexivity.
    unfold estimate. cbn [head]. repeat eexists.
  - apply ScenarioFacts.ticket_postal.
  - discriminate.
  - apply ScenarioFacts.ticket_located. auto.
  - rewrite ScenarioFacts.roster_three. discriminate.
Qed.

(** What [findClosest] takes for a failure of the gateway, read off the
    answer of [fetch]. *)
Lemma failure_gatewayFailed (answer : Fetched) :
  answer = FetchThrows \/
  (exists j, answer = FetchResponse false j) \/
  answer = FetchResponse true None \/
  (exists j, answer = FetchResponse true (Some j) /\ j_ok j = false) ->
  gatewayFailed answer.
Proof.
  intros [-> | [(j & ->) | [-> | (j & -> & Hj)]]]; try exact I. exact Hj.
Qed.

(** C2. When the gateway call fails (the fetch throws; the response has a
    status that is no success, such as 502, whatever its body; the body is
    empty; or the body has no truthy [ok]), [findClosest] ends as it does
    without a gateway: in estimate mode, not with an error, with the first
    entry of the straight-line ranking as best entry, its straight-line
    distance, and the effective distance obtained with the factor clamped
    to [1, 12]; the shortlist is the straight-line ranking. *)
Theorem gateway_failure_estimate (TECHS : list Tech) (POSTAL_PROV : gmap string string)
        (ORS_ENDPOINT : string) (fetchORS : string -> list string -> Fetched)
        (driveFactorParsed speedParsed : num) (postalInput ticketText : string)
        (p : string) (ticketLL : LatLon) :
  ticketPostal postalInput ticketText = p -> p <> "" ->
  latLonForPostal TECHS POSTAL_PROV p "" "" = Some ticketLL ->
  scoreRoster TECHS POSTAL_PROV ticketLL <> [] ->
  let scored := baseline TECHS POSTAL_PROV ticketLL in
  let answer := fetchORS p (tech_postals (take 25 scored)) in
  answer = FetchThrows \/
  (exists j, answer = FetchResponse false j) \/
  answer = FetchResponse true None \/
  (exists j, answer = FetchResponse true (Some j) /\ j_ok j = false) ->
  let outcome := findClosest TECHS POSTAL_PROV ORS_ENDPOINT fetchORS
                   driveFactorParsed speedParsed postalInput ticketText in
  exists best2 effFactor,
    head scored = Some best2 /\
    Permutation scored (scoreRoster TECHS POSTAL_PROV ticketLL) /\
    StronglySorted kmLe scored /\
    km best2 = haversineKm ticketLL (ll best2) /\
    effFactor = effectiveDriveFactor (baseFactorOf driveFactorParsed)
                  (Some ticketLL) (Some (ll best2)) /\
    (1 <= effFactor <= 12)%R /\
    outcome = FoundEstimate best2 effFactor (km best2 * effFactor) (miles best2 * effFactor)
                (etaFromKm (Fin (km best2 * effFactor)) (speedOf speedParsed))
                (renderTopList scored false) /\
    renderTopList scored false
    = map (fun r => mkItem (tech r) (EstimateCell (miles r) (km r))) (take 8 scored) /\
    mode outcome = Some ModeEstimate /\
    outcome = findClosest TECHS POSTAL_PROV "" fetchORS
                driveFactorParsed speedParsed postalInput ticketText.
Proof.
  intros Hp Hne Hll Hs scored answer Hfail outcome.
  apply failure_gatewayFailed in Hfail. subst answer.
  destruct (baseline_nonempty _ _ _ Hs) as (best2 & rest & Hb).
  assert (Ho : outcome = estimate (baseFactorOf driveFactorParsed) (speedOf speedParsed)
                           ticketLL scored).
  { subst outcome. rewrite (findClosest_rank _ _ _ _ _ _ _ _ p ticketLL) by assumption.
    apply rank_failed, Hfail. }
  assert (Hin : best2 ∈ scoreRoster TECHS POSTAL_PROV ticketLL).
  { apply (sortBy_elem_of cmpKm). fold (baseline TECHS POSTAL_PROV ticketLL).
    rewrite Hb. left. }
  exists best2, (effectiveDriveFactor (baseFactorOf driveFactorParsed)
                   (Some ticketLL) (Some (ll best2))).
  split; [subst scored; rewrite Hb; reflexivity|].
  split; [apply baseline_Permutation|].
  split; [apply sortBy_cmpKm_sorted|].
  split.
  { unfold scoreRoster in Hin. rewrite list_elem_of_omap in Hin.
    destruct Hin as (t & _ & Hr). apply scoreTech_Some in Hr as (_ & _ & Hk & _).
    exact Hk. }
  split; [reflexivity|].
  split; [apply effectiveDriveFactor_range|].
  assert (He : outcome = FoundEstimate best2
                 (effectiveDriveFactor (baseFactorOf driveFactorParsed)
                    (Some ticketLL) (Some (ll best2)))
                 (km best2 * effectiveDriveFactor (baseFactorOf driveFactorParsed)
                    (Some ticketLL) (Some (ll best2)))
                 (miles best2 * effectiveDriveFactor (baseFactorOf driveFactorParsed)
                    (Some ticketLL) (Some (ll best2)))
                 (etaFromKm (Fin (km best2 * effectiveDriveFactor (baseFactorOf driveFactorParsed)
                    (Some ticketLL) (Some (ll best2)))) (speedOf speedParsed))
                 (renderTopList scored false)).
  { rewrite Ho. unfold estimate. subst scored. rewrite Hb. reflexivity. }
  split; [exact He|].
  split; [apply renderTopList_rows; exact true|].
  split; [rewrite He; reflexivity|].
  rewrite Ho. rewrite (findClosest_rank _ _ _ _ _ _ _ _ p ticketLL) by assumption.
  rewrite rank_no_endpoint by reflexivity. reflexivity.
Qed.

(** HTTP 502 with a body that looks like a success. *)
Lemma gateway_failure_estimate_witness :
  mode (findClosest [Scenario.ann; Scenario.bob] ∅ Scenario.endpoint
          Scenario.reply502Full (Fin 1.25) (Fin 80) "R2C 0A1" "")
  = Some ModeEstimate.
Proof.
  destruct (gateway_failure_estimate [Scenario.ann; Scenario.bob] ∅
              Scenario.endpoint Scenario.reply502Full (Fin 1.25) (Fin 80) "R2C 0A1" ""
              "R2C0A1" Scenario.manitoba)
    as (best2 & effFactor & _ & _ & _ & _ & _ & _ & _ & _ & M & _).
  - apply ScenarioFacts.ticket_postal.
  - discriminate.
  - apply ScenarioFacts.ticket_located. auto.
  - rewrite ScenarioFacts.roster_two. discriminate.
  - right. left. eexists. reflexivity.
  - exact M.
Defined.

(** In a strongly sorted list an earlier entry is related to a later one. *)
Lemma StronglySorted_lookup_lt {A} (R : A -> A -> Prop) (l : list A) :
  StronglySorted R l ->
  forall i k a b, (i < k)%nat -> l !! i = Some a -> l !! k = Some b -> R a b.
Proof.
  induction 1 as [|x l Hl IH Hx]; intros i k a b Hik Hi Hk; [discriminate|].
  destruct k as [|k]; [lia|]. simpl in Hk.
  destruct i as [|i]; simpl in Hi.
  - injection Hi as <-. rewrite Forall_forall in Hx.
    apply Hx. eapply list_elem_of_lookup_2, Hk.
  - eapply (IH i k); [lia | exact Hi | exact Hk].
Qed.

(** [findClosest] consults the gateway only about the first 25 rows of the
    straight-line ranking. *)
Lemma rank_request ep fetch fetch' bf sp p ticketLL scored :
  fetch' p (tech_postals (take 25 scored)) = fetch p (tech_postals (take 25 scored)) ->
  rank ep fetch' bf sp p ticketLL scored = rank ep fetch bf sp p ticketLL scored.
Proof. intros H. unfold rank, tryORS. rewrite H. reflexivity. Qed.

(** What the gateway loop writes: the row keeps its technician and its
    straight-line distance and receives the finite numbers found at its
    index. *)
Lemma written_lookup j l i r :
  imap (annotate j) l !! i = Some r <->
  exists r0, l !! i = Some r0 /\
             r = mkRow (tech r0) (km r0) (miles r0) (ll r0)
                       (finiteAt (j_distances_km j) i)
                       (fmap (fun d => (d * 0.621371)%R) (finiteAt (j_distances_km j) i))
                       (finiteAt (j_durations_min j) i).
Proof.
  rewrite list_lookup_imap. destruct (l !! i) as [r0|]; simpl; split.
  - intros [= <-]. eauto.
  - intros (r1 & [= <-] & ->). reflexivity.
  - discriminate.
  - intros (r1 & Hr & _). discriminate.
Qed.

(** The scoring loop over a list of technicians keeps those with a
    location, each in its place, with that location and the distance to
    it. *)
Lemma scoring_loop TECHS POSTAL_PROV ticketLL (l : list Tech) :
  map tech (omap (scoreTech TECHS POSTAL_PROV ticketLL) l)
  = filter (fun t => is_Some (latLonForPostal TECHS POSTAL_PROV
                                (postal t) (city t) (province t))) l /\
  Forall (fun r => latLonForPostal TECHS POSTAL_PROV
                     (postal (tech r)) (city (tech r)) (province (tech r))
                   = Some (ll r) /\
                   km r = haversineKm ticketLL (ll r))
         (omap (scoreTech TECHS POSTAL_PROV ticketLL) l).
Proof.
  induction l as [|t l [IH1 IH2]]; [split; [reflexivity|constructor]|].
  cbn [omap list_omap].
  assert (Hs : scoreTech TECHS POSTAL_PROV ticketLL t
               = match latLonForPostal TECHS POSTAL_PROV (postal t) (city t) (province t) with
                 | None => None
                 | Some loc =>
                     Some (mkRow t (haversineKm ticketLL loc)
                             (haversineKm ticketLL loc * 0.621371) loc None None None)
                 end) by reflexivity.
  rewrite Hs. clear Hs.
  destruct (latLonForPostal TECHS POSTAL_PROV (postal t) (city t) (province t))
    as [loc|] eqn:E.
  - rewrite filter_cons_True by (rewrite E; eauto). cbn [map tech]. split.
    + f_equal. exact IH1.
    + constructor; [cbn; auto|exact IH2].
  - rewrite filter_cons_False by (rewrite E; intros [x Hx]; discriminate).
    split; [exact IH1|exact IH2].
Qed.

Lemma scoreRoster_complete TECHS POSTAL_PROV ticketLL :
  map tech (scoreRoster TECHS POSTAL_PROV ticketLL)
  = filter (fun t => is_Some (latLonForPostal TECHS POSTAL_PROV
                                (postal t) (city t) (province t))) TECHS /\
  Forall (fun r => latLonForPostal TECHS POSTAL_PROV
                     (postal (tech r)) (city (tech r)) (province (tech r))
                   = Some (ll r) /\
                   km r = haversineKm ticketLL (ll r))
         (scoreRoster TECHS POSTAL_PROV ticketLL).
Proof. apply scoring_loop. Qed.

(** The shortlist of an estimate does not show what the gateway wrote. *)
Lemma renderTopList_written j scored :
  renderTopList (imap (annotate j) (take 25 scored) ++ drop 25 scored) false
  = renderTopList scored false.
Proof.
  unfold renderTopList. cbn [andb].
  assert (Hlen : length (imap (annotate j) (take 25 scored) ++ drop 25 scored)
                 = length scored).
  { rewrite length_app, length_imap, <- length_app, take_drop. reflexivity. }
  rewrite Hlen.
  set (g := fun row : Row => mkItem (tech row) (EstimateCell (miles row) (km row))).
  change (map g (take (Nat.min 8 (length scored))
                   (imap (annotate j) (take 25 scored) ++ drop 25 scored))
          = map g (take (Nat.min 8 (length scored)) scored)).
  change (map g ?l) with (g <$> l). rewrite !fmap_take. f_equal.
  rewrite <- (take_drop 25 scored) at 3. rewrite !fmap_app. f_equal.
  rewrite fmap_imap. apply list_eq. intros i.
  rewrite list_lookup_imap, list_lookup_fmap.
  destruct (take 25 scored !! i); reflexivity.
Qed.

(** C1 (as amended).  The straight-line ranking holds every technician of
    the roster whose location resolves, and no other, ascending by haversine
    distance; its first 25 rows are what [findClosest] asks the gateway
    about; when the gateway answers, those rows are re-ranked by driving
    duration and then driving distance, ascending, a missing value counting
    as 1e12, so that a row without a duration never precedes a row whose
    duration is below 1e12; and that order is the one shown (the shortlist
    is the first eight rows of the list it is given) when the selected
    best entry has a driving distance.  Otherwise the result is
    an estimate over the straight-line ranking: its best entry is the first
    row of that ranking, with the factor, distances and ETA of the
    estimate, and its shortlist is that of the straight-line ranking. *)
Theorem findClosest_ranking (TECHS : list Tech) (POSTAL_PROV : gmap string string)
        (ORS_ENDPOINT : string) (fetchORS : string -> list string -> Fetched)
        (driveFactorParsed speedParsed : num) (postalInput ticketText : string)
        (p : string) (ticketLL : LatLon) (j : OrsJson) :
  ticketPostal postalInput ticketText = p -> p <> "" ->
  latLonForPostal TECHS POSTAL_PROV p "" "" = Some ticketLL ->
  scoreRoster TECHS POSTAL_PROV ticketLL <> [] ->
  let scored := baseline TECHS POSTAL_PROV ticketLL in
  let candidates := take 25 scored in
  let written := imap (annotate j) candidates in
  let ranked := sortBy cmpDrive written in
  Permutation scored (scoreRoster TECHS POSTAL_PROV ticketLL) /\
  (map tech (scoreRoster TECHS POSTAL_PROV ticketLL)
   = filter (fun t => is_Some (latLonForPostal TECHS POSTAL_PROV
                                 (postal t) (city t) (province t))) TECHS /\
   Forall (fun r => latLonForPostal TECHS POSTAL_PROV
                      (postal (tech r)) (city (tech r)) (province (tech r))
                    = Some (ll r) /\
                    km r = haversineKm ticketLL (ll r))
          (scoreRoster TECHS POSTAL_PROV ticketLL)) /\
  StronglySorted kmLe scored /\
  (length candidates = Nat.min 25 (length scored) /\
   forall i, (i < 25)%nat -> candidates !! i = scored !! i) /\
  (forall fetch',
     fetch' p (tech_postals candidates) = fetchORS p (tech_postals candidates) ->
     findClosest TECHS POSTAL_PROV ORS_ENDPOINT fetch'
       driveFactorParsed speedParsed postalInput ticketText
     = findClosest TECHS POSTAL_PROV ORS_ENDPOINT fetchORS
         driveFactorParsed speedParsed postalInput ticketText) /\
  (forall l showDriving,
     map item_tech (renderTopList l showDriving) = map tech (take 8 l)) /\
  (ORS_ENDPOINT <> "" ->
   fetchORS p (tech_postals candidates) = FetchResponse true (Some j) ->
   j_ok j = true ->
   Permutation ranked written /\
   StronglySorted driveLe ranked /\
   (forall i k a b,
      (i < k)%nat -> ranked !! i = Some a -> ranked !! k = Some b ->
      driveLe a b /\
      (forall d, driveMin a = None -> driveMin b = Some d -> (1e12 <= d)%R)) /\
   (forall best,
      pickBest ranked = Some best -> driveKm best <> None ->
      findClosest TECHS POSTAL_PROV ORS_ENDPOINT fetchORS
        driveFactorParsed speedParsed postalInput ticketText
      = FoundDriving best (etaFromMinutes (driveMin best)) (renderTopList ranked true)) /\
   (pickBest ranked = None \/
    (exists best, pickBest ranked = Some best /\ driveKm best = None) ->
    exists first,
      head scored = Some first /\
      let effFactor := effectiveDriveFactor (baseFactorOf driveFactorParsed)
                         (Some ticketLL) (Some (ll first)) in
      findClosest TECHS POSTAL_PROV ORS_ENDPOINT fetchORS
        driveFactorParsed speedParsed postalInput ticketText
      = FoundEstimate (annotate j 0 first) effFactor
          (km first * effFactor) (miles first * effFactor)
          (etaFromKm (Fin (km first * effFactor)) (speedOf speedParsed))
          (renderTopList scored false))).
Proof.
  intros Hp Hne Hll Hs scored candidates written ranked.
  split; [apply baseline_Permutation|].
  split; [apply scoreRoster_complete|].
  split; [apply sortBy_cmpKm_sorted|].
  split; [split; [apply length_take | intros i Hi; apply lookup_take_lt, Hi]|].
  split.
  { intros fetch' Hf.
    rewrite !(findClosest_rank _ _ _ _ _ _ _ _ p ticketLL) by assumption.
    apply rank_request, Hf. }
  split; [intros l showDriving; apply renderTopList_rows|].
  intros He Hf Hok.
  split; [apply sortBy_Permutation|].
  split; [apply sortBy_cmpDrive_sorted|].
  split.
  { intros i k a b Hik Hi Hk.
    assert (L : driveLe a b).
    { eapply StronglySorted_lookup_lt; eauto. apply sortBy_cmpDrive_sorted. }
    split; [exact L|]. intros d Ha Hb. eapply driveLe_null_last; eauto. }
  split.
  { intros best Hb Hk.
    rewrite (findClosest_rank _ _ _ _ _ _ _ _ p ticketLL) by assumption.
    rewrite (rank_succeeded _ _ _ _ _ _ _ j) by assumption.
    cbv zeta. fold scored. fold candidates. fold written. fold ranked.
    rewrite Hb. rewrite bool_decide_eq_true_2 by exact Hk. reflexivity. }
  intros Hnone.
  destruct (baseline_nonempty _ _ _ Hs) as (first & rest & Hb).
  exists first. split; [subst scored; rewrite Hb; reflexivity|].
  cbv zeta.
  rewrite (findClosest_rank _ _ _ _ _ _ _ _ p ticketLL) by assumption.
  rewrite (rank_succeeded _ _ _ _ _ _ _ j) by assumption.
  cbv zeta. fold scored. fold candidates. fold written. fold ranked.
  assert (He' : estimate (baseFactorOf driveFactorParsed) (speedOf speedParsed) ticketLL
                  (written ++ drop 25 scored)
                = FoundEstimate (annotate j 0 first)
                    (effectiveDriveFactor (baseFactorOf driveFactorParsed)
                       (Some ticketLL) (Some (ll first)))
                    (km first * effectiveDriveFactor (baseFactorOf driveFactorParsed)
                       (Some ticketLL) (Some (ll first)))
                    (miles first * effectiveDriveFactor (baseFactorOf driveFactorParsed)
                       (Some ticketLL) (Some (ll first)))
                    (etaFromKm (Fin (km first * effectiveDriveFactor
                       (baseFactorOf driveFactorParsed)
                       (Some ticketLL) (Some (ll first)))) (speedOf speedParsed))
                    (renderTopList scored false)).
  { unfold estimate. subst written candidates.
    rewrite renderTopList_written. subst scored. rewrite Hb. reflexivity. }
  destruct Hnone as [Hn|(best & Hbest & Hk)].
  - rewrite Hn. exact He'.
  - rewrite Hbest. rewrite bool_decide_eq_false_2 by (rewrite Hk; auto). exact He'.
Qed.

Module RankingScenarios.

Import Scenario.

(** The re-rank of the two rows for each answer of the gateway. *)
Lemma ranked_both :
  sortBy cmpDrive [driven annRow (Some 12%R) (Some 20%R); driven bobRow (Some 9%R) (Some 15%R)]
  = [driven bobRow (Some 9%R) (Some 15%R); driven annRow (Some 12%R) (Some 20%R)].
Proof.
  cbn [sortBy foldr]. rewrite insertBy_nil, insertBy_after; [reflexivity|].
  unfold cmpDrive, driven, orBig. cbn [driveMin driveKm default]. unfold Datatypes.id.
  destruct (Req_dec_T 20 15); lra.
Qed.

Lemma ranked_late :
  sortBy cmpDrive [driven annRow (Some 10%R) (Some 2e12%R); driven bobRow None None]
  = [driven bobRow None None; driven annRow (Some 10%R) (Some 2e12%R)].
Proof.
  cbn [sortBy foldr]. rewrite insertBy_nil, insertBy_after; [reflexivity|].
  unfold cmpDrive, driven, orBig. cbn [driveMin driveKm default]. unfold Datatypes.id.
  destruct (Req_dec_T 2e12 1e12); lra.
Qed.

Lemma ranked_no_distance :
  sortBy cmpDrive [driven annRow None (Some 5%R); driven bobRow None (Some 3%R)]
  = [driven bobRow None (Some 3%R); driven annRow None (Some 5%R)].
Proof.
  cbn [sortBy foldr]. rewrite insertBy_nil, insertBy_after; [reflexivity|].
  unfold cmpDrive, driven, orBig. cbn [driveMin driveKm default]. unfold Datatypes.id.
  destruct (Req_dec_T 5 3); lra.
Qed.

End RankingScenarios.

Lemma findClosest_ranking_witness :
  exists eta topList,
    findClosest [Scenario.ann; Scenario.bob] ∅ Scenario.endpoint Scenario.replyBoth
      (Fin 1.25) (Fin 80) "R2C 0A1" ""
    = FoundDriving (Scenario.driven Scenario.bobRow (Some 9%R) (Some 15%R))
        eta topList
    /\ map item_tech topList = [Scenario.bob; Scenario.ann].
Proof.
  destruct (findClosest_ranking [Scenario.ann; Scenario.bob] ∅
              Scenario.endpoint Scenario.replyBoth (Fin 1.25) (Fin 80) "R2C 0A1" ""
              "R2C0A1" Scenario.manitoba
              (mkOrsJson true [JNum (Fin 12); JNum (Fin 9)] [JNum (Fin 20); JNum (Fin 15)]))
    as (_ & _ & _ & _ & _ & _ & H).
  - apply ScenarioFacts.ticket_postal.
  - discriminate.
  - apply ScenarioFacts.ticket_located. auto.
  - rewrite ScenarioFacts.roster_two. discriminate.
  - destruct H as (_ & _ & _ & D & _); [discriminate | reflexivity | reflexivity |].
    rewrite ScenarioFacts.baseline_two in D.
    change (imap _ (take 25 _))
      with [Scenario.driven Scenario.annRow (Some 12%R) (Some 20%R);
            Scenario.driven Scenario.bobRow (Some 9%R) (Some 15%R)] in D.
    rewrite RankingScenarios.ranked_both in D.
    eexists _, _. split; [apply D; [reflexivity | discriminate]|].
    reflexivity.
Defined.

Module RankingRuns.

Import Scenario RankingScenarios.

(** With an endpoint and an answer [j] with a truthy [ok], on the roster of
    Ann and Bob. *)
Lemma run_two_answered fetch j dfp sp :
  fetch "R2C0A1" ["R3C 0A1"; "R3C 0B2"] = FetchResponse true (Some j) ->
  j_ok j = true ->
  let written := imap (annotate j) [annRow; bobRow] in
  let ranked := sortBy cmpDrive written in
  findClosest [ann; bob] ∅ endpoint fetch dfp sp "R2C 0A1" ""
  = match pickBest ranked with
    | Some best =>
        if bool_decide (driveKm best <> None)
        then FoundDriving best (etaFromMinutes (driveMin best)) (renderTopList ranked true)
        else estimate (baseFactorOf dfp) (speedOf sp) manitoba written
    | None => estimate (baseFactorOf dfp) (speedOf sp) manitoba written
    end.
Proof.
  intros Hf Hok. rewrite ScenarioFacts.run_two.
  rewrite (rank_succeeded _ _ _ _ _ _ _ j);
    [reflexivity | apply ScenarioFacts.endpoint_set | exact Hf | exact Hok].
Qed.

Lemma run_one_answered fetch j dfp sp :
  fetch "R2C0A1" ["R3C 0A1"] = FetchResponse true (Some j) ->
  j_ok j = true ->
  let written := imap (annotate j) [annRow] in
  let ranked := sortBy cmpDrive written in
  findClosest [ann] ∅ endpoint fetch dfp sp "R2C 0A1" ""
  = match pickBest ranked with
    | Some best =>
        if bool_decide (driveKm best <> None)
        then FoundDriving best (etaFromMinutes (driveMin best)) (renderTopList ranked true)
        else estimate (baseFactorOf dfp) (speedOf sp) manitoba written
    | None => estimate (baseFactorOf dfp) (speedOf sp) manitoba written
    end.
Proof.
  intros Hf Hok. rewrite ScenarioFacts.run_one.
  rewrite (rank_succeeded _ _ _ _ _ _ _ j);
    [reflexivity | apply ScenarioFacts.endpoint_set | exact Hf | exact Hok].
Qed.

End RankingRuns.

(** C1, as stated, fails on two answers of the gateway for the roster of
    Ann and Bob, who are equally far from the ticket.  When the gateway
    gives Ann a duration of 2e12 minutes and Bob none, the shown ranking
    puts Bob, without a duration, before Ann: a missing duration counts as
    1e12, not as infinity.  When the gateway gives durations (Bob the
    shorter) but no distance, the result is an estimate whose shortlist is
    the straight-line ranking, Ann first, not the re-ranked order. *)
Lemma findClosest_ranking_counterexample :
  (exists eta,
     findClosest [Scenario.ann; Scenario.bob] ∅ Scenario.endpoint Scenario.replyLate
       (Fin 1.25) (Fin 80) "R2C 0A1" ""
     = FoundDriving
         (Scenario.driven Scenario.annRow (Some 10%R) (Some 2e12%R)) eta
         (renderTopList
            [Scenario.driven Scenario.bobRow None None;
             Scenario.driven Scenario.annRow (Some 10%R) (Some 2e12%R)] true)) /\
  (exists best2 effFactor driveKm driveMi eta topList,
     findClosest [Scenario.ann; Scenario.bob] ∅ Scenario.endpoint Scenario.replyNoDistance
       (Fin 1.25) (Fin 80) "R2C 0A1" ""
     = FoundEstimate best2 effFactor driveKm driveMi eta topList /\
     map item_tech topList = [Scenario.ann; Scenario.bob] /\
     map tech (sortBy cmpDrive
                 [Scenario.driven Scenario.annRow None (Some 5%R);
                  Scenario.driven Scenario.bobRow None (Some 3%R)])
     = [Scenario.bob; Scenario.ann]).
Proof.
  split.
  - eexists.
    rewrite (RankingRuns.run_two_answered Scenario.replyLate
               (mkOrsJson true [JNum (Fin 10); JOther] [JNum (Fin 2e12); JOther]))
      by reflexivity.
    cbv zeta.
    change (imap _ [Scenario.annRow; Scenario.bobRow])
      with [Scenario.driven Scenario.annRow (Some 10%R) (Some 2e12%R);
            Scenario.driven Scenario.bobRow None None].
    rewrite RankingScenarios.ranked_late. reflexivity.
  - rewrite (RankingRuns.run_two_answered Scenario.replyNoDistance
               (mkOrsJson true [JOther; JOther] [JNum (Fin 5); JNum (Fin 3)]))
      by reflexivity.
    cbv zeta.
    change (imap _ [Scenario.annRow; Scenario.bobRow])
      with [Scenario.driven Scenario.annRow None (Some 5%R);
            Scenario.driven Scenario.bobRow None (Some 3%R)].
    rewrite RankingScenarios.ranked_no_distance.
    eexists _, _, _, _, _, _. split; [reflexivity|]. split; reflexivity.
Qed.

(** *** The best entry after a successful gateway call *)

Section BestEntry.

Variable TECHS : list Tech.
Variable POSTAL_PROV : gmap string string.
Variable ORS_ENDPOINT : string.
Variable fetchORS : string -> list string -> Fetched.
Variables (driveFactorParsed speedParsed : num) (postalInput ticketText p : string).
Variables (ticketLL : LatLon) (j : OrsJson).

Hypothesis ticket_found : ticketPostal postalInput ticketText = p /\ p <> "".
Hypothesis ticket_resolved : latLonForPostal TECHS POSTAL_PROV p "" "" = Some ticketLL.
Hypothesis some_scored : scoreRoster TECHS POSTAL_PROV ticketLL <> [].
Hypothesis has_endpoint : ORS_ENDPOINT <> "".
Hypothesis gateway_answered :
  fetchORS p (tech_postals (take 25 (baseline TECHS POSTAL_PROV ticketLL)))
  = FetchResponse true (Some j) /\ j_ok j = true.

Local Abbreviation ranked :=
  (sortBy cmpDrive (imap (annotate j) (take 25 (baseline TECHS POSTAL_PROV ticketLL)))).

Local Abbreviation outcome :=
  (findClosest TECHS POSTAL_PROV ORS_ENDPOINT fetchORS
     driveFactorParsed speedParsed postalInput ticketText).

Lemma outcome_answered :
  outcome
  = match pickBest ranked with
    | Some best =>
        if bool_decide (driveKm best <> None)
        then FoundDriving best (etaFromMinutes (driveMin best)) (renderTopList ranked true)
        else estimate (baseFactorOf driveFactorParsed) (speedOf speedParsed) ticketLL
               (imap (annotate j) (take 25 (baseline TECHS POSTAL_PROV ticketLL))
                ++ drop 25 (baseline TECHS POSTAL_PROV ticketLL))
    | None => estimate (baseFactorOf driveFactorParsed) (speedOf speedParsed) ticketLL
                (imap (annotate j) (take 25 (baseline TECHS POSTAL_PROV ticketLL))
                 ++ drop 25 (baseline TECHS POSTAL_PROV ticketLL))
    end.
Proof.
  destruct ticket_found as [Hp Hne]. destruct gateway_answered as [Hf Hok].
  rewrite (findClosest_rank _ _ _ _ _ _ _ _ p ticketLL) by assumption.
  rewrite (rank_succeeded _ _ _ _ _ _ _ j) by assumption. reflexivity.
Qed.

(** When some candidate has a distance and a duration, the result is in
    driving mode and its best entry is the first such candidate of the
    re-ranked order. *)
Lemma best_is_first_complete :
  (exists r, r ∈ ranked /\ hasBoth r = true) ->
  exists best i,
    outcome = FoundDriving best (etaFromMinutes (driveMin best)) (renderTopList ranked true) /\
    ranked !! i = Some best /\ driveKm best <> None /\ driveMin best <> None /\
    forall k x, ranked !! k = Some x -> (k < i)%nat -> hasBoth x = false.
Proof.
  intros (r & Hr & Hboth). rewrite outcome_answered.
  pose proof (pickBest_spec ranked) as Hb.
  destruct (pickBest ranked) as [best|]; [|rewrite Hb in Hr; inversion Hr].
  destruct Hb as [_ [(Hbest & i & Hi & Hbefore) | (_ & Hnone)]].
  - unfold hasBoth in Hbest. apply andb_true_iff in Hbest as [Hk Hm].
    apply bool_decide_eq_true in Hk. apply bool_decide_eq_true in Hm.
    exists best, i. rewrite bool_decide_eq_true_2 by exact Hk. auto.
  - rewrite (Hnone r Hr) in Hboth. discriminate.
Qed.

(** When no candidate has a distance, the result is an estimate. *)
Lemma estimate_without_distance :
  (forall r, r ∈ ranked -> driveKm r = None) -> mode outcome = Some ModeEstimate.
Proof.
  intros Hnone. rewrite outcome_answered.
  pose proof (pickBest_spec ranked) as Hb.
  pose proof (baseline_nonempty _ _ _ some_scored) as (b & rest & E).
  assert (Hest : forall bf sp,
            mode (estimate bf sp ticketLL
                    (imap (annotate j) (take 25 (baseline TECHS POSTAL_PROV ticketLL))
                     ++ drop 25 (baseline TECHS POSTAL_PROV ticketLL)))
            = Some ModeEstimate).
  { intros bf sp. rewrite E. reflexivity. }
  destruct (pickBest ranked) as [best|]; [|apply Hest].
  destruct Hb as [Hin _]. rewrite (Hnone best Hin).
  rewrite bool_decide_eq_false_2 by (intros H; apply H; reflexivity). apply Hest.
Qed.

End BestEntry.

(** C10 at the failing input.  The gateway answers for Ann, the only
    technician, with a distance of 5 km and no duration.  No candidate has
    both values, yet the result is shown in driving mode: its best entry has
    no driving duration and its ETA reads "0 min", while the shortlist,
    which asks for both values, shows Ann's straight-line figures. *)
Theorem driving_best_without_duration :
  let best := Scenario.driven Scenario.annRow (Some 5%R) None in
  findClosest [Scenario.ann] ∅ Scenario.endpoint Scenario.replyNoDuration
    (Fin 1.25) (Fin 80) "R2C 0A1" ""
  = FoundDriving best "0 min"
      [mkItem Scenario.ann (EstimateCell (miles best) (km best))]
  /\ driveKm best = Some 5%R /\ driveMin best = None /\ hasBoth best = false.
Proof.
  intros best. split; [|repeat split].
  rewrite (RankingRuns.run_one_answered Scenario.replyNoDuration
             (mkOrsJson true [JNum (Fin 5)] [JOther])) by reflexivity.
  cbv zeta.
  change (imap _ [Scenario.annRow]) with [best].
  change (sortBy cmpDrive [best]) with [best].
  change (pickBest [best]) with (Some best). cbv beta iota.
  rewrite bool_decide_eq_true_2 by discriminate.
  change (driveMin best) with (@None R). rewrite ScenarioFacts.etaFromMinutes_null.
  reflexivity.
Qed.

(** ** Routing gateways *)

Local Close Scope string_scope.

Module EdgeMatrixFacts.

Import EdgeMatrix.

Section Route.

Variable ORS_API_KEY : string.
Variable nominatim : string -> NomFetched.
Variable orsMatrix : R -> R -> list (R * R) -> OrsFetched.

Local Abbreviation clean s := (Str.keep (fun c => negb (Str.isSpace c)) (Str.trim s)).

Local Abbreviation cache_sound := (cache_sound nominatim).
Local Abbreviation aligned := (aligned nominatim).

Lemma geocodePostal_located c t :
  cache_sound c ->
  let '(res, c') := geocodePostal nominatim c (postalOf t) in
  cache_sound c' /\
  match located nominatim t with
  | Some g => res = Some (Some g)
  | None => res = Some None \/ res = None
  end.
Proof.
  intros Hc. unfold geocodePostal, located.
  destruct (Str.truthy (clean (postalOf t))) eqn:T; simpl; [|auto].
  destruct (c !! clean (postalOf t)) as [hit|] eqn:E.
  - split; [exact Hc|]. rewrite (Hc _ _ E).
    destruct (nominatim _) as [|[] [] []]; auto.
  - assert (S : forall v,
        v = match nominatim (clean (postalOf t)) with
            | NomResponse true (Fin la) (Fin ln) => Some (mkGeo la ln)
            | _ => None
            end ->
        cache_sound (<[clean (postalOf t) := v]> c)).
    { intros v Hv k w. rewrite lookup_insert. destruct (decide _) as [<-|].
      - intros [= <-]. exact Hv.
      - apply Hc. }
    destruct (nominatim (clean (postalOf t))) as [|[] [] []] eqn:N;
      try (split; [apply S; reflexivity | auto]).
    split; [exact Hc | auto].
Qed.

Lemma geocodeStep_aligned techList a t :
  aligned techList a -> aligned (techList ++ [t]) (geocodeStep nominatim a t).
Proof.
  intros (Hc & Hlen & Hpos). unfold geocodeStep.
  pose proof (geocodePostal_located (cache a) t Hc) as Hg.
  destruct (geocodePostal nominatim (cache a) (postalOf t)) as [res c'].
  destruct Hg as [Hc' Hres].
  assert (Hold : forall x i u, techList !! i = Some u ->
            match located nominatim u with
            | None => (idxMap a ++ [x]) !! i = Some None
            | Some g => exists d, (idxMap a ++ [x]) !! i = Some (Some d) /\
                                  destinations a !! d = Some (g_lng g, g_lat g)
            end).
  { intros x i u Hu. specialize (Hpos i u Hu).
    assert (i < length (idxMap a))%nat by (rewrite Hlen; eapply lookup_lt_Some, Hu).
    rewrite lookup_app_l by assumption. exact Hpos. }
  destruct (located nominatim t) as [g|] eqn:L.
  - subst res. split; [exact Hc'|]. split.
    + cbn [idxMap]. rewrite !length_app, Hlen. reflexivity.
    + intros i u Hu. cbn [idxMap destinations].
      apply lookup_app_Some in Hu as [Hu|[Hge Hu]].
      * specialize (Hold (Some (length (destinations a ++ [(g_lng g, g_lat g)]) - 1)%nat) i u Hu).
        destruct (located nominatim u); [|exact Hold].
        destruct Hold as (d & Hd & Hdest). exists d. split; [exact Hd|].
        rewrite lookup_app_l by (eapply lookup_lt_Some, Hdest). exact Hdest.
      * apply list_lookup_singleton_Some in Hu as [Hi <-]. rewrite L.
        assert (i = length (idxMap a)) as -> by lia.
        exists (length (destinations a)). split.
        -- rewrite lookup_app_r by lia. rewrite Nat.sub_diag, length_app. cbn [length].
           cbn [lookup list_lookup]. do 2 f_equal. lia.
        -- rewrite lookup_app_r by lia. rewrite Nat.sub_diag. reflexivity.
  - assert (E : match res with
                | Some (Some geo) => False
                | _ => True
                end) by (destruct Hres as [-> | ->]; exact I).
    destruct res as [[geo|]|]; try contradiction;
      (split; [exact Hc'|]; split;
       [cbn [idxMap]; rewrite !length_app, Hlen; reflexivity|];
       intros i u Hu; cbn [idxMap destinations];
       apply lookup_app_Some in Hu as [Hu|[Hge Hu]];
       [apply (Hold None i u Hu)|];
       apply list_lookup_singleton_Some in Hu as [Hi <-]; rewrite L;
       assert (i = length (idxMap a)) as -> by lia;
       rewrite lookup_app_r by lia; rewrite Nat.sub_diag; reflexivity).
Qed.

Lemma geocodeLoop_aligned techList :
  aligned techList (foldl (geocodeStep nominatim) (mkAcc ∅ [] []) techList).
Proof.
  induction techList as [|t l IH] using rev_ind.
  - cbn [foldl]. split; [intros k v; cbn [cache]; rewrite lookup_empty; discriminate|].
    split; [reflexivity|]. intros i t. discriminate.
  - rewrite foldl_app. cbn [foldl]. apply geocodeStep_aligned, IH.
Qed.

(** The arrays of a matrix answer have one entry per technician, and a
    technician that does not geocode has [null] in both. *)
Lemma ors_matrix_aligned job_lat job_lng techList status d t :
  ors_matrix ORS_API_KEY nominatim orsMatrix job_lat job_lng techList
  = mkResponse status (BodyMatrix d t) ->
  length d = length techList /\ length t = length techList /\
  forall i item,
    techList !! i = Some item -> located nominatim item = None ->
    d !! i = Some None /\ t !! i = Some None.
Proof.
  unfold ors_matrix.
  destruct (negb (Str.truthy ORS_API_KEY)); [discriminate|].
  destruct job_lat as [la| | |], job_lng as [ln| | |]; try discriminate.
  destruct techList as [|t0 l0] eqn:El.
  { intros [= _ <- <-]. repeat split; discriminate. }
  rewrite <- El. clear El t0 l0.
  pose proof (geocodeLoop_aligned techList) as (_ & Hlen & Hpos).
  set (a := foldl (geocodeStep nominatim) (mkAcc ∅ [] []) techList) in *.
  assert (Hnull : forall row scale i item,
            techList !! i = Some item -> located nominatim item = None ->
            map (cellAt row scale) (idxMap a) !! i = Some None).
  { intros row scale i item Hi Hl. specialize (Hpos i item Hi). rewrite Hl in Hpos.
    rewrite list_lookup_fmap, Hpos. reflexivity. }
  destruct (destinations a) as [|d0 ds] eqn:Ed.
  - intros [= _ <- <-]. rewrite !length_map.
    split; [reflexivity|]. split; [reflexivity|].
    intros i item Hi _. rewrite !list_lookup_fmap, Hi. split; reflexivity.
  - destruct (orsMatrix ln la (d0 :: ds)) as [|[] st [j|]]; try discriminate.
    intros [= _ <- <-]. rewrite !length_map, Hlen. repeat split; eauto.
Qed.

(** Whatever the geocoder does, the route answers with the two arrays as
    soon as the key is set, the job coordinates are finite and the matrix
    service answers. *)
Lemma ors_matrix_tolerates_geocoding la ln techList :
  ORS_API_KEY <> ""%string ->
  (forall dests, exists status j, orsMatrix ln la dests = OrsResponse true status (Some j)) ->
  exists d t,
    ors_matrix ORS_API_KEY nominatim orsMatrix (Fin la) (Fin ln) techList
    = mkResponse 200 (BodyMatrix d t).
Proof.
  intros Hk Hm. unfold ors_matrix. rewrite (proj2 (nonempty_truthy _) Hk). cbn [negb].
  destruct techList as [|t0 l0] eqn:El; [eauto|]. rewrite <- El.
  destruct (destinations _) as [|d0 ds]; [eauto|].
  destruct (Hm (d0 :: ds)) as (st & j & ->). eauto.
Qed.

End Route.

End EdgeMatrixFacts.

Module NetlifyFacts.

Import Netlify.

Section Handler.

Variable ORS_KEY : string.
Variable orsGeocode : string -> GeoFetched.
Variable orsMatrix : LonLat -> list LonLat -> MatrixFetched.

Lemma geocodeAll_Returned cache tech destsRaw :
  geocodeAll orsGeocode cache tech = Returned destsRaw ->
  length destsRaw = length tech /\
  forall i key, tech !! i = Some key ->
    exists r, destsRaw !! i = Some r /\
              fst (geocodePostalCA orsGeocode cache key) = Returned r.
Proof.
  revert destsRaw. induction tech as [|t tech IH]; intros destsRaw; cbn [geocodeAll].
  - intros [= <-]. split; [reflexivity|]. intros i key. discriminate.
  - destruct (fst (geocodePostalCA orsGeocode cache t)) as [e|ll] eqn:E; [discriminate|].
    destruct (geocodeAll orsGeocode cache tech) as [e|lls]; [discriminate|].
    intros [= <-]. destruct (IH lls eq_refl) as [Hlen Hpos].
    split; [cbn [length]; congruence|].
    intros [|i] key; cbn [lookup list_lookup].
    + intros [= <-]. eauto.
    + apply Hpos.
Qed.

Lemma geocodeAll_total cache tech :
  (forall key, key ∈ tech -> exists r, fst (geocodePostalCA orsGeocode cache key) = Returned r) ->
  exists destsRaw, geocodeAll orsGeocode cache tech = Returned destsRaw.
Proof.
  induction tech as [|t tech IH]; intros H; cbn [geocodeAll]; [eauto|].
  destruct (H t) as [r ->]; [left|].
  destruct IH as [lls ->]; [|eauto].
  intros key Hk. apply H. right. exact Hk.
Qed.

(** [collect] holds the positions that geocoded, each once, with what
    was found there. *)
Lemma collect_elem_of destsRaw i ll :
  (i, ll) ∈ collect destsRaw <-> destsRaw !! i = Some (Some ll).
Proof.
  unfold collect. rewrite list_elem_of_omap. split.
  - intros ([i' o] & Hin & Hk).
    destruct o as [ll'|]; simpl in Hk; [|discriminate]. injection Hk as <- <-.
    apply elem_of_lookup_imap in Hin as (i0 & x & [= <- <-] & Hx). exact Hx.
  - intros H. exists (i, Some ll). split; [|reflexivity].
    apply elem_of_lookup_imap. eauto.
Qed.

Lemma collect_sublist (l : list (nat * option LonLat)) :
  (omap (fun '(i, ll) => fmap (fun x => (i, x)) (ll : option LonLat)) l).*1
  `sublist_of` l.*1.
Proof.
  induction l as [|[i [ll|]] l IH]; simpl.
  - constructor.
  - apply sublist_skip, IH.
  - apply sublist_cons, IH.
Qed.

Lemma validIdx_NoDup destsRaw : NoDup (validIdx destsRaw).
Proof.
  unfold validIdx, collect.
  eapply sublist_NoDup; [|apply collect_sublist].
  rewrite fmap_imap.
  rewrite (imap_ext _ (fun (j : nat) (_ : option LonLat) => j) destsRaw)
    by reflexivity.
  rewrite (imap_seq_0 destsRaw (fun j => j)), list_fmap_id. apply NoDup_seq.
Qed.

Lemma validIdx_elem_of destsRaw k :
  k ∈ validIdx destsRaw -> exists ll, destsRaw !! k = Some (Some ll).
Proof.
  unfold validIdx. rewrite list_elem_of_fmap. intros ([i ll] & -> & Hin).
  apply collect_elem_of in Hin. eauto.
Qed.

Lemma validDests_nonempty destsRaw i ll :
  destsRaw !! i = Some (Some ll) -> validDests destsRaw <> [].
Proof.
  intros H E. apply collect_elem_of in H.
  unfold validDests in E. apply fmap_nil_inv in E. rewrite E in H.
  eapply not_elem_of_nil, H.
Qed.

(** A position that geocoded has a rank among the valid destinations. *)
Lemma collect_rank destsRaw i ll :
  destsRaw !! i = Some (Some ll) ->
  exists k, validIdx destsRaw !! k = Some i /\ validDests destsRaw !! k = Some ll.
Proof.
  intros H. apply collect_elem_of, list_elem_of_lookup in H as [k Hk].
  exists k. unfold validIdx, validDests. rewrite !list_lookup_fmap, Hk. auto.
Qed.

(** Writing at the collected positions keeps the length of the array and
    leaves every other position [null]. *)
Lemma expand_length n idx a f : length (expand n idx a f) = n.
Proof.
  unfold expand.
  assert (G : forall (l : list (nat * nat)) (out : list (option R)),
            length (foldl (fun out '(j, origIdx) => <[origIdx := numberAt a j f]> out) out l)
            = length out).
  { induction l as [|[j o] l IH]; intros out; cbn [foldl]; [reflexivity|].
    rewrite IH. apply length_insert. }
  rewrite G. apply length_replicate.
Qed.

Lemma expand_untouched n idx a f i :
  i ∉ idx -> (i < n)%nat -> expand n idx a f !! i = Some None.
Proof.
  intros Hi Hn. unfold expand.
  assert (G : forall (l : list (nat * nat)) (out : list (option R)),
            (forall j, (j, i) ∉ l) -> out !! i = Some None ->
            foldl (fun out '(j, origIdx) => <[origIdx := numberAt a j f]> out) out l !! i
            = Some None).
  { induction l as [|[j o] l IH]; intros out Hl Ho; cbn [foldl]; [exact Ho|].
    apply IH.
    - intros j' Hj'. apply (Hl j'). right. exact Hj'.
    - rewrite list_lookup_insert_ne; [exact Ho|].
      intros ->. apply (Hl j). left. }
  apply G.
  - intros j Hj. apply elem_of_lookup_imap in Hj as (j' & x & [= <- <-] & Hx).
    apply Hi. eapply list_elem_of_lookup_2, Hx.
  - apply lookup_replicate_2, Hn.
Qed.

(** The position of the [k]-th valid destination receives the [k]-th
    entry of the matrix row. *)
Lemma expand_written n idx a f k i :
  NoDup idx -> idx !! k = Some i -> (i < n)%nat ->
  expand n idx a f !! i = Some (numberAt a k f).
Proof.
  unfold expand. revert k i.
  induction idx as [|i0 idx IH] using rev_ind; intros k i Hnd Hk Hn; [discriminate|].
  rewrite imap_app, foldl_app. cbn [imap foldl]. rewrite Nat.add_0_r.
  apply NoDup_app in Hnd as (Hnd & Hdisj & _).
  assert (Hlen : forall (l : list (nat * nat)) (out : list (option R)),
            length (foldl (fun out '(j, origIdx) => <[origIdx := numberAt a j f]> out) out l)
            = length out).
  { induction l as [|[j o] l IHl]; intros out; cbn [foldl]; [reflexivity|].
    rewrite IHl. apply length_insert. }
  apply lookup_app_Some in Hk as [Hk|[Hge Hk]].
  - rewrite list_lookup_insert_ne.
    + apply IH; assumption.
    + intros ->. apply (Hdisj i); [eapply list_elem_of_lookup_2, Hk | left].
  - apply list_lookup_singleton_Some in Hk as [Hk <-].
    assert (k = length idx) as -> by lia.
    apply list_lookup_insert_eq. rewrite Hlen, length_replicate. exact Hn.
Qed.

(** An answer with arrays: one entry per destination of [techOf], and
    [null] where the geocoder found nothing. *)
Lemma handler_aligned GEO_CACHE httpMethod ticket_postal tech_postals status d t :
  handler ORS_KEY orsGeocode orsMatrix GEO_CACHE httpMethod
    (Payload ticket_postal tech_postals)
  = Some (mkResponse status (BodyMatrix d t)) ->
  let tech := techOf tech_postals in
  let warm := snd (geocodePostalCA orsGeocode GEO_CACHE (normPostal ticket_postal))
              ∪ GEO_CACHE in
  length d = length tech /\ length t = length tech /\
  forall i key,
    tech !! i = Some key ->
    fst (geocodePostalCA orsGeocode warm key) = Returned None ->
    d !! i = Some None /\ t !! i = Some None.
Proof.
  unfold handler.
  destruct (String.eqb httpMethod "OPTIONS"); [discriminate|].
  destruct (negb (String.eqb httpMethod "POST")); [discriminate|].
  destruct (negb (Str.truthy ORS_KEY)); [discriminate|].
  cbv zeta.
  destruct (negb _ || _); [discriminate|].
  destruct (geocodePostalCA orsGeocode GEO_CACHE (normPostal ticket_postal))
    as [[e|[src|]] added]; try discriminate.
  cbn [snd].
  destruct (geocodeAll orsGeocode (added ∪ GEO_CACHE) (techOf tech_postals))
    as [e|destsRaw] eqn:G; [discriminate|].
  apply geocodeAll_Returned in G as [Hlen Hpos].
  destruct (validDests destsRaw) as [|d0 ds]; [discriminate|].
  destruct (matrixKmMin orsMatrix src (d0 :: ds)) as [e|[distances durations]];
    [discriminate|].
  intros [= _ <- <-]. rewrite !expand_length.
  split; [reflexivity|]. split; [reflexivity|].
  intros i key Hi Hnone.
  destruct (Hpos i key Hi) as (r & Hr & Hg).
  rewrite Hnone in Hg. injection Hg as <-.
  assert (Hout : i ∉ validIdx destsRaw).
  { intros Hin. apply validIdx_elem_of in Hin as [ll Hll]. congruence. }
  assert (Hlt : (i < length (techOf tech_postals))%nat) by (eapply lookup_lt_Some, Hi).
  split; apply expand_untouched; assumption.
Qed.

(** A destination that geocodes receives the entries of the matrix rows
    at the rank of its own coordinates among the destinations sent. *)
Lemma handler_values GEO_CACHE httpMethod ticket_postal tech_postals status d t :
  handler ORS_KEY orsGeocode orsMatrix GEO_CACHE httpMethod
    (Payload ticket_postal tech_postals)
  = Some (mkResponse status (BodyMatrix d t)) ->
  let tech := techOf tech_postals in
  let warm := snd (geocodePostalCA orsGeocode GEO_CACHE (normPostal ticket_postal))
              ∪ GEO_CACHE in
  forall i key ll,
    tech !! i = Some key ->
    fst (geocodePostalCA orsGeocode warm key) = Returned (Some ll) ->
    exists src dests k st distances durations,
      orsMatrix src dests = MatrixResponse st distances durations /\
      dests !! k = Some ll /\
      d !! i = Some (numberAt distances k (fun x => x)) /\
      t !! i = Some (numberAt durations k (fun x => (x / 60)%R)).
Proof.
  unfold handler.
  destruct (String.eqb httpMethod "OPTIONS"); [discriminate|].
  destruct (negb (String.eqb httpMethod "POST")); [discriminate|].
  destruct (negb (Str.truthy ORS_KEY)); [discriminate|].
  cbv zeta.
  destruct (negb _ || _); [discriminate|].
  destruct (geocodePostalCA orsGeocode GEO_CACHE (normPostal ticket_postal))
    as [[e|[src|]] added]; try discriminate.
  cbn [snd].
  destruct (geocodeAll orsGeocode (added ∪ GEO_CACHE) (techOf tech_postals))
    as [e|destsRaw] eqn:G; [discriminate|].
  apply geocodeAll_Returned in G as [Hlen Hpos].
  destruct (validDests destsRaw) as [|d0 ds] eqn:Ev; [discriminate|].
  unfold matrixKmMin.
  destruct (orsMatrix src (d0 :: ds)) as [|st text|st distances durations] eqn:Em;
    try discriminate.
  intros [= _ <- <-] i key ll Hi Hfound.
  destruct (Hpos i key Hi) as (r & Hr & Hg).
  rewrite Hfound in Hg. injection Hg as <-.
  destruct (collect_rank _ _ _ Hr) as (k & Hk & Hd). rewrite Ev in Hd.
  assert (Hlt : (i < length (techOf tech_postals))%nat) by (eapply lookup_lt_Some, Hi).
  exists src, (d0 :: ds), k, st, distances, durations.
  split; [exact Em|]. split; [exact Hd|].
  split; apply expand_written; auto using validIdx_NoDup.
Qed.

(** The function answers with the arrays when the ticket geocodes, every
    search for a destination returns, one destination at least is found and
    the matrix service answers. *)
Lemma handler_tolerates_no_match GEO_CACHE ticket_postal tech_postals src added :
  ORS_KEY <> ""%string ->
  geocodePostalCA orsGeocode GEO_CACHE (normPostal ticket_postal)
  = (Returned (Some src), added) ->
  (forall key, key ∈ techOf tech_postals ->
     exists r, fst (geocodePostalCA orsGeocode (added ∪ GEO_CACHE) key) = Returned r) ->
  (exists key ll, key ∈ techOf tech_postals /\
     fst (geocodePostalCA orsGeocode (added ∪ GEO_CACHE) key) = Returned (Some ll)) ->
  (forall dests, exists status distances durations,
     orsMatrix src dests = MatrixResponse status distances durations) ->
  exists d t,
    handler ORS_KEY orsGeocode orsMatrix GEO_CACHE "POST"
      (Payload ticket_postal tech_postals)
    = Some (mkResponse 200 (BodyMatrix d t)).
Proof.
  intros Hk Hsrc Hall (key & ll & Hin & Hll) Hm. unfold handler.
  cbn [String.eqb Ascii.eqb Bool.eqb negb].
  rewrite (proj2 (nonempty_truthy _) Hk). cbn [negb]. cbv zeta.
  assert (Ht : Str.truthy (normPostal ticket_postal) = true).
  { unfold geocodePostalCA in Hsrc. cbv zeta in Hsrc.
    destruct (Str.truthy (normPostal (normPostal ticket_postal))) eqn:T2;
      cbn [negb] in Hsrc; [|discriminate].
    destruct (Str.truthy (normPostal ticket_postal)) eqn:T; [reflexivity|].
    apply empty_falsy in T. rewrite T in T2. discriminate. }
  rewrite Ht. cbn [negb orb].
  destruct (techOf tech_postals) as [|k0 ks] eqn:Et;
    [exfalso; eapply not_elem_of_nil, Hin|].
  cbn [length Nat.eqb]. rewrite Hsrc.
  destruct (geocodeAll_total _ _ Hall) as [destsRaw G]. rewrite G.
  apply geocodeAll_Returned in G as [Hlen Hpos].
  apply list_elem_of_lookup in Hin as [i Hi].
  destruct (Hpos i key Hi) as (r & Hr & Hg). rewrite Hll in Hg. injection Hg as <-.
  pose proof (validDests_nonempty _ _ _ Hr) as Hne.
  destruct (validDests destsRaw) as [|d0 ds]; [contradiction|].
  unfold matrixKmMin. destruct (Hm (d0 :: ds)) as (st & dist & dur & ->). eauto.
Qed.

End Handler.

End NetlifyFacts.

Lemma filter_all {A} (P : A -> Prop) `{forall x, Decision (P x)} (l : list A) :
  Forall P l -> filter P l = l.
Proof.
  induction 1 as [|x l Hx Hl IH]; [reflexivity|].
  rewrite filter_cons_True by exact Hx. f_equal. exact IH.
Qed.

(** The edge route computes the value of a destination that geocodes from
    the matrix row at the index of that destination's own coordinates. *)
Lemma ors_matrix_values (ORS_API_KEY : string) (nominatim : string -> EdgeMatrix.NomFetched)
      (orsMatrix : R -> R -> list (R * R) -> EdgeMatrix.OrsFetched)
      (la ln : R) (techList : list EdgeMatrix.TechItem) status d t :
  EdgeMatrix.ors_matrix ORS_API_KEY nominatim orsMatrix (Fin la) (Fin ln) techList
  = mkResponse status (BodyMatrix d t) ->
  forall i item g,
    techList !! i = Some item -> EdgeMatrix.located nominatim item = Some g ->
    exists dests st j k,
      orsMatrix ln la dests = EdgeMatrix.OrsResponse true st (Some j) /\
      dests !! k = Some (EdgeMatrix.g_lng g, EdgeMatrix.g_lat g) /\
      d !! i = Some (fmap EdgeMatrix.round2 (finiteAt (EdgeMatrix.distRow j) (k + 1))) /\
      t !! i = Some (fmap EdgeMatrix.round1 (finiteAt (EdgeMatrix.durRow j) (k + 1))).
Proof.
  intros H i item g Hi Hg. unfold EdgeMatrix.ors_matrix in H.
  destruct (negb (Str.truthy ORS_API_KEY)); [discriminate|].
  destruct techList as [|t0 l0] eqn:El; [discriminate|]. rewrite <- El in *. clear El t0 l0.
  pose proof (EdgeMatrixFacts.geocodeLoop_aligned nominatim techList) as (_ & _ & Hpos).
  specialize (Hpos i item Hi). rewrite Hg in Hpos. destruct Hpos as (k & Hk & Hd).
  destruct (EdgeMatrix.destinations _) as [|d0 ds] eqn:Ed; [discriminate|].
  destruct (orsMatrix ln la (d0 :: ds)) as [|[] st [j|]] eqn:Em; try discriminate.
  injection H as _ <- <-.
  exists (d0 :: ds), st, j, k. rewrite !list_lookup_fmap, Hk. auto.
Qed.

(** What does hold of the two gateways.  The edge route keeps its two
    arrays aligned with the list it is given: one entry per technician,
    [null] for a technician that does not geocode, and for one that does the
    value of the matrix row at the index of its own coordinates; and no
    outcome of geocoding keeps it from answering.  When the Netlify function
    answers with arrays, they are aligned with the destinations that
    normalize to a non-empty key, cut to forty, with [null] where the
    geocoder found nothing. *)
Lemma gateway_arrays_aligned :
  (forall ORS_API_KEY nominatim orsMatrix job_lat job_lng techList status d t,
     EdgeMatrix.ors_matrix ORS_API_KEY nominatim orsMatrix job_lat job_lng techList
     = mkResponse status (BodyMatrix d t) ->
     length d = length techList /\ length t = length techList /\
     (forall i item,
        techList !! i = Some item -> EdgeMatrix.located nominatim item = None ->
        d !! i = Some None /\ t !! i = Some None) /\
     (forall i item g,
        techList !! i = Some item -> EdgeMatrix.located nominatim item = Some g ->
        exists dests st j k la ln,
          job_lat = Fin la /\ job_lng = Fin ln /\
          orsMatrix ln la dests = EdgeMatrix.OrsResponse true st (Some j) /\
          dests !! k = Some (EdgeMatrix.g_lng g, EdgeMatrix.g_lat g) /\
          d !! i = Some (fmap EdgeMatrix.round2 (finiteAt (EdgeMatrix.distRow j) (k + 1))) /\
          t !! i = Some (fmap EdgeMatrix.round1 (finiteAt (EdgeMatrix.durRow j) (k + 1))))) /\
  (forall ORS_API_KEY nominatim orsMatrix la ln techList,
     ORS_API_KEY <> ""%string ->
     (forall dests, exists status j,
        orsMatrix ln la dests = EdgeMatrix.OrsResponse true status (Some j)) ->
     exists d t,
       EdgeMatrix.ors_matrix ORS_API_KEY nominatim orsMatrix (Fin la) (Fin ln) techList
       = mkResponse 200 (BodyMatrix d t)) /\
  (forall ORS_KEY orsGeocode orsMatrix GEO_CACHE httpMethod ticket_postal tech_postals
          status d t,
     Netlify.handler ORS_KEY orsGeocode orsMatrix GEO_CACHE httpMethod
       (Netlify.Payload ticket_postal tech_postals)
     = Some (mkResponse status (BodyMatrix d t)) ->
     let tech := Netlify.techOf tech_postals in
     let warm := snd (Netlify.geocodePostalCA orsGeocode GEO_CACHE
                        (Netlify.normPostal ticket_postal)) ∪ GEO_CACHE in
     length d = length tech /\ length t = length tech /\
     (forall i key,
        tech !! i = Some key ->
        fst (Netlify.geocodePostalCA orsGeocode warm key) = Netlify.Returned None ->
        d !! i = Some None /\ t !! i = Some None) /\
     (forall i key ll,
        tech !! i = Some key ->
        fst (Netlify.geocodePostalCA orsGeocode warm key) = Netlify.Returned (Some ll) ->
        exists src dests k st distances durations,
          orsMatrix src dests = Netlify.MatrixResponse st distances durations /\
          dests !! k = Some ll /\
          d !! i = Some (Netlify.numberAt distances k (fun x => x)) /\
          t !! i = Some (Netlify.numberAt durations k (fun x => (x / 60)%R))) /\
     (Forall (fun x => Netlify.normPostal x <> ""%string) tech_postals ->
      (length tech_postals <= 40)%nat ->
      tech = map Netlify.normPostal tech_postals)).
Proof.
  split; [|split].
  - intros key nominatim orsMatrix job_lat job_lng techList status d t H.
    destruct (EdgeMatrixFacts.ors_matrix_aligned _ _ _ _ _ _ _ _ _ H) as (Hd & Ht & Hnull).
    split; [exact Hd|]. split; [exact Ht|]. split; [exact Hnull|].
    intros i item g Hi Hg.
    assert (exists la ln, job_lat = Fin la /\ job_lng = Fin ln) as (la & ln & -> & ->).
    { unfold EdgeMatrix.ors_matrix in H.
      destruct (negb _); [discriminate|].
      destruct job_lat, job_lng; try discriminate. eauto. }
    destruct (ors_matrix_values _ _ _ _ _ _ _ _ _ H i item g Hi Hg)
      as (dests & st & j & k & Hm & Hk & Hdi & Hti).
    exists dests, st, j, k, la, ln. repeat split; assumption || reflexivity.
  - intros. eapply EdgeMatrixFacts.ors_matrix_tolerates_geocoding; eassumption.
  - intros key orsGeocode orsMatrix GEO_CACHE httpMethod ticket_postal tech_postals
           status d t H tech warm.
    destruct (NetlifyFacts.handler_aligned _ _ _ _ _ _ _ _ _ _ H) as (Hd & Ht & Hnull).
    split; [exact Hd|]. split; [exact Ht|]. split; [exact Hnull|].
    split; [exact (NetlifyFacts.handler_values _ _ _ _ _ _ _ _ _ _ H)|].
    intros Hall Hlen. subst tech. unfold Netlify.techOf.
    rewrite take_ge.
    + apply filter_all. rewrite Forall_fmap.
      eapply Forall_impl; [exact Hall|]. intros x Hx. apply nonempty_truthy, Hx.
    + etransitivity; [apply length_filter|]. rewrite length_map. exact Hlen.
Qed.

(** The rounding of the edge route in doubles: 1005 m is 1 km, since
    1005 / 1000 * 100 is a double below 100.5. *)
Example round2_1005 : EdgeMatrix.round2 1005 = 1%R.
Proof.
  unfold EdgeMatrix.round2.
  rewrite (DoubleFacts.round_near 4526117625507348 (-52) (1005 / 1000));
    [|lia|lia|DoubleFacts.pow2; unfold Rabs; destruct Rcase_abs; lra].
  rewrite (DoubleFacts.round_near 7072058789855231 (-46)
             (4526117625507348 * powerRZ 2 (-52) * 100));
    [|lia|lia|DoubleFacts.pow2; unfold Rabs; destruct Rcase_abs; lra].
  rewrite (Math_round_unique _ 100) by (DoubleFacts.pow2; simpl; lra).
  replace (100 / 100)%R with 1%R by lra. apply (DoubleFacts.round_IZR 1). lia.
Qed.

(** C3 at the failing inputs.  The Netlify function is asked about two
    destinations and the geocoder answers HTTP 429 for the second: the
    function answers [ok: false] and no arrays, where the same request with
    a geocoder that merely finds nothing for the second destination gets
    both arrays, with [null] at the second position.  Asked about a single
    destination that the geocoder does not find, it answers [ok: false]
    again, not an array with one [null].  The edge route, on the same two
    lists with a geocoder that answers an error status for the code it
    does not know, answers with aligned arrays both times. *)
Theorem netlify_batch_aborted :
  Netlify.handler "key" Scenario.geocodeFlaky Scenario.matrixOk ∅ "POST"
    (Netlify.Payload "K1A 0B1" ["M5V 2T6"%string; "K2P 1L4"%string])
  = Some (mkResponse 200 (BodyError "ORS geocode failed: 429"))
  /\
  Netlify.handler "key" Scenario.geocodeMiss Scenario.matrixOk ∅ "POST"
    (Netlify.Payload "K1A 0B1" ["M5V 2T6"%string; "K2P 1L4"%string])
  = Some (mkResponse 200 (BodyMatrix [Some 4.2%R; None] [Some (600 / 60)%R; None]))
  /\
  Netlify.handler "key" Scenario.geocodeMiss Scenario.matrixOk ∅ "POST"
    (Netlify.Payload "K1A 0B1" ["K2P 1L4"%string])
  = Some (mkResponse 200 (BodyError "Could not geocode any tech_postals"))
  /\
  EdgeMatrix.ors_matrix "key" Scenario.nominatimPartial Scenario.edgeMatrixOk
    (Fin 45.4215) (Fin (-75.6972))
    [EdgeMatrix.mkTechItem (Some "M5V 2T6"%string) None;
     EdgeMatrix.mkTechItem (Some "K2P 1L4"%string) None]
  = mkResponse 200
      (BodyMatrix [Some (EdgeMatrix.round2 4200); None]
                  [Some (EdgeMatrix.round1 600); None])
  /\
  EdgeMatrix.ors_matrix "key" Scenario.nominatimPartial Scenario.edgeMatrixOk
    (Fin 45.4215) (Fin (-75.6972))
    [EdgeMatrix.mkTechItem (Some "K2P 1L4"%string) None]
  = mkResponse 200 (BodyMatrix [None] [None]).
Proof.
  split; [vm_compute; reflexivity|].
  split; [vm_compute; reflexivity|].
  split; [vm_compute; reflexivity|].
  split; reflexivity.
Qed.

(** The edge route on a list whose first technician does not geocode: the
    technician keeps its place, with [null] in both arrays. *)
Example ors_matrix_partial :
  EdgeMatrix.ors_matrix "key" Scenario.nominatimPartial Scenario.edgeMatrixOk
    (Fin 45.4215) (Fin (-75.6972))
    [EdgeMatrix.mkTechItem None (Some "no such code"%string);
     EdgeMatrix.mkTechItem (Some "M5V 2T6"%string) None]
  = mkResponse 200
      (BodyMatrix [None; Some (EdgeMatrix.round2 4200)] [None; Some (EdgeMatrix.round1 600)]).
Proof. reflexivity. Qed.

Local Open Scope string_scope.

(** *** A number that prints in exponent form *)

Section Exponent.

Lemma powerRZ_10_nonneg (n : Z) : (0 <= n)%Z -> powerRZ 10 n = IZR (10 ^ n).
Proof.
  intros Hn. destruct n as [|p|p]; [reflexivity| |lia].
  simpl powerRZ. rewrite pow_IZR, positive_nat_Z. reflexivity.
Qed.

Lemma powerRZ_10_mono (a b : Z) : (a <= b)%Z -> powerRZ 10 a <= powerRZ 10 b.
Proof.
  intros H. replace b with (a + (b - a))%Z by lia.
  rewrite powerRZ_add by lra. rewrite (powerRZ_10_nonneg (b - a)) by lia.
  assert (1 <= IZR (10 ^ (b - a))).
  { apply (IZR_le 1). assert (0 < 10 ^ (b - a))%Z by (apply Z.pow_pos_nonneg; lia). lia. }
  assert (0 < powerRZ 10 a) by (apply powerRZ_lt; lra). nra.
Qed.

Lemma sextillion_double : Double.representable (IZR (10 ^ 21)).
Proof.
  replace (IZR (10 ^ 21)) with (IZR 476837158203125 * powerRZ 2 21).
  - apply DoubleFacts.representable_scaled; lia.
  - DoubleFacts.pow2. change (10 ^ 21)%Z with 1000000000000000000000%Z. lra.
Qed.

(** One digit, scaled, is [10^21] only as 1 followed by 21 zeros. *)
Lemma sextillion_digit (s n : Z) :
  (1 <= s < 10)%Z -> IZR s * powerRZ 10 (n - 1) = IZR (10 ^ 21) ->
  s = 1%Z /\ n = 22%Z.
Proof.
  intros Hs E.
  assert (H1 : 1 <= IZR s) by (apply (IZR_le 1); lia).
  assert (H9 : IZR s <= 9) by (apply (IZR_le s 9); lia).
  assert (P : 0 < powerRZ 10 (n - 1)) by (apply powerRZ_lt; lra).
  assert (T21 : IZR (10 ^ 21) = 1000000000000000000000) by reflexivity.
  destruct (Z_lt_le_dec (n - 1) 21) as [L|L].
  - exfalso.
    assert (powerRZ 10 (n - 1) <= powerRZ 10 20) as Hle
      by (apply powerRZ_10_mono; lia).
    rewrite (powerRZ_10_nonneg 20) in Hle by lia.
    change (IZR (10 ^ 20)) with 100000000000000000000 in Hle. nra.
  - destruct (Z_lt_le_dec 21 (n - 1)) as [G|G].
    + exfalso.
      assert (powerRZ 10 22 <= powerRZ 10 (n - 1)) as Hle
        by (apply powerRZ_10_mono; lia).
      rewrite (powerRZ_10_nonneg 22) in Hle by lia.
      change (IZR (10 ^ 22)) with 10000000000000000000000 in Hle. nra.
    + assert (n - 1 = 21)%Z as En by lia. rewrite En in E.
      rewrite (powerRZ_10_nonneg 21) in E by lia.
      split; [|lia]. apply eq_IZR. rewrite T21 in E. nra.
Qed.

Lemma sextillion_digits :
  shortestDigits (IZR (10 ^ 21)) (1, 1, 22)%Z /\
  forall t, shortestDigits (IZR (10 ^ 21)) t -> t = (1, 1, 22)%Z.
Proof.
  assert (A : digitsOf (IZR (10 ^ 21)) (1, 1, 22)%Z).
  { split; [lia|]. split; [lia|].
    change (22 - 1)%Z with 21%Z. rewrite (powerRZ_10_nonneg 21) by lia.
    rewrite Rmult_1_l. apply DoubleFacts.round_exact, sextillion_double. }
  assert (Z0 : Rabs (1 * powerRZ 10 (22 - 1) - IZR (10 ^ 21)) = 0).
  { change (22 - 1)%Z with 21%Z. rewrite (powerRZ_10_nonneg 21) by lia.
    rewrite Rmult_1_l, Rminus_diag. apply Rabs_R0. }
  assert (B : forall s n, (10 ^ (1 - 1) <= s < 10 ^ 1)%Z ->
            Rabs (IZR s * powerRZ 10 (n - 1) - IZR (10 ^ 21)) = 0 ->
            s = 1%Z /\ n = 22%Z).
  { intros s n Hs H0. apply sextillion_digit; [change (10 ^ (1 - 1))%Z with 1%Z in Hs;
                                                change (10 ^ 1)%Z with 10%Z in Hs; lia|].
    destruct (Req_dec (IZR s * powerRZ 10 (n - 1) - IZR (10 ^ 21)) 0) as [E|E]; [lra|].
    apply Rabs_no_R0 in E. contradiction. }
  split.
  - split; [exact A|]. intros [[s' k'] n'] (Hk & Hs & Hr). cbv zeta.
    split; [lia|]. intros ->. rewrite Z0.
    destruct (Req_dec (Rabs (IZR s' * powerRZ 10 (n' - 1) - IZR (10 ^ 21))) 0) as [E|E].
    + right. split; [symmetry; exact E|]. left. apply (B s' n' Hs E).
    + left. pose proof (Rabs_pos (IZR s' * powerRZ 10 (n' - 1) - IZR (10 ^ 21))). lra.
  - intros [[s' k'] n'] [(Hk & Hs & Hr) Hmin].
    specialize (Hmin (1, 1, 22)%Z A). cbv zeta in Hmin.
    destruct Hmin as [Hle Hoff]. assert (k' = 1%Z) as -> by lia.
    destruct (Hoff eq_refl) as [Hlt|[Heq _]].
    + rewrite Z0 in Hlt.
      pose proof (Rabs_pos (IZR s' * powerRZ 10 (n' - 1) - IZR (10 ^ 21))). lra.
    + rewrite Z0 in Heq. destruct (B s' n' Hs Heq) as [-> ->]. reflexivity.
Qed.

End Exponent.

Example showNumber_sextillion : showNumber (10 ^ 21) = "1e+21"%string.
Proof.
  destruct sextillion_digits as [Hs Hu].
  rewrite (showNumber_large _ 1 1 22); [reflexivity|lia|exact Hs|exact Hu].
Qed.

(** C9. For a finite distance and a finite speed above zero, the ETA is
    computed from [hours = km / speed], the quotient as the code has it,
    rounded to the nearest double: [h] is the whole number of hours, [m]
    the remaining part of the hour times 60 (both in doubles) rounded to
    the nearest integer, the upper one on a tie, and the text is
    "{h}h {m}m" when the duration is at least one hour and "{m} min"
    otherwise, [h] in decimal digits below [2^53] and, from there on, in
    the digits of [Number::toString] (the shortest that read back as [h],
    followed by zeros up to 21 digits and in exponent form beyond).
    Without a finite distance and a finite speed above zero the text is a
    dash; a quotient that overflows prints as the code prints it.  The
    speed that
    [findClosest] hands to [etaFromKm] is the speed field clamped to
    [20, 130], and 80 when the field holds no number or zero. *)
Theorem etaFromKm_format (km speed : R)
        (TECHS : list Tech) (POSTAL_PROV : gmap string string) (ORS_ENDPOINT : string)
        (fetchORS : string -> list string -> Fetched)
        (driveFactorParsed speedParsed : num) (postalInput ticketText : string) :
  let hours := Double.round (km / speed) in
  let h := Math_floor hours in
  let q := Double.round (Double.round (hours - IZR h) * 60) in
  let m := Math_round q in
  ((0 < speed)%R ->
   (- Double.overflowAt < km / speed < Double.overflowAt)%R ->
   Double.representable hours /\
   (forall d, Double.representable d ->
      (Rabs (km / speed - hours) <= Rabs (km / speed - d))%R) /\
   (IZR h <= hours < IZR h + 1)%R /\
   (q - / 2 < IZR m <= q + / 2)%R /\
   (0 <= m <= 60)%Z /\
   ((1 <= hours)%R ->
    etaFromKm (Fin km) (Fin speed)
    = (showNumber h ++ "h " ++ showInt m ++ "m")%string /\
    ((h < 2 ^ 53)%Z -> showNumber h = showInt h) /\
    ((2 ^ 53 <= h)%Z ->
     forall s k n,
       shortestDigits (IZR h) (s, k, n) ->
       (forall t, shortestDigits (IZR h) t -> t = (s, k, n)) ->
       showNumber h
       = if (n <=? 21)%Z then (showInt s ++ zeros (Z.to_nat (n - k)))%string
         else (match showInt s with
               | String c rest =>
                   String c (if (k =? 1)%Z then EmptyString else "." ++ rest)
               | EmptyString => EmptyString
               end ++ "e+" ++ showInt (n - 1))%string)) /\
   ((hours < 1)%R ->
    etaFromKm (Fin km) (Fin speed) = (showInt m ++ " min")%string)) /\
  ((0 < speed)%R -> (Double.overflowAt <= km / speed)%R ->
   etaFromKm (Fin km) (Fin speed) = "Infinityh NaNm"%string) /\
  ((0 < speed)%R -> (km / speed <= - Double.overflowAt)%R ->
   etaFromKm (Fin km) (Fin speed) = "NaN min"%string) /\
  ((speed <= 0)%R -> etaFromKm (Fin km) (Fin speed) = dash) /\
  (forall x y, isFinite x = false \/ isFinite y = false -> etaFromKm x y = dash) /\
  ((speed <> 0)%R -> speedOf (Fin speed) = Fin (Rmax 20 (Rmin 130 speed))) /\
  speedOf (Fin 0) = Fin 80 /\
  speedOf NaN = Fin 80 /\
  speedOf PInf = Fin 130 /\
  speedOf NInf = Fin 20 /\
  (exists v, speedOf speedParsed = Fin v /\ (20 <= v <= 130)%R) /\
  (forall best2 effFactor driveKm driveMi eta topList,
     findClosest TECHS POSTAL_PROV ORS_ENDPOINT fetchORS
       driveFactorParsed speedParsed postalInput ticketText
     = FoundEstimate best2 effFactor driveKm driveMi eta topList ->
     eta = etaFromKm (Fin driveKm) (speedOf speedParsed)).
Proof.
  intros hours h q m.
  pose proof DoubleFacts.overflowAt_large as Hbig.
  split.
  { intros Hs Hw.
    pose proof (Math_floor_spec hours) as Hh. fold h in Hh.
    pose proof (Math_round_spec q) as Hm. fold m in Hm.
    destruct (minutes_range hours) as (_ & _ & Hr). fold h q m in Hr.
    pose proof (etaFromKm_finite km speed Hs Hw) as E. cbv zeta in E.
    fold hours h q m in E.
    split; [apply DoubleFacts.round_representable|].
    split; [intros d Hd; apply DoubleFacts.round_nearest, Hd|].
    split; [exact Hh|]. split; [exact Hm|]. split; [exact Hr|].
    split.
    - intros H1. split; [|split].
      + rewrite E. apply Math_floor_pos_iff in H1. fold h in H1.
        destruct (Z.leb_spec h 0); [lia|reflexivity].
      + intros Hlt. apply showNumber_small.
        apply Math_floor_pos_iff in H1. fold h in H1. lia.
      + intros Hge s k n Hdigits Huniq. apply showNumber_large; assumption.
    - intros H1. rewrite E.
      destruct (Z.leb_spec h 0) as [L|L]; [reflexivity|].
      apply Math_floor_pos_iff in L. fold hours in L. lra. }
  split.
  { intros Hs Hw. unfold etaFromKm, Double.fl.
    destruct (Rle_dec speed 0); [lra|].
    destruct (Rle_dec Double.overflowAt (km / speed)); [reflexivity|contradiction]. }
  split.
  { intros Hs Hw. unfold etaFromKm, Double.fl.
    destruct (Rle_dec speed 0); [lra|].
    destruct (Rle_dec Double.overflowAt (km / speed)); [lra|].
    destruct (Rle_dec (km / speed) (- Double.overflowAt)); [reflexivity|contradiction]. }
  split.
  { intros Hs. unfold etaFromKm. destruct (Rle_dec speed 0); [reflexivity|contradiction]. }
  split.
  { intros x y [H|H]; destruct x, y; try discriminate; reflexivity. }
  split.
  { intros Hs. unfold speedOf, orElse.
    destruct (Req_dec_T speed 0); [contradiction|reflexivity]. }
  split.
  { unfold speedOf, orElse. destruct (Req_dec_T 0 0); [|contradiction].
    cbn [Math_min Math_max]. f_equal.
    rewrite Rmin_right by lra. apply Rmax_right. lra. }
  split.
  { unfold speedOf, orElse. cbn [Math_min Math_max]. f_equal.
    rewrite Rmin_right by lra. apply Rmax_right. lra. }
  split.
  { unfold speedOf, orElse. cbn [Math_min Math_max]. f_equal. apply Rmax_right. lra. }
  split; [reflexivity|].
  split; [apply clamped_setting; lra|].
  intros best2 effFactor driveKm driveMi eta topList H.
  apply findClosest_estimate_eta in H. exact H.
Qed.

(** 20.5 km at 20 km/h: the quotient 1.025 is no double and is rounded
    down, so that the part of the hour times 60 is below 1.5.  At the same
    speed 2e22 km take 1e21 hours, which print in exponent form. *)
Lemma etaFromKm_format_witness :
  etaFromKm (Fin 20.5) (Fin 20) = "1h 1m"%string /\
  etaFromKm (Fin 2e22) (Fin 20) = "1e+21h 0m"%string /\
  speedOf (Fin 250) = Fin 130 /\ speedOf (Fin 5) = Fin 20.
Proof.
  pose proof DoubleFacts.overflowAt_large as Hbig.
  destruct (etaFromKm_format 20.5 20 [] ∅ "" Scenario.reply502 NaN NaN "" "")
    as (E & _).
  destruct (etaFromKm_format 0 250 [] ∅ "" Scenario.reply502 NaN NaN "" "")
    as (_ & _ & _ & _ & _ & S1 & _).
  destruct (etaFromKm_format 0 5 [] ∅ "" Scenario.reply502 NaN NaN "" "")
    as (_ & _ & _ & _ & _ & S2 & _).
  destruct (etaFromKm_format 2e22 20 [] ∅ "" Scenario.reply502 NaN NaN "" "")
    as (L & _).
  split; [|split; [|split]].
  - destruct E as (_ & _ & _ & _ & _ & E & _); [lra|lra|].
    revert E.
    rewrite (DoubleFacts.round_near 4616189618054758 (-52) (20.5 / 20));
      [|lia|lia|DoubleFacts.pow2; unfold Rabs; destruct Rcase_abs; lra].
    assert (F : Math_floor (4616189618054758 * powerRZ 2 (-52)) = 1%Z)
      by (apply Math_floor_unique; DoubleFacts.pow2; simpl; lra).
    rewrite F.
    replace (4616189618054758 * powerRZ 2 (-52) - 1)%R
      with (112589990684262 * powerRZ 2 (-52))%R by (DoubleFacts.pow2; lra).
    rewrite (DoubleFacts.round_exact (112589990684262 * powerRZ 2 (-52)))
      by (apply DoubleFacts.representable_scaled; lia).
    replace (112589990684262 * powerRZ 2 (-52) * 60)%R
      with (6755399441055720 * powerRZ 2 (-52))%R by (DoubleFacts.pow2; lra).
    rewrite (DoubleFacts.round_exact (6755399441055720 * powerRZ 2 (-52)))
      by (apply DoubleFacts.representable_scaled; lia).
    assert (M : Math_round (6755399441055720 * powerRZ 2 (-52)) = 1%Z)
      by (apply Math_round_unique; DoubleFacts.pow2; simpl; lra).
    rewrite M. intros E. destruct E as (E & _ & _); [DoubleFacts.pow2; lra|].
    rewrite E. reflexivity.
  - assert (Q : (2e22 / 20)%R = IZR (10 ^ 21))
      by (change (IZR (10 ^ 21)) with 1000000000000000000000%R; lra).
    assert (T : IZR (10 ^ 21) = 1000000000000000000000%R) by reflexivity.
    rewrite Q in L.
    rewrite (DoubleFacts.round_exact _ sextillion_double) in L.
    assert (F : Math_floor (IZR (10 ^ 21)) = (10 ^ 21)%Z)
      by (apply Math_floor_unique; lra).
    rewrite F in L. rewrite Rminus_diag in L.
    assert (R0 : Double.round 0 = 0%R) by (apply (DoubleFacts.round_IZR 0); lia).
    rewrite R0, Rmult_0_l, R0 in L.
    assert (M : Math_round 0 = 0%Z) by (apply Math_round_unique; lra).
    rewrite M in L.
    assert (W : (0 < IZR (10 ^ 21) < Double.overflowAt)%R).
    { pose proof DoubleFacts.overflowAt_huge as Hhuge.
      assert (IZR (10 ^ 21) < IZR (2 ^ 1023))%R by (apply IZR_lt; vm_compute; reflexivity).
      rewrite T in *. lra. }
    destruct L as (_ & _ & _ & _ & _ & L & _); [lra|lra|].
    destruct L as (L & _ & X); [rewrite T; lra|].
    destruct sextillion_digits as [Hs Hu].
    rewrite L, (X ltac:(lia) 1%Z 1%Z 22%Z Hs Hu). reflexivity.
  - rewrite S1 by lra. f_equal.
    rewrite Rmin_left by lra. apply Rmax_right. lra.
  - rewrite S2 by lra. f_equal.
    rewrite Rmin_right by lra. apply Rmax_left. lra.
Defined.


(** * Further properties *)

(** ** Keys of row objects *)

Module KeyFacts.

Lemma lowerChar_upperChar c : lowerChar (Str.upperChar c) = lowerChar c.
Proof. StrFacts.by_cases_on c. Qed.

Lemma lowerChar_sep c : isKeySep (lowerChar c) = isKeySep c.
Proof. StrFacts.by_cases_on c. Qed.

Lemma lowerChar_not_upper c : Str.isUpper (lowerChar c) = false.
Proof. StrFacts.by_cases_on c. Qed.

Lemma toLowerCase_app a b : toLowerCase (a ++ b) = toLowerCase a ++ toLowerCase b.
Proof. induction a as [|c a IH]; simpl; [reflexivity|]. now rewrite IH. Qed.

Lemma toLowerCase_toUpperCase s : toLowerCase (Str.toUpperCase s) = toLowerCase s.
Proof.
  induction s as [|c s IH]; simpl; [reflexivity|].
  now rewrite lowerChar_upperChar, IH.
Qed.

Lemma keep_app p a b : Str.keep p (a ++ b) = Str.keep p a ++ Str.keep p b.
Proof.
  induction a as [|c a IH]; simpl; [reflexivity|].
  destruct (p c); simpl; now rewrite IH.
Qed.

Lemma keep_none p s : allChars (fun c => negb (p c)) s = true -> Str.keep p s = "".
Proof.
  induction s as [|c s IH]; simpl; [reflexivity|].
  intros H. apply andb_true_iff in H as [Hc Hs].
  apply negb_true_iff in Hc. rewrite Hc. auto.
Qed.

Lemma keep_all p s : allChars p s = true -> Str.keep p s = s.
Proof.
  induction s as [|c s IH]; simpl; [reflexivity|].
  intros H. apply andb_true_iff in H as [Hc Hs]. rewrite Hc, IH; auto.
Qed.

Lemma allChars_keep p s : allChars p (Str.keep p s) = true.
Proof.
  induction s as [|c s IH]; simpl; [reflexivity|].
  destruct (p c) eqn:E; simpl; [rewrite E|]; exact IH.
Qed.

Lemma allChars_impl (p q : ascii -> bool) s :
  (forall c, p c = true -> q c = true) -> allChars p s = true -> allChars q s = true.
Proof.
  intros H. induction s as [|c s IH]; simpl; [reflexivity|].
  intros Hs. apply andb_true_iff in Hs as [Hc Hs]. rewrite (H c Hc), IH; auto.
Qed.

Lemma allChars_toLowerCase_sep s :
  allChars isKeySep s = true -> allChars isKeySep (toLowerCase s) = true.
Proof.
  induction s as [|c s IH]; simpl; [reflexivity|].
  intros H. apply andb_true_iff in H as [Hc Hs].
  rewrite lowerChar_sep, Hc, IH; auto.
Qed.

(** The characters of a normalized key. *)
Lemma normKey_chars k :
  allChars (fun c => negb (isKeySep c) && negb (Str.isUpper c)) (normKey k) = true.
Proof.
  unfold normKey. induction k as [|c k IH]; simpl; [reflexivity|].
  destruct (isKeySep (lowerChar c)) eqn:E; simpl; [exact IH|].
  rewrite E, lowerChar_not_upper, IH. reflexivity.
Qed.

Lemma toLowerCase_fixed s :
  allChars (fun c => negb (Str.isUpper c)) s = true -> toLowerCase s = s.
Proof.
  induction s as [|c s IH]; simpl; [reflexivity|].
  intros H. apply andb_true_iff in H as [Hc Hs]. apply negb_true_iff in Hc.
  unfold lowerChar. rewrite Hc, IH; auto.
Qed.

Lemma normKey_idem k : normKey (normKey k) = normKey k.
Proof.
  pose proof (normKey_chars k) as H.
  unfold normKey at 1. rewrite toLowerCase_fixed.
  - apply keep_all. eapply allChars_impl; [|exact H].
    intros c Hc. apply andb_true_iff in Hc as [Hc _]. exact Hc.
  - eapply allChars_impl; [|exact H].
    intros c Hc. apply andb_true_iff in Hc as [_ Hc]. exact Hc.
Qed.

(** What [buildKeyMap] holds under a key: the value of the last entry
    that normalizes to it. *)
Lemma buildKeyMap_last (pre post : Obj) k v :
  Forall (fun kv => normKey (fst kv) <> normKey k) post ->
  buildKeyMap (Some (pre ++ (k, v) :: post)%list) !! normKey k = Some v.
Proof.
  intros Hpost.
  assert (G : forall (l : Obj) (m : gmap string DbVal),
            Forall (fun kv => normKey (fst kv) <> normKey k) l ->
            foldl (fun m '(k0, v0) => <[normKey k0:=v0]> m) m l !! normKey k
            = m !! normKey k).
  { induction l as [|[k0 v0] l IH]; intros m Hl; cbn [foldl]; [reflexivity|].
    apply Forall_cons in Hl as [Hk Hl]. rewrite IH by exact Hl.
    apply lookup_insert_ne. exact Hk. }
  unfold buildKeyMap. rewrite foldl_app. cbn [foldl].
  rewrite G by exact Hpost. apply lookup_insert_eq.
Qed.

(** Every value of the map comes from an entry of the object. *)
Lemma buildKeyMap_from (obj : Obj) nk v :
  buildKeyMap (Some obj) !! nk = Some v ->
  exists k, (k, v) ∈ obj /\ normKey k = nk.
Proof.
  unfold buildKeyMap. induction obj as [|[k0 v0] obj IH] using rev_ind.
  - cbn [foldl]. rewrite lookup_empty. discriminate.
  - rewrite foldl_app. cbn [foldl]. rewrite lookup_insert.
    destruct (decide (normKey k0 = nk)) as [E|E].
    + intros [= <-]. exists k0. split; [|exact E].
      apply elem_of_app. right. left.
    + intros H. destruct (IH H) as (k & Hin & Hk). exists k. split; [|exact Hk].
      apply elem_of_app. left. exact Hin.
Qed.

Lemma pick_passed m before rest fallback :
  Forall (passed m) before -> pick m (before ++ rest) fallback = pick m rest fallback.
Proof.
  induction 1 as [|k before Hk _ IH]; [reflexivity|].
  cbn [app pick]. unfold passed in Hk.
  destruct (m !! normKey k) as [v|]; [rewrite Hk|]; exact IH.
Qed.

End KeyFacts.

(** X1. [normKey] yields lower-case keys without white space, underscores
    or hyphens, is idempotent, and does not see the case of a key nor the
    separators inside it: spellings that differ in these only share their
    normalized key. *)
Theorem normKey_spelling (k a b sep : string) :
  allChars isKeySep sep = true ->
  normKey (a ++ sep ++ b) = normKey (a ++ b) /\
  normKey (Str.toUpperCase k) = normKey k /\
  normKey (normKey k) = normKey k /\
  allChars (fun c => negb (isKeySep c) && negb (Str.isUpper c)) (normKey k) = true.
Proof.
  intros Hsep. split; [|split; [|split]].
  - unfold normKey. rewrite !KeyFacts.toLowerCase_app, !KeyFacts.keep_app.
    rewrite (KeyFacts.keep_none _ (toLowerCase sep)); [reflexivity|].
    eapply KeyFacts.allChars_impl; [|apply KeyFacts.allChars_toLowerCase_sep, Hsep].
    intros c Hc. rewrite Hc. reflexivity.
  - unfold normKey. rewrite KeyFacts.toLowerCase_toUpperCase. reflexivity.
  - apply KeyFacts.normKey_idem.
  - apply KeyFacts.normKey_chars.
Qed.

Lemma normKey_spelling_witness :
  normKey "Tech - ID" = normKey "TechID" /\ normKey "TECH_ID" = "techid".
Proof.
  destruct (normKey_spelling "tech_id" "Tech" "ID" " - " eq_refl) as (E & U & _).
  split; [exact E | exact U].
Defined.

(** X2. [pick] over [buildKeyMap] finds a column under any spelling of its
    name: when the object has an entry whose key normalizes like the listed
    key, no later entry normalizes to the same key, its value is not blank,
    and the keys listed before are missing or blank, [pick] returns that
    value.  For every row, also an empty one, one whose values are all
    blank and no row at all: when every listed key is missing or blank
    [pick] returns the fallback, and whatever it returns is the fallback or
    a value of the object that is not blank. *)
Theorem pick_any_spelling (obj : option Obj) (pre post : Obj) (k k' : string) (v : DbVal)
        (before after keys : list string) (fallback : string) :
  let m := buildKeyMap obj in
  (obj = Some (pre ++ (k, v) :: post)%list ->
   Forall (fun kv => normKey (fst kv) <> normKey k) post ->
   blank v = false ->
   normKey k' = normKey k ->
   Forall (passed m) before ->
   pick m (before ++ k' :: after) fallback = v) /\
  ((forall k0, k0 ∈ keys ->
      m !! normKey k0 = None \/
      exists v0, m !! normKey k0 = Some v0 /\ blank v0 = true) ->
   pick m keys fallback = DbStr fallback) /\
  ((forall entries k1 v1,
      obj = Some entries -> (k1, v1) ∈ entries -> blank v1 = true) ->
   pick m keys fallback = DbStr fallback) /\
  pick (buildKeyMap None) keys fallback = DbStr fallback /\
  pick (buildKeyMap (Some [])) keys fallback = DbStr fallback /\
  (pick m keys fallback = DbStr fallback \/
   (blank (pick m keys fallback) = false /\
    exists entries k0 k1,
      obj = Some entries /\ k0 ∈ keys /\ normKey k1 = normKey k0 /\
      (k1, pick m keys fallback) ∈ entries)).
Proof.
  intros m.
  assert (Hfb : forall m' : gmap string DbVal,
            (forall k0, k0 ∈ keys ->
               m' !! normKey k0 = None \/
               exists v0, m' !! normKey k0 = Some v0 /\ blank v0 = true) ->
            pick m' keys fallback = DbStr fallback).
  { intros m' Hkeys. rewrite <- (app_nil_r keys).
    rewrite KeyFacts.pick_passed; [reflexivity|].
    apply Forall_forall. intros k0 Hk0. unfold passed.
    destruct (Hkeys k0 Hk0) as [-> | (v0 & -> & Hb)]; [exact I|exact Hb]. }
  split; [|split; [|split; [|split; [|split]]]].
  - intros -> Hpost Hv Hk Hbefore.
    rewrite KeyFacts.pick_passed by exact Hbefore. cbn [pick].
    rewrite Hk. subst m. rewrite KeyFacts.buildKeyMap_last by exact Hpost.
    rewrite Hv. reflexivity.
  - apply Hfb.
  - intros Hblank. apply Hfb. intros k0 _.
    destruct (m !! normKey k0) as [v0|] eqn:E; [|left; reflexivity].
    right. exists v0. split; [reflexivity|].
    subst m. destruct obj as [entries|];
      [|cbn [buildKeyMap] in E; rewrite lookup_empty in E; discriminate].
    apply KeyFacts.buildKeyMap_from in E as (k1 & Hin & _).
    eapply Hblank; [reflexivity|exact Hin].
  - apply Hfb. intros k0 _. left. apply lookup_empty.
  - apply Hfb. intros k0 _. left. apply lookup_empty.
  - clear Hfb. induction keys as [|k0 keys IH]; [left; reflexivity|].
    cbn [pick]. destruct (m !! normKey k0) as [v0|] eqn:E.
    + destruct (blank v0) eqn:B.
      * destruct IH as [IH|(Hb & entries & k2 & k1 & Ho & Hin & Hn & Hobj)];
          [left; exact IH|].
        right. split; [exact Hb|]. exists entries, k2, k1.
        split; [exact Ho|]. split; [right; exact Hin|]. auto.
      * right. split; [exact B|]. subst m.
        destruct obj as [entries|];
      [|cbn [buildKeyMap] in E; rewrite lookup_empty in E; discriminate].
        apply KeyFacts.buildKeyMap_from in E as (k1 & Hin & Hn).
        exists entries, k0, k1. split; [reflexivity|]. split; [left|]. auto.
    + destruct IH as [IH|(Hb & entries & k2 & k1 & Ho & Hin & Hn & Hobj)];
        [left; exact IH|].
      right. split; [exact Hb|]. exists entries, k2, k1.
      split; [exact Ho|]. split; [right; exact Hin|]. auto.
Qed.

(** A column found under another spelling, and a row whose values are all
    blank. *)
Lemma pick_any_spelling_witness :
  pick (buildKeyMap (Some [("Tech ID", DbStr "17"); ("City", DbStr "  ")]))
       ["city"; "tech_id"; "id"] ""
  = DbStr "17" /\
  pick (buildKeyMap (Some [("Tech ID", DbNull); ("City", DbStr "  ")]))
       ["city"; "tech_id"; "id"] "n/a"
  = DbStr "n/a".
Proof.
  split.
  - destruct (pick_any_spelling (Some [("Tech ID", DbStr "17"); ("City", DbStr "  ")])
                [] [("City", DbStr "  ")] "Tech ID" "tech_id" (DbStr "17")
                ["city"] ["id"] [] "") as (H & _).
    apply H.
    + reflexivity.
    + constructor; [vm_compute; discriminate | constructor].
    + reflexivity.
    + reflexivity.
    + constructor; [vm_compute; reflexivity | constructor].
  - destruct (pick_any_spelling (Some [("Tech ID", DbNull); ("City", DbStr "  ")])
                [] [] "" "" DbNull [] [] ["city"; "tech_id"; "id"] "n/a")
      as (_ & _ & H & _).
    apply H. intros entries k1 v1 [= <-] Hin.
    apply elem_of_cons in Hin as [[= -> ->]|Hin]; [reflexivity|].
    apply elem_of_cons in Hin as [[= -> ->]|Hin]; [reflexivity|].
    inversion Hin.
Defined.

(** *** Column names *)

Module ColFacts.

Lemma az09_char c :
  isaz09 c = true ->
  Ascii.eqb c underscore = false /\ Str.isSpace c = false /\
  Str.isUpper c = false /\ lowerChar c = c.
Proof. StrFacts.by_cases_on c. Qed.

Lemma underscore_char c :
  Ascii.eqb c underscore = true ->
  c = underscore /\ isaz09 c = false /\ Str.isSpace c = false /\ Str.isUpper c = false.
Proof. StrFacts.by_cases_on c. Qed.

Lemma squash_noRun s : forall b, noRun b (squash b s) = true.
Proof.
  induction s as [|c s IH]; intros b; cbn [squash noRun]; [reflexivity|].
  destruct (isaz09 c) eqn:E.
  - cbn [noRun]. rewrite E. apply IH.
  - destruct b; [apply IH|].
    cbn [noRun]. replace (isaz09 underscore) with false by reflexivity.
    rewrite IH. reflexivity.
Qed.

Lemma dropLeading_noRun s b : noRun b s = true -> noRun true (dropLeading s) = true.
Proof.
  revert b. induction s as [|c s IH]; intros b; cbn [dropLeading noRun]; [reflexivity|].
  destruct (Ascii.eqb c underscore) eqn:E.
  - destruct (underscore_char c E) as (_ & Haz & _). rewrite Haz.
    intros H. apply andb_true_iff in H as [_ Hs]. eapply IH, Hs.
  - destruct (isaz09 c) eqn:Haz; [|discriminate].
    intros H. cbn [noRun]. rewrite Haz. exact H.
Qed.

Lemma dropTrailing_safe s :
  forall b, noRun b s = true ->
  dropTrailing s = "" \/ (dropTrailing s <> "" /\ safeFrom b (dropTrailing s) = true).
Proof.
  induction s as [|c s IH]; intros b; [left; reflexivity|].
  cbn [noRun dropTrailing]. destruct (isaz09 c) eqn:Haz.
  - intros Hs. right. destruct (az09_char c Haz) as (Hu & _). rewrite Hu.
    destruct (IH false Hs) as [E|[Hne Hsafe]].
    + rewrite E. split; [discriminate|]. cbn [safeFrom]. rewrite Haz. reflexivity.
    + destruct (dropTrailing s) eqn:E; [congruence|].
      split; [discriminate|]. cbn [safeFrom]. rewrite Haz. exact Hsafe.
  - intros H. apply andb_true_iff in H as [H Hs]. apply andb_true_iff in H as [Hc Hb].
    rewrite Hc. destruct (IH true Hs) as [E|[Hne Hsafe]].
    + rewrite E. left. reflexivity.
    + destruct (dropTrailing s) eqn:E; [congruence|].
      right. split; [discriminate|]. cbn [safeFrom]. rewrite Haz, Hc, Hb. exact Hsafe.
Qed.

Lemma normalizeCol_safeCol name : safeCol (normalizeCol name) = true.
Proof.
  unfold normalizeCol.
  pose proof (squash_noRun (toLowerCase (Str.trim name)) false) as H.
  apply dropLeading_noRun in H. apply dropTrailing_safe in H as [E|[Hne Hs]].
  - rewrite E. reflexivity.
  - unfold safeCol. destruct (dropTrailing _); [reflexivity|exact Hs].
Qed.

(** What a safe name looks like. *)
Lemma safeFrom_chars s :
  forall b, safeFrom b s = true ->
  allChars (fun c => isaz09 c || Ascii.eqb c underscore) s = true.
Proof.
  induction s as [|c s IH]; intros b; cbn [safeFrom allChars]; [reflexivity|].
  destruct (isaz09 c); cbn [orb andb]; [apply IH|].
  intros H. apply andb_true_iff in H as [H Hs]. apply andb_true_iff in H as [Hc _].
  rewrite Hc. eapply IH, Hs.
Qed.

Lemma safeFrom_no_trailing a : forall b, safeFrom b (a ++ "_") = false.
Proof.
  induction a as [|c a IH]; intros b.
  - destruct b; reflexivity.
  - change (safeFrom b (String c (a ++ "_")) = false). cbn [safeFrom].
    destruct (isaz09 c); [apply IH|].
    rewrite IH. apply andb_false_r.
Qed.

Lemma prefix_ne a s1 b s2 : a <> b -> String.prefix (String a s1) (String b s2) = false.
Proof.
  intros H.
  change (String.prefix (String a s1) (String b s2))
    with (if ascii_dec a b then String.prefix s1 s2 else false).
  destruct (ascii_dec a b); [contradiction|reflexivity].
Qed.

Lemma prefix_same a s1 s2 :
  String.prefix (String a s1) (String a s2) = String.prefix s1 s2.
Proof.
  change (String.prefix (String a s1) (String a s2))
    with (if ascii_dec a a then String.prefix s1 s2 else false).
  destruct (ascii_dec a a); [reflexivity|contradiction].
Qed.

Lemma az09_not_underscore c : isaz09 c = true -> underscore <> c.
Proof. intros H <-. discriminate. Qed.

Lemma safeFrom_first c s : safeFrom true (String c s) = true -> isaz09 c = true.
Proof.
  cbn [safeFrom]. destruct (isaz09 c); [reflexivity|].
  rewrite andb_false_r. discriminate.
Qed.

Lemma safeFrom_no_double s : forall b, safeFrom b s = true -> includes "__" s = false.
Proof.
  induction s as [|c s IH]; intros b H; [reflexivity|].
  cbn [includes]. apply orb_false_iff. split.
  - cbn [safeFrom] in H. destruct (isaz09 c) eqn:Haz.
    + apply prefix_ne, az09_not_underscore, Haz.
    + apply andb_true_iff in H as [H Hs]. apply andb_true_iff in H as [Hc _].
      destruct (underscore_char c Hc) as (-> & _).
      unfold underscore. rewrite prefix_same.
      destruct s as [|d s]; [reflexivity|].
      apply prefix_ne, az09_not_underscore, (safeFrom_first _ _ Hs).
  - cbn [safeFrom] in H. destruct (isaz09 c); [eapply IH, H|].
    apply andb_true_iff in H as [_ Hs]. eapply IH, Hs.
Qed.

Lemma trimStart_fixed s :
  match s with EmptyString => True | String c _ => Str.isSpace c = false end ->
  Str.trimStart s = s.
Proof. destruct s as [|c s]; [reflexivity|]. cbn. intros ->. reflexivity. Qed.

Lemma trimEnd_fixed s :
  allChars (fun c => negb (Str.isSpace c)) s = true -> Str.trimEnd s = s.
Proof.
  induction s as [|c s IH]; [reflexivity|]. cbn [allChars Str.trimEnd].
  intros H. apply andb_true_iff in H as [Hc Hs]. apply negb_true_iff in Hc.
  rewrite (IH Hs), Hc. destruct s; reflexivity.
Qed.

Lemma squash_fixed s : forall b, safeFrom b s = true -> squash b s = s.
Proof.
  induction s as [|c s IH]; intros b; cbn [safeFrom squash]; [reflexivity|].
  destruct (isaz09 c); [intros H; now rewrite IH|].
  intros H. apply andb_true_iff in H as [H Hs]. apply andb_true_iff in H as [Hc Hb].
  apply negb_true_iff in Hb. subst b.
  destruct (underscore_char c Hc) as (-> & _). now rewrite IH.
Qed.

Lemma dropTrailing_fixed s : forall b, safeFrom b s = true -> dropTrailing s = s.
Proof.
  induction s as [|c s IH]; intros b; cbn [safeFrom dropTrailing]; [reflexivity|].
  destruct (isaz09 c) eqn:Haz.
  - intros H. rewrite (IH _ H). destruct (az09_char c Haz) as (-> & _).
    destruct s; reflexivity.
  - intros H. apply andb_true_iff in H as [_ Hs]. rewrite (IH _ Hs).
    destruct s; [discriminate|reflexivity].
Qed.

Lemma normalizeCol_fixed s : safeCol s = true -> normalizeCol s = s.
Proof.
  destruct s as [|c s]; [reflexivity|]. unfold safeCol. intros H.
  pose proof (safeFrom_chars _ _ H) as Hchars.
  destruct (az09_char c (safeFrom_first _ _ H)) as (Hu & Hsp & _).
  unfold normalizeCol, Str.trim.
  rewrite trimStart_fixed by exact Hsp.
  rewrite trimEnd_fixed.
  2:{ eapply KeyFacts.allChars_impl; [|exact Hchars].
      intros d Hd. apply orb_true_iff in Hd as [Hd|Hd].
      - destruct (az09_char d Hd) as (_ & -> & _). reflexivity.
      - destruct (underscore_char d Hd) as (_ & _ & -> & _). reflexivity. }
  rewrite KeyFacts.toLowerCase_fixed.
  2:{ eapply KeyFacts.allChars_impl; [|exact Hchars].
      intros d Hd. apply orb_true_iff in Hd as [Hd|Hd].
      - destruct (az09_char d Hd) as (_ & _ & -> & _). reflexivity.
      - destruct (underscore_char d Hd) as (_ & _ & _ & ->). reflexivity. }
  rewrite (squash_fixed _ false).
  2:{ cbn [safeFrom] in H |- *. destruct (isaz09 c); [exact H|].
      rewrite andb_false_r in H. discriminate. }
  cbn [dropLeading]. rewrite Hu. apply (dropTrailing_fixed _ true H).
Qed.

(** A string of the shape of a safe name is one. *)
Lemma safeFrom_shape s : forall prev,
  s <> "" ->
  allChars (fun c => isaz09 c || Ascii.eqb c underscore) s = true ->
  (prev = true -> String.prefix "_" s = false) ->
  (forall t, s <> t ++ "_") ->
  includes "__" s = false ->
  safeFrom prev s = true.
Proof.
  induction s as [|c s IH]; intros prev Hne Hch Hpre Hend Hdbl; [contradiction|].
  cbn [allChars] in Hch. apply andb_true_iff in Hch as [Hc Hch].
  cbn [includes] in Hdbl. apply orb_false_iff in Hdbl as [Hd1 Hd2].
  assert (Hend' : forall t, s <> t ++ "_").
  { intros t ->. apply (Hend (String c t)). reflexivity. }
  cbn [safeFrom]. destruct (isaz09 c) eqn:Haz.
  - destruct (string_dec s "") as [->|Hs]; [reflexivity|].
    apply IH; [exact Hs|exact Hch|discriminate|exact Hend'|exact Hd2].
  - cbn [orb] in Hc. rewrite Hc. destruct (underscore_char c Hc) as (-> & _).
    assert (prev = false) as ->.
    { destruct prev; [|reflexivity]. specialize (Hpre eq_refl).
      unfold underscore in Hpre. rewrite prefix_same in Hpre.
      destruct s; discriminate. }
    cbn [negb andb]. apply IH; [|exact Hch| |exact Hend'|exact Hd2].
    + intros ->. apply (Hend ""). reflexivity.
    + intros _. unfold underscore in Hd1. rewrite prefix_same in Hd1. exact Hd1.
Qed.

End ColFacts.

(** X3. [normalizeCol] always yields a safe column name: lower-case
    letters, digits and underscores only, with no underscore at either end
    and no two underscores in a row (the name may be empty).  Every name of
    that form is left as it is, so [normalizeCol] is idempotent. *)
Theorem normalizeCol_safe (name : string) :
  let safe (s : string) :=
    allChars (fun c => isaz09 c || Ascii.eqb c underscore) s = true /\
    String.prefix "_" s = false /\
    (forall t, s <> t ++ "_") /\
    includes "__" s = false in
  safe (normalizeCol name) /\
  (forall s, safe s -> normalizeCol s = s) /\
  normalizeCol (normalizeCol name) = normalizeCol name.
Proof.
  intros safe.
  assert (Hsafe : safe (normalizeCol name)).
  { pose proof (ColFacts.normalizeCol_safeCol name) as H.
    set (col := normalizeCol name) in *.
    split; [|split; [|split]].
    - destruct col; [reflexivity|]. eapply ColFacts.safeFrom_chars, H.
    - destruct col as [|c s]; [reflexivity|].
      apply ColFacts.safeFrom_first in H.
      apply ColFacts.prefix_ne, ColFacts.az09_not_underscore, H.
    - intros s E. rewrite E in H. unfold safeCol in H.
      rewrite ColFacts.safeFrom_no_trailing in H.
      destruct s; discriminate.
    - destruct col; [reflexivity|]. eapply ColFacts.safeFrom_no_double, H. }
  assert (Hfixed : forall s, safe s -> normalizeCol s = s).
  { intros s (Hch & Hpre & Hend & Hdbl). apply ColFacts.normalizeCol_fixed.
    destruct s as [|c s]; [reflexivity|]. unfold safeCol.
    apply ColFacts.safeFrom_shape; [discriminate|exact Hch|intros _; exact Hpre|
                                   exact Hend|exact Hdbl]. }
  split; [exact Hsafe|]. split; [exact Hfixed|].
  apply Hfixed, Hsafe.
Qed.

(** A header of a sheet, and the column name it becomes. *)
Lemma normalizeCol_safe_witness :
  normalizeCol "  Tech  ID# " = "tech_id" /\ normalizeCol "tech_id" = "tech_id".
Proof.
  split; [reflexivity|].
  destruct (normalizeCol_safe "  Tech  ID# ") as (_ & H & _).
  apply H. split; [reflexivity|]. split; [reflexivity|]. split; [|reflexivity].
  intros t E. pose proof (ColFacts.safeFrom_no_trailing t true) as F.
  rewrite <- E in F. discriminate.
Defined.

(** *** The sheet loader *)

Module LoaderFacts.

Section Sent.

Variable rpc : string -> option string.
Variable table : string.

Lemma addColumns_sent cols : forall sent,
  exists done,
    (addColumns rpc table cols sent).1 = (sent ++ map (addColumn table) done)%list /\
    done `prefix_of` List.filter addable cols /\
    ((addColumns rpc table cols sent).2 = None -> done = List.filter addable cols).
Proof.
  induction cols as [|c cs IH]; intros sent.
  - exists []. cbn. rewrite app_nil_r. repeat split; auto.
  - cbn [addColumns List.filter]. destruct (addable c) eqn:Hc; cbn [negb].
    + unfold ufhExec. destruct (rpc (addColumn table c)) as [msg|] eqn:E; cbn [fmap option_fmap option_map].
      * exists [c]. cbn [fst snd map]. repeat split.
        -- apply prefix_cons, prefix_nil.
        -- discriminate.
      * destruct (IH (sent ++ [addColumn table c])%list) as (done & E1 & E2 & E3).
        exists (c :: done). rewrite E1. cbn [map]. rewrite <- app_assoc. repeat split.
        -- apply prefix_cons, E2.
        -- intros H. rewrite (E3 H). reflexivity.
    + apply IH.
Qed.

(** Every statement before the last one sent went through, and so did the
    last one unless an exception was thrown. *)
Lemma addColumns_ok cols : forall sent,
  Forall (fun sql => rpc sql = None) sent ->
  ((addColumns rpc table cols sent).2 = None ->
   Forall (fun sql => rpc sql = None) (addColumns rpc table cols sent).1) /\
  (forall e, (addColumns rpc table cols sent).2 = Some e ->
     exists init sql msg,
       (addColumns rpc table cols sent).1 = (init ++ [sql])%list /\
       Forall (fun s => rpc s = None) init /\
       rpc sql = Some msg /\ e = ("ufh_exec failed: " ++ msg)%string).
Proof.
  induction cols as [|c cs IH]; intros sent Hsent.
  - cbn. split; [auto|discriminate].
  - cbn [addColumns]. destruct (addable c); cbn [negb]; [|apply IH, Hsent].
    unfold ufhExec.
    destruct (rpc (addColumn table c)) as [msg|] eqn:E;
      cbn [fmap option_fmap option_map].
    + cbn [fst snd]. split; [discriminate|].
      intros e [= <-]. exists sent, (addColumn table c), msg. auto.
    + apply IH. apply Forall_app. split; [exact Hsent|]. constructor; [exact E|constructor].
Qed.

End Sent.

Lemma addCol_spec cols k :
  NoDup cols -> Forall (fun c => c <> "" /\ safeCol c = true) cols ->
  NoDup (addCol cols k) /\ Forall (fun c => c <> "" /\ safeCol c = true) (addCol cols k) /\
  (forall c, c ∈ addCol cols k <-> c ∈ cols \/ (c = normalizeCol k /\ c <> "")).
Proof.
  intros Hnd Hall. unfold addCol.
  destruct (normalizeCol k) as [|a s] eqn:E; cbn [Str.truthy negb].
  - repeat split; auto. intros [H|[-> H]]; [exact H|congruence].
  - case_bool_decide as Hin.
    + repeat split; auto. intros [H|[-> _]]; auto.
    + repeat split.
      * apply NoDup_app. repeat split; auto.
        -- intros x Hx Hx'. apply list_elem_of_singleton in Hx'. subst x. contradiction.
        -- apply NoDup_singleton.
      * apply Forall_app. split; [exact Hall|]. constructor; [|constructor].
        split; [discriminate|]. rewrite <- E. apply ColFacts.normalizeCol_safeCol.
      * intros H. apply elem_of_app in H as [H|H]; [left; exact H|].
        apply list_elem_of_singleton in H. right. split; [exact H|]. subst c. discriminate.
      * intros [H|[-> _]]; apply elem_of_app; [left; exact H|].
        right. apply list_elem_of_singleton. reflexivity.
Qed.

Lemma rowCols_spec {V} (r : list (string * V)) : forall cols,
  NoDup cols -> Forall (fun c => c <> "" /\ safeCol c = true) cols ->
  let cols' := foldl (fun cols kv => addCol cols (fst kv)) cols r in
  NoDup cols' /\ Forall (fun c => c <> "" /\ safeCol c = true) cols' /\
  (forall c, c ∈ cols' <->
     c ∈ cols \/ exists k v, (k, v) ∈ r /\ c = normalizeCol k /\ c <> "").
Proof.
  induction r as [|[k v] r IH]; intros cols Hnd Hall; cbn [foldl fst].
  - repeat split; auto. intros [H|(k & v & H & _)]; [exact H|].
    apply not_elem_of_nil in H. contradiction.
  - destruct (addCol_spec cols k Hnd Hall) as (Hnd' & Hall' & Hin').
    destruct (IH _ Hnd' Hall') as (Hnd'' & Hall'' & Hin'').
    repeat split; auto.
    + intros H. apply Hin'' in H as [H|(k0 & v0 & H & E)].
      * apply Hin' in H as [H|[E1 E2]]; [left; exact H|].
        right. exists k, v. split; [left|]. auto.
      * right. exists k0, v0. split; [right; exact H|exact E].
    + intros [H|(k0 & v0 & H & E1 & E2)]; apply Hin''.
      * left. apply Hin'. left. exact H.
      * apply elem_of_cons in H as [[= -> ->]|H].
        -- left. apply Hin'. right. auto.
        -- right. exists k0, v0. auto.
Qed.

Lemma sheetCols_from {V} (rawRows : list (list (string * V))) : forall cols,
  NoDup cols -> Forall (fun c => c <> "" /\ safeCol c = true) cols ->
  let cols' :=
    foldl (fun cols r => foldl (fun cols kv => addCol cols (fst kv)) cols r) cols rawRows in
  NoDup cols' /\ Forall (fun c => c <> "" /\ safeCol c = true) cols' /\
  (forall c, c ∈ cols' <->
     c ∈ cols \/
     exists r k v, r ∈ rawRows /\ (k, v) ∈ r /\ c = normalizeCol k /\ c <> "").
Proof.
  induction rawRows as [|r rows IH]; intros cols Hnd Hall; cbn [foldl].
  - repeat split; auto. intros [H|(r & k & v & H & _)]; [exact H|].
    apply not_elem_of_nil in H. contradiction.
  - destruct (rowCols_spec r cols Hnd Hall) as (Hnd' & Hall' & Hin').
    destruct (IH _ Hnd' Hall') as (Hnd'' & Hall'' & Hin'').
    repeat split; auto.
    + intros H. apply Hin'' in H as [H|(r0 & k0 & v0 & H & E)].
      * apply Hin' in H as [H|(k0 & v0 & H & E)]; [left; exact H|].
        right. exists r, k0, v0. split; [left|]. auto.
      * right. exists r0, k0, v0. split; [right; exact H|exact E].
    + intros [H|(r0 & k0 & v0 & H & Hk & E)]; apply Hin''.
      * left. apply Hin'. left. exact H.
      * apply elem_of_cons in H as [->|H].
        -- left. apply Hin'. right. exists k0, v0. auto.
        -- right. exists r0, k0, v0. auto.
Qed.

End LoaderFacts.

(** X4. The loader only ever adds safe columns.  The columns collected from
    a sheet are the non-empty normalized keys of its rows, each once; the
    statements sent for them are the [create table] followed by one
    [alter table ... add column] per column other than [id], in the order
    of the columns and up to the first statement that fails: every
    statement sent before the last one went through, an exception carries
    the error of the last statement sent, and without an exception every
    statement was sent and went through.  Every column named in a statement
    is a safe name. *)
Theorem loader_columns {V} (rpc : string -> option string) (table : string)
        (rawRows : list (list (string * V))) :
  let cols := sheetCols rawRows in
  let run := ensureTableAndColumns rpc table cols in
  NoDup cols /\
  (forall c, c ∈ cols <->
     exists r k v, r ∈ rawRows /\ (k, v) ∈ r /\ c = normalizeCol k /\ c <> "") /\
  (exists done,
     run.1 = createTable table :: map (addColumn table) done /\
     done `prefix_of` List.filter addable cols /\
     Forall (fun c => c <> "" /\ c <> "id" /\ safeCol c = true) done /\
     (run.2 = None -> done = List.filter addable cols)) /\
  (run.2 = None -> Forall (fun sql => rpc sql = None) run.1) /\
  (forall e, run.2 = Some e ->
     exists init sql msg,
       run.1 = (init ++ [sql])%list /\
       Forall (fun s => rpc s = None) init /\
       rpc sql = Some msg /\ e = ("ufh_exec failed: " ++ msg)%string).
Proof.
  intros cols run.
  destruct (LoaderFacts.sheetCols_from rawRows [] (NoDup_nil_2 (A:=string)) (Forall_nil_2 _))
    as (Hnd & Hall & Hin).
  fold (sheetCols rawRows) in Hnd, Hall, Hin. fold cols in Hnd, Hall, Hin.
  split; [exact Hnd|]. split.
  { intros c. rewrite Hin. split; [intros [H|H]; [|exact H]|auto].
    apply not_elem_of_nil in H. contradiction. }
  subst run. unfold ensureTableAndColumns, ufhExec.
  destruct (rpc (createTable table)) as [msg|] eqn:E; cbn [fmap option_fmap option_map app].
  - split.
    + exists []. cbn [fst snd map]. repeat split.
      * apply prefix_nil.
      * constructor.
      * discriminate.
    + cbn [fst snd]. split; [discriminate|].
      intros e [= <-]. exists [], (createTable table), msg. auto.
  - destruct (LoaderFacts.addColumns_sent rpc table cols [createTable table])
      as (done & E1 & E2 & E3).
    split.
    + exists done. repeat split; auto.
      apply Forall_forall. intros c Hc.
      assert (Hf : c ∈ List.filter addable cols).
      { destruct E2 as [rest ->]. apply elem_of_app. left. exact Hc. }
      apply list_elem_of_In, filter_In in Hf as [Hf Ha].
      apply list_elem_of_In in Hf.
      pose proof (proj1 (Forall_forall _ _) Hall c Hf) as [Hne Hsafe].
      unfold addable in Ha. apply andb_true_iff in Ha as [_ Ha].
      apply negb_true_iff, String.eqb_neq in Ha. auto.
    + apply LoaderFacts.addColumns_ok. constructor; [exact E|constructor].
Qed.

Lemma loader_columns_witness :
  sheetCols [[("Tech ID", 1%nat); ("ID", 2%nat); (" City ", 3%nat)]; [("tech-id", 4%nat)]]
  = ["tech_id"; "id"; "city"] /\
  (ensureTableAndColumns (fun _ => None) "techs" ["tech_id"; "id"; "city"]).1
  = [createTable "techs"; addColumn "techs" "tech_id"; addColumn "techs" "city"].
Proof.
  split; [reflexivity|].
  destruct (loader_columns (fun _ => None) "techs"
              [[("Tech ID", 1%nat); ("ID", 2%nat); (" City ", 3%nat)]; [("tech-id", 4%nat)]])
    as (_ & _ & (done & E & _ & _ & Hdone) & _).
  rewrite (Hdone eq_refl) in E. exact E.
Defined.

(** A loader whose second statement fails stops there. *)
Example loader_stops :
  ensureTableAndColumns
    (fun sql => if String.eqb sql (addColumn "techs" "tech_id") then Some "denied" else None)
    "techs" ["tech_id"; "id"; "city"]
  = ([createTable "techs"; addColumn "techs" "tech_id"], Some "ufh_exec failed: denied").
Proof. reflexivity. Qed.

(** *** Batches *)

Module ChunkFacts.

Lemma chunkLoop_spec {T} (arr : list T) (size : nat) :
  (0 < size)%nat ->
  forall fuel i out,
    (length arr - i <= fuel)%nat ->
    exists parts,
      chunkLoop fuel i arr size out = Some (out ++ parts)%list /\
      concat parts = drop i arr /\
      Forall (fun part => (0 < length part <= size)%nat) parts /\
      (forall k part, parts !! k = Some part -> (S k < length parts)%nat ->
                      length part = size).
Proof.
  intros Hsize. induction fuel as [|fuel IH]; intros i out Hfuel.
  - exists []. unfold chunkLoop.
    destruct (Nat.ltb_spec i (length arr)) as [Hlt|Hge]; [lia|].
    rewrite app_nil_r, drop_ge by lia. repeat split; auto.
    intros k part H. rewrite lookup_nil in H. discriminate.
  - cbn [chunkLoop]. destruct (Nat.ltb_spec i (length arr)) as [Hlt|Hge].
    + destruct (IH (i + size)%nat (out ++ [take size (drop i arr)])%list) as
        (parts & E & Hcat & Hlen & Hfull); [lia|].
      exists (take size (drop i arr) :: parts). rewrite E, <- app_assoc.
      split; [reflexivity|]. split; [|split].
      * cbn [concat]. rewrite Hcat, <- drop_drop. apply take_drop.
      * constructor; [|exact Hlen].
        rewrite length_take, length_drop. lia.
      * intros [|k] part Hk Hmore; cbn in Hk.
        -- injection Hk as <-. rewrite length_take, length_drop.
           destruct parts as [|q parts]; [cbn in Hmore; lia|].
           apply Forall_cons in Hlen as [Hq _].
           assert (Hq' : (length (concat (q :: parts)) > 0)%nat).
           { cbn [concat]. rewrite length_app. lia. }
           rewrite Hcat, length_drop in Hq'. lia.
        -- apply (Hfull k part Hk). cbn [length] in Hmore. lia.
    + exists []. rewrite app_nil_r, drop_ge by lia. repeat split; auto.
      intros k part H. rewrite lookup_nil in H. discriminate.
Qed.

Lemma chunkLoop_zero {T} (arr : list T) (i : nat) :
  (i < length arr)%nat -> forall fuel out, chunkLoop fuel i arr 0 out = None.
Proof.
  intros Hlt. induction fuel as [|fuel IH]; intros out; cbn [chunkLoop];
    destruct (Nat.ltb_spec i (length arr)); try lia; [reflexivity|].
  rewrite Nat.add_0_r. apply IH.
Qed.

End ChunkFacts.

(** X5. [chunk] with a positive size splits an array into batches that
    lose nothing: joined in order they give the array back, no batch is
    empty or longer than the size, and every batch but the last is full.
    The loop ends within as many rounds as the array has elements.  With
    size 0 the loop never ends on an array that is not empty. *)
Theorem chunk_batches {T} (arr : list T) (size fuel : nat) :
  ((0 < size)%nat -> (length arr <= fuel)%nat ->
   exists parts,
     chunk fuel arr size = Some parts /\
     concat parts = arr /\
     Forall (fun part => (0 < length part <= size)%nat) parts /\
     (forall k part, parts !! k = Some part -> (S k < length parts)%nat ->
                     length part = size) /\
     sum_list (map length parts) = length arr) /\
  (arr <> [] -> chunk fuel arr 0 = None).
Proof.
  split.
  - intros Hsize Hfuel.
    destruct (ChunkFacts.chunkLoop_spec arr size Hsize fuel 0 []) as
      (parts & E & Hcat & Hlen & Hfull); [lia|].
    exists parts. change (drop 0 arr) with arr in Hcat.
    split; [exact E|]. split; [exact Hcat|]. split; [exact Hlen|]. split; [exact Hfull|].
    rewrite <- Hcat. clear. induction parts as [|p parts IH]; [reflexivity|].
      cbn [map sum_list concat]. rewrite length_app, IH. reflexivity.
  - intros Hne. apply ChunkFacts.chunkLoop_zero. destruct arr; [congruence|cbn; lia].
Qed.

Lemma chunk_batches_witness :
  exists parts, chunk 5 [1; 2; 3; 4; 5]%nat 2 = Some parts /\ concat parts = [1; 2; 3; 4; 5]%nat.
Proof.
  destruct (chunk_batches [1; 2; 3; 4; 5]%nat 2 5) as [H _].
  destruct H as (parts & E & C & _); [lia|cbn; lia|].
  exists parts. split; [exact E|exact C].
Defined.

(** *** White space *)

Module TrimFacts.

Lemma isSpace_lowerChar c : Str.isSpace (lowerChar c) = Str.isSpace c.
Proof. StrFacts.by_cases_on c. Qed.

Lemma trimStart_ws ws : allChars Str.isSpace ws = true -> Str.trimStart ws = "".
Proof.
  induction ws as [|c ws IH]; cbn [allChars Str.trimStart]; [reflexivity|].
  intros H. apply andb_true_iff in H as [-> H]. auto.
Qed.

Lemma trimEnd_ws ws : allChars Str.isSpace ws = true -> Str.trimEnd ws = "".
Proof.
  induction ws as [|c ws IH]; cbn [allChars Str.trimEnd]; [reflexivity|].
  intros H. apply andb_true_iff in H as [Hc H]. rewrite (IH H), Hc. reflexivity.
Qed.

Lemma trimEnd_app_ws s ws :
  allChars Str.isSpace ws = true -> Str.trimEnd (s ++ ws) = Str.trimEnd s.
Proof.
  intros H. induction s as [|c s IH]; [apply trimEnd_ws, H|].
  change (String c s ++ ws) with (String c (s ++ ws)).
  cbn [Str.trimEnd]. rewrite IH. reflexivity.
Qed.

Lemma trim_app_ws s ws :
  allChars Str.isSpace ws = true -> Str.trim (s ++ ws) = Str.trim s.
Proof.
  intros H. unfold Str.trim. induction s as [|c s IH].
  - change ("" ++ ws) with ws. rewrite trimStart_ws by exact H. reflexivity.
  - change (String c s ++ ws) with (String c (s ++ ws)). cbn [Str.trimStart].
    destruct (Str.isSpace c); [exact IH|].
    change (String c (s ++ ws)) with (String c s ++ ws). apply trimEnd_app_ws, H.
Qed.

Lemma trim_ws_app ws s :
  allChars Str.isSpace ws = true -> Str.trim (ws ++ s) = Str.trim s.
Proof.
  unfold Str.trim. induction ws as [|c ws IH]; [reflexivity|].
  cbn [allChars]. intros H. apply andb_true_iff in H as [Hc H].
  change (String c ws ++ s) with (String c (ws ++ s)). cbn [Str.trimStart].
  rewrite Hc. auto.
Qed.

Lemma trimStart_toLowerCase s :
  Str.trimStart (toLowerCase s) = toLowerCase (Str.trimStart s).
Proof.
  induction s as [|c s IH]; [reflexivity|]. cbn [toLowerCase Str.trimStart].
  rewrite isSpace_lowerChar. destruct (Str.isSpace c); [exact IH|reflexivity].
Qed.

Lemma trimEnd_toLowerCase s :
  Str.trimEnd (toLowerCase s) = toLowerCase (Str.trimEnd s).
Proof.
  induction s as [|c s IH]; [reflexivity|]. cbn [toLowerCase Str.trimEnd].
  rewrite IH, isSpace_lowerChar.
  destruct (Str.trimEnd s); cbn [toLowerCase]; [|reflexivity].
  destruct (Str.isSpace c); reflexivity.
Qed.

Lemma trim_toLowerCase s : Str.trim (toLowerCase s) = toLowerCase (Str.trim s).
Proof. unfold Str.trim. now rewrite trimStart_toLowerCase, trimEnd_toLowerCase. Qed.

(** Trimming is invisible to a filter that drops white space. *)
Lemma keep_trimStart p s :
  (forall c, Str.isSpace c = true -> p c = false) ->
  Str.keep p (Str.trimStart s) = Str.keep p s.
Proof.
  intros Hp. induction s as [|c s IH]; [reflexivity|]. cbn [Str.trimStart].
  destruct (Str.isSpace c) eqn:E; [|reflexivity].
  cbn [Str.keep]. rewrite (Hp c E). exact IH.
Qed.

Lemma keep_trimEnd p s :
  (forall c, Str.isSpace c = true -> p c = false) ->
  Str.keep p (Str.trimEnd s) = Str.keep p s.
Proof.
  intros Hp. induction s as [|c s IH]; [reflexivity|]. cbn [Str.trimEnd].
  destruct (Str.trimEnd s) as [|d t] eqn:E.
  - cbn [Str.keep] in IH |- *. destruct (Str.isSpace c) eqn:Hc.
    + rewrite (Hp c Hc). exact IH.
    + cbn [Str.keep]. rewrite <- IH. reflexivity.
  - cbn [Str.keep] in IH |- *. rewrite <- IH. reflexivity.
Qed.

Lemma keep_trim p s :
  (forall c, Str.isSpace c = true -> p c = false) ->
  Str.keep p (Str.trim s) = Str.keep p s.
Proof.
  intros Hp. unfold Str.trim. now rewrite keep_trimEnd, keep_trimStart.
Qed.

(** Nor to the search for a word without white space. *)
Lemma prefix_trimEnd s : forall sub,
  allChars (fun c => negb (Str.isSpace c)) sub = true ->
  String.prefix sub (Str.trimEnd s) = String.prefix sub s.
Proof.
  induction s as [|c s IH]; intros sub Hsub; [reflexivity|].
  destruct sub as [|a sub]; [destruct (Str.trimEnd (String c s)); reflexivity|].
  cbn [allChars] in Hsub. apply andb_true_iff in Hsub as [Ha Hsub].
  apply negb_true_iff in Ha. specialize (IH sub Hsub).
  change (String.prefix (String a sub) (String c s))
    with (if ascii_dec a c then String.prefix sub s else false).
  cbn [Str.trimEnd]. destruct (Str.trimEnd s) as [|d t] eqn:E.
  - destruct (Str.isSpace c) eqn:Hc.
    + destruct (ascii_dec a c) as [->|]; [congruence|reflexivity].
    + change (String.prefix (String a sub) (String c ""))
        with (if ascii_dec a c then String.prefix sub "" else false).
      rewrite IH. reflexivity.
  - change (String.prefix (String a sub) (String c (String d t)))
      with (if ascii_dec a c then String.prefix sub (String d t) else false).
    rewrite IH. reflexivity.
Qed.

Lemma includes_trimEnd sub s :
  allChars (fun c => negb (Str.isSpace c)) sub = true ->
  includes sub (Str.trimEnd s) = includes sub s.
Proof.
  intros Hsub. induction s as [|c s IH]; [reflexivity|].
  cbn [includes]. rewrite <- (prefix_trimEnd (String c s) sub Hsub), <- IH.
  cbn [Str.trimEnd]. destruct (Str.trimEnd s) as [|d t] eqn:E.
  - destruct (Str.isSpace c); cbn [includes]; [|reflexivity].
    destruct (String.prefix sub ""); reflexivity.
  - reflexivity.
Qed.

Lemma includes_trimStart a sub s :
  Str.isSpace a = false ->
  includes (String a sub) (Str.trimStart s) = includes (String a sub) s.
Proof.
  intros Ha. induction s as [|c s IH]; [reflexivity|].
  cbn [Str.trimStart]. destruct (Str.isSpace c) eqn:Hc; [|reflexivity].
  rewrite IH. cbn [includes].
  change (String.prefix (String a sub) (String c s))
    with (if ascii_dec a c then String.prefix sub s else false).
  destruct (ascii_dec a c) as [->|]; [congruence|reflexivity].
Qed.

Lemma includes_trim a sub s :
  allChars (fun c => negb (Str.isSpace c)) (String a sub) = true ->
  includes (String a sub) (Str.trim s) = includes (String a sub) s.
Proof.
  intros H. unfold Str.trim. rewrite includes_trimEnd by exact H.
  apply includes_trimStart. cbn [allChars] in H.
  apply andb_true_iff in H as [H _]. apply negb_true_iff, H.
Qed.

End TrimFacts.

(** X6. [sheetToTable] reads a sheet name without regard to its case or to
    white space around it.  The tests are tried in order: a name that
    contains [ars] in any case goes to the technician table whatever else
    it contains, a Canada W2 sheet included. *)
Theorem sheetToTable_spelling (TECH_TABLE FLEX_TABLE CA_W2_TABLE USA_W2_TABLE : string)
        (name before after : string) :
  let table := sheetToTable TECH_TABLE FLEX_TABLE CA_W2_TABLE USA_W2_TABLE in
  allChars Str.isSpace before = true ->
  allChars Str.isSpace after = true ->
  table (before ++ name ++ after) = table name /\
  table (Str.toUpperCase name) = table name /\
  table (toLowerCase name) = table name /\
  (includes "ars" (toLowerCase name) = true -> table name = Some TECH_TABLE).
Proof.
  intros table Hb Ha. subst table. unfold sheetToTable.
  rewrite TrimFacts.trim_ws_app, TrimFacts.trim_app_ws by assumption.
  rewrite StrFacts.trim_toUpperCase, KeyFacts.toLowerCase_toUpperCase.
  rewrite (TrimFacts.trim_toLowerCase name).
  rewrite (KeyFacts.toLowerCase_fixed (toLowerCase (Str.trim name))).
  2:{ generalize (Str.trim name). intros s. induction s as [|c s IH]; [reflexivity|].
      cbn [toLowerCase allChars]. rewrite KeyFacts.lowerChar_not_upper. exact IH. }
  split; [reflexivity|]. split; [reflexivity|]. split; [reflexivity|].
  rewrite <- TrimFacts.trim_toLowerCase.
  rewrite (TrimFacts.includes_trim "a" "rs") by reflexivity.
  intros ->. reflexivity.
Qed.

Lemma sheetToTable_spelling_witness :
  sheetToTable "tech" "flex" "ca" "us" "  Canada W2 early years " = Some "tech".
Proof.
  destruct (sheetToTable_spelling "tech" "flex" "ca" "us" "Canada W2 early years" "  " " "
              eq_refl eq_refl) as (E1 & _ & _ & E4).
  rewrite <- (E4 eq_refl). exact E1.
Defined.

(** *** Routes *)

Module RouteFacts.

Lemma prefix_empty s : String.prefix "" s = true.
Proof. destruct s; reflexivity. Qed.

Lemma prefix_slash p : String.prefix "/" (if negb (String.prefix "/" p) then "/" ++ p else p) = true.
Proof.
  destruct (String.prefix "/" p) eqn:E; cbn [negb]; [exact E|].
  change ("/" ++ p) with (String "/" p).
  rewrite ColFacts.prefix_same. apply prefix_empty.
Qed.

Lemma prefix_app pre r : String.prefix pre (pre ++ r) = true.
Proof.
  induction pre as [|a pre IH]; [apply prefix_empty|].
  change (String a pre ++ r) with (String a (pre ++ r)).
  rewrite ColFacts.prefix_same. exact IH.
Qed.

Lemma sliceFrom_app pre r : Str.sliceFrom (String.length pre) (pre ++ r) = r.
Proof. induction pre as [|a pre IH]; [destruct r; reflexivity|exact IH]. Qed.

Lemma stripPrefix_app pre r : stripPrefix pre (pre ++ r) = r.
Proof. unfold stripPrefix. rewrite prefix_app. apply sliceFrom_app. Qed.

Lemma stripPrefix_none pre r : String.prefix pre r = false -> stripPrefix pre r = r.
Proof. unfold stripPrefix. intros ->. reflexivity. Qed.

End RouteFacts.

(** X7. The router finds a route under each of the ways the function is
    called: with the prefix [/functions/v1/api], with [/api], with both
    (the page's own requests, whose base ends in [/functions/v1/api] and
    whose paths start with [/api]), or with none.  The path it matches
    always starts with a slash. *)
Theorem routePath_styles (route pathname : string) :
  String.prefix "/" route = true ->
  String.prefix "/api" route = false ->
  String.prefix "/functions/v1/api" route = false ->
  routePath route = route /\
  routePath ("/api" ++ route) = route /\
  routePath ("/functions/v1/api" ++ route) = route /\
  routePath ("/functions/v1/api" ++ "/api" ++ route) = route /\
  String.prefix "/" (routePath pathname) = true.
Proof.
  intros Hslash Hapi Hfn.
  assert (Hend : forall p, p = route ->
            (if negb (String.prefix "/" p) then "/" ++ p else p) = route).
  { intros p ->. rewrite Hslash. reflexivity. }
  unfold routePath. repeat split.
  - apply Hend.
    rewrite (RouteFacts.stripPrefix_none _ _ Hfn). apply RouteFacts.stripPrefix_none, Hapi.
  - apply Hend. rewrite (RouteFacts.stripPrefix_none "/functions/v1/api").
    + apply RouteFacts.stripPrefix_app.
    + destruct route; reflexivity.
  - apply Hend. rewrite RouteFacts.stripPrefix_app.
    apply RouteFacts.stripPrefix_none, Hapi.
  - apply Hend. rewrite RouteFacts.stripPrefix_app. apply RouteFacts.stripPrefix_app.
  - apply RouteFacts.prefix_slash.
Qed.

Lemma routePath_styles_witness :
  routePath "/functions/v1/api/api/canada/ors_matrix" = "/canada/ors_matrix" /\
  routePath "/api/canada/ors_matrix" = "/canada/ors_matrix".
Proof.
  destruct (routePath_styles "/canada/ors_matrix" "" eq_refl eq_refl eq_refl)
    as (_ & E1 & _ & E2 & _).
  split; [exact E2|exact E1].
Defined.

(** X8. The row limit of the read routes: whatever the [limit] parameter
    says, the limit is between 1 and the cap, with the one exception of a
    parameter that is not a number, which gives [NaN].  A missing
    parameter gives the default, cut to the same bounds. *)
Theorem queryLimit_bounds (param : option num) (dflt cap : R) :
  (1 <= cap)%R ->
  match queryLimit param dflt cap with
  | Fin r => (1 <= r <= cap)%R /\ param <> Some NaN
  | NaN => param = Some NaN
  | PInf | NInf => False
  end /\
  queryLimit (Some PInf) dflt cap = Fin cap /\
  queryLimit (Some NInf) dflt cap = Fin 1 /\
  ((1 <= dflt <= cap)%R -> queryLimit None dflt cap = Fin dflt).
Proof.
  intros Hcap. unfold queryLimit, Math_min, Math_max. repeat split.
  - destruct param as [[r| | |]|]; cbn [default]; unfold Datatypes.id;
      try (split; [split|discriminate]);
      try reflexivity;
      try (apply Rmin_glb; [lra|apply Rmax_l]);
      try apply Rmin_l; try lra.
    unfold Rmin. destruct (Rle_dec cap 1); lra.
  - cbn [default]. unfold Datatypes.id. f_equal. 
    unfold Rmin. destruct (Rle_dec cap 1); lra.
  - intros H. cbn [default]. unfold Datatypes.id. f_equal.
    rewrite Rmax_right by lra. apply Rmin_right. lra.
Qed.

Lemma queryLimit_bounds_witness :
  queryLimit None 5000 50000 = Fin 5000 /\ queryLimit (Some NInf) 5000 50000 = Fin 1.
Proof.
  destruct (queryLimit_bounds None 5000 50000) as (_ & _ & E1 & E); [lra|].
  split; [apply E; lra|exact E1].
Defined.

(** *** Export *)

Module ExportFacts.

Lemma find_prop (r : Obj) c v :
  NoDup (map fst r) -> (c, v) ∈ r -> prop r c = Some v.
Proof.
  unfold prop. induction r as [|[k w] r IH]; intros Hnd Hin.
  - apply not_elem_of_nil in Hin. contradiction.
  - cbn [map fst] in Hnd. apply NoDup_cons in Hnd as [Hk Hnd].
    cbn [List.find fst]. destruct (String.eqb_spec k c) as [->|Hne].
    + apply elem_of_cons in Hin as [[= ->]|Hin]; [reflexivity|].
      exfalso. apply Hk. apply list_elem_of_fmap. exists (c, v). auto.
    + apply elem_of_cons in Hin as [[= -> ->]|Hin]; [congruence|]. auto.
Qed.

Lemma prop_None (r : Obj) c : c ∉ map fst r -> prop r c = None.
Proof.
  unfold prop. induction r as [|[k w] r IH]; intros Hin; [reflexivity|].
  cbn [map fst] in Hin. apply not_elem_of_cons in Hin as [Hne Hin].
  cbn [List.find fst]. destruct (String.eqb_spec k c) as [->|_]; [congruence|]. auto.
Qed.

End ExportFacts.

(** X9. The array-of-arrays export is rectangular and takes its columns
    from the first row alone: every row has one cell per column, [_id] is
    never a column, a cell holds the row's value under the column's key
    and [null] when the row has no such key, and a key that only later
    rows have is not exported.  Without rows there are no columns. *)
Theorem export_aoa (data : list Obj) :
  let columns := exportColumns data in
  let rows := exportRows data in
  length rows = length data /\
  Forall (fun row => length row = length columns) rows /\
  ("_id" ∉ columns) /\
  (forall first, head data = Some first ->
     forall c, c ∈ columns <-> c ∈ map fst first /\ c <> "_id") /\
  (forall i j r c row,
     data !! i = Some r -> columns !! j = Some c -> rows !! i = Some row ->
     NoDup (map fst r) ->
     (forall v, (c, v) ∈ r -> row !! j = Some v) /\
     (c ∉ map fst r -> row !! j = Some DbNull)) /\
  (data = [] -> columns = [] /\ rows = []).
Proof.
  intros columns rows. subst rows. unfold exportRows. fold columns.
  assert (Hcols : forall c, c ∈ columns <->
            c ∈ map fst (default [] (head data)) /\ c <> "_id").
  { intros c. unfold columns, exportColumns.
    rewrite !list_elem_of_In, filter_In, negb_true_iff, String.eqb_neq. reflexivity. }
  split; [apply length_map|]. split; [|split; [|split; [|split]]].
  - apply Forall_forall. intros row Hrow.
    apply list_elem_of_fmap in Hrow as (r & -> & _). apply length_map.
  - intros H. apply Hcols in H as [_ H]. congruence.
  - intros first Hfirst c. rewrite Hcols, Hfirst. reflexivity.
  - intros i j r c row Hr Hc Hrow Hnd.
    change (map ?f data) with (f <$> data) in Hrow.
    unfold Obj in *. rewrite list_lookup_fmap, Hr in Hrow. injection Hrow as <-.
    change (map ?f columns) with (f <$> columns).
    rewrite list_lookup_fmap, Hc. cbn [fmap option_fmap option_map]. split.
    + intros v Hv. now rewrite (ExportFacts.find_prop r c v).
    + intros Hn. now rewrite ExportFacts.prop_None.
  - intros ->. split; reflexivity.
Qed.

Lemma export_aoa_witness :
  exportRows [[("_id", DbNum (Fin 1)); ("zip", DbStr "10001")]; [("city", DbStr "Troy")]] !! 1%nat
  = Some [DbNull] /\
  [DbNull] !! 0%nat = Some DbNull.
Proof.
  split; [reflexivity|].
  destruct (export_aoa
              [[("_id", DbNum (Fin 1)); ("zip", DbStr "10001")]; [("city", DbStr "Troy")]])
    as (_ & _ & _ & _ & H & _).
  apply (H 1%nat 0%nat [("city", DbStr "Troy")] "zip" [DbNull]); try reflexivity.
  - apply NoDup_singleton.
  - cbn. intros Hin. apply list_elem_of_singleton in Hin. discriminate.
Defined.

(** *** Markup *)

Module EscapeFacts.

Lemma escapeChar_cases c :
  (special c = false /\ escapeChar c = String c "") \/
  (c = "&"%char /\ escapeChar c = "&amp;") \/
  (c = "<"%char /\ escapeChar c = "&lt;") \/
  (c = ">"%char /\ escapeChar c = "&gt;") \/
  (c = ascii_of_nat 34 /\ escapeChar c = "&quot;") \/
  (c = "'"%char /\ escapeChar c = "&#39;").
Proof. StrFacts.by_cases_on c. Qed.

Lemma allChars_app p a b : allChars p (a ++ b) = allChars p a && allChars p b.
Proof.
  induction a as [|c a IH]; [reflexivity|].
  change (String c a ++ b) with (String c (a ++ b)). cbn [allChars].
  rewrite IH. apply andb_assoc.
Qed.

Lemma escapeHtml_app a b : escapeHtml (a ++ b) = escapeHtml a ++ escapeHtml b.
Proof.
  induction a as [|c a IH]; [reflexivity|].
  change (String c a ++ b) with (String c (a ++ b)). cbn [escapeHtml].
  rewrite IH. generalize (escapeChar c). intros e.
  induction e as [|x e IHe]; [reflexivity|].
  change (String x e ++ ?y) with (String x (e ++ y)). now rewrite IHe.
Qed.

Lemma escapeChar_quiet c : allChars (fun c => negb (markup c)) (escapeChar c) = true.
Proof. StrFacts.by_cases_on c. Qed.

Lemma escapeHtml_quiet s : allChars (fun c => negb (markup c)) (escapeHtml s) = true.
Proof.
  induction s as [|c s IH]; [reflexivity|]. cbn [escapeHtml].
  rewrite allChars_app, escapeChar_quiet, IH. reflexivity.
Qed.

Lemma escapeHtml_plain s :
  allChars (fun c => negb (special c)) s = true -> escapeHtml s = s.
Proof.
  induction s as [|c s IH]; [reflexivity|]. cbn [allChars escapeHtml].
  intros H. apply andb_true_iff in H as [Hc Hs]. apply negb_true_iff in Hc.
  destruct (escapeChar_cases c) as [[_ ->]|H]; [now rewrite IH|].
  exfalso. destruct H as [[-> _]|[[-> _]|[[-> _]|[[-> _]|[-> _]]]]]; discriminate.
Qed.

Lemma escapeHtml_inj s : forall t, escapeHtml s = escapeHtml t -> s = t.
Proof.
  induction s as [|c s IH]; intros [|d t]; cbn [escapeHtml]; intros H.
  - reflexivity.
  - exfalso. destruct (escapeChar_cases d) as [[_ E]|[[_ E]|[[_ E]|[[_ E]|[[_ E]|[_ E]]]]]];
      rewrite E in H; discriminate.
  - exfalso. destruct (escapeChar_cases c) as [[_ E]|[[_ E]|[[_ E]|[[_ E]|[[_ E]|[_ E]]]]]];
      rewrite E in H; discriminate.
  - destruct (escapeChar_cases c) as [[Sc Ec]|[[-> Ec]|[[-> Ec]|[[-> Ec]|[[-> Ec]|[-> Ec]]]]]];
    destruct (escapeChar_cases d) as [[Sd Ed]|[[-> Ed]|[[-> Ed]|[[-> Ed]|[[-> Ed]|[-> Ed]]]]]];
    rewrite Ec in H; rewrite ?Ed in H; simpl in H; try discriminate H;
    try (injection H as H; f_equal; apply IH, H);
    try (injection H as -> H; f_equal; apply IH, H);
    try (injection H as -> _; discriminate Sc);
    try (injection H as <- _; discriminate Sd).
Qed.

End EscapeFacts.

(** X10. [escapeHtml] leaves no character in its result that could open or
    close a tag or an attribute value: no [<], [>], double or single
    quote.  It loses nothing (two texts with the same escaped form are
    the same text), works piece by piece, and leaves a text without the
    five special characters as it is. *)
Theorem escapeHtml_safe (s t : string) :
  allChars (fun c => negb (markup c)) (escapeHtml s) = true /\
  (escapeHtml s = escapeHtml t -> s = t) /\
  escapeHtml (s ++ t) = escapeHtml s ++ escapeHtml t /\
  (allChars (fun c => negb (special c)) s = true -> escapeHtml s = s).
Proof.
  split; [apply EscapeFacts.escapeHtml_quiet|].
  split; [apply EscapeFacts.escapeHtml_inj|].
  split; [apply EscapeFacts.escapeHtml_app|apply EscapeFacts.escapeHtml_plain].
Qed.

Lemma escapeHtml_safe_witness :
  escapeHtml "Ann O'Neil <lead>" = "Ann O&#39;Neil &lt;lead&gt;" /\
  escapeHtml "Winnipeg" = "Winnipeg".
Proof.
  destruct (escapeHtml_safe "Winnipeg" "") as (_ & _ & _ & E).
  split; [reflexivity|apply E; reflexivity].
Defined.

(** *** Drive times *)


(** *** Postal codes in free text *)

Module ExtractFacts.

Lemma postalLetter_upper c : isPostalLetter c = true -> Str.isUpper (Str.upperChar c) = true.
Proof. StrFacts.by_cases_on c. Qed.

Lemma digit_upper c :
  Str.isDigit c = true -> Str.upperChar c = c /\ Str.isSpace c = false.
Proof. StrFacts.by_cases_on c. Qed.

Lemma postalLetter_prov c :
  isPostalLetter c = true ->
  provFromFirstLetter (String (Str.upperChar c) "") <> "".
Proof. StrFacts.by_cases_on c. Qed.

Lemma trimStart_split s :
  exists ws, s = ws ++ Str.trimStart s /\ allChars Str.isSpace ws = true.
Proof.
  induction s as [|c s IH]; [exists ""; split; reflexivity|].
  destruct IH as (ws & E & H). cbn [Str.trimStart]. destruct (Str.isSpace c) eqn:Hc.
  - exists (String c ws). split; [|cbn [allChars]; now rewrite Hc, H].
    change (String c ws ++ Str.trimStart s) with (String c (ws ++ Str.trimStart s)).
    now rewrite <- E.
  - exists "". split; reflexivity.
Qed.

Lemma trimStart_digit ws d rest :
  allChars Str.isSpace ws = true -> Str.isDigit d = true ->
  Str.trimStart (ws ++ String d rest) = String d rest.
Proof.
  intros Hws Hd. induction ws as [|c ws IH].
  - change ("" ++ String d rest) with (String d rest). cbn [Str.trimStart].
    destruct (digit_upper d Hd) as [_ ->]. reflexivity.
  - cbn [allChars] in Hws. apply andb_true_iff in Hws as [Hc Hws].
    change (String c ws ++ String d rest) with (String c (ws ++ String d rest)).
    cbn [Str.trimStart]. rewrite Hc. auto.
Qed.

(** A match at a position: the six characters, white space between the
    halves, and the end of a word after the last digit. *)
Lemma matchPostalHere_Some s m :
  matchPostalHere s = Some m <->
  exists ws post,
    isPostalToken m = true /\ allChars Str.isSpace ws = true /\ wordEnds post = true /\
    s = Str.sliceTo 3 m ++ ws ++ Str.sliceFrom 3 m ++ post.
Proof.
  split.
  - destruct s as [|a [|b [|c rest]]]; try discriminate. cbn [matchPostalHere].
    destruct (isPostalLetter a && Str.isDigit b && isPostalLetter c) eqn:H1; [|discriminate].
    destruct (trimStart_split rest) as (ws & E & Hws).
    destruct (Str.trimStart rest) as [|d [|e [|f post]]]; try discriminate.
    destruct (Str.isDigit d && isPostalLetter e && Str.isDigit f && wordEnds post) eqn:H2;
      [|discriminate].
    intros [= <-]. exists ws, post.
    rewrite !andb_true_iff in H1. rewrite !andb_true_iff in H2.
    destruct H1 as [[Ha Hb] Hc].
    destruct H2 as [[[Hd He] Hf] Hw].
    split; [cbn [isPostalToken]; now rewrite Ha, Hb, Hc, Hd, He, Hf|].
    split; [exact Hws|]. split; [exact Hw|]. rewrite E. reflexivity.
  - intros (ws & post & Hm & Hws & Hw & ->).
    destruct m as [|a [|b [|c [|d [|e [|f [|g m]]]]]]]; try discriminate.
    cbn [isPostalToken] in Hm. rewrite !andb_true_iff in Hm.
    destruct Hm as [[[[[Ha Hb] Hc] Hd] He] Hf].
    change (Str.sliceTo 3 (String a (String b (String c (String d (String e (String f ""))))))
            ++ ws ++ Str.sliceFrom 3 (String a (String b (String c (String d (String e (String f ""))))))
            ++ post)
      with (String a (String b (String c (ws ++ String d (String e (String f post)))))).
    cbn [matchPostalHere]. rewrite Ha, Hb, Hc. cbn [andb].
    rewrite trimStart_digit by assumption. rewrite Hd, He, Hf, Hw. reflexivity.
Qed.

(** The search returns a match at some position that does not follow a
    word character. *)
Lemma matchPostal_Some s : forall prev m,
  matchPostal prev s = Some m ->
  exists before here,
    s = before ++ here /\ endsInWord prev before = false /\
    matchPostalHere here = Some m.
Proof.
  induction s as [|c s IH]; intros prev m; [discriminate|].
  cbn [matchPostal]. destruct prev.
  - intros H. destruct (IH _ _ H) as (before & here & -> & Hb & Hm).
    exists (String c before), here. auto.
  - destruct (matchPostalHere (String c s)) as [m'|] eqn:E.
    + intros [= <-]. exists "", (String c s). auto.
    + intros H. destruct (IH _ _ H) as (before & here & -> & Hb & Hm).
      exists (String c before), here. auto.
Qed.

Lemma matchPostal_complete before here m : forall prev,
  endsInWord prev before = false -> matchPostalHere here = Some m ->
  exists m', matchPostal prev (before ++ here) = Some m'.
Proof.
  induction before as [|c before IH]; intros prev Hb Hm.
  - cbn [endsInWord] in Hb. subst prev. change ("" ++ here) with here.
    destruct here as [|c s]; [discriminate|]. cbn [matchPostal]. rewrite Hm. eauto.
  - change (String c before ++ here) with (String c (before ++ here)).
    cbn [matchPostal endsInWord] in Hb |- *.
    destruct (if prev then None else matchPostalHere (String c (before ++ here))); eauto.
Qed.

Lemma token_normalized m :
  isPostalToken m = true ->
  normalizePostal m = Str.toUpperCase m /\ testA1A1A1 (Str.toUpperCase m) = true /\
  provFromFirstLetter (charAt0 (Str.toUpperCase m)) <> "".
Proof.
  intros Hm.
  destruct m as [|a [|b [|c [|d [|e [|f [|g m]]]]]]]; try discriminate.
  cbn [isPostalToken] in Hm. rewrite !andb_true_iff in Hm.
  destruct Hm as [[[[[Ha Hb] Hc] Hd] He] Hf].
  assert (T : testA1A1A1 (Str.toUpperCase
                (String a (String b (String c (String d (String e (String f ""))))))) = true).
  { cbn [Str.toUpperCase testA1A1A1].
    rewrite !postalLetter_upper by assumption.
    destruct (digit_upper b Hb) as [-> _]. destruct (digit_upper d Hd) as [-> _].
    destruct (digit_upper f Hf) as [-> _]. now rewrite Hb, Hd, Hf. }
  split; [|split; [exact T|]].
  - rewrite <- (normalizePostal_fixed _ T).
    unfold normalizePostal. rewrite StrFacts.toUpperCase_idem. reflexivity.
  - apply (postalLetter_prov a Ha).
Qed.

End ExtractFacts.

(** X12. [extractPostalFromText] finds a postal code exactly when the text
    holds one: a letter of the postal alphabet, a digit and a letter, then
    optional white space, then a digit, a letter and a digit, in either
    case, not directly after a word character and not directly before one.
    What it returns is the first such code in upper case without the white
    space, which is a normalized code whose first letter names a
    province. *)
Theorem extractPostalFromText_found (text : string) :
  (extractPostalFromText text <> "" <->
   exists before m ws post,
     text = before ++ Str.sliceTo 3 m ++ ws ++ Str.sliceFrom 3 m ++ post /\
     isPostalToken m = true /\ allChars Str.isSpace ws = true /\
     endsInWord false before = false /\ wordEnds post = true) /\
  (forall p, extractPostalFromText text = p -> p <> "" ->
     testA1A1A1 p = true /\ normalizePostal p = p /\
     provFromFirstLetter (charAt0 p) <> "" /\
     exists before m ws post,
       text = before ++ Str.sliceTo 3 m ++ ws ++ Str.sliceFrom 3 m ++ post /\
       p = Str.toUpperCase m /\ isPostalToken m = true /\
       allChars Str.isSpace ws = true /\
       endsInWord false before = false /\ wordEnds post = true).
Proof.
  assert (Hfound : forall m, matchPostal false text = Some m ->
            extractPostalFromText text = Str.toUpperCase m /\
            exists before ws post,
              text = before ++ Str.sliceTo 3 m ++ ws ++ Str.sliceFrom 3 m ++ post /\
              isPostalToken m = true /\ allChars Str.isSpace ws = true /\
              endsInWord false before = false /\ wordEnds post = true).
  { intros m Hm. unfold extractPostalFromText. rewrite Hm.
    apply ExtractFacts.matchPostal_Some in Hm as (before & here & -> & Hb & Hh).
    apply ExtractFacts.matchPostalHere_Some in Hh as (ws & post & Ht & Hws & Hw & ->).
    split; [apply ExtractFacts.token_normalized, Ht|].
    exists before, ws, post. auto. }
  split.
  - split.
    + intros Hne. destruct (matchPostal false text) as [m|] eqn:Hm.
      * destruct (Hfound m eq_refl) as (_ & before & ws & post & H).
        exists before, m, ws, post. tauto.
      * unfold extractPostalFromText in Hne. rewrite Hm in Hne. congruence.
    + intros (before & m & ws & post & -> & Ht & Hws & Hb & Hw).
      destruct (ExtractFacts.matchPostal_complete before
                  (Str.sliceTo 3 m ++ ws ++ Str.sliceFrom 3 m ++ post) m false Hb)
        as (m' & Hm').
      { apply ExtractFacts.matchPostalHere_Some. exists ws, post. auto. }
      destruct (Hfound m' Hm') as (E & _ & _ & _ & _ & Ht' & _).
      rewrite E. destruct (ExtractFacts.token_normalized m' Ht') as (_ & T & _).
      intros E'. rewrite E' in T. discriminate.
  - intros p Hp Hne. destruct (matchPostal false text) as [m|] eqn:Hm.
    + destruct (Hfound m eq_refl) as (E & before & ws & post & Htext & Ht & Hrest).
      rewrite E in Hp. subst p.
      destruct (ExtractFacts.token_normalized m Ht) as (_ & T & Hprov).
      split; [exact T|]. split; [apply normalizePostal_fixed, T|]. split; [exact Hprov|].
      exists before, m, ws, post. tauto.
    + unfold extractPostalFromText in Hp. rewrite Hm in Hp. congruence.
Qed.

Lemma extractPostalFromText_found_witness :
  extractPostalFromText "Site: Ottawa k1a  0b1, ON" <> "".
Proof.
  apply (extractPostalFromText_found "Site: Ottawa k1a  0b1, ON").
  exists "Site: Ottawa ", "k1a0b1", "  ", ", ON". repeat split.
Defined.

(** *** The ticket's location *)

Module TicketFacts.

Lemma provFromFirstLetter_centre ch :
  provFromFirstLetter ch <> "" -> is_Some (PROV_CENTER !! provFromFirstLetter ch).
Proof.
  unfold provFromFirstLetter.
  repeat match goal with
         | |- context [if ?b then _ else _] => destruct b
         end;
    intros H; try congruence; eexists; vm_compute; reflexivity.
Qed.

Lemma not_postalLetter_prov a :
  Str.isUpper a = true -> isPostalLetter a = false ->
  provFromFirstLetter (String a "") = "".
Proof. StrFacts.by_cases_on a. Qed.

(** Once the ticket has a location, [findClosest] shows a result or says
    that no technician has one. *)
Lemma rank_outcome ORS_ENDPOINT fetchORS baseFactor speed p ticketLL scored :
  let o := rank ORS_ENDPOINT fetchORS baseFactor speed p ticketLL scored in
  o <> NoPostal /\ o <> TicketUnresolved.
Proof.
  unfold rank, estimate.
  repeat match goal with
         | |- context [match ?x with _ => _ end] => destruct x
         end; split; discriminate.
Qed.

End TicketFacts.

(** X13. A postal code taken from the ticket text always gives the ticket
    a location, as long as the postal-to-province table has no entry for
    it: its first letter names a province that has a centre, so
    [findClosest] neither reports a missing postal code nor an unresolved
    one, and the ticket sits at a technician's city when one shares the
    code and at the centre of the province otherwise.  A typed code has no
    such guarantee: one that starts with a letter outside the postal
    alphabet passes [normalizePostal] and is then unresolved when no table
    knows it. *)
Theorem ticket_location (TECHS : list Tech) (POSTAL_PROV : gmap string string)
        (ORS_ENDPOINT : string) (fetchORS : string -> list string -> Fetched)
        (driveFactorParsed speedParsed : num) (postalInput ticketText : string) :
  let run := findClosest TECHS POSTAL_PROV ORS_ENDPOINT fetchORS
               driveFactorParsed speedParsed in
  (normalizePostal postalInput = "" ->
   forall p, extractPostalFromText ticketText = p -> p <> "" ->
   POSTAL_PROV !! p = None ->
   run postalInput ticketText <> NoPostal /\
   run postalInput ticketText <> TicketUnresolved /\
   exists ticketLL,
     latLonForPostal TECHS POSTAL_PROV p "" "" = Some ticketLL /\
     ll_prov ticketLL = provFromFirstLetter (charAt0 p) /\
     ll_prov ticketLL <> "" /\
     (ll_prec ticketLL = PrecPostal \/ ll_prec ticketLL = PrecProv)) /\
  (forall a rest,
     normalizePostal postalInput = String a rest ->
     isPostalLetter a = false ->
     POSTAL_PROV !! String a rest = None ->
     POSTAL_OVERRIDE TECHS !! String a rest = None ->
     run postalInput ticketText = TicketUnresolved).
Proof.
  intros run. split.
  - intros Hin p Hp Hne Htable.
    assert (Hfix : testA1A1A1 p = true /\ provFromFirstLetter (charAt0 p) <> "").
    { unfold extractPostalFromText in Hp.
      destruct (matchPostal false ticketText) as [m|] eqn:Hm; [|congruence].
      apply ExtractFacts.matchPostal_Some in Hm as (before & here & _ & _ & Hh).
      apply ExtractFacts.matchPostalHere_Some in Hh as (ws & post & Ht & _).
      destruct (ExtractFacts.token_normalized m Ht) as (E & T & Hprov).
      rewrite E in Hp. subst p. auto. }
    destruct Hfix as [T Hprov].
    pose proof (normalizePostal_fixed p T) as Hnorm.
    assert (Hll : exists ticketLL,
              latLonForPostal TECHS POSTAL_PROV p "" "" = Some ticketLL /\
              ll_prov ticketLL = provFromFirstLetter (charAt0 p) /\
              ll_prov ticketLL <> "" /\
              (ll_prec ticketLL = PrecPostal \/ ll_prec ticketLL = PrecProv)).
    { unfold latLonForPostal, provOf, cityOf, provForPostal.
      rewrite !Hnorm, Htable. cbn [Str.truthy negb andb].
      rewrite (truthy_nonempty p Hne). cbn [negb].
      destruct (POSTAL_OVERRIDE TECHS !! p) as [c|]; [eexists; repeat split; eauto|].
      rewrite (truthy_nonempty _ Hprov).
      destruct (TicketFacts.provFromFirstLetter_centre _ Hprov) as [c ->].
      eexists; repeat split; eauto. }
    destruct Hll as (ticketLL & Hll & Hrest).
    assert (Hrun : run postalInput ticketText <> NoPostal /\
                   run postalInput ticketText <> TicketUnresolved).
    { subst run. unfold findClosest, ticketPostal. rewrite Hin. cbn [Str.truthy negb].
      rewrite Hp, (truthy_nonempty p Hne). cbn [negb]. rewrite Hll.
      destruct (scoreRoster TECHS POSTAL_PROV ticketLL); [split; discriminate|].
      apply TicketFacts.rank_outcome. }
    destruct Hrun as [H1 H2]. split; [exact H1|]. split; [exact H2|].
    exists ticketLL. auto.
  - intros a rest Hin Ha Htable Hover.
    destruct (normalizePostal_result postalInput) as [E|T]; [congruence|].
    rewrite Hin in T.
    assert (Hup : Str.isUpper a = true).
    { destruct (testA1A1A1_inv _ T) as (a' & b & c & d & e & f & [= -> ->] & Hup & _).
      exact Hup. }
    pose proof (normalizePostal_fixed _ T) as Hnorm.
    subst run. unfold findClosest, ticketPostal. rewrite Hin. cbn [Str.truthy negb].
    unfold latLonForPostal, provOf, cityOf, provForPostal.
    rewrite !Hnorm, Htable, Hover. cbn [Str.truthy negb andb charAt0 Str.sliceTo].
    rewrite (TicketFacts.not_postalLetter_prov a Hup Ha). reflexivity.
Qed.

Lemma ticket_location_witness :
  findClosest [] ∅ "" (fun _ _ => FetchThrows) NaN NaN "" "call at K1A 0B1 today" <> NoPostal /\
  findClosest [] ∅ "" (fun _ _ => FetchThrows) NaN NaN "D1A 1A1" "" = TicketUnresolved.
Proof.
  split.
  - destruct (ticket_location [] ∅ "" (fun _ _ => FetchThrows) NaN NaN
                "" "call at K1A 0B1 today") as [H _].
    destruct (H eq_refl "K1A0B1" eq_refl) as (H1 & _); [discriminate|reflexivity|exact H1].
  - destruct (ticket_location [] ∅ "" (fun _ _ => FetchThrows) NaN NaN
                "D1A 1A1" "") as [_ H].
    apply (H "D"%char "1A1A1"); reflexivity.
Defined.

(** *** The override table *)

Module OverrideFacts.

Lemma overrideStep_lookup m t p :
  overrideStep m t !! p =
  match CITY_COORD !! cityKey t with
  | Some c => if decide (normalizePostal (postal t) = p /\ p <> "") then Some c else m !! p
  | None => m !! p
  end.
Proof.
  unfold overrideStep. fold (cityKey t).
  destruct (normalizePostal (postal t)) as [|a q] eqn:E; cbn [Str.truthy negb].
  - destruct (CITY_COORD !! cityKey t); [|reflexivity].
    destruct (decide _) as [[<- H]|_]; [congruence|reflexivity].
  - destruct (CITY_COORD !! cityKey t) as [c|]; [|reflexivity].
    destruct (decide _) as [[<- _]|Hne].
    + apply lookup_insert_eq.
    + apply lookup_insert_ne. intros <-. apply Hne. split; [reflexivity|discriminate].
Qed.

Lemma override_keeps (l : list Tech) : forall m p,
  is_Some (m !! p) -> is_Some (foldl overrideStep m l !! p).
Proof.
  induction l as [|u l IH]; intros m p H; [exact H|].
  cbn [foldl]. apply IH. rewrite overrideStep_lookup.
  destruct (CITY_COORD !! cityKey u); [|exact H].
  destruct (decide _); [eauto|exact H].
Qed.

Lemma override_skips (l : list Tech) p : forall m,
  Forall (fun u => normalizePostal (postal u) = p -> CITY_COORD !! cityKey u = None) l ->
  foldl overrideStep m l !! p = m !! p.
Proof.
  induction l as [|u l IH]; intros m H; [reflexivity|].
  apply Forall_cons in H as [Hu H]. cbn [foldl]. rewrite (IH _ H), overrideStep_lookup.
  destruct (CITY_COORD !! cityKey u) eqn:E; [|reflexivity].
  destruct (decide _) as [[Hp _]|_]; [|reflexivity].
  specialize (Hu Hp). congruence.
Qed.

Lemma override_from (l : list Tech) p c : forall m,
  foldl overrideStep m l !! p = Some c ->
  m !! p = Some c \/
  exists t, t ∈ l /\ normalizePostal (postal t) = p /\ p <> "" /\
            CITY_COORD !! cityKey t = Some c.
Proof.
  induction l as [|u l IH]; intros m H; [left; exact H|].
  cbn [foldl] in H. apply IH in H as [H|(t & Hin & Ht)].
  - rewrite overrideStep_lookup in H.
    destruct (CITY_COORD !! cityKey u) as [c'|] eqn:E; [|left; exact H].
    destruct (decide _) as [[Hp Hne]|_]; [|left; exact H].
    injection H as ->. right. exists u. split; [left|]. auto.
  - right. exists t. split; [right; exact Hin|exact Ht].
Qed.

Lemma override_member TECHS t :
  t ∈ TECHS -> normalizePostal (postal t) <> "" ->
  is_Some (CITY_COORD !! cityKey t) ->
  is_Some (POSTAL_OVERRIDE TECHS !! normalizePostal (postal t)).
Proof.
  intros Hin Hp [c Hc]. apply list_elem_of_split in Hin as (pre & post & ->).
  unfold POSTAL_OVERRIDE. rewrite foldl_app. cbn [foldl].
  apply override_keeps. rewrite overrideStep_lookup, Hc.
  destruct (decide _) as [_|Hn]; [eauto|]. exfalso. apply Hn. auto.
Qed.

End OverrideFacts.

(** X14. The override table holds, for a postal code, the city coordinates
    of the last technician of the roster who has that code and a city the
    page knows; a technician takes the coordinates of that technician,
    whose city may be another one.  Since a technician with a known city
    is in the table under the own code, the city tier of the resolver is
    never reached for a roster technician who has a province: such a
    technician is placed by the table or by the province. *)
Theorem postal_override_spec (TECHS : list Tech) (POSTAL_PROV : gmap string string) :
  (forall p c,
     POSTAL_OVERRIDE TECHS !! p = Some c ->
     exists t, t ∈ TECHS /\ normalizePostal (postal t) = p /\ p <> "" /\
               CITY_COORD !! cityKey t = Some c) /\
  (forall before t after c,
     TECHS = (before ++ t :: after)%list ->
     normalizePostal (postal t) <> "" ->
     CITY_COORD !! cityKey t = Some c ->
     Forall (fun u => normalizePostal (postal u) = normalizePostal (postal t) ->
                      CITY_COORD !! cityKey u = None) after ->
     POSTAL_OVERRIDE TECHS !! normalizePostal (postal t) = Some c /\
     forall u, normalizePostal (postal u) = normalizePostal (postal t) ->
       exists prov cty,
         latLonForPostal TECHS POSTAL_PROV (postal u) (city u) (province u)
         = Some (mkLatLon (lat c) (lon c) PrecPostal prov cty)) /\
  (forall t l,
     t ∈ TECHS -> province t <> "" ->
     latLonForPostal TECHS POSTAL_PROV (postal t) (city t) (province t) = Some l ->
     ll_prec l <> PrecCity).
Proof.
  split; [|split].
  - intros p c H. apply OverrideFacts.override_from in H as [H|H]; [|exact H].
    rewrite lookup_empty in H. discriminate.
  - intros before t after c -> Hp Hc Hafter.
    assert (E : POSTAL_OVERRIDE (before ++ t :: after) !! normalizePostal (postal t) = Some c).
    { unfold POSTAL_OVERRIDE. rewrite foldl_app. cbn [foldl].
      rewrite (OverrideFacts.override_skips _ _ _ Hafter), OverrideFacts.overrideStep_lookup, Hc.
      destruct (decide _) as [_|Hn]; [reflexivity|]. exfalso. apply Hn. auto. }
    split; [exact E|]. intros u Hu. unfold latLonForPostal.
    rewrite Hu, (truthy_nonempty _ Hp), E. cbn [negb]. eauto.
  - intros t l Hin Hprov. unfold latLonForPostal.
    destruct (normalizePostal (postal t)) as [|a q] eqn:Hp; cbn [Str.truthy negb]; [discriminate|].
    rewrite <- Hp.
    destruct (POSTAL_OVERRIDE TECHS !! normalizePostal (postal t)) eqn:Hover;
      [intros [= <-]; discriminate|].
    match goal with
    | |- context [if ?b then CITY_COORD !! ?k else None] =>
        assert (Hhit : (if b then CITY_COORD !! k else None) = None)
    end.
    { unfold provOf, cityOf. rewrite (truthy_nonempty _ Hprov).
      destruct (city t) as [|x cty] eqn:Hcity; [reflexivity|]. rewrite <- Hcity.
      cbn [Str.truthy].
      match goal with |- ?hit = None => destruct hit as [c|] eqn:Hc; [|reflexivity] end.
      exfalso.
      assert (Hkey : is_Some (CITY_COORD !! cityKey t)).
      { match type of Hc with
        | (if ?b then _ else _) = _ => destruct b; [|discriminate]
        end.
        rewrite (truthy_nonempty (city t)) in Hc by (rewrite Hcity; discriminate).
        exists c. exact Hc. }
      destruct (OverrideFacts.override_member TECHS t Hin) as [c' Hc']; auto.
      - rewrite Hp. discriminate.
      - congruence. }
    rewrite Hhit.
    match goal with
    | |- context [if ?b then PROV_CENTER !! ?k else None] =>
        destruct (if b then PROV_CENTER !! k else None)
    end; [intros [= <-]|]; discriminate.
Qed.

Lemma postal_override_spec_witness :
  POSTAL_OVERRIDE [Scenario.ann; mkTech "105" "Eve" "Calgary" "AB" "r3c 0a1"] !! "R3C0A1"
  = Some (mkCoord 51.0447 (-114.0719)).
Proof.
  destruct (postal_override_spec [Scenario.ann; mkTech "105" "Eve" "Calgary" "AB" "r3c 0a1"] ∅)
    as (_ & H & _).
  destruct (H [Scenario.ann] (mkTech "105" "Eve" "Calgary" "AB" "r3c 0a1") []
              (mkCoord 51.0447 (-114.0719)) eq_refl) as [E _].
  - discriminate.
  - vm_compute. reflexivity.
  - constructor.
  - exact E.
Defined.

(** *** What the page shows *)

Module OutcomeFacts.

Section Cases.

Variable TECHS : list Tech.
Variable POSTAL_PROV : gmap string string.
Variable ORS_ENDPOINT : string.
Variable fetchORS : string -> list string -> Fetched.

(** The ways through [findClosest]. *)
Lemma findClosest_cases dfp sp postalInput ticketText :
  let o := findClosest TECHS POSTAL_PROV ORS_ENDPOINT fetchORS dfp sp postalInput ticketText in
  o = NoPostal \/ o = TicketUnresolved \/ o = NoTechLocations \/
  exists ticketLL,
    ticketPostal postalInput ticketText <> "" /\
    latLonForPostal TECHS POSTAL_PROV (ticketPostal postalInput ticketText) "" ""
    = Some ticketLL /\
    scoreRoster TECHS POSTAL_PROV ticketLL <> [] /\
    o = rank ORS_ENDPOINT fetchORS (baseFactorOf dfp) (speedOf sp)
          (ticketPostal postalInput ticketText) ticketLL
          (baseline TECHS POSTAL_PROV ticketLL).
Proof.
  intros o. subst o. unfold findClosest.
  destruct (ticketPostal postalInput ticketText) as [|a p] eqn:Hp;
    cbn [Str.truthy negb]; [left; reflexivity|].
  destruct (latLonForPostal TECHS POSTAL_PROV (String a p) "" "") as [ticketLL|] eqn:Hll;
    [|right; left; reflexivity].
  destruct (scoreRoster TECHS POSTAL_PROV ticketLL) as [|r l] eqn:Hr;
    [right; right; left; reflexivity|].
  right. right. right. exists ticketLL. rewrite Hr. repeat split; discriminate.
Qed.

(** The ways through the rest of it: the estimate over [scored] as it was
    (no endpoint, or a gateway that failed), the estimate over [scored]
    as the gateway loop left it, or the driving result. *)
Lemma rank_cases bf sp p ticketLL scored :
  let o := rank ORS_ENDPOINT fetchORS bf sp p ticketLL scored in
  o = estimate bf sp ticketLL scored \/
  exists j,
    ORS_ENDPOINT <> "" /\
    fetchORS p (tech_postals (take 25 scored)) = FetchResponse true (Some j) /\
    j_ok j = true /\
    let ranked := sortBy cmpDrive (imap (annotate j) (take 25 scored)) in
    match pickBest ranked with
    | Some best =>
        (driveKm best = None /\ o = estimate bf sp ticketLL (afterGateway j scored)) \/
        (driveKm best <> None /\
         o = FoundDriving best (etaFromMinutes (driveMin best)) (renderTopList ranked true))
    | None => o = estimate bf sp ticketLL (afterGateway j scored)
    end.
Proof.
  intros o. subst o. unfold rank.
  destruct ORS_ENDPOINT as [|a e] eqn:He; cbn [Str.truthy]; [left; reflexivity|].
  unfold tryORS.
  destruct (fetchORS p (tech_postals (take 25 scored))) as [|[] [j|]] eqn:Hf;
    cbn [postJson]; try (left; reflexivity).
  destruct (j_ok j) eqn:Hok; cbn [negb]; [|left; reflexivity].
  right. exists j. split; [discriminate|]. split; [reflexivity|]. split; [exact Hok|].
  cbn zeta. destruct (pickBest _) as [best|]; [|reflexivity].
  case_bool_decide as Hd; [right; auto|left].
  split; [|reflexivity]. destruct (driveKm best); [|reflexivity].
  discriminate Hd.
Qed.

End Cases.

Lemma estimate_inv bf sp ticketLL l best2 effFactor driveKm driveMi eta topList :
  estimate bf sp ticketLL l = FoundEstimate best2 effFactor driveKm driveMi eta topList ->
  head l = Some best2 /\
  effFactor = effectiveDriveFactor bf (Some ticketLL) (Some (ll best2)) /\
  driveKm = (km best2 * effFactor)%R /\ driveMi = (miles best2 * effFactor)%R /\
  topList = renderTopList l false.
Proof.
  unfold estimate. destruct (head l) as [b|]; [|discriminate].
  intros [= <- <- <- <- _ <-]. auto.
Qed.

Lemma unscored_afterGateway j scored :
  map unscored (afterGateway j scored) = map unscored scored.
Proof.
  unfold afterGateway. rewrite <- (take_drop 25 scored) at 3.
  rewrite !map_app. f_equal.
  generalize (take 25 scored). intros l. clear.
  change (map unscored (imap (annotate j) l)) with (unscored <$> imap (annotate j) l).
  rewrite fmap_imap. apply list_eq. intros i.
  rewrite list_lookup_imap. change (map unscored l) with (unscored <$> l).
  rewrite list_lookup_fmap. destruct (l !! i); reflexivity.
Qed.

Lemma unscored_roster TECHS POSTAL_PROV ticketLL r :
  r ∈ scoreRoster TECHS POSTAL_PROV ticketLL ->
  unscored r = r /\ miles r = (km r * 0.621371)%R /\ (0 <= km r)%R.
Proof.
  unfold scoreRoster. intros H. apply list_elem_of_omap in H as (t & _ & H).
  unfold scoreTech in H. destruct (latLonForPostal _ _ _ _ _) as [l|]; [|discriminate].
  injection H as <-. cbn. repeat split. apply haversineKm_range.
Qed.

Lemma unscored_baseline TECHS POSTAL_PROV ticketLL :
  map unscored (baseline TECHS POSTAL_PROV ticketLL) = baseline TECHS POSTAL_PROV ticketLL.
Proof.
  rewrite <- (map_id (baseline TECHS POSTAL_PROV ticketLL)) at 2.
  apply map_ext_in. intros r Hr. apply list_elem_of_In in Hr.
  eapply unscored_roster. rewrite <- (baseline_Permutation TECHS POSTAL_PROV ticketLL). exact Hr.
Qed.

(** The shortlist of the estimate. *)
Lemma renderTopList_estimate l :
  length (renderTopList l false) = Nat.min 8 (length l) /\
  Forall (fun it => exists mi k, item_right it = EstimateCell mi k) (renderTopList l false) /\
  item_tech <$> head (renderTopList l false) = tech <$> head l.
Proof.
  unfold renderTopList. split; [|split].
  - rewrite length_map, length_take. lia.
  - apply Forall_forall. intros it Hit.
    apply list_elem_of_fmap in Hit as (r & -> & _). cbn. eauto.
  - destruct l as [|r l]; reflexivity.
Qed.

End OutcomeFacts.

(** X15. Whenever the page shows an estimate, however it came to it, the
    technician it names is the nearest of all technicians that have a
    location, by straight line from the ticket: the ranking holds the
    technicians of the roster whose location resolves, and no other, in
    ascending order of that distance, and the technician named is its first
    row.  The driving distance shown is the straight line times a factor
    between 1 and 12, so it is never shorter than the straight line, and
    the miles are scaled by the same factor.  The shortlist is the first 8
    rows of the ranking (all of them when there are fewer), in its order,
    each with the technician and the straight-line figures of its row; it
    starts with the technician named. *)
Theorem estimate_nearest (TECHS : list Tech) (POSTAL_PROV : gmap string string)
        (ORS_ENDPOINT : string) (fetchORS : string -> list string -> Fetched)
        (driveFactorParsed speedParsed : num) (postalInput ticketText : string)
        (best2 : Row) (effFactor driveKm driveMi : R) (eta : string) (topList : list Item) :
  findClosest TECHS POSTAL_PROV ORS_ENDPOINT fetchORS
    driveFactorParsed speedParsed postalInput ticketText
  = FoundEstimate best2 effFactor driveKm driveMi eta topList ->
  exists ticketLL,
    latLonForPostal TECHS POSTAL_PROV (ticketPostal postalInput ticketText) "" ""
    = Some ticketLL /\
    unscored best2 ∈ scoreRoster TECHS POSTAL_PROV ticketLL /\
    km best2 = haversineKm ticketLL (ll best2) /\
    (forall r, r ∈ scoreRoster TECHS POSTAL_PROV ticketLL -> (km best2 <= km r)%R) /\
    (1 <= effFactor <= 12)%R /\
    driveKm = (km best2 * effFactor)%R /\
    (km best2 <= driveKm <= 12 * km best2)%R /\
    driveMi = (miles best2 * effFactor)%R /\
    miles best2 = (km best2 * 0.621371)%R /\
    length topList = Nat.min 8 (length (scoreRoster TECHS POSTAL_PROV ticketLL)) /\
    Forall (fun it => exists mi k, item_right it = EstimateCell mi k) topList /\
    item_tech <$> head topList = Some (tech best2) /\
    (let scored := baseline TECHS POSTAL_PROV ticketLL in
     head scored = Some (unscored best2) /\
     StronglySorted kmLe scored /\
     scored ≡ₚ scoreRoster TECHS POSTAL_PROV ticketLL /\
     map tech (scoreRoster TECHS POSTAL_PROV ticketLL)
     = filter (fun t => is_Some (latLonForPostal TECHS POSTAL_PROV
                                   (postal t) (city t) (province t))) TECHS /\
     topList = map (fun r => mkItem (tech r) (EstimateCell (miles r) (km r)))
                   (take 8 scored)).
Proof.
  intros Hrun.
  destruct (OutcomeFacts.findClosest_cases TECHS POSTAL_PROV ORS_ENDPOINT fetchORS
              driveFactorParsed speedParsed postalInput ticketText)
    as [H|[H|[H|(ticketLL & Hp & Hll & Hroster & H)]]]; rewrite Hrun in H; try discriminate.
  exists ticketLL. split; [exact Hll|].
  set (scored := baseline TECHS POSTAL_PROV ticketLL) in *.
  assert (Hest : exists l, map unscored l = scored /\
            estimate (baseFactorOf driveFactorParsed) (speedOf speedParsed) ticketLL l
            = FoundEstimate best2 effFactor driveKm driveMi eta topList).
  { destruct (OutcomeFacts.rank_cases ORS_ENDPOINT fetchORS
                (baseFactorOf driveFactorParsed) (speedOf speedParsed)
                (ticketPostal postalInput ticketText) ticketLL scored)
      as [E|(j & _ & _ & _ & E)]; rewrite <- H in E.
    - exists scored. split; [apply OutcomeFacts.unscored_baseline|now symmetry].
    - exists (afterGateway j scored). split.
      + rewrite OutcomeFacts.unscored_afterGateway. apply OutcomeFacts.unscored_baseline.
      + cbn zeta in E. destruct (pickBest _) as [best|].
        * destruct E as [[_ E]|[_ E]]; [now symmetry|discriminate].
        * now symmetry. }
  destruct Hest as (l & Hl & Hest).
  apply OutcomeFacts.estimate_inv in Hest as (Hhead & -> & -> & -> & ->).
  assert (Hsorted : StronglySorted kmLe scored) by apply sortBy_cmpKm_sorted.
  assert (Hperm : scored ≡ₚ scoreRoster TECHS POSTAL_PROV ticketLL)
    by apply baseline_Permutation.
  assert (Hhead' : head scored = Some (unscored best2)).
  { rewrite <- Hl. destruct l as [|b l]; [discriminate|]. injection Hhead as ->. reflexivity. }
  assert (Hin : unscored best2 ∈ scoreRoster TECHS POSTAL_PROV ticketLL).
  { rewrite <- Hperm. destruct scored as [|b s]; [discriminate|].
    injection Hhead' as ->. left. }
  destruct (OutcomeFacts.unscored_roster _ _ _ _ Hin) as (_ & Hmiles & Hkm).
  cbn [unscored km miles] in Hmiles, Hkm.
  assert (Heff : (1 <= effectiveDriveFactor (baseFactorOf driveFactorParsed)
                        (Some ticketLL) (Some (ll best2)) <= 12)%R).
  { unfold effectiveDriveFactor. apply clamp_bounds. lra. }
  split; [exact Hin|]. split.
  { unfold scoreRoster in Hin. apply list_elem_of_omap in Hin as (t & _ & Ht).
    apply scoreTech_Some in Ht as (_ & _ & Ht & _). exact Ht. }
  split.
  { intros r Hr. rewrite <- Hperm in Hr.
    destruct scored as [|b s]; [discriminate|]. injection Hhead' as ->.
    apply elem_of_cons in Hr as [->|Hr]; [cbn; lra|].
    apply StronglySorted_inv in Hsorted as [_ Hall].
    apply (proj1 (Forall_forall _ _) Hall r Hr). }
  split; [exact Heff|]. split; [reflexivity|]. split; [nra|]. split; [reflexivity|].
  split; [exact Hmiles|].
  destruct (OutcomeFacts.renderTopList_estimate l) as (Hlen & Hcells & Htop).
  split; [|split; [exact Hcells|split]].
  - rewrite Hlen, <- (length_map unscored l), Hl. now rewrite Hperm.
  - rewrite Htop, Hhead. reflexivity.
  - cbv zeta. split; [exact Hhead'|]. split; [exact Hsorted|]. split; [exact Hperm|].
    split; [apply scoreRoster_complete|].
    unfold renderTopList. cbn [andb].
    replace (take (Nat.min 8 (length l)) l) with (take 8 l)
      by (destruct (Nat.le_ge_cases 8 (length l)) as [L|L];
          [rewrite Nat.min_l by exact L; reflexivity
          |rewrite Nat.min_r by exact L; rewrite !take_ge by lia; reflexivity]).
    rewrite <- Hl.
    change (map unscored l) with (unscored <$> l).
    change (map ?f (take 8 ?x)) with (f <$> take 8 x).
    rewrite <- fmap_take, <- list_fmap_compose. reflexivity.
Qed.

(** Ann and Bob, seen without a gateway from a ticket in Manitoba. *)
Lemma estimate_nearest_witness :
  exists ticketLL,
    latLonForPostal [Scenario.ann; Scenario.bob] ∅ (ticketPostal "R2C 0A1" "") "" ""
    = Some ticketLL /\
    renderTopList [Scenario.annRow; Scenario.bobRow] false
    = map (fun r => mkItem (tech r) (EstimateCell (miles r) (km r)))
          (take 8 (baseline [Scenario.ann; Scenario.bob] ∅ ticketLL)).
Proof.
  destruct (estimate_nearest [Scenario.ann; Scenario.bob] ∅ "" Scenario.reply502
              NaN NaN "R2C 0A1" "" Scenario.annRow
              (effectiveDriveFactor (baseFactorOf NaN) (Some Scenario.manitoba)
                 (Some Scenario.winnipeg))
              (km Scenario.annRow *
               effectiveDriveFactor (baseFactorOf NaN) (Some Scenario.manitoba)
                 (Some Scenario.winnipeg))
              (miles Scenario.annRow *
               effectiveDriveFactor (baseFactorOf NaN) (Some Scenario.manitoba)
                 (Some Scenario.winnipeg))
              (etaFromKm
                 (Fin (km Scenario.annRow *
                       effectiveDriveFactor (baseFactorOf NaN) (Some Scenario.manitoba)
                         (Some Scenario.winnipeg))) (speedOf NaN))
              (renderTopList [Scenario.annRow; Scenario.bobRow] false))
    as (ticketLL & H & _ & _ & _ & _ & _ & _ & _ & _ & _ & _ & _ & T).
  - rewrite ScenarioFacts.run_two. rewrite rank_no_endpoint by reflexivity. reflexivity.
  - exists ticketLL. split; [exact H|].
    destruct T as (_ & _ & _ & _ & T). exact T.
Defined.

(** X16. Whenever the page shows a driving result, the technician it names
    is one of the 25 nearest by straight line, with a driving distance from
    the gateway.  When the gateway also gave that technician a driving
    time, no candidate with both figures has a shorter time; when it did
    not, no candidate at all has both figures.  The shortlist has 8
    entries at most, all taken from the 25 candidates. *)
Theorem driving_quickest (TECHS : list Tech) (POSTAL_PROV : gmap string string)
        (ORS_ENDPOINT : string) (fetchORS : string -> list string -> Fetched)
        (driveFactorParsed speedParsed : num) (postalInput ticketText : string)
        (best : Row) (eta : string) (topList : list Item) :
  findClosest TECHS POSTAL_PROV ORS_ENDPOINT fetchORS
    driveFactorParsed speedParsed postalInput ticketText
  = FoundDriving best eta topList ->
  exists ticketLL j,
    let p := ticketPostal postalInput ticketText in
    let scored := baseline TECHS POSTAL_PROV ticketLL in
    let written := imap (annotate j) (take 25 scored) in
    ORS_ENDPOINT <> "" /\
    latLonForPostal TECHS POSTAL_PROV p "" "" = Some ticketLL /\
    fetchORS p (tech_postals (take 25 scored)) = FetchResponse true (Some j) /\
    j_ok j = true /\
    (exists i r, (i < 25)%nat /\ scored !! i = Some r /\ best = annotate j i r) /\
    driveKm best <> None /\
    eta = etaFromMinutes (driveMin best) /\
    (forall b, driveMin best = Some b ->
       forall x m, x ∈ written -> driveKm x <> None -> driveMin x = Some m -> (b <= m)%R) /\
    (driveMin best = None -> forall x, x ∈ written -> hasBoth x = false) /\
    length topList = Nat.min 8 (length (scoreRoster TECHS POSTAL_PROV ticketLL)) /\
    (forall t, t ∈ map item_tech topList -> exists x, x ∈ written /\ tech x = t).
Proof.
  intros Hrun.
  destruct (OutcomeFacts.findClosest_cases TECHS POSTAL_PROV ORS_ENDPOINT fetchORS
              driveFactorParsed speedParsed postalInput ticketText)
    as [H|[H|[H|(ticketLL & Hp & Hll & Hroster & H)]]]; rewrite Hrun in H; try discriminate.
  set (scored := baseline TECHS POSTAL_PROV ticketLL) in *.
  destruct (OutcomeFacts.rank_cases ORS_ENDPOINT fetchORS
              (baseFactorOf driveFactorParsed) (speedOf speedParsed)
              (ticketPostal postalInput ticketText) ticketLL scored)
    as [E|(j & Hep & Hf & Hok & E)]; rewrite <- H in E.
  { unfold estimate in E. destruct (head scored); discriminate. }
  cbn zeta in E.
  set (written := imap (annotate j) (take 25 scored)) in *.
  set (ranked := sortBy cmpDrive written) in *.
  pose proof (pickBest_spec ranked) as Hpick.
  destruct (pickBest ranked) as [b|];
    [|unfold estimate in E; destruct (head _); discriminate].
  destruct E as [[_ E]|[Hdk E]];
    [unfold estimate in E; destruct (head _); discriminate|].
  injection E as -> -> ->.
  destruct Hpick as [Hin Hpick].
  assert (Hin' : b ∈ written) by (apply (sortBy_elem_of cmpDrive), Hin).
  exists ticketLL, j. cbn zeta. fold scored. fold written.
  split; [exact Hep|]. split; [exact Hll|]. split; [exact Hf|]. split; [exact Hok|].
  split.
  { apply list_elem_of_lookup in Hin' as [i Hi].
    unfold written in Hi. rewrite list_lookup_imap in Hi.
    destruct (take 25 scored !! i) as [r|] eqn:Hr; [|discriminate].
    injection Hi as <-. exists i, r.
    assert (i < 25)%nat.
    { apply lookup_lt_Some in Hr. rewrite length_take in Hr. lia. }
    split; [assumption|]. split; [|reflexivity].
    rewrite lookup_take_lt in Hr by assumption. exact Hr. }
  split; [exact Hdk|]. split; [reflexivity|].
  assert (Hboth : forall x, driveKm x <> None -> driveMin x <> None -> hasBoth x = true).
  { intros x H1 H2. unfold hasBoth. now rewrite !bool_decide_eq_true_2. }
  split; [|split; [|split]].
  - intros bm Hbm x m Hx Hxk Hxm.
    assert (Hb : hasBoth b = true) by (apply Hboth; [exact Hdk|congruence]).
    assert (Hxb : hasBoth x = true) by (apply Hboth; [exact Hxk|congruence]).
    destruct Hpick as [(_ & i & Hi & Hfirst)|[_ Hnone]].
    + apply (sortBy_elem_of cmpDrive) in Hx. fold ranked in Hx.
      apply list_elem_of_lookup in Hx as [k Hk].
      destruct (Nat.lt_trichotomy k i) as [Hlt|[->|Hgt]].
      * rewrite (Hfirst k x Hk Hlt) in Hxb. discriminate.
      * rewrite Hi in Hk. injection Hk as <-. assert (bm = m) by congruence. lra.
      * pose proof (StronglySorted_lookup_lt driveLe ranked
                      (sortBy_cmpDrive_sorted written) i k b x Hgt Hi Hk) as Hle.
        unfold driveLe, orBig in Hle. rewrite Hbm, Hxm in Hle.
        cbn [default] in Hle. unfold Datatypes.id in Hle. lra.
    + rewrite (Hnone b Hin) in Hb. discriminate.
  - intros Hnone x Hx.
    destruct Hpick as [(Hb & _)|[_ Hall]].
    + unfold hasBoth in Hb. rewrite Hnone in Hb.
      rewrite (bool_decide_eq_false_2 (None <> None)) in Hb by congruence.
      rewrite andb_false_r in Hb. discriminate.
    + apply Hall. apply (sortBy_elem_of cmpDrive). exact Hx.
  - unfold renderTopList. rewrite length_map, length_take.
    unfold ranked. rewrite sortBy_length. unfold written.
    rewrite length_imap, length_take. unfold scored.
    rewrite (baseline_Permutation TECHS POSTAL_PROV ticketLL). lia.
  - intros t Ht. apply renderTopList_techs in Ht as (r & Hr & <-).
    exists r. split; [|reflexivity]. apply (sortBy_elem_of cmpDrive). exact Hr.
Qed.

Lemma driving_quickest_witness : Scenario.endpoint <> "".
Proof.
  destruct (driving_quickest [Scenario.ann; Scenario.bob] ∅
              Scenario.endpoint Scenario.replyBoth (Fin 1.25) (Fin 80) "R2C 0A1" ""
              (Scenario.driven Scenario.bobRow (Some 9%R) (Some 15%R))
              (etaFromMinutes (Some 15%R))
              (renderTopList
                 [Scenario.driven Scenario.bobRow (Some 9%R) (Some 15%R);
                  Scenario.driven Scenario.annRow (Some 12%R) (Some 20%R)] true))
    as (ticketLL & j & H & _).
  - rewrite (RankingRuns.run_two_answered Scenario.replyBoth
               (mkOrsJson true [JNum (Fin 12); JNum (Fin 9)] [JNum (Fin 20); JNum (Fin 15)]))
      by reflexivity.
    change (imap _ [Scenario.annRow; Scenario.bobRow])
      with [Scenario.driven Scenario.annRow (Some 12%R) (Some 20%R);
            Scenario.driven Scenario.bobRow (Some 9%R) (Some 15%R)].
    cbn zeta. rewrite RankingScenarios.ranked_both. reflexivity.
  - exact H.
Defined.

(** *** The page against the Netlify function *)

Module PairingFacts.

(** On a postal code that the page accepts, the gateway's normalizer and
    the page's agree. *)
Lemma normPostal_normalizePostal s :
  normalizePostal s <> "" -> Netlify.normPostal s = normalizePostal s.
Proof.
  unfold normalizePostal, Netlify.normPostal.
  rewrite TrimFacts.keep_trim.
  2:{ intros c Hc. destruct (isAZ09 c) eqn:E; [|reflexivity].
      exfalso. revert Hc E. clear. StrFacts.by_cases_on c. }
  set (k := Str.keep isAZ09 (Str.toUpperCase s)).
  destruct (Nat.leb_spec 6 (String.length k)) as [Hlen|Hlen].
  - destruct (Nat.eqb _ 6); cbn [negb]; [|congruence].
    destruct (testA1A1A1 _); cbn [negb]; congruence.
  - destruct (Nat.eqb_spec (String.length k) 6) as [E|_]; [lia|]. cbn [negb]. congruence.
Qed.

Lemma candidate_postal TECHS POSTAL_PROV ticketLL x :
  x ∈ baseline TECHS POSTAL_PROV ticketLL -> normalizePostal (postal (tech x)) <> "".
Proof.
  intros Hx. rewrite (baseline_Permutation TECHS POSTAL_PROV ticketLL) in Hx.
  apply roster_resolved in Hx as [_ [l Hl]].
  unfold latLonForPostal in Hl. intros E. rewrite E in Hl. discriminate.
Qed.

Lemma techOf_candidates (l : list Row) :
  Forall (fun x => normalizePostal (postal (tech x)) <> "") l -> (length l <= 40)%nat ->
  Netlify.techOf (tech_postals l) = map (fun x => normalizePostal (postal (tech x))) l.
Proof.
  intros Hall Hlen. unfold Netlify.techOf, tech_postals.
  rewrite map_map.
  assert (E : map (fun x => Netlify.normPostal (postal (tech x))) l
              = map (fun x => normalizePostal (postal (tech x))) l).
  { apply map_ext_in. intros x Hx. apply normPostal_normalizePostal.
    apply (proj1 (Forall_forall _ _) Hall). apply list_elem_of_In, Hx. }
  rewrite E, filter_all.
  - apply take_ge. rewrite length_map. exact Hlen.
  - apply Forall_forall. intros s Hs. apply list_elem_of_fmap in Hs as (x & -> & Hx).
    apply truthy_nonempty. apply (proj1 (Forall_forall _ _) Hall x Hx).
Qed.

Lemma finiteAt_cellOf d i : finiteAt (map cellOf d) i = mjoin (d !! i).
Proof.
  unfold finiteAt. change (map cellOf d) with (cellOf <$> d).
  rewrite list_lookup_fmap. destruct (d !! i) as [[r|]|]; reflexivity.
Qed.

End PairingFacts.

(** X17. The page and the Netlify function agree on the request.  The
    function normalizes the postal codes it is sent, drops the ones that
    come out empty and reads 40 at most; the page sends the raw postal
    codes of its 25 candidates.  Every candidate has a valid postal code,
    on which the two normalizers agree, so the function reads exactly one
    postal code per candidate, in the page's order, and when it answers
    with arrays they have one entry per candidate, which is what the page
    writes to that candidate. *)
Theorem netlify_request_aligned (TECHS : list Tech) (POSTAL_PROV : gmap string string)
        (ticketLL : LatLon) (ORS_KEY : string)
        (orsGeocode : string -> Netlify.GeoFetched)
        (orsMatrix : Netlify.LonLat -> list Netlify.LonLat -> Netlify.MatrixFetched)
        (GEO_CACHE : gmap string Netlify.LonLat) (postalInput ticketText : string) :
  let p := ticketPostal postalInput ticketText in
  let candidates := take 25 (baseline TECHS POSTAL_PROV ticketLL) in
  let request := tech_postals candidates in
  Netlify.techOf request = map (fun x => normalizePostal (postal (tech x))) candidates /\
  Netlify.normPostal p = p /\
  forall status d t,
    Netlify.handler ORS_KEY orsGeocode orsMatrix GEO_CACHE "POST" (Netlify.Payload p request)
    = Some (mkResponse status (BodyMatrix d t)) ->
    length d = length candidates /\ length t = length candidates /\
    forall i x,
      candidates !! i = Some x ->
      driveKm (annotate (jsonOf (BodyMatrix d t)) i x) = mjoin (d !! i) /\
      driveMin (annotate (jsonOf (BodyMatrix d t)) i x) = mjoin (t !! i).
Proof.
  intros p candidates request.
  assert (Hreq : Netlify.techOf request
                 = map (fun x => normalizePostal (postal (tech x))) candidates).
  { apply PairingFacts.techOf_candidates.
    - apply Forall_forall. intros x Hx.
      apply (PairingFacts.candidate_postal TECHS POSTAL_PROV ticketLL).
      apply (subseteq_take 25), Hx.
    - unfold candidates. rewrite length_take. lia. }
  split; [exact Hreq|]. split.
  - subst p. unfold ticketPostal.
    destruct (normalizePostal postalInput) as [|a q] eqn:E; cbn [Str.truthy negb].
    + destruct (String.eqb_spec (extractPostalFromText ticketText) "") as [->|Hne];
        [reflexivity|].
      unfold extractPostalFromText in *.
      destruct (matchPostal false ticketText) as [m|]; [|congruence].
      rewrite <- (normalizePostal_idem m) at 2.
      apply PairingFacts.normPostal_normalizePostal.
      rewrite normalizePostal_idem. exact Hne.
    + rewrite <- E. rewrite <- (normalizePostal_idem postalInput) at 2.
      apply PairingFacts.normPostal_normalizePostal.
      rewrite normalizePostal_idem, E. discriminate.
  - intros status d t Hresp.
    destruct (NetlifyFacts.handler_aligned _ _ _ _ _ _ _ _ _ _ Hresp) as (Hd & Ht & _).
    rewrite Hreq, length_map in Hd, Ht.
    split; [exact Hd|]. split; [exact Ht|].
    intros i x _. cbn [annotate driveKm driveMin jsonOf j_distances_km j_durations_min].
    split; apply PairingFacts.finiteAt_cellOf.
Qed.

(** *** The page against the edge route *)

(** X18. The edge route [/canada/ors_matrix] does not serve the page's
    request.  The page posts [ticket_postal] and [tech_postals]; the route
    reads [job_lat] and [job_lng], finds no number and answers 400 (500
    without its key), whatever the geocoder and the matrix service would
    say.  A page whose endpoint is this route therefore never shows a
    driving result: it shows what it shows without an endpoint. *)
Theorem edge_route_never_drives (TECHS : list Tech) (POSTAL_PROV : gmap string string)
        (ORS_ENDPOINT ORS_API_KEY : string)
        (nominatim : string -> EdgeMatrix.NomFetched)
        (orsMatrix : R -> R -> list (R * R) -> EdgeMatrix.OrsFetched)
        (driveFactorParsed speedParsed : num) (postalInput ticketText : string) :
  let fetchORS := viaEdge ORS_API_KEY nominatim orsMatrix in
  let shown := findClosest TECHS POSTAL_PROV ORS_ENDPOINT fetchORS
                 driveFactorParsed speedParsed postalInput ticketText in
  (forall ticket_postal tech_postals,
     exists status error,
       EdgeMatrix.ors_matrix ORS_API_KEY nominatim orsMatrix NaN NaN []
       = mkResponse status (BodyError error) /\
       (status = 400 \/ status = 500)%nat /\
       gatewayFailed (fetchORS ticket_postal tech_postals)) /\
  shown = findClosest TECHS POSTAL_PROV "" fetchORS
            driveFactorParsed speedParsed postalInput ticketText /\
  mode shown <> Some ModeDriving.
Proof.
  intros fetchORS shown.
  assert (Hfail : forall ticket_postal tech_postals,
            exists status error,
              EdgeMatrix.ors_matrix ORS_API_KEY nominatim orsMatrix NaN NaN []
              = mkResponse status (BodyError error) /\
              (status = 400 \/ status = 500)%nat /\
              gatewayFailed (fetchORS ticket_postal tech_postals)).
  { intros ticket_postal tech_postals. subst fetchORS.
    unfold viaEdge, EdgeMatrix.ors_matrix.
    destruct (Str.truthy ORS_API_KEY); cbn [negb]; eexists _, _;
      (split; [reflexivity|]); (split; [auto|]); exact I. }
  assert (Hsame : shown = findClosest TECHS POSTAL_PROV "" fetchORS
                            driveFactorParsed speedParsed postalInput ticketText).
  { subst shown. unfold findClosest.
    destruct (negb _); [reflexivity|].
    destruct (latLonForPostal _ _ _ _ _) as [ticketLL|]; [|reflexivity].
    destruct (scoreRoster _ _ _); [reflexivity|].
    rewrite rank_failed, (rank_no_endpoint ""); [reflexivity|reflexivity|].
    destruct (Hfail (ticketPostal postalInput ticketText)
                (tech_postals (take 25 (baseline TECHS POSTAL_PROV ticketLL))))
      as (_ & _ & _ & _ & H).
    exact H. }
  split; [exact Hfail|]. split; [exact Hsame|].
  rewrite Hsame. unfold findClosest.
  destruct (negb _); [discriminate|].
  destruct (latLonForPostal _ _ _ _ _) as [ticketLL|]; [|discriminate].
  destruct (scoreRoster _ _ _); [discriminate|].
  rewrite rank_no_endpoint by reflexivity.
  unfold estimate. destruct (head _); discriminate.
Qed.

(** *** The Netlify function's cache *)

Module CacheFacts.

Lemma allChars_sliceTo p n s : allChars p s = true -> allChars p (Str.sliceTo n s) = true.
Proof.
  revert s. induction n as [|n IH]; intros [|c s]; cbn [Str.sliceTo allChars];
    try reflexivity.
  intros H. apply andb_true_iff in H as [-> H]. cbn [andb]. auto.
Qed.

Lemma sliceTo_idem n s : Str.sliceTo n (Str.sliceTo n s) = Str.sliceTo n s.
Proof.
  revert s. induction n as [|n IH]; intros [|c s]; cbn [Str.sliceTo]; try reflexivity.
  now rewrite IH.
Qed.

Lemma toUpperCase_AZ09 s : allChars isAZ09 s = true -> Str.toUpperCase s = s.
Proof.
  induction s as [|c s IH]; [reflexivity|]. cbn [allChars Str.toUpperCase].
  intros H. apply andb_true_iff in H as [Hc H]. rewrite (IH H). f_equal.
  revert Hc. clear. StrFacts.by_cases_on c.
Qed.

Lemma normPostal_chars x : allChars isAZ09 (Netlify.normPostal x) = true.
Proof. apply allChars_sliceTo, KeyFacts.allChars_keep. Qed.

Lemma normPostal_idem x : Netlify.normPostal (Netlify.normPostal x) = Netlify.normPostal x.
Proof.
  pose proof (normPostal_chars x) as H. unfold Netlify.normPostal at 1.
  rewrite toUpperCase_AZ09, KeyFacts.keep_all by exact H.
  apply sliceTo_idem.
Qed.

Lemma techOf_normalized tech_postals key :
  key ∈ Netlify.techOf tech_postals -> Netlify.normPostal key = key.
Proof.
  unfold Netlify.techOf. intros H. apply (subseteq_take 40) in H.
  apply list_elem_of_filter in H as [_ H].
  apply list_elem_of_fmap in H as (x & -> & _). apply normPostal_idem.
Qed.

(** A cache hit does not ask the geocoder. *)
Lemma geocodePostalCA_hit orsGeocode GEO_CACHE postal hit :
  GEO_CACHE !! Netlify.normPostal postal = Some hit ->
  Netlify.normPostal postal <> "" ->
  Netlify.geocodePostalCA orsGeocode GEO_CACHE postal = (Netlify.Returned (Some hit), ∅).
Proof.
  intros H Hne. unfold Netlify.geocodePostalCA.
  rewrite (truthy_nonempty _ Hne), H. reflexivity.
Qed.

Lemma geocodePostalCA_cached orsGeocode orsGeocode' GEO_CACHE postal :
  is_Some (GEO_CACHE !! Netlify.normPostal postal) ->
  Netlify.geocodePostalCA orsGeocode GEO_CACHE postal
  = Netlify.geocodePostalCA orsGeocode' GEO_CACHE postal.
Proof.
  intros [hit H]. unfold Netlify.geocodePostalCA. rewrite H.
  destruct (negb _); reflexivity.
Qed.

Lemma geocodeAll_cached orsGeocode orsGeocode' GEO_CACHE tech :
  Forall (fun key => is_Some (GEO_CACHE !! Netlify.normPostal key)) tech ->
  Netlify.geocodeAll orsGeocode GEO_CACHE tech = Netlify.geocodeAll orsGeocode' GEO_CACHE tech.
Proof.
  induction 1 as [|key tech Hkey _ IH]; [reflexivity|].
  cbn [Netlify.geocodeAll].
  rewrite (geocodePostalCA_cached orsGeocode orsGeocode' _ _ Hkey), IH. reflexivity.
Qed.

End CacheFacts.

(** X19. The warm cache of the Netlify function.  A postal code is cached
    only when the geocoder found it, under its normalized form, and a
    cached postal code is answered from the cache without asking the
    geocoder.  So when the ticket's and every technician's normalized
    postal code is in the cache, the answer of the function does not
    depend on the geocoder at all. *)
Theorem netlify_cache (ORS_KEY : string)
        (orsGeocode orsGeocode' : string -> Netlify.GeoFetched)
        (orsMatrix : Netlify.LonLat -> list Netlify.LonLat -> Netlify.MatrixFetched)
        (GEO_CACHE : gmap string Netlify.LonLat)
        (httpMethod ticket_postal : string) (tech_postals : list string) :
  (forall postal k ll,
     (Netlify.geocodePostalCA orsGeocode GEO_CACHE postal).2 !! k = Some ll ->
     k = Netlify.normPostal postal /\ GEO_CACHE !! k = None /\
     (Netlify.geocodePostalCA orsGeocode GEO_CACHE postal).1 = Netlify.Returned (Some ll) /\
     exists status, orsGeocode k = Netlify.GeoResponse true status (Some ll)) /\
  (forall postal hit,
     GEO_CACHE !! Netlify.normPostal postal = Some hit ->
     Netlify.normPostal postal <> "" ->
     Netlify.geocodePostalCA orsGeocode GEO_CACHE postal = (Netlify.Returned (Some hit), ∅)) /\
  (is_Some (GEO_CACHE !! Netlify.normPostal ticket_postal) ->
   (forall key, key ∈ Netlify.techOf tech_postals -> is_Some (GEO_CACHE !! key)) ->
   Netlify.handler ORS_KEY orsGeocode orsMatrix GEO_CACHE httpMethod
     (Netlify.Payload ticket_postal tech_postals)
   = Netlify.handler ORS_KEY orsGeocode' orsMatrix GEO_CACHE httpMethod
       (Netlify.Payload ticket_postal tech_postals)).
Proof.
  split; [|split].
  - intros postal k ll. unfold Netlify.geocodePostalCA.
    destruct (negb _); cbn [snd]; [rewrite lookup_empty; discriminate|].
    destruct (GEO_CACHE !! Netlify.normPostal postal) eqn:Hc; cbn [snd];
      [rewrite lookup_empty; discriminate|].
    destruct (orsGeocode (Netlify.normPostal postal)) as [|[] st [l|]] eqn:Hg; cbn [snd fst];
      try (rewrite lookup_empty; discriminate).
    intros H. apply lookup_singleton_Some in H as [<- <-]. eauto.
  - apply CacheFacts.geocodePostalCA_hit.
  - intros Hticket Htech. unfold Netlify.handler.
    destruct (String.eqb httpMethod "OPTIONS"); [reflexivity|].
    destruct (negb (String.eqb httpMethod "POST")); [reflexivity|].
    destruct (negb (Str.truthy ORS_KEY)); [reflexivity|].
    destruct (negb _ || _); [reflexivity|].
    assert (Hn : is_Some (GEO_CACHE !! Netlify.normPostal (Netlify.normPostal ticket_postal)))
      by (rewrite CacheFacts.normPostal_idem; exact Hticket).
    rewrite (CacheFacts.geocodePostalCA_cached orsGeocode orsGeocode' _ _ Hn).
    destruct (Netlify.geocodePostalCA orsGeocode' GEO_CACHE _) as [[e|[src|]] added];
      try reflexivity.
    rewrite (CacheFacts.geocodeAll_cached orsGeocode orsGeocode'); [reflexivity|].
    apply Forall_forall. intros key Hkey.
    rewrite (CacheFacts.techOf_normalized _ _ Hkey).
    destruct (Htech key Hkey) as [hit Hhit].
    destruct (added !! key) as [l|] eqn:Ha.
    + exists l. apply lookup_union_Some_raw. auto.
    + exists hit. apply lookup_union_Some_raw. auto.
Qed.

Lemma netlify_cache_witness :
  Netlify.handler "key" Scenario.geocodeFlaky Scenario.matrixOk
    {[ "K1A0B1" := Scenario.toronto; "K2P1L4" := Scenario.toronto ]}
    "POST" (Netlify.Payload "k1a 0b1" ["K2P 1L4"])
  = Netlify.handler "key" Scenario.geocodeOk Scenario.matrixOk
      {[ "K1A0B1" := Scenario.toronto; "K2P1L4" := Scenario.toronto ]}
      "POST" (Netlify.Payload "k1a 0b1" ["K2P 1L4"]).
Proof.
  apply (netlify_cache "key" Scenario.geocodeFlaky Scenario.geocodeOk).
  - exists Scenario.toronto. vm_compute. reflexivity.
  - intros key Hkey. apply list_elem_of_singleton in Hkey as ->.
    exists Scenario.toronto. vm_compute. reflexivity.
Defined.

(** X20. How the Netlify function reports failure, and what the page makes
    of it.  A POST without the key is answered with status 500, whatever
    its body.  With the key, a body that is no JSON is answered with 400,
    and so is a payload whose ticket postal code normalizes to nothing or
    whose list has no postal code that normalizes to something; a body
    that is the JSON [null] is not answered at all; and a payload that
    passes this validation is always answered with status 200: with the two
    arrays, or with [ok: false] and an error when geocoding or the matrix
    service fails.  The page takes every answer but the arrays for a failed
    gateway, and then shows what it shows without an endpoint. *)
Theorem netlify_failure_estimate (TECHS : list Tech) (POSTAL_PROV : gmap string string)
        (ORS_ENDPOINT ORS_KEY : string)
        (orsGeocode : string -> Netlify.GeoFetched)
        (orsMatrix : Netlify.LonLat -> list Netlify.LonLat -> Netlify.MatrixFetched)
        (GEO_CACHE : gmap string Netlify.LonLat) (parsed : Netlify.Parsed)
        (driveFactorParsed speedParsed : num) (postalInput ticketText : string) :
  let fetchORS := viaNetlify ORS_KEY orsGeocode orsMatrix GEO_CACHE in
  let handle := Netlify.handler ORS_KEY orsGeocode orsMatrix GEO_CACHE "POST" in
  let valid p tps := Netlify.normPostal p <> "" /\ Netlify.techOf tps <> [] in
  (ORS_KEY = "" ->
   handle parsed
   = Some (mkResponse 500 (BodyError "Missing ORS_API_KEY environment variable"))) /\
  (ORS_KEY <> "" ->
   handle Netlify.BadJson = Some (mkResponse 400 (BodyError "Invalid JSON body")) /\
   handle Netlify.NullJson = None /\
   (forall p tps, ~ valid p tps ->
      handle (Netlify.Payload p tps)
      = Some (mkResponse 400 (BodyError "ticket_postal and tech_postals are required"))) /\
   (forall p tps, valid p tps ->
      exists b, handle (Netlify.Payload p tps) = Some (mkResponse 200 b) /\
        match b with
        | BodyMatrix d t =>
            postJson (fetchORS p tps) = Some (Some (jsonOf (BodyMatrix d t)))
        | BodyError e => gatewayFailed (fetchORS p tps)
        | BodyOk => False
        end)) /\
  (forall p tps,
     (forall status d t,
        handle (Netlify.Payload p tps) <> Some (mkResponse status (BodyMatrix d t))) ->
     gatewayFailed (fetchORS p tps)) /\
  (forall ticketLL,
     latLonForPostal TECHS POSTAL_PROV (ticketPostal postalInput ticketText) "" ""
     = Some ticketLL ->
     (forall status d t,
        handle (Netlify.Payload (ticketPostal postalInput ticketText)
                  (tech_postals (take 25 (baseline TECHS POSTAL_PROV ticketLL))))
        <> Some (mkResponse status (BodyMatrix d t))) ->
     findClosest TECHS POSTAL_PROV ORS_ENDPOINT fetchORS
       driveFactorParsed speedParsed postalInput ticketText
     = findClosest TECHS POSTAL_PROV "" fetchORS
         driveFactorParsed speedParsed postalInput ticketText).
Proof.
  intros fetchORS handle valid.
  assert (Hvalid : forall p tps,
            Str.truthy ORS_KEY = true ->
            handle (Netlify.Payload p tps)
            = Some (mkResponse 400 (BodyError "ticket_postal and tech_postals are required"))
              /\ ~ valid p tps
            \/ valid p tps /\
               exists b, handle (Netlify.Payload p tps) = Some (mkResponse 200 b) /\
                 match b with
                 | BodyMatrix d t =>
                     postJson (fetchORS p tps) = Some (Some (jsonOf (BodyMatrix d t)))
                 | BodyError e => gatewayFailed (fetchORS p tps)
                 | BodyOk => False
                 end).
  { intros p tps Hkey. subst fetchORS handle valid. cbn beta.
    unfold viaNetlify, fetchedOf, Netlify.handler.
    cbn [String.eqb Ascii.eqb Bool.eqb negb]. rewrite Hkey. cbn [negb]. cbv zeta.
    destruct (Str.truthy (Netlify.normPostal p)) eqn:Hp; cbn [negb orb].
    2:{ left. split; [reflexivity|]. intros [H _]. apply nonempty_truthy in H. congruence. }
    apply nonempty_truthy in Hp.
    destruct (Netlify.techOf tps) as [|k ks] eqn:Htech; cbn [length Nat.eqb].
    { left. split; [reflexivity|]. intros [_ H]. congruence. }
    right. split; [split; [exact Hp|discriminate]|].
    destruct (Netlify.geocodePostalCA _ _ _) as [[e|[src|]] added];
      try (eexists; split; [reflexivity|first [exact I|reflexivity]]).
    destruct (Netlify.geocodeAll _ _ _) as [e|destsRaw];
      try (eexists; split; [reflexivity|first [exact I|reflexivity]]).
    destruct (Netlify.validDests destsRaw);
      try (eexists; split; [reflexivity|first [exact I|reflexivity]]).
    destruct (Netlify.matrixKmMin _ _ _) as [e|[distances durations]];
      eexists; (split; [reflexivity|]); first [exact I|reflexivity]. }
  assert (Hpage : forall p tps,
            (forall status d t,
               handle (Netlify.Payload p tps) <> Some (mkResponse status (BodyMatrix d t))) ->
            gatewayFailed (fetchORS p tps)).
  { intros p tps Hno.
    destruct (Str.truthy ORS_KEY) eqn:Hkey.
    - destruct (Hvalid p tps eq_refl) as [[E _]|[_ (b & E & Hb)]].
      + subst fetchORS handle. cbn beta in *. unfold viaNetlify. rewrite E. exact I.
      + destruct b as [|e|d t]; [contradiction|exact Hb|].
        exfalso. exact (Hno _ _ _ E).
    - subst fetchORS handle. cbn beta. unfold viaNetlify, Netlify.handler.
      cbn [String.eqb Ascii.eqb Bool.eqb negb]. rewrite Hkey. exact I. }
  split.
  { intros ->. subst handle. cbn beta. unfold Netlify.handler. reflexivity. }
  split.
  { intros Hkey. apply nonempty_truthy in Hkey.
    split; [subst handle; cbn beta; unfold Netlify.handler;
            cbn [String.eqb Ascii.eqb Bool.eqb negb]; rewrite Hkey; reflexivity|].
    split; [subst handle; cbn beta; unfold Netlify.handler;
            cbn [String.eqb Ascii.eqb Bool.eqb negb]; rewrite Hkey; reflexivity|].
    split.
    - intros p tps Hv. destruct (Hvalid p tps Hkey) as [[E _]|[Hv' _]];
        [exact E|contradiction].
    - intros p tps Hv. destruct (Hvalid p tps Hkey) as [[_ Hv']|[_ H]];
        [contradiction|exact H]. }
  split; [exact Hpage|].
  intros ticketLL Hll Hno. unfold findClosest.
  destruct (negb _); [reflexivity|]. rewrite Hll.
  destruct (scoreRoster _ _ _); [reflexivity|].
  rewrite rank_failed, (rank_no_endpoint ""); [reflexivity|reflexivity|].
  apply Hpage, Hno.
Qed.

(** A function without its key, and a valid request to a function whose
    geocoder answers HTTP 429 for the destination. *)
Lemma netlify_failure_estimate_witness :
  findClosest [Scenario.ann] ∅ Scenario.endpoint
    (viaNetlify "" Scenario.geocodeOk Scenario.matrixOk ∅) NaN NaN "R2C 0A1" ""
  = findClosest [Scenario.ann] ∅ ""
      (viaNetlify "" Scenario.geocodeOk Scenario.matrixOk ∅) NaN NaN "R2C 0A1" ""
  /\
  exists b,
    Netlify.handler "key" Scenario.geocodeFlaky Scenario.matrixOk ∅ "POST"
      (Netlify.Payload "K1A 0B1" ["K2P 1L4"])
    = Some (mkResponse 200 b).
Proof.
  split.
  - destruct (netlify_failure_estimate [Scenario.ann] ∅ Scenario.endpoint ""
                Scenario.geocodeOk Scenario.matrixOk ∅ Netlify.BadJson
                NaN NaN "R2C 0A1" "") as (_ & _ & _ & H).
    apply (H Scenario.manitoba).
    + rewrite ScenarioFacts.ticket_postal. apply ScenarioFacts.ticket_located. auto.
    + intros status d t. discriminate.
  - destruct (netlify_failure_estimate [] ∅ "" "key"
                Scenario.geocodeFlaky Scenario.matrixOk ∅ Netlify.BadJson
                NaN NaN "" "") as (_ & H & _).
    destruct H as (_ & _ & _ & H); [discriminate|].
    destruct (H "K1A 0B1" ["K2P 1L4"]) as (b & E & _).
    + split; vm_compute; discriminate.
    + exists b. exact E.
Defined.

(** *** The edge route without destinations *)

Module NoDestinationFacts.

Import EdgeMatrix.

Lemma geocodeLoop_empty nominatim (techList : list TechItem) : forall a,
  cache_sound nominatim (cache a) ->
  Forall (fun item => located nominatim item = None) techList ->
  destinations (foldl (geocodeStep nominatim) a techList) = destinations a.
Proof.
  induction techList as [|t l IH]; intros a Hc Hall; [reflexivity|].
  apply Forall_cons in Hall as [Ht Hall]. cbn [foldl].
  pose proof (EdgeMatrixFacts.geocodePostal_located nominatim (cache a) t Hc) as H.
  assert (Hstep : destinations (geocodeStep nominatim a t) = destinations a /\
                  cache_sound nominatim (cache (geocodeStep nominatim a t))).
  { unfold geocodeStep.
    destruct (geocodePostal nominatim (cache a) (postalOf t)) as [res c'].
    rewrite Ht in H. destruct H as [Hc' [-> | ->]]; auto. }
  destruct Hstep as [E Hc']. rewrite (IH _ Hc' Hall). exact E.
Qed.

End NoDestinationFacts.

(** X21. When none of the technicians sent to the edge route geocodes, the
    route does not call the matrix service: it answers 200 with [null] for
    every technician, in both arrays, also when the matrix service is
    down. *)
Theorem edge_no_destinations (ORS_API_KEY : string)
        (nominatim : string -> EdgeMatrix.NomFetched)
        (orsMatrix : R -> R -> list (R * R) -> EdgeMatrix.OrsFetched)
        (la ln : R) (techList : list EdgeMatrix.TechItem) :
  ORS_API_KEY <> "" ->
  Forall (fun item => EdgeMatrix.located nominatim item = None) techList ->
  EdgeMatrix.ors_matrix ORS_API_KEY nominatim orsMatrix (Fin la) (Fin ln) techList
  = mkResponse 200 (BodyMatrix (map (fun _ => None) techList) (map (fun _ => None) techList)).
Proof.
  intros Hkey Hall. unfold EdgeMatrix.ors_matrix.
  rewrite (truthy_nonempty _ Hkey). cbn [negb].
  destruct techList as [|t l] eqn:E; [reflexivity|]. rewrite <- E in *.
  rewrite NoDestinationFacts.geocodeLoop_empty; [reflexivity| |exact Hall].
  intros k v H. cbn in H. rewrite lookup_empty in H. discriminate.
Qed.

Lemma edge_no_destinations_witness :
  EdgeMatrix.ors_matrix "key" Scenario.nominatimPartial
    (fun _ _ _ => EdgeMatrix.OrsThrows) (Fin 45.4215) (Fin (-75.6972))
    [EdgeMatrix.mkTechItem None (Some "no such code")]
  = mkResponse 200 (BodyMatrix [None] [None]).
Proof.
  apply (edge_no_destinations "key" Scenario.nominatimPartial
           (fun _ _ _ => EdgeMatrix.OrsThrows) 45.4215 (-75.6972)
           [EdgeMatrix.mkTechItem None (Some "no such code")]).
  - discriminate.
  - constructor; [reflexivity|constructor].
Defined.

(** *** The Canada routes and the page *)

Module CanadaFacts.

Lemma keep_toUpperCase p s :
  (forall c, p (Str.upperChar c) = p c) ->
  Str.keep p (Str.toUpperCase s) = Str.toUpperCase (Str.keep p s).
Proof.
  intros Hp. induction s as [|c s IH]; [reflexivity|].
  cbn [Str.toUpperCase Str.keep]. rewrite Hp.
  destruct (p c); cbn [Str.toUpperCase]; now rewrite IH.
Qed.

Lemma keep_keep p q s :
  (forall c, p c = true -> q c = true) ->
  Str.keep p (Str.keep q s) = Str.keep p s.
Proof.
  intros Hpq. induction s as [|c s IH]; [reflexivity|]. cbn [Str.keep].
  destruct (q c) eqn:Hq; cbn [Str.keep].
  - destruct (p c); now rewrite IH.
  - destruct (p c) eqn:Hpc; [|exact IH]. rewrite (Hpq c Hpc) in Hq. discriminate.
Qed.

Lemma AZ09_not_space c : isAZ09 c = true -> negb (Str.isSpace c) = true.
Proof. StrFacts.by_cases_on c. Qed.

Lemma space_not_AZ09 c : Str.isSpace c = true -> isAZ09 c = false.
Proof. StrFacts.by_cases_on c. Qed.

(** The core of [normalizePostal]: the letters and digits of the upper-case
    string. *)
Lemma normalizePostal_core s s' :
  Str.keep isAZ09 (Str.toUpperCase s) = Str.keep isAZ09 (Str.toUpperCase s') ->
  normalizePostal s = normalizePostal s'.
Proof.
  intros H. unfold normalizePostal.
  rewrite !(TrimFacts.keep_trim isAZ09) by apply space_not_AZ09.
  rewrite H. reflexivity.
Qed.

Lemma normalizePostal_cleaned raw :
  normalizePostal (Str.toUpperCase (stripSpaces raw)) = normalizePostal raw.
Proof.
  apply normalizePostal_core. unfold stripSpaces.
  rewrite StrFacts.toUpperCase_idem.
  rewrite <- keep_toUpperCase by (intros c; now rewrite StrFacts.isSpace_upperChar).
  apply keep_keep, AZ09_not_space.
Qed.

Lemma truthy_toUpperCase s : Str.truthy (Str.toUpperCase s) = Str.truthy s.
Proof. destruct s; reflexivity. Qed.

Lemma latLonForPostal_cleaned TECHS POSTAL_PROV raw cty rawProv :
  latLonForPostal TECHS POSTAL_PROV (Str.toUpperCase (stripSpaces raw)) cty
    (Str.toUpperCase rawProv)
  = latLonForPostal TECHS POSTAL_PROV raw cty rawProv.
Proof.
  unfold latLonForPostal, provOf.
  rewrite normalizePostal_cleaned, truthy_toUpperCase, StrFacts.toUpperCase_idem.
  reflexivity.
Qed.

Lemma overrideStep_cleaned m t t' :
  normalizePostal (postal t') = normalizePostal (postal t) ->
  city t' = city t -> province t' = Str.toUpperCase (province t) ->
  overrideStep m t' = overrideStep m t.
Proof.
  intros Hp Hc Hprov. unfold overrideStep.
  rewrite Hp, Hc, Hprov, StrFacts.toUpperCase_idem. reflexivity.
Qed.

End CanadaFacts.

(** X22. The clean-up that [/canada/w2techdb] does on a technician's postal
    code and province (white space removed, upper case) is invisible to
    the page: the page normalizes the served postal code to what it would
    normalize the table's value to, builds the same override table, and
    resolves the technician to the same location as with the table's own
    values. *)
Theorem w2techdb_page (showNum : num -> string)
        (POSTAL_PROV : gmap string string) (x : Obj) :
  let served := w2tech showNum x in
  let raw := mkTech (tech_id served) (name served) (city served)
                    (column showNum ["province"; "prov"; "state"; "State"] x)
                    (column showNum ["postal"; "postal_code"; "Zip"; "zip"] x) in
  normalizePostal (postal served) = normalizePostal (postal raw) /\
  (forall TECHS,
     latLonForPostal TECHS POSTAL_PROV (postal served) (city served) (province served)
     = latLonForPostal TECHS POSTAL_PROV (postal raw) (city raw) (province raw)) /\
  (forall before after,
     POSTAL_OVERRIDE (before ++ served :: after) = POSTAL_OVERRIDE (before ++ raw :: after)).
Proof.
  intros served raw. split; [|split].
  - apply CanadaFacts.normalizePostal_cleaned.
  - intros TECHS. apply CanadaFacts.latLonForPostal_cleaned.
  - intros before after. unfold POSTAL_OVERRIDE. rewrite !foldl_app. cbn [foldl].
    f_equal. apply CanadaFacts.overrideStep_cleaned; [|reflexivity|reflexivity].
    apply CanadaFacts.normalizePostal_cleaned.
Qed.

Module MappingFacts.

Section Mapping.

Variable showNum : num -> string.

Lemma postalprovStep_lookup m x k :
  postalprovStep showNum m x !! k =
  if decide (mappingPostal showNum x = k /\ k <> "" /\ mappingProv showNum x <> "")
  then Some (mappingProv showNum x) else m !! k.
Proof.
  unfold postalprovStep.
  destruct (mappingPostal showNum x) as [|a q] eqn:Ep; cbn [Str.truthy andb].
  - destruct (decide _) as [(<- & H & _)|_]; [congruence|reflexivity].
  - destruct (mappingProv showNum x) as [|b v] eqn:Ev; cbn [Str.truthy].
    + destruct (decide _) as [(_ & _ & H)|_]; [congruence|reflexivity].
    + destruct (decide _) as [(<- & _)|Hne].
      * apply lookup_insert_eq.
      * apply lookup_insert_ne. intros <-. apply Hne. repeat split; discriminate.
Qed.

Lemma postalprov_from (data : list Obj) k v : forall m,
  foldl (postalprovStep showNum) m data !! k = Some v ->
  m !! k = Some v \/
  (k <> "" /\ v <> "" /\
   exists x, x ∈ data /\ k = mappingPostal showNum x /\ v = mappingProv showNum x).
Proof.
  induction data as [|x data IH]; intros m H; [left; exact H|].
  cbn [foldl] in H. apply IH in H as [H|(Hk & Hv & y & Hin & Hy)].
  - rewrite postalprovStep_lookup in H.
    destruct (decide _) as [(Hp & Hk & Hv)|_]; [|left; exact H].
    injection H as <-. right. repeat split; auto. exists x. split; [left|]. auto.
  - right. repeat split; auto. exists y. split; [right; exact Hin|exact Hy].
Qed.

Lemma postalprov_skips (data : list Obj) k : forall m,
  Forall (fun y => mappingPostal showNum y = k -> mappingProv showNum y = "") data ->
  foldl (postalprovStep showNum) m data !! k = m !! k.
Proof.
  induction data as [|x data IH]; intros m H; [reflexivity|].
  apply Forall_cons in H as [Hx H]. cbn [foldl].
  rewrite (IH _ H), postalprovStep_lookup.
  destruct (decide _) as [(Hp & _ & Hv)|_]; [|reflexivity].
  specialize (Hx Hp). congruence.
Qed.

End Mapping.

End MappingFacts.

(** X23. The table that [/canada/postalprov] serves and the page's use of
    it.  An entry comes from a row with a postal code and a province, both
    not empty; its key is the row's postal code without white space and
    in upper case, its value the province in upper case, and the last such
    row for a key decides.  The page finds an entry under any spelling of
    a postal code whose normal form is the key, and takes the entry's
    value as the province.  It only ever asks for normal forms, so an
    entry under any other key (one with a hyphen, say) is never read. *)
Theorem postalprov_page (showNum : num -> string) (data : list Obj) :
  let mapping := postalprov showNum data in
  (forall k v,
     mapping !! k = Some v ->
     k <> "" /\ v <> "" /\
     exists x, x ∈ data /\ k = mappingPostal showNum x /\ v = mappingProv showNum x) /\
  (forall before x after,
     data = (before ++ x :: after)%list ->
     mappingPostal showNum x <> "" -> mappingProv showNum x <> "" ->
     Forall (fun y => mappingPostal showNum y = mappingPostal showNum x ->
                      mappingProv showNum y = "") after ->
     mapping !! mappingPostal showNum x = Some (mappingProv showNum x)) /\
  (forall p6 v,
     mapping !! normalizePostal p6 = Some v -> provForPostal mapping p6 = v) /\
  (forall other : gmap string string,
     (forall k, testA1A1A1 k = true -> other !! k = mapping !! k) ->
     forall p6, provForPostal other p6 = provForPostal mapping p6).
Proof.
  intros mapping. split; [|split; [|split]].
  - intros k v H. apply MappingFacts.postalprov_from in H as [H|H]; [|exact H].
    rewrite lookup_empty in H. discriminate.
  - intros before x after -> Hp Hv Hafter. unfold mapping, postalprov.
    rewrite foldl_app. cbn [foldl].
    rewrite (MappingFacts.postalprov_skips _ _ _ _ Hafter), MappingFacts.postalprovStep_lookup.
    destruct (decide _) as [_|Hn]; [reflexivity|]. exfalso. apply Hn. auto.
  - intros p6 v H. unfold provForPostal.
    destruct (normalizePostal p6) as [|a q] eqn:E; cbn [Str.truthy negb].
    + apply MappingFacts.postalprov_from in H as [H|(Hk & _)]; [|congruence].
      rewrite lookup_empty in H. discriminate.
    + rewrite H.
      apply MappingFacts.postalprov_from in H as [H|(_ & Hv & x & _ & _ & ->)].
      * rewrite lookup_empty in H. discriminate.
      * rewrite (truthy_nonempty _ Hv). apply StrFacts.toUpperCase_idem.
  - intros other Hsame p6. unfold provForPostal.
    destruct (normalizePostal_result p6) as [E|T]; [rewrite E; reflexivity|].
    rewrite (Hsame _ T). reflexivity.
Qed.

Lemma postalprov_page_witness :
  provForPostal
    (postalprov (fun _ => "") [[("Postal Code", DbStr "k1a 0b1"); ("Prov", DbStr "on")]])
    "K1A-0B1"
  = "ON".
Proof.
  destruct (postalprov_page (fun _ => "")
              [[("Postal Code", DbStr "k1a 0b1"); ("Prov", DbStr "on")]]) as (_ & H & G & _).
  apply G.
  apply (H [] [("Postal Code", DbStr "k1a 0b1"); ("Prov", DbStr "on")] []);
    [reflexivity|discriminate|discriminate|constructor].
Defined.

(** *** The export's list of tables *)

(** X24. The export only reads configured tables.  The technician table
    always has a name (the default when the variable is unset or empty),
    so the list of allowed tables is never empty and the check is always
    made: a table is read only when it is one of the six configured names
    and is not the empty name; every other request is refused, the one
    without a table name included. *)
Theorem export_allow_list (decodeURIComponent : string -> option string) (e : Env)
        (p : string) :
  size (ALLOWED_TABLES e) <> 0%nat /\
  (forall table,
     exportTable decodeURIComponent e p = ExportReads table <->
     decodeURIComponent (exportSegment p) = Some table /\
     table ∈ tableNames e /\ table <> "") /\
  (forall table,
     exportTable decodeURIComponent e p = ExportRefused table <->
     decodeURIComponent (exportSegment p) = Some table /\
     (table ∉ tableNames e \/ table = "")).
Proof.
  assert (Hin : forall table,
            table ∈ ALLOWED_TABLES e <-> table ∈ tableNames e /\ table <> "").
  { intros table. unfold ALLOWED_TABLES.
    rewrite elem_of_list_to_set, list_elem_of_In, filter_In, <- list_elem_of_In.
    rewrite nonempty_truthy. reflexivity. }
  assert (Hsize : size (ALLOWED_TABLES e) <> 0%nat).
  { intros H. apply size_empty_inv in H.
    assert (Ht : envOr (env_TECH_TABLE e) "ars_technician" ∈ ALLOWED_TABLES e).
    { apply Hin. split; [left|].
      unfold envOr. destruct (env_TECH_TABLE e) as [[|a s]|]; discriminate. }
    rewrite H in Ht. apply not_elem_of_empty in Ht. exact Ht. }
  split; [exact Hsize|].
  apply Nat.eqb_neq in Hsize.
  split; intros table; unfold exportTable; rewrite Hsize; cbn [negb andb];
    destruct (decodeURIComponent (exportSegment p)) as [t|];
    try (split; [discriminate|intros [H _]; discriminate]).
  - case_bool_decide as Ht; cbn [negb].
    + split.
      * intros [= ->]. split; [reflexivity|]. apply Hin, Ht.
      * intros ([= ->] & _). reflexivity.
    + split; [discriminate|]. intros ([= ->] & H). exfalso. apply Ht, Hin, H.
  - case_bool_decide as Ht; cbn [negb].
    + split; [discriminate|]. intros ([= ->] & H). exfalso.
      apply Hin in Ht as [H1 H2]. destruct H; contradiction.
    + split.
      * intros [= ->]. split; [reflexivity|].
        destruct (decide (table = "")) as [->|Hne]; [right; reflexivity|].
        left. intros H. apply Ht, Hin. auto.
      * intros ([= ->] & _). reflexivity.
Qed.

Lemma export_allow_list_witness :
  exportTable Some (mkEnv None None None None None None) "/export/" = ExportRefused "" /\
  exportTable Some (mkEnv None None None None None None) "/export/canada_w2/x"
  = ExportReads "canada_w2".
Proof.
  destruct (export_allow_list Some (mkEnv None None None None None None) "/export/")
    as (_ & _ & H1).
  destruct (export_allow_list Some (mkEnv None None None None None None) "/export/canada_w2/x")
    as (_ & H2 & _).
  split; [apply H1|apply H2].
  - split; [reflexivity|right; reflexivity].
  - split; [reflexivity|]. split; [|discriminate].
    apply list_elem_of_In. cbn. auto.
Defined.
